(** * The semantic-search agent of Assignment_7

    A shallow embedding of the result scorer
    [SearchAction.process_search_results] (action.py) and of the Python
    built-ins it calls, of what stands around it in the agent: the
    relevance filter and the sensitivity check of [SearchDecision]
    (decision.py), the vector memory [FaissMemory] (memory.py), the two
    methods of [Agent] (agent.py) and the text cleaning of
    [WebPagePerception.process_content] (perception.py); followed by their
    properties.

    - Python [str] values are [string]s whose characters are read as the code
      points U+0000..U+00FF; [lower], [split], [replace], [splitlines] and
      [strip] are embedded for that range.
    - Python [float] arithmetic is kept behind the class [PyFloat].  Two
      instances are given: IEEE-754 binary64 (Rocq's primitive floats, what
      CPython executes) and exact rational arithmetic ([Q], the reading
      under which the spec's formulas are stated).  Properties that do not
      depend on arithmetic are proved for every instance; the bounds, the
      order and the monotonicity of the scores are proved for binary64,
      from the specification of its operations in [SpecFloat], and for the
      exact instance; the concrete runs are evaluated in both.
    - Exceptions are values of [exn]; a computation that may raise returns a
      [result].
    - The objects the caller can observe (the [results] list, its records,
      the [SearchAction] instance, the returned list and its records) live
      in a store [heap]; [process_search_results_h] is the method acting on
      that store.
    - What the agent calls outside its own code is a parameter of what
      calls it: the search of the faiss index, [validators.url],
      [urlparse], the text BeautifulSoup extracts, and the embedding that
      the hosted model returns. *)

From Stdlib Require Import ZArith QArith Qpower Floats Ascii String List Bool Lia Lqa.
From stdpp Require Import gmap strings list sorting.

#[local] Set Warnings "-inexact-float".
#[local] Open Scope string_scope.

(* ===================================================================== *)
(** ** Exceptions and fallible computations                               *)
(* ===================================================================== *)

Inductive exn : Type :=
| KeyError (key : string)
| ZeroDivisionError
| TypeError.

Inductive result (A : Type) : Type :=
| Ok (a : A)
| Raise (e : exn).
Arguments Ok {A} a.
Arguments Raise {A} e.

#[export] Instance result_bind : MBind result := fun A B k m =>
  match m with
  | Ok a => k a
  | Raise e => Raise e
  end.

#[export] Instance result_ret : MRet result := fun A a => Ok a.

Definition raises {A} (m : result A) : Prop := ∃ e, m = Raise e.

(* ===================================================================== *)
(** ** Python string built-ins                                            *)
(* ===================================================================== *)

Module Py.

(** [str.isspace] on one character: the code points Python's [split()]
    treats as separators below U+0100. *)
Definition isspace (c : ascii) : bool :=
  let n := N_of_ascii c in
  (((9 <=? n) && (n <=? 13)) || ((28 <=? n) && (n <=? 32))
   || (n =? 133) || (n =? 160))%N.

(** [str.lower] on one character: A-Z and the Latin-1 capitals
    U+00C0..U+00DE (without U+00D7) move up by 32. *)
Definition lower_char (c : ascii) : ascii :=
  let n := N_of_ascii c in
  if (((65 <=? n) && (n <=? 90))
      || ((192 <=? n) && (n <=? 222) && negb (n =? 215)))%N
  then ascii_of_N (n + 32) else c.

Fixpoint lower (s : string) : string :=
  match s with
  | EmptyString => EmptyString
  | String c s' => String (lower_char c) (lower s')
  end.

(** [s.replace(old, new)] for one-character [old] and [new]. *)
Fixpoint replace (old new : ascii) (s : string) : string :=
  match s with
  | EmptyString => EmptyString
  | String c s' =>
      String (if Ascii.eqb c old then new else c) (replace old new s')
  end.

(** Fields of [s] between the characters satisfying [sep]; empty fields
    are kept, so the result is never the empty list. *)
Fixpoint fields (sep : ascii → bool) (s : string) : list string :=
  match s with
  | EmptyString => [EmptyString]
  | String c s' =>
      if sep c then EmptyString :: fields sep s'
      else match fields sep s' with
           | w :: ws => String c w :: ws
           | [] => [String c EmptyString]
           end
  end.

Definition nonempty (s : string) : bool :=
  match s with EmptyString => false | String _ _ => true end.

(** [s.split(sep)] for a one-character separator: empty fields kept. *)
Definition split_on (sep : ascii) (s : string) : list string :=
  fields (Ascii.eqb sep) s.

(** [s.split()]: runs of whitespace separate, no empty strings. *)
Definition split (s : string) : list string :=
  List.filter nonempty (fields isspace s).

(** [sub in s] for strings. *)
Fixpoint contains (sub s : string) : bool :=
  String.prefix sub s
  || match s with
     | EmptyString => false
     | String _ s' => contains sub s'
     end.

(** [any(p(x) for x in xs)] *)
Definition any {A} (p : A → bool) (xs : list A) : bool := existsb p xs.

(** [sum(1 for x in xs if p(x))] *)
Definition sum_ones_if {A} (p : A → bool) (xs : list A) : nat :=
  list_sum (List.map (fun _ => 1%nat) (List.filter p xs)).

End Py.

(* ===================================================================== *)
(** ** Python floats                                                      *)
(* ===================================================================== *)

(** The operations of Python's [float] that the scorer uses.  [f_div] is
    the quotient once the divisor is known to be non-zero; [truediv] below
    adds Python's check. *)
Class PyFloat (F : Type) : Type := {
  f_zero : F;                       (* 0.0 *)
  f_one : F;                        (* 1.0 *)
  f_half : F;                       (* 0.5 *)
  f_lit_0_4 : F;                    (* 0.4 *)
  f_lit_0_7 : F;                    (* 0.7 *)
  f_lit_0_3 : F;                    (* 0.3 *)
  f_of_nat : nat → F;               (* int operand converted to float *)
  f_add : F → F → F;
  f_mul : F → F → F;
  f_div : F → F → F;
  f_eqb : F → F → bool;             (* == *)
  f_ltb : F → F → bool;             (* <  *)
  f_leb : F → F → bool;             (* <= *)
  f_round3 : F → F                  (* round(x, 3) *)
}.

Section PyArith.
Context {F : Type} `{PyFloat F}.

(** [a / b]: raises [ZeroDivisionError] when [b == 0.0]. *)
Definition truediv (a b : F) : result F :=
  if f_eqb b f_zero then Raise ZeroDivisionError else Ok (f_div a b).

(** [min(a, b)]: the built-in keeps [a] unless [b < a]. *)
Definition py_min (a b : F) : F := if f_ltb b a then b else a.

(** [max(a, b)]: the built-in keeps [a] unless [b > a]. *)
Definition py_max (a b : F) : F := if f_ltb a b then b else a.

(** [a >= b] *)
Definition f_geb (a b : F) : bool := f_leb b a.
End PyArith.

(** *** Exact rational arithmetic *)

(** Nearest integer, ties to the even one. *)
Definition round_half_even (x : Q) : Z :=
  let n := Qnum x in
  let d := Zpos (Qden x) in
  let q := (n / d)%Z in
  let r := (n mod d)%Z in
  match (2 * r ?= d)%Z with
  | Lt => q
  | Gt => (q + 1)%Z
  | Eq => if Z.even q then q else (q + 1)%Z
  end.

Definition Qround3 (x : Q) : Q := Qmake (round_half_even (x * 1000)) 1000.

#[export] Instance Q_PyFloat : PyFloat Q := {|
  f_zero := 0%Q;
  f_one := 1%Q;
  f_half := (1 # 2)%Q;
  f_lit_0_4 := (2 # 5)%Q;
  f_lit_0_7 := (7 # 10)%Q;
  f_lit_0_3 := (3 # 10)%Q;
  f_of_nat := fun n => inject_Z (Z.of_nat n);
  f_add := Qplus;
  f_mul := Qmult;
  f_div := Qdiv;
  f_eqb := Qeq_bool;
  f_ltb := fun a b => negb (Qle_bool b a);
  f_leb := Qle_bool;
  f_round3 := Qround3
|}.

(** *** IEEE-754 binary64 *)

(** [round(x, 3)] in CPython: the exact binary value of [x] is rounded, ties
    to even, to a multiple of 1/1000 and that decimal is converted back to
    the nearest double.  NaN, the infinities and integral values are
    returned unchanged.  For [k < 2^53] the conversion back is the
    correctly rounded quotient [k / 1000.0]; for larger [k] the spacing of
    doubles around [x] exceeds 1/1000 and [x] itself is nearest. *)
Definition float_round3 (x : float) : float :=
  match Prim2SF x with
  | S754_finite s m e =>
      if (0 <=? e)%Z then x
      else
        let k := round_half_even (Qmake (Zpos m * 1000) (Pos.pow 2 (Z.to_pos (- e)))) in
        if (2 ^ 53 <=? k)%Z then x
        else
          let r := PrimFloat.div (PrimFloat.of_uint63 (Uint63.of_Z k)) 1000%float in
          if s then PrimFloat.opp r else r
  | _ => x
  end.

(** [float(n)] for an int [n >= 0], as the arithmetic of line 29 applies it
    to the three lengths: the double nearest to [n], ties to even.  (From
    2^1024 on CPython raises [OverflowError] where this gives infinity; a
    set has no such size.) *)
Definition float_of_nat (n : nat) : float :=
  SF2Prim (binary_normalize prec emax (Z.of_nat n) 0 false).

#[export] Instance float_PyFloat : PyFloat float := {|
  f_zero := 0%float;
  f_one := 1%float;
  f_half := 0.5%float;
  f_lit_0_4 := 0.4%float;
  f_lit_0_7 := 0.7%float;
  f_lit_0_3 := 0.3%float;
  f_of_nat := float_of_nat;
  f_add := PrimFloat.add;
  f_mul := PrimFloat.mul;
  f_div := PrimFloat.div;
  f_eqb := PrimFloat.eqb;
  f_ltb := PrimFloat.ltb;
  f_leb := PrimFloat.leb;
  f_round3 := float_round3
|}.

(* ===================================================================== *)
(** ** Data model                                                         *)
(* ===================================================================== *)

(** A raw result: the dict built by [FaissMemory.search].  A key that is
    absent from the dict is [None]. *)
Record RawResult (F : Type) : Type := {
  url : option string;
  distance : option F;
  query : option string
}.
Arguments url {F} _.
Arguments distance {F} _.
Arguments query {F} _.

(** The nested dict literal under ['highlight_instructions']. *)
Record HighlightInstructions (F : Type) : Type := {
  method : string;
  confidence_threshold : F
}.
Arguments method {F} _.
Arguments confidence_threshold {F} _.

(** A scored result: the dict literal appended to [processed_results]. *)
Record ScoredResult (F : Type) : Type := {
  s_url : string;
  confidence : F;
  semantic_score : F;
  term_score : F;
  highlight_instructions : HighlightInstructions F
}.
Arguments s_url {F} _.
Arguments confidence {F} _.
Arguments semantic_score {F} _.
Arguments term_score {F} _.
Arguments highlight_instructions {F} _.

(** The attributes of a [SearchAction] instance. *)
Record SearchAction (F : Type) : Type := {
  min_confidence_threshold : F;
  semantic_weight : F;
  term_weight : F
}.
Arguments min_confidence_threshold {F} _.
Arguments semantic_weight {F} _.
Arguments term_weight {F} _.

(** [result[key]] on a raw result. *)
Definition getitem {A} (key : string) (field : option A) : result A :=
  match field with
  | Some v => Ok v
  | None => Raise (KeyError key)
  end.

(** The dict literal of [FaissMemory.search], all three keys present. *)
Definition raw_result {F} (u : string) (d : F) (q : string) : RawResult F :=
  {| url := Some u; distance := Some d; query := Some q |}.

(* ===================================================================== *)
(** ** SearchAction                                                       *)
(* ===================================================================== *)

Section Scorer.
Context {F : Type} `{PyFloat F}.

(** [SearchAction.__init__] *)
Definition SearchAction_init : SearchAction F :=
  {| min_confidence_threshold := f_lit_0_4;
     semantic_weight := f_lit_0_7;
     term_weight := f_lit_0_3 |}.

(** Line 17: [1.0 / (1.0 + result['distance'])]. *)
Definition semantic_similarity (d : F) : result F :=
  truediv f_one (f_add f_one d).

(** Line 20: [set(result['query'].lower().split())]. *)
Definition query_terms (q : string) : gset string :=
  list_to_set (Py.split (Py.lower q)).

(** The receiver of both splits of lines 21 and 22:
    [result['url'].lower().replace('-', ' ').replace('_', ' ')]. *)
Definition url_spaced (u : string) : string :=
  Py.replace "_" " " (Py.replace "-" " " (Py.lower u)).

(** Lines 21-22: the set of the ['/']-separated fields, updated with the
    whitespace-separated words. *)
Definition url_terms (u : string) : gset string :=
  list_to_set (Py.split_on "/" (url_spaced u))
  ∪ list_to_set (Py.split (url_spaced u)).

(** Line 25. *)
Definition exact_matches (qts uts : gset string) : nat :=
  Py.sum_ones_if
    (fun term => Py.any (fun url_term => String.eqb term url_term) (elements uts))
    (elements qts).

(** Line 26. *)
Definition partial_matches (qts uts : gset string) : nat :=
  Py.sum_ones_if
    (fun term => Py.any (fun url_term => Py.contains term url_term) (elements uts))
    (elements qts).

(** Line 29.  The [else] branch is the int [0], which the arithmetic of
    line 32 converts to [0.0]. *)
Definition term_match_score (qts uts : gset string) : result F :=
  if bool_decide (size qts ≠ 0%nat) then
    truediv
      (f_add (f_of_nat (exact_matches qts uts))
             (f_mul f_half (f_of_nat (partial_matches qts uts))))
      (f_of_nat (size qts))
  else Ok f_zero.

(** Line 32. *)
Definition blend (self : SearchAction F) (sem tms : F) : F :=
  f_add (f_mul sem (semantic_weight self)) (f_mul tms (term_weight self)).

(** Line 35. *)
Definition clamp01 (c : F) : F := py_max f_zero (py_min f_one c).

(** Lines 39-48: the dict literal. *)
Definition scored (u : string) (conf sem tms : F) : ScoredResult F :=
  {| s_url := u;
     confidence := f_round3 conf;
     semantic_score := f_round3 sem;
     term_score := f_round3 tms;
     highlight_instructions :=
       {| method := "semantic_highlight"; confidence_threshold := conf |} |}.

(** Lines 17-29 on one record: the url, the semantic similarity and the
    term match score, with the keys read in the order of the source. *)
Definition features (r : RawResult F) : result (string * F * F) :=
  d ← getitem "distance" (distance r);
  sem ← semantic_similarity d;
  q ← getitem "query" (query r);
  u ← getitem "url" (url r);
  tms ← term_match_score (query_terms q) (url_terms u);
  Ok (u, sem, tms).

(** Lines 32-35: the clamped confidence. *)
Definition confidence_of (self : SearchAction F) (sem tms : F) : F :=
  clamp01 (blend self sem tms).

(** Lines 38-48: the record appended for one result, if any. *)
Definition keep (self : SearchAction F) (u : string) (sem tms : F)
  : option (ScoredResult F) :=
  let conf := confidence_of self sem tms in
  if f_geb conf (min_confidence_threshold self)
  then Some (scored u conf sem tms)
  else None.

(** One iteration of the loop, lines 15-48: [processed_results] after the
    body has run on [r]. *)
Definition loop_body (self : SearchAction F) (processed : list (ScoredResult F))
    (r : RawResult F) : result (list (ScoredResult F)) :=
  '(u, sem, tms) ← features r;
  match keep self u sem tms with
  | Some s => Ok (processed ++ [s])%list
  | None => Ok processed
  end.

(** The [for] loop of line 15. *)
Fixpoint loop (self : SearchAction F) (processed : list (ScoredResult F))
    (results : list (RawResult F)) : result (list (ScoredResult F)) :=
  match results with
  | [] => Ok processed
  | r :: rest =>
      processed' ← loop_body self processed r;
      loop self processed' rest
  end.

(** [list.sort(key=..., reverse=True)]: stable, descending, comparing
    keys with [<] only. *)
Fixpoint insert_desc {A} (key : A → F) (x : A) (l : list A) : list A :=
  match l with
  | [] => [x]
  | y :: l' =>
      if f_ltb (key x) (key y) then y :: insert_desc key x l' else x :: l
  end.

Definition sort_desc {A} (key : A → F) (l : list A) : list A :=
  foldr (insert_desc key) [] l.

(** [SearchAction.process_search_results] *)
Definition process_search_results (self : SearchAction F)
    (results : list (RawResult F)) : result (list (ScoredResult F)) :=
  match results with
  | [] => Ok []
  | _ =>
      processed_results ← loop self [] results;
      Ok (sort_desc confidence processed_results)
  end.
End Scorer.

(* ===================================================================== *)
(** ** The method on the store                                            *)
(* ===================================================================== *)

(** References to Python objects. *)
Definition loc : Type := positive.

(** The objects the method touches.  A dict is kept with its keys as
    fields; the nested dict literal of a scored result is created with the
    record and referenced by it alone, so it is kept inside it. *)
Inductive obj (F : Type) : Type :=
| OInstance (a : SearchAction F)
| ORaw (r : RawResult F)
| OScored (s : ScoredResult F)
| OList (items : list loc).
Arguments OInstance {F} a.
Arguments ORaw {F} r.
Arguments OScored {F} s.
Arguments OList {F} items.

Abbreviation heap F := (gmap loc (obj F)).

(** How a run ends: with a value, with an exception, or cut off by the
    iteration bound of the model. *)
Inductive outcome (F A : Type) : Type :=
| Returns (a : A) (h : heap F)
| Raises (e : exn) (h : heap F)
| OutOfFuel.
Arguments Returns {F A} a h.
Arguments Raises {F A} e h.
Arguments OutOfFuel {F A}.

Definition M (F A : Type) : Type := heap F → outcome F A.

#[export] Instance M_bind {F} : MBind (M F) := fun A B k m h =>
  match m h with
  | Returns a h' => k a h'
  | Raises e h' => Raises e h'
  | OutOfFuel => OutOfFuel
  end.

#[export] Instance M_ret {F} : MRet (M F) := fun A a h => Returns a h.

Section Store.
Context {F : Type} `{PyFloat F}.

Definition lift {A} (r : result A) : M F A := fun h =>
  match r with
  | Ok a => Returns a h
  | Raise e => Raises e h
  end.

Definition out_of_fuel {A} : M F A := fun _ => OutOfFuel.

(** A new object, at a reference not yet in use. *)
Definition alloc (o : obj F) : M F loc := fun h =>
  let l := fresh (dom h) in Returns l (<[l := o]> h).

Definition write (l : loc) (o : obj F) : M F unit := fun h =>
  Returns tt (<[l := o]> h).

(** Reads that expect one kind of object; any other is a [TypeError]. *)
Definition read_list (l : loc) : M F (list loc) := fun h =>
  match h !! l with
  | Some (OList items) => Returns items h
  | _ => Raises TypeError h
  end.

Definition read_raw (l : loc) : M F (RawResult F) := fun h =>
  match h !! l with
  | Some (ORaw r) => Returns r h
  | _ => Raises TypeError h
  end.

Definition read_scored (l : loc) : M F (ScoredResult F) := fun h =>
  match h !! l with
  | Some (OScored s) => Returns s h
  | _ => Raises TypeError h
  end.

Definition read_instance (l : loc) : M F (SearchAction F) := fun h =>
  match h !! l with
  | Some (OInstance a) => Returns a h
  | _ => Raises TypeError h
  end.

(** [lst.append(x)] *)
Definition append (lst x : loc) : M F unit :=
  items ← read_list lst;
  write lst (OList (items ++ [x])%list).

(** Lines 17-48 on the record at [result]. *)
Definition loop_body_h (self processed_results result : loc) : M F unit :=
  r ← read_raw result;
  '(u, sem, tms) ← lift (features r);
  a ← read_instance self;
  match keep a u sem tms with
  | Some s =>
      rec ← alloc (OScored s);
      append processed_results rec
  | None => mret tt
  end.

(** [for result in results]: the list iterator reads [results[i]] from
    the live list at every step and stops when [i] is out of range. *)
Fixpoint loop_h (fuel : nat) (self results processed_results : loc) (i : nat)
  : M F unit :=
  items ← read_list results;
  match items !! i with
  | None => mret tt
  | Some result =>
      match fuel with
      | O => out_of_fuel
      | S fuel' =>
          loop_body_h self processed_results result;;
          loop_h fuel' self results processed_results (S i)
      end
  end.

(** The keys [x['confidence']] of the records referenced by [items]. *)
Fixpoint keyed (items : list loc) : M F (list (F * loc)) :=
  match items with
  | [] => mret []
  | l :: rest =>
      s ← read_scored l;
      ks ← keyed rest;
      mret ((confidence s, l) :: ks)
  end.

(** [lst.sort(key=lambda x: x['confidence'], reverse=True)], in place. *)
Definition sort_h (lst : loc) : M F unit :=
  items ← read_list lst;
  ks ← keyed items;
  write lst (OList (List.map snd (sort_desc fst ks))).

(** [SearchAction.process_search_results] on the store: [self] and
    [results] are the references passed in, the value returned is the
    reference of [processed_results].  The loop is given as many steps
    as [results] has elements on entry. *)
Definition process_search_results_h (self results : loc) : M F loc :=
  processed_results ← alloc (OList []);
  items ← read_list results;
  match items with
  | [] => mret processed_results
  | _ =>
      loop_h (length items) self results processed_results 0;;
      sort_h processed_results;;
      mret processed_results
  end.
End Store.

(* ===================================================================== *)
(** ** SearchDecision: the relevance filter (Assignment_7/decision.py)    *)
(* ===================================================================== *)

(** What [SearchDecision] reads of a result: the subscripts
    [result['confidence']] and [result['url']], each of which raises
    [KeyError] on a dict without the key.  The results themselves are
    passed through, so their type is left open. *)
Class ResultDict (F R : Type) : Type := {
  confidence_item : R → result F;
  url_item : R → result string
}.

(** The scored results of [SearchAction] have both keys. *)
#[export] Instance ScoredResult_dict {F} : ResultDict F (ScoredResult F) := {|
  confidence_item := fun s => Ok (confidence s);
  url_item := fun s => Ok (s_url s)
|}.

(** A dict from which either key may be missing. *)
Record PartialResult (F : Type) : Type := {
  p_url : option string;
  p_confidence : option F
}.
Arguments p_url {F} _.
Arguments p_confidence {F} _.

#[export] Instance PartialResult_dict {F} : ResultDict F (PartialResult F) := {|
  confidence_item := fun r => getitem "confidence" (p_confidence r);
  url_item := fun r => getitem "url" (p_url r)
|}.

(** The float literal [0.8] of line 87. *)
Class DecisionLiterals (F : Type) : Type := { f_lit_0_8 : F }.

#[export] Instance Q_DecisionLiterals : DecisionLiterals Q :=
  {| f_lit_0_8 := (4 # 5)%Q |}.

#[export] Instance float_DecisionLiterals : DecisionLiterals float :=
  {| f_lit_0_8 := 0.8%float |}.

(** Line 92 of decision.py: [set(result['url'].lower().split('/'))].
    Unlike [url_terms] of the scorer, ['-'] and ['_'] stay as they are and
    whitespace does not separate. *)
Definition url_path_terms (u : string) : gset string :=
  list_to_set (Py.split_on "/" (Py.lower u)).

Section SearchDecision.
Context {F R : Type} `{PyFloat F} `{DecisionLiterals F} `{ResultDict F R}.

(** [SearchDecision._is_semantically_relevant]; [self] is not read. *)
Definition _is_semantically_relevant (query : string) (r : R) : result bool :=
  c ← confidence_item r;
  if f_ltb f_lit_0_8 c then Ok true
  else
    let qts := query_terms query in
    u ← url_item r;
    let term_overlap := qts ∩ url_path_terms u in
    if bool_decide (0 < size term_overlap)%nat then Ok true else Ok false.

(** The [for] loop of [evaluate_search_relevance], lines 73-80:
    [relevant_results] after the loop has run over [results]. *)
Fixpoint evaluate_loop (query : string) (relevant_results : list R)
    (results : list R) : result (list R) :=
  match results with
  | [] => Ok relevant_results
  | r :: rest =>
      c ← confidence_item r;
      if f_ltb c f_lit_0_4 then evaluate_loop query relevant_results rest
      else
        b ← _is_semantically_relevant query r;
        if (b : bool) then evaluate_loop query (relevant_results ++ [r])%list rest
        else evaluate_loop query relevant_results rest
  end.

(** [SearchDecision.evaluate_search_relevance] *)
Definition evaluate_search_relevance (query : string) (results : list R)
  : result (list R) :=
  evaluate_loop query [] results.
End SearchDecision.

(** *** The filter on the store *)

Section DecisionStore.
Context {F : Type} `{PyFloat F} `{DecisionLiterals F}.

(** Lines 74-80 on the dict at [result]. *)
Definition relevance_body_h (query : string) (relevant_results result : loc)
  : M F unit :=
  s ← read_scored result;
  c ← lift (confidence_item s);
  if f_ltb c f_lit_0_4 then mret tt
  else
    b ← lift (_is_semantically_relevant query s);
    if (b : bool) then append relevant_results result else mret tt.

(** [for result in results], over the live list. *)
Fixpoint relevance_loop_h (fuel : nat) (query : string)
    (results relevant_results : loc) (i : nat) : M F unit :=
  items ← read_list results;
  match items !! i with
  | None => mret tt
  | Some result =>
      match fuel with
      | O => out_of_fuel
      | S fuel' =>
          relevance_body_h query relevant_results result;;
          relevance_loop_h fuel' query results relevant_results (S i)
      end
  end.

(** [SearchDecision.evaluate_search_relevance] on the store: [results] is
    the reference passed in, the value returned is the reference of
    [relevant_results].  The loop is given as many steps as [results] has
    elements on entry. *)
Definition evaluate_search_relevance_h (query : string) (results : loc)
  : M F loc :=
  relevant_results ← alloc (OList []);
  items ← read_list results;
  relevance_loop_h (length items) query results relevant_results 0;;
  mret relevant_results.
End DecisionStore.

(* ===================================================================== *)
(** ** FaissMemory (Assignment_7/memory.py)                               *)
(* ===================================================================== *)

(** The attributes of a [FaissMemory] that its methods read and write in
    memory.  The flat index, of dimension [self.dimension] as [__init__]
    builds it, is kept as the rows added to it, in the order of their
    labels.  The two files on disk are written by [save_index], which
    catches every exception, and are not part of the model; what
    [load_index] reads from them is the memory a property starts from. *)
Record FaissMemory (E : Type) : Type := {
  dimension : nat;
  index : list (list E);
  urls : list string
}.
Arguments dimension {E} _.
Arguments index {E} _.
Arguments urls {E} _.

(** [lst[i]] for a Python list: a negative [i] counts from the end;
    [None] stands for [IndexError]. *)
Definition list_getitem {A} (lst : list A) (i : Z) : option A :=
  if (0 <=? i)%Z then lst !! Z.to_nat i
  else if (- Z.of_nat (length lst) <=? i)%Z
       then lst !! Z.to_nat (Z.of_nat (length lst) + i)
       else None.

Section Memory.
Context {E F : Type}.

(** The entries of an embedding are numbers of numpy, of which the model
    needs the zero that [np.pad] fills in and the conversion
    [astype(np.float32)]. *)
Variable e_zero : E.
Variable astype_float32 : E → E.

(** [self.index.search(x, k)] of faiss for [k > 0]: for the one query row,
    [k] pairs of a distance and a label, nearest first; the two arrays of
    shape (1, k) are kept as one list of pairs.  For [k <= 0] faiss raises
    [AssertionError] ([assert k > 0]); [search] below does not call the
    parameter then. *)
Variable index_search : list (list E) → list E → nat → list (F * Z).

(** [FaissMemory.__init__], before [load_index]. *)
Definition FaissMemory_init : FaissMemory E :=
  {| dimension := 64; index := []; urls := [] |}.

(** Lines 38-43 and 63-67: the embedding cut or padded to the dimension
    of the index. *)
Definition fit_dimension (dim : nat) (embedding : list E) : list E :=
  if bool_decide (length embedding ≠ dim) then
    if bool_decide (dim < length embedding)%nat then take dim embedding
    else (embedding ++ replicate (dim - length embedding) e_zero)%list
  else embedding.

(** Lines 46 and 70: [embedding.reshape(1, -1).astype(np.float32)], the
    one row. *)
Definition as_row (dim : nat) (embedding : list E) : list E :=
  List.map astype_float32 (fit_dimension dim embedding).

(** [FaissMemory.add_to_index]: the memory after the call. *)
Definition add_to_index (self : FaissMemory E) (url : string)
    (embedding : list E) : FaissMemory E :=
  let embedding := as_row (dimension self) embedding in
  {| dimension := dimension self;
     index := (index self ++ [embedding])%list;
     urls := (urls self ++ [url])%list |}.

(** Lines 79-87: the loop that formats the hits. *)
Fixpoint format_hits (self : FaissMemory E) (query_text : string)
    (hits : list (F * Z)) (results : list (RawResult F))
  : option (list (RawResult F)) :=
  match hits with
  | [] => Some results
  | (d, idx) :: rest =>
      if (idx <? Z.of_nat (length (urls self)))%Z then
        u ← list_getitem (urls self) idx;
        format_hits self query_text rest (results ++ [raw_result u d query_text])%list
      else format_hits self query_text rest results
  end.

(** [FaissMemory.search] for a number [k >= 0] of neighbours.  [None] stands
    for the exception of a call that raises: the [IndexError] of line 83 or,
    when [k = 0] and the index is not empty, the [AssertionError] that faiss
    raises on line 76. *)
Definition search (self : FaissMemory E) (query_embedding : list E)
    (query_text : string) (k : nat) : option (list (RawResult F)) :=
  if bool_decide (length (index self) = 0%nat) then Some []
  else
    let query_embedding := as_row (dimension self) query_embedding in
    let k := Nat.min k (length (index self)) in
    if bool_decide (k = 0%nat) then None
    else format_hits self query_text (index_search (index self) query_embedding k) [].
End Memory.

(* ===================================================================== *)
(** ** SearchDecision: sensitive urls (Assignment_7/decision.py)          *)
(* ===================================================================== *)

(** [self.sensitive_domains] *)
Definition sensitive_domains : list string :=
  ["gmail.com"; "mail.google.com"; "outlook.com"; "yahoo.mail.com";
   "web.whatsapp.com"; "facebook.com"; "messenger.com"; "twitter.com";
   "linkedin.com"; "banking"; "chase.com"; "wellsfargo.com"; "paypal.com"].

(** [self.sensitive_patterns]: each pattern is a run of letters followed by
    an escaped dot, so it matches its own text without the backslash; the
    list holds that text. *)
Definition sensitive_patterns : list string :=
  ["mail."; "email."; "account."; "login."; "signin."; "banking.";
   "secure."; "private."].

(** [re.search(pattern, s, re.IGNORECASE)] for a pattern that is plain
    text, on strings of characters below U+0100: some piece of [s] equals
    the text up to case, and there the case pairs are those of [lower].
    (Beyond U+0100 the flag also pairs U+017F with [s], U+212A with [k] and
    U+0130, U+0131 with [i].) *)
Definition re_search_ignorecase (text s : string) : bool :=
  Py.contains (Py.lower text) (Py.lower s).

Section Sensitive.
(** [validators.url(url)] as a truth value, and [urlparse(url).netloc],
    [None] when [urlparse] raises. *)
Variable validators_url : string → bool.
Variable urlparse_netloc : string → option string.

(** [SearchDecision.is_sensitive_url] *)
Definition is_sensitive_url (url : string) : bool :=
  if negb (validators_url url) then true
  else
    match urlparse_netloc url with
    | Some netloc =>
        let domain := Py.lower netloc in
        if Py.any (fun sensitive => Py.contains sensitive domain) sensitive_domains
        then true
        else if Py.any (fun pattern => re_search_ignorecase pattern domain)
                  sensitive_patterns
        then true
        else false
    | None => true
    end.

(** [SearchDecision.should_process_page] *)
Definition should_process_page (url : string) (content_length : Z) : bool :=
  if is_sensitive_url url then false
  else if ((content_length <? 100) || (1000000 <? content_length))%Z then false
  else true.
End Sensitive.

(* ===================================================================== *)
(** ** Agent (Assignment_7/agent.py)                                      *)
(* ===================================================================== *)

(** The attributes of an [Agent] that carry state.  The calls into
    [WebPagePerception] reach a hosted model; the embedding they return is
    an argument of the methods below. *)
Record Agent (E F : Type) : Type := {
  memory : FaissMemory E;
  action : SearchAction F
}.
Arguments memory {E F} _.
Arguments action {E F} _.

(** How [Agent.search] ends. *)
Inductive search_outcome (A : Type) : Type :=
| Results (a : A)
| RaisesIndexError
| RaisesInScorer (e : exn).
Arguments Results {A} a.
Arguments RaisesIndexError {A}.
Arguments RaisesInScorer {A} e.

(** What [Agent.process_page] returns. *)
Inductive page_status : Type :=
| Skipped      (* {"status": "skipped", "reason": "sensitive url"} *)
| Success.     (* {"status": "success"} *)

Section AgentMethods.
Context {E F : Type} `{PyFloat F}.
Variable e_zero : E.
Variable astype_float32 : E → E.
Variable index_search : list (list E) → list E → nat → list (F * Z).
Variable validators_url : string → bool.
Variable urlparse_netloc : string → option string.

(** [Agent.search]; [query_embedding] is what
    [self.perception.generate_embedding(query)] returned. *)
Definition Agent_search (self : Agent E F) (query : string)
    (query_embedding : list E) : search_outcome (list (ScoredResult F)) :=
  match search e_zero astype_float32 index_search (memory self) query_embedding query 5 with
  | None => RaisesIndexError
  | Some results =>
      match process_search_results (action self) results with
      | Ok processed_results => Results processed_results
      | Raise e => RaisesInScorer e
      end
  end.

(** [Agent.process_page]: the status returned and the agent after the
    call; [embedding] is what [generate_embedding(process_content(content))]
    returned. *)
Definition Agent_process_page (self : Agent E F) (url : string)
    (embedding : list E) : page_status * Agent E F :=
  if is_sensitive_url validators_url urlparse_netloc url then (Skipped, self)
  else
    (Success,
     {| memory := add_to_index e_zero astype_float32 (memory self) url embedding;
        action := action self |}).
End AgentMethods.

(* ===================================================================== *)
(** ** WebPagePerception: the text of a page (Assignment_7/perception.py) *)
(* ===================================================================== *)

(** [str.splitlines] below U+0100 breaks a line after each of
    [\n \v \f \r \x1c \x1d \x1e \x85], with [\r\n] counting once. *)
Definition is_linebreak (c : ascii) : bool :=
  let n := N_of_ascii c in
  (((10 <=? n) && (n <=? 13)) || ((28 <=? n) && (n <=? 30)) || (n =? 133))%N.

(** The lines of [s]; [after_cr] tells that the character before [s] was
    [\r], so that a [\n] at the head of [s] belongs to the same break. *)
Fixpoint splitlines_from (after_cr : bool) (s : string) : list string :=
  match s with
  | EmptyString => []
  | String c s' =>
      if after_cr && Ascii.eqb c "010" then splitlines_from false s'
      else if is_linebreak c
      then EmptyString :: splitlines_from (Ascii.eqb c "013") s'
      else match splitlines_from false s' with
           | w :: ws => String c w :: ws
           | [] => [String c EmptyString]
           end
  end.

(** [s.splitlines()] *)
Definition splitlines (s : string) : list string := splitlines_from false s.

(** [s.lstrip()], [s.rstrip()] and [s.strip()] *)
Fixpoint lstrip (s : string) : string :=
  match s with
  | EmptyString => EmptyString
  | String c s' => if Py.isspace c then lstrip s' else s
  end.

Fixpoint rstrip (s : string) : string :=
  match s with
  | EmptyString => EmptyString
  | String c s' =>
      match rstrip s' with
      | EmptyString => if Py.isspace c then EmptyString else String c EmptyString
      | r => String c r
      end
  end.

Definition strip (s : string) : string := rstrip (lstrip s).

(** [s[:n]] *)
Fixpoint slice_to (n : nat) (s : string) : string :=
  match n, s with
  | S n', String c s' => String c (slice_to n' s')
  | _, _ => EmptyString
  end.

(** [s] without its prefix [p], when it begins with [p]. *)
Fixpoint strip_prefix (p s : string) : option string :=
  match p, s with
  | EmptyString, _ => Some s
  | String a p', String b s' => if Ascii.eqb a b then strip_prefix p' s' else None
  | String _ _, EmptyString => None
  end.

(** Whether [s] begins with ["://"] and a character that is not
    whitespace: what [://\S+] needs. *)
Definition after_scheme (s : string) : bool :=
  match strip_prefix "://" s with
  | Some (String c _) => negb (Py.isspace c)
  | _ => false
  end.

(** Whether a match of [http[s]?://\S+] begins at the head of [s]. *)
Definition url_starts (s : string) : bool :=
  match strip_prefix "http" s with
  | Some rest =>
      match strip_prefix "s" rest with
      | Some rest' => after_scheme rest' || after_scheme rest
      | None => after_scheme rest
      end
  | None => false
  end.

(** [re.sub(r'http[s]?://\S+', '', s)]: a match runs from its [h] to the
    next whitespace, so the scan is either inside a match or not. *)
Fixpoint sub_urls (inside : bool) (s : string) : string :=
  match s with
  | EmptyString => EmptyString
  | String c s' =>
      if Py.isspace c then String c (sub_urls false s')
      else if inside then sub_urls true s'
      else if url_starts s then sub_urls true s'
      else String c (sub_urls false s')
  end.

(** [re.sub(r'\s+', ' ', s)]: each run of whitespace becomes one blank;
    [after_space] tells that the scan is inside a run. *)
Fixpoint sub_spaces (after_space : bool) (s : string) : string :=
  match s with
  | EmptyString => EmptyString
  | String c s' =>
      if Py.isspace c
      then if after_space then sub_spaces true s'
           else String " " (sub_spaces true s')
      else String c (sub_spaces false s')
  end.

Section Perception.
(** What BeautifulSoup makes of the page: [soup.get_text()] once the
    [script], [style], [nav], [footer] and [header] elements are gone. *)
Variable get_text : string → string.

(** [WebPagePerception.process_content] *)
Definition process_content (html_content : string) : string :=
  let text := get_text html_content in
  let lines := List.map strip (splitlines text) in
  let text := String.concat " " (List.filter Py.nonempty lines) in
  let text := sub_urls false text in
  let text := strip (sub_spaces false text) in
  slice_to 2000 text.
End Perception.

(* ===================================================================== *)
(** ** Vocabulary of the properties                                       *)
(* ===================================================================== *)

(** A record from which one of the three keys is missing. *)
Definition lacks_key {F} (r : RawResult F) : Prop :=
  distance r = None ∨ query r = None ∨ url r = None.

(** A record whose distance makes the divisor of line 17 compare equal to
    zero. *)
Definition zero_divisor {F} `{PyFloat F} (r : RawResult F) : Prop :=
  ∃ d, distance r = Some d ∧ f_eqb (f_add f_one d) f_zero = true.

(** [t] occurs in [w] as a contiguous piece. *)
Definition is_substring (t w : string) : Prop :=
  ∃ pre post, w = pre ++ t ++ post.

(** The spec's tokenization, in its words: the query terms are the words
    of the lowercased query; the url terms are what splitting the
    lowercased url, with ['-'] and ['_'] turned into spaces, on ['/'] gives,
    together with what splitting it on whitespace gives. *)
Definition is_query_term (q t : string) : Prop :=
  t ∈ Py.split (Py.lower q).

Definition is_url_term (u t : string) : Prop :=
  let spaced := Py.replace "_" " " (Py.replace "-" " " (Py.lower u)) in
  t ∈ Py.split_on "/" spaced ∨ t ∈ Py.split spaced.

(** [k] is the integer nearest to [n / d], the even one at a tie. *)
Definition nearest_even (n d k : Z) : Prop :=
  (- d < 2 * (n - k * d) < d)%Z
  ∨ ((2 * (n - k * d) = d ∨ 2 * (n - k * d) = - d)%Z ∧ Z.even k = true).

(** The spec's [clamp(x, lo, hi)]. *)
Definition clamp (x lo hi : Q) : Q :=
  if Qlt_le_dec x lo then lo else if Qlt_le_dec hi x then hi else x.

(** A list of scored results in descending order of [confidence]: no
    element is followed, at any distance, by one of greater confidence. *)
Definition descending_by {F} (le : F → F → Prop) (l : list (ScoredResult F)) : Prop :=
  ∀ i j a b, (i < j)%nat → l !! i = Some a → l !! j = Some b →
    le (confidence b) (confidence a).

Definition descending : list (ScoredResult Q) → Prop := descending_by Qle.

(** The doubles between 0 and 1, and the double nearest to [k / 1000]. *)
Definition unit_interval (x : float) : Prop :=
  PrimFloat.leb 0 x = true ∧ PrimFloat.leb x 1 = true.

Definition millis (k : Z) : float :=
  PrimFloat.div (PrimFloat.of_uint63 (Uint63.of_Z k)) 1000%float.

(** How a double between 0 and 1 is represented: a zero, or a positive
    finite number [m * 2^e] that does not exceed [2^52 * 2^-52]. *)
Definition unit_shape (x : spec_float) : Prop :=
  match x with
  | S754_zero _ => True
  | S754_finite false m e => (e < -52 ∨ (e = -52 ∧ Zpos m <= 2 ^ 52))%Z
  | _ => False
  end.

(** *** Doubles as rationals *)

(** [2^e] for an integer [e], and the value [m * 2^e] of a mantissa with an
    exponent. *)
Definition pow2 (e : Z) : Q := Qpower 2 e.

Definition F2Q (m e : Z) : Q := inject_Z m * pow2 e.

(** The rational that a double stands for; 0 for the zeros and for what
    stands for no rational: the infinities and NaN. *)
Definition SF2Q (x : spec_float) : Q :=
  match x with
  | S754_finite s m e => F2Q (cond_Zopp s (Zpos m)) e
  | _ => 0
  end.

Definition B2Q (x : float) : Q := SF2Q (Prim2SF x).

(** [inbetween m l x]: [x] lies in [[m, m + 1)], at the place that the
    location [l] names: on [m], below the middle, on it, or above it. *)
Definition inbetween (m : Z) (l : location) (x : Q) : Prop :=
  match l with
  | loc_Exact => x == inject_Z m
  | loc_Inexact Lt => inject_Z m < x ∧ x < inject_Z m + (1 # 2)
  | loc_Inexact Eq => x == inject_Z m + (1 # 2)
  | loc_Inexact Gt => inject_Z m + (1 # 2) < x ∧ x < inject_Z m + 1
  end%Q.

(** [binade k v]: [2^(k-1) <= v < 2^k]; or only [v < 2^k] once [k] is so
    small that the doubles below [2^k] all have the least exponent, -1074. *)
Definition binade (k : Z) (v : Q) : Prop :=
  (v < pow2 k)%Q ∧ ((pow2 (k - 1) <= v)%Q ∨ (k <= -1021)%Z).

(** The double of mantissa [m <= 2^53] and exponent [c]: the mantissa
    [2^53] becomes [2^52] at [c + 1], and an exponent above 971 gives
    infinity. *)
Definition pack (m c : Z) : spec_float :=
  match m with
  | Z0 => S754_zero false
  | Zpos p =>
      if (m =? 2 ^ 53)%Z then
        if (c + 1 <=? 971)%Z then S754_finite false 4503599627370496 (c + 1)
        else S754_infinity false
      else if (c <=? 971)%Z then S754_finite false p c else S754_infinity false
  | Zneg _ => S754_nan
  end.

(** A double without the sign of its zero. *)
Definition abs0 (x : spec_float) : spec_float :=
  match x with
  | S754_zero _ => S754_zero false
  | _ => x
  end.

(** [nearest_double v x]: [x] is the rational [v >= 0] rounded to binary64,
    to nearest with ties to even.  Its exponent [c = max(k - 53, -1074)] is
    that of the doubles in the binade [k] of [v], and its mantissa is
    [v / 2^c] rounded to the nearest integer, the even one at a tie; beyond
    the largest double the result is infinity. *)
Definition nearest_double (v : Q) (x : spec_float) : Prop :=
  ∃ k, binade k v
       ∧ abs0 x = pack (round_half_even (v / pow2 (fexp prec emax k)))
                       (fexp prec emax k).

(** Zero or a positive finite number. *)
Definition finite_nonneg (x : spec_float) : Prop :=
  match x with
  | S754_zero _ | S754_finite false _ _ => True
  | _ => False
  end.

(** Not NaN and not negative. *)
Definition nonneg_shape (x : spec_float) : Prop :=
  match x with
  | S754_zero _ | S754_infinity false | S754_finite false _ _ => True
  | _ => False
  end.

(** A query of at most 2^51 distinct terms.  Up to there the three lengths
    of line 29 and the sum [exact_matches + 0.5 * partial_matches] are
    doubles, so that the quotient is the only rounding of the line. *)
Definition few_terms (q : string) : Prop :=
  (Z.of_nat (size (query_terms q)) <= 2 ^ 51)%Z.

(** A string that is empty or made of whitespace only. *)
Fixpoint all_space (s : string) : bool :=
  match s with
  | EmptyString => true
  | String c s' => Py.isspace c && all_space s'
  end.

(** The scored record, if any, that one raw record contributes. *)
Definition score_of {F} `{PyFloat F} (self : SearchAction F) (r : RawResult F)
  : option (ScoredResult F) :=
  match features r with
  | Ok (u, sem, tms) => keep self u sem tms
  | Raise _ => None
  end.

(** The references [ls] lead, in this order, to the raw results [rs]. *)
Definition raw_at {F} (h : heap F) (ls : list loc) (rs : list (RawResult F)) : Prop :=
  Forall2 (fun l r => h !! l = Some (ORaw r)) ls rs.

(** The references [ls] lead, in this order, to the scored results [ss]. *)
Definition scored_at {F} (h : heap F) (ls : list loc) (ss : list (ScoredResult F))
  : Prop :=
  Forall2 (fun l s => h !! l = Some (OScored s)) ls ss.

(** What holds of the store [h] while the method runs from the store [h0]:
    nothing that [h0] held has changed, and [processed_results] is a list,
    absent from [h0], of distinct references absent from [h0] that lead to
    [acc]. *)
Definition loop_inv {F} (h0 : heap F) (pr : loc) (h : heap F)
    (acc_ls : list loc) (acc : list (ScoredResult F)) : Prop :=
  h0 ⊆ h
  ∧ h0 !! pr = None
  ∧ h !! pr = Some (OList acc_ls)
  ∧ scored_at h acc_ls acc
  ∧ Forall (fun l => h0 !! l = None) acc_ls
  ∧ NoDup acc_ls.

(** What the loop of [evaluate_search_relevance] decides for one result:
    [Ok true] when it appends it, [Ok false] when it passes over it. *)
Definition verdict {F R} `{PyFloat F} `{DecisionLiterals F} `{ResultDict F R}
    (q : string) (r : R) : result bool :=
  c ← confidence_item r;
  if f_ltb c f_lit_0_4 then Ok false else _is_semantically_relevant q r.

(** Whether the loop appends [r]. *)
Definition kept {F R} `{PyFloat F} `{DecisionLiterals F} `{ResultDict F R}
    (q : string) (r : R) : bool :=
  match verdict q r with Ok true => true | _ => false end.

(** A scored result that is relevant to [q]: its confidence is not below
    0.4 and it is above 0.8 or some term of the query is a field of the
    lowercased url. *)
Definition relevant {F} `{PyFloat F} `{DecisionLiterals F}
    (q : string) (s : ScoredResult F) : bool :=
  negb (f_ltb (confidence s) f_lit_0_4)
  && (f_ltb f_lit_0_8 (confidence s)
      || bool_decide (query_terms q ∩ url_path_terms (s_url s) ≠ ∅)).

(** A dict on which the filter fails: it has no ['confidence'], or its
    confidence is neither below 0.4 nor above 0.8 and it has no ['url']. *)
Definition unreadable {F} `{PyFloat F} `{DecisionLiterals F}
    (r : PartialResult F) : Prop :=
  p_confidence r = None
  ∨ ∃ c, p_confidence r = Some c
      ∧ f_ltb c f_lit_0_4 = false ∧ f_ltb f_lit_0_8 c = false
      ∧ p_url r = None.

(** A memory in which labels and urls correspond: as many rows as urls,
    every row of the dimension of the index. *)
Definition aligned {E} (self : FaissMemory E) : Prop :=
  length (index self) = length (urls self)
  ∧ Forall (fun row => length row = dimension self) (index self).

(** The url a label leads to: counted from the front when the label is not
    negative, from the back when it is. *)
Definition url_at (urls : list string) (label : Z) : option string :=
  if (0 <=? label)%Z then urls !! Z.to_nat label
  else reverse urls !! Z.to_nat (- label - 1).

(** The record, if any, that one hit contributes to the results. *)
Definition hit_record {E F} (self : FaissMemory E) (query_text : string)
    (hit : F * Z) : option (RawResult F) :=
  if (hit.2 <? Z.of_nat (length (urls self)))%Z
  then u ← url_at (urls self) hit.2; Some (raw_result u hit.1 query_text)
  else None.

(** What the flat index of faiss guarantees of a search for [n > 0]
    neighbours among at least [n] rows: [n] hits, each labelled with a
    row. *)
Definition flat_index {E F}
    (index_search : list (list E) → list E → nat → list (F * Z)) : Prop :=
  ∀ rows x n, (0 < n ≤ length rows)%nat →
    length (index_search rows x n) = n
    ∧ ∀ hit, hit ∈ index_search rows x n → (0 <= hit.2 < Z.of_nat (length rows))%Z.

(** The texts whose presence in the lowercased host makes a url sensitive,
    without those that contain another one. *)
Definition sensitive_texts : list string :=
  ["mail."; "outlook.com"; "web.whatsapp.com"; "facebook.com"; "messenger.com";
   "twitter.com"; "linkedin.com"; "banking"; "chase.com"; "wellsfargo.com";
   "paypal.com"; "account."; "login."; "signin."; "secure."; "private."].

(** The agent after [Agent.process_page] has been called on each page in
    turn. *)
Definition Agent_process_pages {E F} (e_zero : E) (astype_float32 : E → E)
    (validators_url : string → bool) (urlparse_netloc : string → option string)
    (self : Agent E F) (pages : list (string * list E)) : Agent E F :=
  fold_left
    (fun a page =>
       (Agent_process_page e_zero astype_float32 validators_url urlparse_netloc
          a page.1 page.2).2)
    pages self.

(** A term in which neither ['-'] nor ['_'] occurs. *)
Definition plain (t : string) : Prop :=
  ∀ c, c ∈ list_ascii_of_string t → c ≠ "-"%char ∧ c ≠ "_"%char.

(** A flat index for the instances below: the [n] nearest rows are the
    first [n], row [i] at distance [i / 2]. *)
Definition first_rows {E} (rows : list (list E)) (x : list E) (n : nat)
  : list (Q * Z) :=
  List.map (fun i => (inject_Z (Z.of_nat i) / 2, Z.of_nat i)%Q) (seq 0 n).

(** A text whose only whitespace is single blanks between words;
    [after_space] tells that a blank may not come first. *)
Fixpoint tidy (after_space : bool) (s : string) : bool :=
  match s with
  | EmptyString => true
  | String c s' =>
      if Ascii.eqb c " " then negb after_space && tidy true s'
      else negb (Py.isspace c) && tidy false s'
  end.

(** A text in which no match of [http[s]?://\S+] begins anywhere. *)
Fixpoint no_url (s : string) : bool :=
  negb (url_starts s)
  && match s with
     | EmptyString => true
     | String _ s' => no_url s'
     end.

(* ===================================================================== *)
(** ** The loop and the empty input                                       *)
(* ===================================================================== *)

Section LoopFacts.
Context {F : Type} `{PyFloat F}.
Implicit Types (self : SearchAction F) (r : RawResult F)
  (rs : list (RawResult F)) (acc out : list (ScoredResult F)).

Lemma bind_Ok {A B} (m : result A) (k : A → result B) b :
  m ≫= k = Ok b ↔ ∃ a, m = Ok a ∧ k a = Ok b.
Proof.
  destruct m as [a|e]; unfold mbind, result_bind; split.
  - intros Hk. exists a. by split.
  - intros (a' & [= <-] & Hk). exact Hk.
  - discriminate.
  - intros (a' & [=] & _).
Qed.

Lemma bind_Raise {A B} (m : result A) (k : A → result B) e :
  m ≫= k = Raise e ↔ m = Raise e ∨ ∃ a, m = Ok a ∧ k a = Raise e.
Proof.
  destruct m as [a|e']; unfold mbind, result_bind; split.
  - intros Hk. right. exists a. by split.
  - intros [[=]|(a' & [= <-] & Hk)]. exact Hk.
  - intros [= ->]. by left.
  - intros [[= ->]|(a' & [=] & _)]. done.
Qed.

(** The body appends what [score_of] gives, provided the record can be
    scored at all. *)
Lemma loop_body_Ok self acc r out :
  loop_body self acc r = Ok out ↔
  (∃ x, features r = Ok x) ∧ out = (acc ++ option_list (score_of self r))%list.
Proof.
  unfold loop_body, score_of.
  destruct (features r) as [[[u sem] tms]|e]; simpl.
  - destruct (keep self u sem tms); simpl.
    + split; [intros [= <-]; eauto | intros [_ ->]; done].
    + rewrite app_nil_r. split; [intros [= <-]; eauto | intros [_ ->]; done].
  - split; [done | intros [[x [=]] _]].
Qed.

Lemma loop_body_Raise self acc r e :
  loop_body self acc r = Raise e ↔ features r = Raise e.
Proof.
  unfold loop_body.
  destruct (features r) as [[[u sem] tms]|e']; simpl.
  - destruct (keep self u sem tms); split; discriminate.
  - split; intros [= ->]; done.
Qed.

(** The loop succeeds exactly when every record can be scored, and then
    extends the accumulator with the kept records in input order. *)
Lemma loop_Ok self rs : ∀ acc out,
  loop self acc rs = Ok out ↔
  Forall (fun r => ∃ x, features r = Ok x) rs
  ∧ out = (acc ++ omap (score_of self) rs)%list.
Proof.
  induction rs as [|r rs IH]; intros acc out; cbn [loop omap list_omap].
  - rewrite app_nil_r. split; [intros [= <-]; auto | intros [_ ->]; done].
  - rewrite bind_Ok. split.
    + intros (acc' & Hb & Hl). apply loop_body_Ok in Hb as [Hx ->].
      apply IH in Hl as [Hall ->]. split; [by constructor|].
      rewrite <- app_assoc. f_equal. by destruct (score_of self r).
    + intros [Hall ->]. inversion_clear Hall as [|?? Hx Hrs].
      exists (acc ++ option_list (score_of self r))%list. split.
      * by apply loop_body_Ok.
      * apply IH. split; [done|].
        rewrite <- app_assoc. f_equal. by destruct (score_of self r).
Qed.

(** The loop raises exactly the exception of the first record that cannot
    be scored. *)
Lemma loop_Raise self rs : ∀ acc e,
  loop self acc rs = Raise e ↔
  ∃ pre r post, rs = (pre ++ r :: post)%list
    ∧ Forall (fun r => ∃ x, features r = Ok x) pre
    ∧ features r = Raise e.
Proof.
  induction rs as [|r rs IH]; intros acc e; cbn [loop].
  - split; [discriminate|]. intros (pre & r & post & Heq & _).
    by destruct pre.
  - rewrite bind_Raise. split.
    + intros [Hb|(acc' & Hb & Hl)].
      * apply loop_body_Raise in Hb. by exists [], r, rs.
      * apply loop_body_Ok in Hb as [Hx _].
        apply IH in Hl as (pre & r' & post & -> & Hpre & Hr').
        exists (r :: pre), r', post. repeat split; [by constructor | done].
    + intros (pre & r' & post & Heq & Hpre & Hr').
      destruct pre as [|r0 pre]; simpl in Heq; injection Heq as <- ->.
      * left. by apply loop_body_Raise.
      * right. inversion_clear Hpre as [|?? Hx Hrest].
        exists (acc ++ option_list (score_of self r))%list. split.
        -- by apply loop_body_Ok.
        -- apply IH. by exists pre, r', post.
Qed.

Lemma process_search_results_loop self rs :
  process_search_results self rs =
  (processed_results ← loop self [] rs; Ok (sort_desc confidence processed_results)).
Proof. by destruct rs. Qed.

Lemma process_search_results_Ok self rs out :
  process_search_results self rs = Ok out ↔
  Forall (fun r => ∃ x, features r = Ok x) rs
  ∧ out = sort_desc confidence (omap (score_of self) rs).
Proof.
  rewrite process_search_results_loop, bind_Ok. split.
  - intros (acc & Hl & [= <-]). apply loop_Ok in Hl as [Hall ->]. done.
  - intros [Hall ->]. exists (omap (score_of self) rs). split; [|done].
    by apply loop_Ok.
Qed.

Lemma process_search_results_Raise self rs e :
  process_search_results self rs = Raise e ↔
  ∃ pre r post, rs = (pre ++ r :: post)%list
    ∧ Forall (fun r => ∃ x, features r = Ok x) pre
    ∧ features r = Raise e.
Proof.
  rewrite process_search_results_loop, bind_Raise, loop_Raise. split.
  - intros [Hl|(acc & _ & [=])]. exact Hl.
  - auto.
Qed.

(** C7. [process_search_results] applied to the empty list returns the
    empty list: the call does not raise, whatever the attributes of the
    instance and whatever float arithmetic is in use.  On the store, the
    call with an empty [results] list returns a new, empty list object and
    changes nothing else. *)
Theorem process_search_results_empty self :
  process_search_results self [] = Ok []
  ∧ ¬ raises (process_search_results self [])
  ∧ ∀ (h : heap F) (self_ref results : loc),
      h !! results = Some (OList []) →
      ∃ pr, h !! pr = None
        ∧ process_search_results_h self_ref results h
          = Returns pr (<[pr := OList []]> h).
Proof.
  split; [reflexivity|]. split.
  - intros [e He]. discriminate He.
  - intros h self_ref results Hres. exists (fresh (dom h)).
    assert (Hpr : h !! fresh (dom h) = None) by apply not_elem_of_dom, is_fresh.
    split; [done|].
    unfold process_search_results_h, mbind, M_bind, alloc, read_list.
    rewrite lookup_insert_ne by (intros <-; congruence).
    by rewrite Hres.
Qed.
End LoopFacts.

(* ===================================================================== *)
(** ** The string built-ins                                               *)
(* ===================================================================== *)

Lemma append_cons c (s1 s2 : string) : String c s1 ++ s2 = String c (s1 ++ s2).
Proof. reflexivity. Qed.

Lemma append_nil (s : string) : EmptyString ++ s = s.
Proof. reflexivity. Qed.

(** No field contains a separator. *)
Lemma fields_no_sep (sep : ascii → bool) (s w : string) (c : ascii) :
  w ∈ Py.fields sep s → c ∈ list_ascii_of_string w → sep c = false.
Proof.
  revert w. induction s as [|a s IH]; intros w; cbn [Py.fields].
  - intros ->%list_elem_of_singleton Hc. by apply elem_of_nil in Hc.
  - destruct (sep a) eqn:Ha.
    + intros [->|Hw]%elem_of_cons Hc; [by apply elem_of_nil in Hc | by eapply IH].
    + destruct (Py.fields sep s) as [|w0 ws] eqn:Hf.
      * intros ->%list_elem_of_singleton [->|Hc]%elem_of_cons; [done|].
        by apply elem_of_nil in Hc.
      * intros [->|Hw]%elem_of_cons Hc.
        -- cbn in Hc. apply elem_of_cons in Hc as [->|Hc]; [done|].
           apply (IH w0); [by left | done].
        -- apply (IH w); [by right | done].
Qed.

Lemma fields_not_nil (sep : ascii → bool) (s : string) : Py.fields sep s ≠ [].
Proof.
  destruct s as [|a s]; cbn [Py.fields]; [done|].
  destruct (sep a); [done|]. by destruct (Py.fields sep s).
Qed.

(** Joining the fields with the separator gives the string back: what
    [sep.join(s.split(sep)) == s] says of Python's [split]. *)
Lemma concat_split_on (sep : ascii) (s : string) :
  String.concat (String sep EmptyString) (Py.split_on sep s) = s.
Proof.
  unfold Py.split_on. induction s as [|a s IH]; [done|]. cbn [Py.fields].
  pose proof (fields_not_nil (Ascii.eqb sep) s) as Hnil.
  destruct (Py.fields (Ascii.eqb sep) s) as [|w ws] eqn:Hf; [done|].
  destruct (Ascii.eqb sep a) eqn:Ha.
  - apply Ascii.eqb_eq in Ha as <-. cbn [String.concat].
    rewrite append_nil, append_cons, append_nil. f_equal. exact IH.
  - destruct ws as [|w' ws]; cbn [String.concat] in *.
    + by rewrite IH.
    + rewrite append_cons. by rewrite IH.
Qed.

(** The words [split()] gives are not empty and hold no whitespace. *)
Lemma split_words (s w : string) :
  w ∈ Py.split s →
  w ≠ EmptyString ∧ ∀ c, c ∈ list_ascii_of_string w → Py.isspace c = false.
Proof.
  unfold Py.split. rewrite list_elem_of_In, filter_In, <- list_elem_of_In.
  intros [Hw Hne]. split; [by destruct w|].
  intros c Hc. by eapply fields_no_sep.
Qed.

(* ===================================================================== *)
(** ** Queries without terms                                              *)
(* ===================================================================== *)

Lemma lower_char_isspace c : Py.isspace c = true → Py.lower_char c = c.
Proof.
  intros Hc. destruct c as [[] [] [] [] [] [] [] []];
    first [discriminate Hc | reflexivity].
Qed.

Lemma fields_all_space s :
  all_space s = true → Forall (fun w => w = EmptyString) (Py.fields Py.isspace (Py.lower s)).
Proof.
  induction s as [|c s IH]; simpl.
  - intros _. by repeat constructor.
  - intros [Hc Hs]%andb_prop. rewrite (lower_char_isspace c Hc), Hc.
    constructor; [done | by apply IH].
Qed.

Lemma split_all_space s : all_space s = true → Py.split (Py.lower s) = [].
Proof.
  intros Hs. unfold Py.split.
  induction (fields_all_space s Hs) as [|w ws -> _ IH]; simpl; done.
Qed.

Lemma query_terms_all_space q : all_space q = true → query_terms q = ∅.
Proof. intros Hq. unfold query_terms. by rewrite split_all_space. Qed.

Section EmptyQuery.
Context {F : Type} `{PyFloat F}.

Lemma term_match_score_no_terms (uts : gset string) :
  term_match_score ∅ uts = Ok f_zero.
Proof. reflexivity. Qed.

(** C8. For a raw result whose query is empty or whitespace only, the
    query term set is empty, line 29 evaluates to 0 without dividing (so
    without [ZeroDivisionError]) whatever the url is, and the term match
    score of the record, when it is scored, is that 0. *)
Theorem term_match_score_empty_query (r : RawResult F) (q : string) :
  query r = Some q → all_space q = true →
  query_terms q = ∅
  ∧ (∀ u, term_match_score (query_terms q) (url_terms u) = Ok f_zero)
  ∧ (∀ u sem tms, features r = Ok (u, sem, tms) → tms = f_zero).
Proof.
  intros Hq Hsp. pose proof (query_terms_all_space q Hsp) as Hqt.
  split; [done|]. split.
  - intros u. rewrite Hqt. apply term_match_score_no_terms.
  - intros u sem tms. unfold features. rewrite Hq.
    destruct (distance r) as [d|]; [|discriminate]. cbn [getitem].
    rewrite !bind_Ok. intros (d' & [= <-] & Hrest).
    apply bind_Ok in Hrest as (sem' & _ & Hrest).
    apply bind_Ok in Hrest as (q' & [= <-] & Hrest).
    apply bind_Ok in Hrest as (u' & _ & Hrest).
    apply bind_Ok in Hrest as (t & Ht & [= _ _ <-]).
    rewrite Hqt, term_match_score_no_terms in Ht. by injection Ht.
Qed.
End EmptyQuery.

(** Witness of C8 in binary64: the query ["  "] against any record. *)
Lemma term_match_score_empty_query_witness :
  query_terms "  " = ∅
  ∧ (∀ u, term_match_score (F:=float) (query_terms "  ") (url_terms u) = Ok f_zero)
  ∧ (∀ u sem tms, features (raw_result "a" 0%float "  ") = Ok (u, sem, tms) → tms = f_zero).
Proof.
  apply (term_match_score_empty_query (raw_result "a" 0%float "  ") "  ");
    reflexivity.
Defined.

(* ===================================================================== *)
(** ** When the method raises                                             *)
(* ===================================================================== *)

Section Errors.
Context {F : Type} `{PyFloat F}.
Implicit Types (self : SearchAction F) (r : RawResult F)
  (rs : list (RawResult F)).

(** The one fact about the arithmetic that the error behaviour depends
    on: a positive length, converted to float, does not compare equal to
    zero. *)
Hypothesis of_nat_S_nonzero : ∀ n, f_eqb (f_of_nat (S n)) f_zero = false.

(** Line 29 never raises: the division is guarded by [if query_terms]. *)
Lemma term_match_score_total (qts uts : gset string) :
  ∃ t, term_match_score qts uts = Ok t.
Proof.
  unfold term_match_score. case_bool_decide as Hn; [|eauto].
  unfold truediv. destruct (size qts) as [|n]; [done|].
  rewrite of_nat_S_nonzero. eauto.
Qed.

(** The exception of one record, by the order of lines 17, 20 and 21. *)
Lemma features_Raise r e :
  features r = Raise e ↔
  (distance r = None ∧ e = KeyError "distance")
  ∨ (zero_divisor r ∧ e = ZeroDivisionError)
  ∨ (¬ zero_divisor r ∧ distance r ≠ None ∧ query r = None ∧ e = KeyError "query")
  ∨ (¬ zero_divisor r ∧ distance r ≠ None ∧ query r ≠ None ∧ url r = None
     ∧ e = KeyError "url").
Proof.
  unfold features, zero_divisor, semantic_similarity, truediv.
  destruct (distance r) as [d|]; cbn [getitem mbind result_bind].
  2:{ split.
      - intros [= <-]. by left.
      - intros [[_ ->]|[[(d & [=] & _) _]|[(_ & [] & _)|(_ & [] & _)]]]; done. }
  destruct (f_eqb (f_add f_one d) f_zero) eqn:Hz; cbn [mbind result_bind].
  { split.
    - intros [= <-]. right; left. split; [by exists d | done].
    - intros [[[=] _]|[[_ ->]|[(Hn & _)|(Hn & _)]]]; [done|..];
        destruct Hn; by exists d. }
  assert (Hnz : ¬ ∃ d0, Some d = Some d0 ∧ f_eqb (f_add f_one d0) f_zero = true)
    by (intros (d0 & [= <-] & Hd0); congruence).
  destruct (query r) as [q|]; cbn [getitem mbind result_bind].
  2:{ split.
      - intros [= <-]. right; right; left. done.
      - intros [[[=] _]|[[Hzd _]|[(_ & _ & _ & ->)|(_ & _ & [] & _)]]]; done. }
  destruct (url r) as [u|]; cbn [getitem mbind result_bind].
  2:{ split.
      - intros [= <-]. right; right; right. done.
      - intros [[[=] _]|[[Hzd _]|[(_ & _ & [=] & _)|(_ & _ & _ & _ & ->)]]]; done. }
  destruct (term_match_score_total (query_terms q) (url_terms u)) as [t ->].
  cbn [mbind result_bind]. split; [done|].
  intros [[[=] _]|[[Hzd _]|[(_ & _ & [=] & _)|(_ & _ & _ & [=] & _)]]]; done.
Qed.

Lemma features_raises_iff r :
  raises (features r) ↔ lacks_key r ∨ zero_divisor r.
Proof.
  unfold raises, lacks_key. split.
  - intros [e He]. apply features_Raise in He.
    destruct He as [[? _]|[[? _]|[(_ & _ & ? & _)|(_ & _ & _ & ? & _)]]]; auto.
  - assert (Hdec : zero_divisor r ∨ ¬ zero_divisor r).
    { unfold zero_divisor. destruct (distance r) as [d|].
      - destruct (f_eqb (f_add f_one d) f_zero) eqn:Hz.
        + left. by exists d.
        + right. intros (d0 & [= <-] & Hd0). congruence.
      - right. intros (d0 & [=] & _). }
    intros Hbad.
    destruct Hdec as [Hzd|Hnz].
    { exists ZeroDivisionError. apply features_Raise. auto. }
    destruct Hbad as [[Hd|[Hq|Hu]]|Hzd]; [| | |done].
    + exists (KeyError "distance"). apply features_Raise. auto.
    + destruct (distance r) as [d|] eqn:Hd.
      * exists (KeyError "query"). apply features_Raise.
        right; right; left. rewrite Hd. done.
      * exists (KeyError "distance"). apply features_Raise. auto.
    + destruct (distance r) as [d|] eqn:Hd.
      * destruct (query r) as [q|] eqn:Hq.
        -- exists (KeyError "url"). apply features_Raise.
           right; right; right. rewrite Hd, Hq. done.
        -- exists (KeyError "query"). apply features_Raise.
           right; right; left. rewrite Hd, Hq. done.
      * exists (KeyError "distance"). apply features_Raise. auto.
Qed.

(** Either every record can be scored or there is a first one that
    cannot. *)
Lemma first_failure rs :
  Forall (fun r => ∃ x, features r = Ok x) rs
  ∨ ∃ pre r post e, rs = (pre ++ r :: post)%list
      ∧ Forall (fun r => ∃ x, features r = Ok x) pre
      ∧ features r = Raise e.
Proof.
  induction rs as [|r rs IH]; [by left|].
  destruct (features r) as [x|e] eqn:Hr.
  - destruct IH as [Hall|(pre & r' & post & e & -> & Hpre & Hr')].
    + left. constructor; eauto.
    + right. exists (r :: pre), r', post, e. repeat split; [|done].
      constructor; eauto.
  - right. by exists [], r, rs, e.
Qed.

Lemma process_search_results_raises_iff self rs :
  raises (process_search_results self rs) ↔
  ∃ r, r ∈ rs ∧ (lacks_key r ∨ zero_divisor r).
Proof.
  split.
  - intros [e He]. apply process_search_results_Raise in He.
    destruct He as (pre & r & post & -> & _ & Hr).
    exists r. split; [set_solver|]. apply features_raises_iff. by exists e.
  - intros (r & Hin & Hbad). apply features_raises_iff in Hbad as [e He].
    destruct (first_failure rs) as [Hall|(pre & r' & post & e' & Heq & Hpre & Hr')].
    + rewrite Forall_forall in Hall. destruct (Hall r Hin) as [x Hx]. congruence.
    + exists e'. apply process_search_results_Raise. by exists pre, r', post.
Qed.

(** In any arithmetic in which a positive length is not zero:
    [process_search_results] raises if and only if some input record lacks
    one of the keys ['distance'], ['query'], ['url'] or carries a distance
    [d] with [1.0 + d == 0.0]; and when no record has such a distance, the
    exception raised is the [KeyError] of one of these three keys. *)
Lemma process_search_results_raises_generic self rs :
  (raises (process_search_results self rs) ↔
     ∃ r, r ∈ rs ∧ (lacks_key r ∨ zero_divisor r))
  ∧ ((∀ r, r ∈ rs → ¬ zero_divisor r) →
     (raises (process_search_results self rs) ↔ ∃ r, r ∈ rs ∧ lacks_key r)
     ∧ ∀ e, process_search_results self rs = Raise e →
         e = KeyError "distance" ∨ e = KeyError "query" ∨ e = KeyError "url").
Proof.
  split; [apply process_search_results_raises_iff|].
  intros Hnz. split.
  - rewrite process_search_results_raises_iff. split.
    + intros (r & Hin & [Hk|Hz]); [by exists r|]. by destruct (Hnz r Hin).
    + intros (r & Hin & Hk). exists r. auto.
  - intros e He. apply process_search_results_Raise in He.
    destruct He as (pre & r & post & -> & _ & Hr).
    apply features_Raise in Hr.
    destruct Hr as [[_ ->]|[[Hz _]|[(_ & _ & _ & ->)|(_ & _ & _ & _ & ->)]]]; auto.
    destruct (Hnz r); [set_solver | done].
Qed.
End Errors.

(* ===================================================================== *)
(** ** Term matching                                                      *)
(* ===================================================================== *)

Lemma prefix_spec t w : String.prefix t w = true ↔ ∃ post, w = t ++ post.
Proof.
  revert w. induction t as [|c t IH]; intros [|c' w]; simpl.
  - split; [intros _; by exists EmptyString | done].
  - split; [intros _; by exists (String c' w) | done].
  - split; [done | intros [post [=]]].
  - destruct (ascii_dec c c') as [<-|Hne].
    + rewrite IH. split; intros [post Hp]; exists post;
        rewrite append_cons in *; congruence.
    + split; [done | intros [post [= ? _]]; done].
Qed.

Lemma contains_spec t w : Py.contains t w = true ↔ is_substring t w.
Proof.
  unfold is_substring. induction w as [|c w IH]; cbn [Py.contains].
  - rewrite orb_false_r, prefix_spec. split.
    + intros [post Hp]. by exists EmptyString, post.
    + intros (pre & post & Hp). destruct pre; [by exists post | done].
  - rewrite orb_true_iff, IH, prefix_spec. split.
    + intros [[post Hp]|(pre & post & Hp)].
      * by exists EmptyString, post.
      * exists (String c pre), post. rewrite append_cons. by rewrite Hp.
    + intros (pre & post & Hp). destruct pre as [|c' pre].
      * left. by exists post.
      * right. rewrite append_cons in Hp. injection Hp as _ Hp. by exists pre, post.
Qed.

Lemma sum_ones_if_length {A} (p : A → bool) (l : list A) :
  Py.sum_ones_if p l = length (List.filter p l).
Proof.
  unfold Py.sum_ones_if. induction (List.filter p l) as [|x xs IH]; simpl; auto.
Qed.

(** Counting the elements of a set that pass a test gives the size of the
    subset they form. *)
Lemma sum_ones_if_size (p : string → bool) (X Y : gset string) :
  (∀ t, t ∈ Y ↔ t ∈ X ∧ p t = true) →
  Py.sum_ones_if p (elements X) = size Y.
Proof.
  intros HY. rewrite sum_ones_if_length.
  change (size Y) with (length (elements Y)).
  apply Permutation_length, NoDup_Permutation.
  - apply NoDup_ListNoDup, List.NoDup_filter, NoDup_ListNoDup, NoDup_elements.
  - apply NoDup_elements.
  - intros t. rewrite elem_of_elements, HY, <- (elem_of_elements X).
    rewrite !list_elem_of_In. apply filter_In.
Qed.

Lemma any_eqb_elem_of (t : string) (X : gset string) :
  Py.any (fun x => String.eqb t x) (elements X) = true ↔ t ∈ X.
Proof.
  unfold Py.any. rewrite existsb_exists. split.
  - intros (x & Hx & ->%String.eqb_eq). by apply elem_of_elements, list_elem_of_In.
  - intros Ht. exists t. split; [by apply list_elem_of_In, elem_of_elements|].
    apply String.eqb_refl.
Qed.

Lemma any_contains_elem_of (t : string) (X : gset string) :
  Py.any (fun x => Py.contains t x) (elements X) = true ↔
  ∃ w, w ∈ X ∧ is_substring t w.
Proof.
  unfold Py.any. rewrite existsb_exists. split.
  - intros (w & Hw & Hc). exists w. split.
    + by apply elem_of_elements, list_elem_of_In.
    + by apply contains_spec.
  - intros (w & Hw & Hc). exists w. split.
    + by apply list_elem_of_In, elem_of_elements.
    + by apply contains_spec.
Qed.

Lemma elem_of_query_terms q t : t ∈ query_terms q ↔ is_query_term q t.
Proof. unfold query_terms, is_query_term. apply elem_of_list_to_set. Qed.

Lemma elem_of_url_terms u t : t ∈ url_terms u ↔ is_url_term u t.
Proof.
  unfold url_terms, is_url_term, url_spaced.
  by rewrite elem_of_union, !elem_of_list_to_set.
Qed.

(** C5. [exact_matches] is the number of query terms that occur verbatim
    among the url terms, and [partial_matches] is the number of query terms
    that are substrings of at least one url term: each is the size of the
    set of those terms, with the query terms the words of the lowercased
    query and the url terms the ['/']-fields together with the words of the
    lowercased url in which ['-'] and ['_'] have become spaces. *)
Theorem matches_count (q u : string) (E P : gset string) :
  (∀ t, t ∈ E ↔ is_query_term q t ∧ is_url_term u t) →
  (∀ t, t ∈ P ↔ is_query_term q t ∧ ∃ w, is_url_term u w ∧ is_substring t w) →
  exact_matches (query_terms q) (url_terms u) = size E
  ∧ partial_matches (query_terms q) (url_terms u) = size P.
Proof.
  intros HE HP. split.
  - apply sum_ones_if_size. intros t.
    rewrite HE, any_eqb_elem_of, elem_of_query_terms, elem_of_url_terms. done.
  - apply sum_ones_if_size. intros t.
    rewrite HP, any_contains_elem_of, elem_of_query_terms.
    split; intros [Hq (w & Hw & Hs)]; (split; [done|]); exists w;
      (split; [by apply elem_of_url_terms | done]).
Qed.

(* ===================================================================== *)
(** ** Exact arithmetic                                                   *)
(* ===================================================================== *)

Section ExactArithmetic.
#[local] Open Scope Q_scope.

Lemma Q_ltb_iff (a b : Q) : f_ltb a b = true ↔ a < b.
Proof.
  cbn. rewrite negb_true_iff, <- not_true_iff_false, Qle_bool_iff.
  split; [apply Qnot_le_lt | apply Qlt_not_le].
Qed.

Lemma Q_leb_iff (a b : Q) : f_leb a b = true ↔ a <= b.
Proof. apply Qle_bool_iff. Qed.

Lemma Q_eqb_iff (a b : Q) : f_eqb a b = true ↔ a == b.
Proof. apply Qeq_bool_iff. Qed.

Lemma Q_eqb_false (a b : Q) : f_eqb a b = false ↔ ¬ a == b.
Proof. rewrite <- Q_eqb_iff. symmetry. apply not_true_iff_false. Qed.

Lemma Q_of_nat_S_nonzero (n : nat) : f_eqb (f_of_nat (S n)) (f_zero : Q) = false.
Proof.
  apply Q_eqb_false. cbn -[Z.of_nat]. unfold Qeq. cbn -[Z.of_nat]. lia.
Qed.

(** *** Rounding *)

Lemma round_half_even_nearest x :
  nearest_even (Qnum x) (Zpos (Qden x)) (round_half_even x).
Proof.
  unfold round_half_even, nearest_even.
  set (n := Qnum x). set (d := Zpos (Qden x)).
  assert (Hd : (0 < d)%Z) by (subst d; lia).
  pose proof (Z.div_mod n d ltac:(lia)) as Hdm.
  pose proof (Z.mod_pos_bound n d Hd) as Hr.
  destruct (Z.compare_spec (2 * (n mod d)) d) as [He|Hl|Hg].
  - right. destruct (Z.even (n / d)) eqn:Hev.
    + split; [left; lia | done].
    + split; [right; lia|]. rewrite Z.even_add, Hev. reflexivity.
  - left. lia.
  - left. lia.
Qed.

Lemma nearest_even_mono n1 d1 k1 n2 d2 k2 :
  (0 < d1)%Z → (0 < d2)%Z → (n1 * d2 <= n2 * d1)%Z →
  nearest_even n1 d1 k1 → nearest_even n2 d2 k2 → (k1 <= k2)%Z.
Proof.
  intros Hd1 Hd2 Hle H1 H2.
  destruct (Z_le_gt_dec k1 k2) as [|Hgt]; [done|exfalso].
  assert (Hk : (k2 + 1 <= k1)%Z) by lia.
  assert (Hdd : (0 < d1 * d2)%Z) by lia.
  assert (Hkd : ((k2 + 1) * (d1 * d2) <= k1 * (d1 * d2))%Z) by nia.
  destruct H1 as [H1|[H1 E1]], H2 as [H2|[H2 E2]].
  - nia.
  - nia.
  - nia.
  - assert (k1 = k2 + 1)%Z as -> by nia.
    rewrite Z.even_add, E2 in E1. discriminate.
Qed.

Lemma round_half_even_mono x y :
  x <= y → (round_half_even x <= round_half_even y)%Z.
Proof.
  intros Hxy.
  apply (nearest_even_mono (Qnum x) (Zpos (Qden x)) _ (Qnum y) (Zpos (Qden y)));
    [lia | lia | exact Hxy | apply round_half_even_nearest..].
Qed.

Lemma round_half_even_inject_Z (k : Z) : round_half_even (inject_Z k) = k.
Proof.
  unfold round_half_even. cbn [inject_Z Qnum Qden].
  by rewrite Z.div_1_r, Z.mod_1_r.
Qed.

Lemma Qround3_mono x y : x <= y → Qround3 x <= Qround3 y.
Proof.
  intros Hxy. unfold Qround3, Qle. cbn [Qnum Qden].
  apply Z.mul_le_mono_nonneg_r; [lia|].
  apply round_half_even_mono. lra.
Qed.

Lemma Qround3_proper x y : x == y → Qround3 x == Qround3 y.
Proof.
  intros Hxy. apply Qle_antisym; apply Qround3_mono; lra.
Qed.

(** *** Clamping *)

Lemma clamp01_cases (c : Q) :
  (c <= 0 ∧ clamp01 c = 0)
  ∨ (0 < c < 1 ∧ clamp01 c = c)
  ∨ (1 <= c ∧ clamp01 c = 1).
Proof.
  unfold clamp01, py_max, py_min.
  destruct (f_ltb c f_one) eqn:H1.
  - apply Q_ltb_iff in H1. destruct (f_ltb f_zero c) eqn:H0.
    + apply Q_ltb_iff in H0. right; left. cbn in *. done.
    + apply not_true_iff_false in H0. rewrite Q_ltb_iff in H0.
      left. cbn in *. split; [lra | done].
  - apply not_true_iff_false in H1. rewrite Q_ltb_iff in H1.
    right; right. cbn in *. split; [lra | done].
Qed.

Lemma clamp01_range (c : Q) : 0 <= clamp01 c <= 1.
Proof.
  destruct (clamp01_cases c) as [[? ->]|[[? ->]|[? ->]]]; lra.
Qed.

Lemma clamp01_clamp (c : Q) : clamp01 c == clamp c 0 1.
Proof.
  unfold clamp.
  destruct (clamp01_cases c) as [[? ->]|[[? ->]|[? ->]]];
    destruct (Qlt_le_dec c 0), (Qlt_le_dec 1 c); lra.
Qed.

Lemma clamp01_mono (c c' : Q) : c <= c' → clamp01 c <= clamp01 c'.
Proof.
  intros Hc.
  destruct (clamp01_cases c) as [[? ->]|[[? ->]|[? ->]]];
    destruct (clamp01_cases c') as [[? ->]|[[? ->]|[? ->]]]; lra.
Qed.
End ExactArithmetic.

(* ===================================================================== *)
(** ** Semantic similarity                                                *)
(* ===================================================================== *)

Section FeaturesFacts.
Context {F : Type} `{PyFloat F}.

Lemma features_Ok (r : RawResult F) u sem tms :
  features r = Ok (u, sem, tms) ↔
  ∃ d q, distance r = Some d ∧ semantic_similarity d = Ok sem
    ∧ query r = Some q ∧ url r = Some u
    ∧ term_match_score (query_terms q) (url_terms u) = Ok tms.
Proof.
  unfold features. split.
  - intros Hf.
    apply bind_Ok in Hf as (d & Hd & Hf).
    apply bind_Ok in Hf as (sem' & Hsem & Hf).
    apply bind_Ok in Hf as (q & Hq & Hf).
    apply bind_Ok in Hf as (u' & Hu & Hf).
    apply bind_Ok in Hf as (t & Ht & [= -> -> ->]).
    destruct (distance r); [injection Hd as ->|discriminate].
    destruct (query r); [injection Hq as ->|discriminate].
    destruct (url r); [injection Hu as ->|discriminate].
    by exists d, q.
  - intros (d & q & -> & Hsem & -> & -> & Ht). cbn [getitem].
    apply bind_Ok. exists d. split; [done|].
    apply bind_Ok. exists sem. split; [done|].
    apply bind_Ok. exists q. split; [done|].
    apply bind_Ok. exists u. split; [done|].
    apply bind_Ok. exists tms. done.
Qed.

Lemma keep_Some (self : SearchAction F) u sem tms s :
  keep self u sem tms = Some s ↔
  f_geb (confidence_of self sem tms) (min_confidence_threshold self) = true
  ∧ s = scored u (confidence_of self sem tms) sem tms.
Proof.
  unfold keep.
  destruct (f_geb (confidence_of self sem tms) (min_confidence_threshold self)).
  - split; [intros [= <-]; done | intros [_ ->]; done].
  - split; [done | intros [[=] _]].
Qed.

Lemma score_of_Some (self : SearchAction F) r s :
  score_of self r = Some s ↔
  ∃ u sem tms, features r = Ok (u, sem, tms)
    ∧ f_geb (confidence_of self sem tms) (min_confidence_threshold self) = true
    ∧ s = scored u (confidence_of self sem tms) sem tms.
Proof.
  unfold score_of. destruct (features r) as [[[u sem] tms]|e].
  - rewrite keep_Some. split.
    + intros [Hc ->]. by exists u, sem, tms.
    + intros (u' & sem' & tms' & [= <- <- <-] & Hc & ->). done.
  - split; [done | intros (u' & sem' & tms' & [=] & _)].
Qed.
End FeaturesFacts.

Section SemanticSimilarity.
#[local] Open Scope Q_scope.

Lemma semantic_similarity_Q (d : Q) :
  0 <= d → semantic_similarity d = Ok (1 / (1 + d)).
Proof.
  intros Hd. unfold semantic_similarity, truediv.
  replace (f_eqb (f_add f_one d) f_zero) with false; [done|].
  symmetry. apply Q_eqb_false. cbn. lra.
Qed.

Lemma inv_succ_range (d : Q) : 0 <= d → 0 < 1 / (1 + d) <= 1.
Proof.
  intros Hd. split.
  - apply Qlt_shift_div_l; lra.
  - apply Qle_shift_div_r; lra.
Qed.

Lemma inv_succ_decreasing (d1 d2 : Q) :
  0 <= d1 → d1 < d2 → 1 / (1 + d2) < 1 / (1 + d1).
Proof.
  intros H1 H12. unfold Qdiv. rewrite !Qmult_1_l.
  apply -> Qinv_lt_contravar; lra.
Qed.

Lemma inv_succ_vanishes (eps : Q) :
  0 < eps → ∀ d, 1 / eps <= d → 1 / (1 + d) < eps.
Proof.
  intros He d Hd.
  assert (Hpos : 0 < 1 / eps) by (apply Qlt_shift_div_l; lra).
  apply Qlt_shift_div_r; [lra|].
  assert (Hed : 1 <= eps * d).
  { assert (Heq : eps * (1 / eps) == 1) by (field; lra).
    rewrite <- Heq. apply Qmult_le_l; lra. }
  lra.
Qed.

(** In exact arithmetic: for a raw result with distance [d >= 0], line 17
    does not raise, the semantic similarity it computes is [1 / (1 + d)],
    and that value lies in the half-open interval (0, 1]. *)
Lemma semantic_similarity_range_exact (r : RawResult Q) (d : Q) :
  distance r = Some d → 0 <= d →
  semantic_similarity d = Ok (1 / (1 + d))
  ∧ (∀ u sem tms, features r = Ok (u, sem, tms) → sem = 1 / (1 + d))
  ∧ 0 < 1 / (1 + d) ∧ 1 / (1 + d) <= 1.
Proof.
  intros Hr Hd. split; [by apply semantic_similarity_Q|]. split.
  - intros u sem tms (d' & q & Hd' & Hsem & _)%features_Ok.
    rewrite Hr in Hd'. injection Hd' as <-.
    rewrite semantic_similarity_Q in Hsem by done. by injection Hsem.
  - by apply inv_succ_range.
Qed.
End SemanticSimilarity.

(* ===================================================================== *)
(** ** Sorting and the shape of the output                                *)
(* ===================================================================== *)

Section SortFacts.
Context {F : Type} `{PyFloat F} {A : Type} (key : A → F).

Lemma insert_desc_perm x l : insert_desc key x l ≡ₚ x :: l.
Proof.
  induction l as [|y l IH]; simpl; [done|].
  destruct (f_ltb (key x) (key y)); [|done].
  rewrite IH. apply perm_swap.
Qed.

Lemma sort_desc_perm l : sort_desc key l ≡ₚ l.
Proof.
  unfold sort_desc. induction l as [|x l IH]; simpl; [done|].
  by rewrite insert_desc_perm, IH.
Qed.

Lemma length_sort_desc l : length (sort_desc key l) = length l.
Proof. apply Permutation_length, sort_desc_perm. Qed.
End SortFacts.

Section OutputShape.
Context {F : Type} `{PyFloat F}.
Implicit Types (self : SearchAction F) (rs : list (RawResult F)).

(** What is returned is, up to order, the scored records of the inputs
    that pass the threshold. *)
Lemma process_search_results_perm self rs out :
  process_search_results self rs = Ok out → out ≡ₚ omap (score_of self) rs.
Proof.
  intros [_ ->]%process_search_results_Ok. apply sort_desc_perm.
Qed.

Lemma elem_of_output self rs out s :
  process_search_results self rs = Ok out →
  s ∈ out ↔ ∃ r, r ∈ rs ∧ score_of self r = Some s.
Proof.
  intros Hp. rewrite (process_search_results_perm _ _ _ Hp).
  apply list_elem_of_omap.
Qed.

Lemma length_omap_le {X Y} (f : X → option Y) (l : list X) :
  (length (omap f l) ≤ length l)%nat.
Proof.
  induction l as [|x l IH]; simpl; [done|].
  change (list_omap X Y f l) with (omap f l). destruct (f x); simpl; lia.
Qed.

Lemma length_output self rs out :
  process_search_results self rs = Ok out → (length out ≤ length rs)%nat.
Proof.
  intros Hp. rewrite (process_search_results_perm _ _ _ Hp).
  apply length_omap_le.
Qed.
End OutputShape.

Section SortedOutput.
Context {F : Type} `{PyFloat F} {A : Type} (key : A → F) (good : F → Prop).

(** What the sort relies on: on the keys it meets, [<] and [<=] are those
    of a total preorder. *)
Hypothesis ltb_leb : ∀ x y, f_ltb x y = true → f_leb x y = true.
Hypothesis leb_total : ∀ x y, good x → good y → f_ltb x y = false → f_leb y x = true.
Hypothesis leb_trans : ∀ x y z, good x → good y → good z →
  f_leb x y = true → f_leb y z = true → f_leb x z = true.

Let ge_key (a b : A) : Prop := f_leb (key b) (key a) = true.
Let good_key (a : A) : Prop := good (key a).

Lemma insert_desc_sorted x l :
  good_key x → Forall good_key l →
  StronglySorted ge_key l → StronglySorted ge_key (insert_desc key x l).
Proof.
  intros Hx. induction l as [|y l IH]; cbn [insert_desc]; intros Hg Hs.
  - repeat constructor.
  - apply Forall_cons in Hg as [Hgy Hg].
    apply StronglySorted_cons in Hs as [Hy Hl].
    destruct (f_ltb (key x) (key y)) eqn:Hlt.
    + apply StronglySorted_cons. split; [|by apply IH].
      rewrite insert_desc_perm. constructor; [|done].
      by apply ltb_leb.
    + pose proof (leb_total _ _ Hx Hgy Hlt) as Hyx.
      apply StronglySorted_cons. split.
      * constructor; [done|].
        rewrite Forall_forall in Hy, Hg. apply Forall_forall. intros z Hz.
        exact (leb_trans _ _ _ (Hg z Hz) Hgy Hx (Hy z Hz) Hyx).
      * apply StronglySorted_cons. done.
Qed.

Lemma sort_desc_sorted l :
  Forall good_key l → StronglySorted ge_key (sort_desc key l).
Proof.
  unfold sort_desc. induction l as [|x l IH]; cbn [foldr]; intros Hg.
  - constructor.
  - apply Forall_cons in Hg as [Hx Hg]. apply insert_desc_sorted; [done| |by apply IH].
    fold (sort_desc key l). by rewrite sort_desc_perm.
Qed.

Lemma StronglySorted_lookup (l : list A) i j a b :
  StronglySorted ge_key l → (i < j)%nat →
  l !! i = Some a → l !! j = Some b → f_leb (key b) (key a) = true.
Proof.
  intros Hs. revert i j. induction Hs as [|x l Hl IH Hx]; intros i j Hij Hi Hj.
  - done.
  - destruct j as [|j]; [lia|]. destruct i as [|i]; simpl in *.
    + injection Hi as <-. rewrite Forall_forall in Hx.
      apply Hx. by eapply list_elem_of_lookup_2.
    + apply (IH i j); [lia | done..].
Qed.

Lemma sort_desc_lookup (l : list A) i j a b :
  Forall good_key l → (i < j)%nat →
  sort_desc key l !! i = Some a → sort_desc key l !! j = Some b →
  f_leb (key b) (key a) = true.
Proof. intros Hg. by apply StronglySorted_lookup, sort_desc_sorted. Qed.
End SortedOutput.

(* ===================================================================== *)
(** ** The term match score                                               *)
(* ===================================================================== *)

Lemma filter_length_impl {A} (p1 p2 : A → bool) (l : list A) :
  (∀ x, p1 x = true → p2 x = true) →
  (length (List.filter p1 l) ≤ length (List.filter p2 l))%nat.
Proof.
  intros Himp. induction l as [|x l IH]; simpl; [done|].
  destruct (p1 x) eqn:H1.
  - rewrite (Himp x H1). simpl. lia.
  - destruct (p2 x); simpl; lia.
Qed.

Lemma is_substring_refl t : is_substring t t.
Proof.
  exists EmptyString, EmptyString. rewrite append_nil.
  induction t as [|c t IH]; [done|]. rewrite append_cons. by rewrite <- IH.
Qed.

(** Every exact match is also counted as a partial match, and no count
    exceeds the number of query terms. *)
Lemma exact_le_partial (qts uts : gset string) :
  (exact_matches qts uts ≤ partial_matches qts uts)%nat.
Proof.
  unfold exact_matches, partial_matches. rewrite !sum_ones_if_length.
  apply filter_length_impl. intros t Ht.
  apply any_eqb_elem_of in Ht. apply any_contains_elem_of.
  exists t. split; [done | apply is_substring_refl].
Qed.

Lemma partial_le_size (qts uts : gset string) :
  (partial_matches qts uts ≤ size qts)%nat.
Proof.
  unfold partial_matches. rewrite sum_ones_if_length.
  change (size qts) with (length (elements qts)).
  apply List.filter_length_le.
Qed.

(** When every query term is a url term, each is an exact match. *)
Lemma exact_matches_subseteq (qts uts : gset string) :
  qts ⊆ uts → exact_matches qts uts = size qts ∧ partial_matches qts uts = size qts.
Proof.
  intros Hsub.
  assert (He : exact_matches qts uts = size qts).
  { unfold exact_matches. apply sum_ones_if_size. intros t.
    rewrite any_eqb_elem_of. split; [intros Ht; split; [done | by apply Hsub] | by intros [? _]]. }
  split; [done|].
  pose proof (exact_le_partial qts uts). pose proof (partial_le_size qts uts).
  apply Nat.le_antisymm; [done | by rewrite <- He].
Qed.

Section TermScore.
#[local] Open Scope Q_scope.

Lemma term_match_score_Q (qts uts : gset string) :
  ∃ t : Q, term_match_score qts uts = Ok t ∧ 0 <= t ∧ t <= 3 # 2.
Proof.
  unfold term_match_score. case_bool_decide as Hn.
  2:{ exists 0. repeat split; [lra | lra]. }
  unfold truediv.
  pose proof (exact_le_partial qts uts) as Hep.
  pose proof (partial_le_size qts uts) as Hps.
  destruct (size qts) as [|n] eqn:Hsz; [done|].
  rewrite Q_of_nat_S_nonzero. eexists. split; [done|].
  cbn -[Z.of_nat Qdiv Qplus Qmult Qle].
  set (e := inject_Z (Z.of_nat (exact_matches qts uts))).
  set (p := inject_Z (Z.of_nat (partial_matches qts uts))).
  set (m := inject_Z (Z.of_nat (S n))).
  assert (He : 0 <= e) by (unfold e; rewrite <- (Zle_Qle 0); lia).
  assert (Hp : 0 <= p) by (unfold p; rewrite <- (Zle_Qle 0); lia).
  assert (Hepq : e <= p) by (unfold e, p; rewrite <- Zle_Qle; lia).
  assert (Hpm : p <= m) by (unfold p, m; rewrite <- Zle_Qle; lia).
  assert (Hm : 0 < m) by (unfold m; rewrite <- (Zlt_Qlt 0); lia).
  split.
  - apply Qle_shift_div_l; [done|]. lra.
  - apply Qle_shift_div_r; [done|]. lra.
Qed.

Lemma Qround3_millis (k : Z) : Qround3 (k # 1000) == k # 1000.
Proof.
  unfold Qround3.
  assert (Hx : (k # 1000) * 1000 == inject_Z k).
  { unfold Qeq. cbn. lia. }
  assert (H1 : (k # 1000) * 1000 <= inject_Z k) by lra.
  assert (H2 : inject_Z k <= (k # 1000) * 1000) by lra.
  apply round_half_even_mono in H1, H2.
  rewrite round_half_even_inject_Z in H1, H2.
  assert (Hk : round_half_even ((k # 1000) * 1000) = k) by lia.
  rewrite Hk. reflexivity.
Qed.

(** Rounding to three decimals keeps a value between two multiples of
    1/1000 that enclose it. *)
Lemma Qround3_range (lo hi : Z) (x : Q) :
  lo # 1000 <= x → x <= hi # 1000 →
  lo # 1000 <= Qround3 x ∧ Qround3 x <= hi # 1000.
Proof.
  intros Hlo Hhi. split.
  - rewrite <- (Qround3_millis lo). by apply Qround3_mono.
  - rewrite <- (Qround3_millis hi). by apply Qround3_mono.
Qed.

(** In exact arithmetic: the term match score is
    [(exact_matches + 0.5 * partial_matches) / |query_terms|] with
    [exact_matches <= partial_matches <= |query_terms|], because every
    exact match is counted again as a partial match; so for any query and
    url it lies in [0, 1.5], and so does the [term_score] field of every
    scored result that [process_search_results] returns. *)
Lemma term_score_range_exact (rs : list (RawResult Q)) (out : list (ScoredResult Q)) :
  process_search_results SearchAction_init rs = Ok out →
  (∀ q u, (exact_matches (query_terms q) (url_terms u)
             ≤ partial_matches (query_terms q) (url_terms u)
             ≤ size (query_terms q))%nat
          ∧ ∃ t : Q, term_match_score (query_terms q) (url_terms u) = Ok t
                     ∧ 0 <= t ∧ t <= 3 # 2)
  ∧ (∀ s, s ∈ out → 0 <= term_score s ∧ term_score s <= 3 # 2).
Proof.
  intros Hp. split.
  - intros q u. split; [split; [apply exact_le_partial | apply partial_le_size]|].
    apply term_match_score_Q.
  - intros s Hs. apply (elem_of_output _ _ _ _ Hp) in Hs as (r & _ & Hr).
    apply score_of_Some in Hr as (u & sem & tms & Hf & _ & ->).
    apply features_Ok in Hf as (d & q & _ & _ & _ & _ & Ht).
    destruct (term_match_score_Q (query_terms q) (url_terms u)) as (t & Ht' & H0 & H1).
    rewrite Ht in Ht'. injection Ht' as ->. cbn [scored term_score f_round3 Q_PyFloat].
    destruct (Qround3_range 0 1500 t) as [Hlo Hhi]; [lra | lra |].
    split; lra.
Qed.
End TermScore.

(** C1 as stated fails: the query ["a"] against the url ["a"] at distance 0
    has one exact match, counted again as a partial match, so its term
    match score is (1 + 0.5 * 1) / 1 = 1.5, and the record is returned with
    [term_score] 1.5 > 1; in exact arithmetic and in binary64 alike. *)
Lemma term_score_exceeds_one :
  (∃ s : ScoredResult Q,
      process_search_results SearchAction_init [raw_result "a" 0%Q "a"] = Ok [s]
      ∧ (term_score s == 3 # 2)%Q ∧ ¬ (term_score s <= 1)%Q)
  ∧ (∃ t : Q, term_match_score (query_terms "a") (url_terms "a") = Ok t
              ∧ ¬ (t <= 1)%Q)
  ∧ (∃ s : ScoredResult float,
      process_search_results SearchAction_init [raw_result "a" 0%float "a"] = Ok [s]
      ∧ term_score s = 1.5%float ∧ PrimFloat.leb (term_score s) 1 = false).
Proof.
  split; [|split].
  - eexists. split; [vm_compute; reflexivity|]. split.
    + reflexivity.
    + intros Hle. apply Hle. reflexivity.
  - eexists. split; [vm_compute; reflexivity|].
    intros Hle. apply Hle. reflexivity.
  - eexists. split; [vm_compute; reflexivity|]. split; reflexivity.
Qed.

(* ===================================================================== *)
(** ** Confidence, threshold and order                                    *)
(* ===================================================================== *)

Section Confidence.
#[local] Open Scope Q_scope.
Implicit Types (r : RawResult Q) (s : ScoredResult Q).

Lemma blend_init (sem tms : Q) :
  blend SearchAction_init sem tms == (7 # 10) * sem + (3 # 10) * tms.
Proof. unfold blend. cbn. ring. Qed.

Lemma clamp_proper (x y : Q) : x == y → clamp x 0 1 == clamp y 0 1.
Proof.
  intros Hxy. unfold clamp.
  destruct (Qlt_le_dec x 0), (Qlt_le_dec y 0), (Qlt_le_dec 1 x), (Qlt_le_dec 1 y); lra.
Qed.

Lemma clamp_range (x : Q) : 0 <= clamp x 0 1 ∧ clamp x 0 1 <= 1.
Proof.
  unfold clamp. destruct (Qlt_le_dec x 0), (Qlt_le_dec 1 x); lra.
Qed.

Lemma confidence_of_init (sem tms : Q) :
  confidence_of SearchAction_init sem tms
  == clamp ((7 # 10) * sem + (3 # 10) * tms) 0 1.
Proof.
  unfold confidence_of. rewrite clamp01_clamp. apply clamp_proper, blend_init.
Qed.

(** In exact arithmetic: the confidence computed on lines 32-35 is the
    clamped blend, and the scored result carries it as
    [confidence_threshold] and, rounded, as [confidence]. *)
Lemma confidence_formula_exact r (u : string) (sem tms : Q) :
  features r = Ok (u, sem, tms) →
  let c := clamp ((7 # 10) * sem + (3 # 10) * tms) 0 1 in
  confidence_of SearchAction_init sem tms == c
  ∧ 0 <= c ∧ c <= 1
  ∧ ∀ s, score_of SearchAction_init r = Some s →
      confidence_threshold (highlight_instructions s) == c
      ∧ confidence s == Qround3 c
      ∧ 0 <= confidence s ∧ confidence s <= 1.
Proof.
  intros Hf c. pose proof (confidence_of_init sem tms) as Hc.
  pose proof (clamp_range ((7 # 10) * sem + (3 # 10) * tms)) as [H0 H1].
  fold c in Hc, H0, H1. split; [done|]. split; [done|]. split; [done|].
  intros s (u' & sem' & tms' & Hf' & _ & ->)%score_of_Some.
  rewrite Hf in Hf'. injection Hf' as <- <- <-.
  cbn [scored confidence highlight_instructions confidence_threshold
       f_round3 Q_PyFloat].
  split; [done|]. split; [by apply Qround3_proper|].
  destruct (Qround3_range 0 1000 (confidence_of SearchAction_init sem tms));
    lra.
Qed.

Lemma geb_init_iff (c : Q) :
  f_geb c (min_confidence_threshold SearchAction_init) = true ↔ 2 # 5 <= c.
Proof. unfold f_geb. apply Q_leb_iff. Qed.

(** In exact arithmetic: order, threshold and content of the output. *)
Lemma output_sorted_and_thresholded_exact (rs : list (RawResult Q))
    (out : list (ScoredResult Q)) :
  process_search_results SearchAction_init rs = Ok out →
  descending out
  ∧ (∀ s, s ∈ out → 2 # 5 <= confidence s)
  ∧ out ≡ₚ omap (score_of SearchAction_init) rs
  ∧ (∀ r u sem tms, r ∈ rs → features r = Ok (u, sem, tms) →
       (confidence_of SearchAction_init sem tms < 2 # 5 →
          score_of SearchAction_init r = None)
       ∧ (2 # 5 <= confidence_of SearchAction_init sem tms →
          score_of SearchAction_init r
          = Some (scored u (confidence_of SearchAction_init sem tms) sem tms))).
Proof.
  intros Hp. split; [|split; [|split; [|intros r u sem tms _ Hf; split]]].
  - apply process_search_results_Ok in Hp as [_ ->].
    intros i j a b Hij Ha Hb. apply Q_leb_iff.
    apply (sort_desc_lookup confidence (fun _ => True))
      with (5 := Hij) (6 := Ha) (7 := Hb).
    + intros x y. rewrite Q_ltb_iff, Q_leb_iff. lra.
    + intros x y _ _ Hlt. apply not_true_iff_false in Hlt.
      rewrite Q_ltb_iff in Hlt. apply Q_leb_iff. lra.
    + intros x y z _ _ _. rewrite !Q_leb_iff. lra.
    + by apply Forall_forall.
  - intros s Hs. apply (elem_of_output _ _ _ _ Hp) in Hs as (r & _ & Hr).
    apply score_of_Some in Hr as (u & sem & tms & _ & Hc & ->).
    apply geb_init_iff in Hc.
    cbn [scored confidence f_round3 Q_PyFloat].
    destruct (Qround3_range 400 1000 (confidence_of SearchAction_init sem tms))
      as [Hlo _]; [lra | |lra].
    pose proof (clamp01_range (blend SearchAction_init sem tms)).
    unfold confidence_of. lra.
  - by apply process_search_results_perm.
  - intros Hlt. unfold score_of, keep. rewrite Hf.
    destruct (f_geb _ _) eqn:Hc; [|done].
    apply geb_init_iff in Hc. lra.
  - intros Hge. unfold score_of, keep. rewrite Hf.
    apply geb_init_iff in Hge. by rewrite Hge.
Qed.
End Confidence.

(** C3 as stated fails: for the record at distance 0.5 whose query shares
    no term with its url, the clamped blend is 0.7 * (1 / 1.5) = 0.4666...,
    while the [confidence] of the scored result is 0.467: the field holds
    the rounded value, in exact arithmetic and in binary64 alike. *)
Lemma confidence_is_rounded :
  (∃ s : ScoredResult Q,
      process_search_results SearchAction_init [raw_result "y" (1 # 2)%Q "x"]
      = Ok [s]
      ∧ features (raw_result "y" (1 # 2)%Q "x") = Ok ("y", (1 / (1 + (1 # 2)))%Q, (0 # 2)%Q)
      ∧ (clamp ((7 # 10) * (1 / (1 + (1 # 2))) + (3 # 10) * (0 # 2)) 0 1 == 7 # 15)%Q
      ∧ (confidence s == 467 # 1000)%Q
      ∧ ¬ (confidence s
           == clamp ((7 # 10) * (1 / (1 + (1 # 2))) + (3 # 10) * (0 # 2)) 0 1)%Q)
  ∧ (∃ s : ScoredResult float,
      process_search_results SearchAction_init [raw_result "y" 0.5%float "x"]
      = Ok [s]
      ∧ confidence_of SearchAction_init (1 / (1 + 0.5))%float 0%float
        = 0.4666666666666666%float
      ∧ confidence s = 0.467%float
      ∧ PrimFloat.eqb (confidence s)
          (confidence_of SearchAction_init (1 / (1 + 0.5))%float 0%float) = false).
Proof.
  split.
  - eexists. split; [vm_compute; reflexivity|].
    split; [vm_compute; reflexivity|].
    split; [reflexivity|]. split; [reflexivity|].
    intros Heq. vm_compute in Heq. discriminate Heq.
  - eexists. split; [vm_compute; reflexivity|].
    split; [reflexivity|]. split; reflexivity.
Qed.

(* ===================================================================== *)
(** ** Monotonicity in the distance                                       *)
(* ===================================================================== *)

Section Monotone.
#[local] Open Scope Q_scope.

Lemma features_raw_result (u q : string) (d : Q) :
  0 <= d →
  ∃ tms, term_match_score (query_terms q) (url_terms u) = Ok tms
    ∧ features (raw_result u d q) = Ok (u, 1 / (1 + d), tms).
Proof.
  intros Hd.
  destruct (term_match_score_Q (query_terms q) (url_terms u)) as (tms & Ht & _).
  exists tms. split; [done|]. apply features_Ok. exists d, q.
  repeat split; [by apply semantic_similarity_Q | done].
Qed.

Lemma confidence_of_mono (self : SearchAction Q) (sem sem' tms : Q) :
  0 <= semantic_weight self → sem' <= sem →
  confidence_of self sem' tms <= confidence_of self sem tms.
Proof.
  intros Hw Hs. unfold confidence_of. apply clamp01_mono. unfold blend. cbn.
  apply Qplus_le_l. apply Qmult_le_compat_r; done.
Qed.

(** In exact arithmetic: two raw results with the same url and query and
    distances [0 <= d1 < d2] are both scored, with the same term match
    score; the one at [d1] gets the strictly greater semantic similarity
    and a confidence that is greater or equal, before and after rounding,
    so it is returned whenever the one at [d2] is.  At distance 0 the
    similarity is 1, and it falls below any positive bound once the
    distance is large enough. *)
Lemma semantic_similarity_decreasing_exact (u q : string) (d1 d2 : Q) :
  0 <= d1 → d1 < d2 →
  (∃ tms,
      features (raw_result u d1 q) = Ok (u, 1 / (1 + d1), tms)
      ∧ features (raw_result u d2 q) = Ok (u, 1 / (1 + d2), tms)
      ∧ 1 / (1 + d2) < 1 / (1 + d1)
      ∧ Qround3 (1 / (1 + d2)) <= Qround3 (1 / (1 + d1))
      ∧ confidence_of SearchAction_init (1 / (1 + d2)) tms
        <= confidence_of SearchAction_init (1 / (1 + d1)) tms
      ∧ (∀ s2, score_of SearchAction_init (raw_result u d2 q) = Some s2 →
           ∃ s1, score_of SearchAction_init (raw_result u d1 q) = Some s1
             ∧ semantic_score s2 <= semantic_score s1
             ∧ confidence s2 <= confidence s1))
  ∧ semantic_similarity (0 : Q) = Ok 1
  ∧ (∀ eps, 0 < eps → ∃ D, ∀ d, D <= d →
       ∃ sem, semantic_similarity d = Ok sem ∧ 0 < sem ∧ sem < eps).
Proof.
  intros H1 H12. split; [|split].
  - destruct (features_raw_result u q d1 H1) as (tms & Ht & Hf1).
    destruct (features_raw_result u q d2 ltac:(lra)) as (tms' & Ht' & Hf2).
    rewrite Ht in Ht'. injection Ht' as <-.
    pose proof (inv_succ_decreasing d1 d2 H1 H12) as Hsem.
    assert (Hconf : confidence_of SearchAction_init (1 / (1 + d2)) tms
                    <= confidence_of SearchAction_init (1 / (1 + d1)) tms).
    { apply confidence_of_mono; [cbn; lra | lra]. }
    exists tms. split; [done|]. split; [done|]. split; [done|].
    split; [apply Qround3_mono; lra|]. split; [done|].
    intros s2 (u' & sem' & tms' & Hf & Hc & ->)%score_of_Some.
    rewrite Hf2 in Hf. injection Hf as <- <- <-.
    exists (scored u (confidence_of SearchAction_init (1 / (1 + d1)) tms)
              (1 / (1 + d1)) tms).
    split; [|split].
    + apply score_of_Some. exists u, (1 / (1 + d1)), tms.
      split; [done|]. split; [|done].
      apply geb_init_iff. apply geb_init_iff in Hc. lra.
    + cbn [scored semantic_score f_round3 Q_PyFloat]. apply Qround3_mono. lra.
    + cbn [scored confidence f_round3 Q_PyFloat]. by apply Qround3_mono.
  - reflexivity.
  - intros eps He. exists (1 / eps). intros d Hd.
    assert (Hpos : 0 < 1 / eps) by (apply Qlt_shift_div_l; lra).
    exists (1 / (1 + d)). split; [apply semantic_similarity_Q; lra|].
    split; [apply inv_succ_range; lra | by apply inv_succ_vanishes].
Qed.
End Monotone.

(* ===================================================================== *)
(** ** Concrete runs                                                      *)
(* ===================================================================== *)

(** The example of the spec: query ["machine learning"] against
    ["site.com/blog/machine-learning-basics"].  ["machine"] is not a url
    term on its own (it sits inside the field ["machine learning basics"]
    and inside the word ["site.com/blog/machine"]), so there is one exact
    match and there are two partial matches. *)
Lemma matches_count_witness :
  let q := "machine learning" in
  let u := "site.com/blog/machine-learning-basics" in
  exact_matches (query_terms q) (url_terms u) = size ({["learning"]} : gset string)
  ∧ partial_matches (query_terms q) (url_terms u)
    = size ({["machine"; "learning"]} : gset string).
Proof.
  intros q u. apply (matches_count q u).
  - intros t. unfold is_query_term, is_url_term.
    change (Py.split (Py.lower q)) with ["machine"; "learning"].
    change (Py.replace "_" " " (Py.replace "-" " " (Py.lower u)))
      with "site.com/blog/machine learning basics".
    change (Py.split_on "/" "site.com/blog/machine learning basics")
      with ["site.com"; "blog"; "machine learning basics"].
    change (Py.split "site.com/blog/machine learning basics")
      with ["site.com/blog/machine"; "learning"; "basics"].
    rewrite elem_of_singleton, !elem_of_cons, !elem_of_nil. split.
    + intros ->. split; [right; by left | right; right; by left].
    + intros [[->|[->|[]]] Hu]; [exfalso|done].
      destruct Hu as [[Hu|[Hu|[Hu|[]]]]|[Hu|[Hu|[Hu|[]]]]]; discriminate Hu.
  - intros t. unfold is_query_term, is_url_term.
    change (Py.split (Py.lower q)) with ["machine"; "learning"].
    change (Py.replace "_" " " (Py.replace "-" " " (Py.lower u)))
      with "site.com/blog/machine learning basics".
    change (Py.split_on "/" "site.com/blog/machine learning basics")
      with ["site.com"; "blog"; "machine learning basics"].
    change (Py.split "site.com/blog/machine learning basics")
      with ["site.com/blog/machine"; "learning"; "basics"].
    rewrite elem_of_union, !elem_of_singleton, !elem_of_cons, !elem_of_nil. split.
    + intros [->| ->].
      * split; [by left|]. exists "machine learning basics".
        split; [left; right; right; by left|]. by apply contains_spec.
      * split; [right; by left|]. exists "learning".
        split; [right; right; by left|]. by apply contains_spec.
    + intros [[->|[->|[]]] _]; [by left | by right].
Defined.

Lemma raw_result_has_keys {F} (u q : string) (d : F) : ¬ lacks_key (raw_result u d q).
Proof. intros [H|[H|H]]; discriminate H. Qed.

(** In exact arithmetic the divisor of line 17 is zero at distance -1 and
    nowhere else; a distance that is not negative never is. *)
Lemma zero_divisor_Q (r : RawResult Q) :
  zero_divisor r ↔ ∃ d, distance r = Some d ∧ (d == -1)%Q.
Proof.
  unfold zero_divisor. split; intros (d & Hd & Hz); exists d; (split; [done|]).
  - apply Q_eqb_iff in Hz. cbn in Hz. lra.
  - apply Q_eqb_iff. cbn. lra.
Qed.

Lemma nonneg_distance_no_zero_divisor (r : RawResult Q) :
  (∀ d, distance r = Some d → (0 <= d)%Q) → ¬ zero_divisor r.
Proof.
  intros Hd (d & Hr & Heq)%zero_divisor_Q. specialize (Hd d Hr). lra.
Qed.

(** Outside the data model, which has [distance >= 0]: a record that has
    all three keys and distance -1.0 makes line 17 divide by zero, so the
    call raises [ZeroDivisionError] although no record lacks a key; in
    exact arithmetic and in binary64 alike. *)
Example raises_without_missing_key :
  process_search_results SearchAction_init [raw_result "a" (-1)%Q "a"]
    = Raise ZeroDivisionError
  ∧ process_search_results SearchAction_init [raw_result "a" (-1)%float "a"]
    = Raise ZeroDivisionError
  ∧ ¬ (∃ r : RawResult Q, r ∈ [raw_result "a" (-1)%Q "a"] ∧ lacks_key r)
  ∧ ¬ (∃ r : RawResult float, r ∈ [raw_result "a" (-1)%float "a"] ∧ lacks_key r)
  ∧ ¬ (raises (process_search_results SearchAction_init [raw_result "a" (-1)%Q "a"])
       ↔ ∃ r : RawResult Q, r ∈ [raw_result "a" (-1)%Q "a"] ∧ lacks_key r).
Proof.
  assert (Hno : ∀ F (d : F), ¬ ∃ r : RawResult F, r ∈ [raw_result "a" d "a"] ∧ lacks_key r).
  { intros F d (r & ->%list_elem_of_singleton & Hk).
    by apply raw_result_has_keys in Hk. }
  split; [vm_compute; reflexivity|]. split; [vm_compute; reflexivity|].
  split; [apply Hno|]. split; [apply Hno|].
  intros [Hraise _]. apply (Hno Q (-1)%Q), Hraise.
  exists ZeroDivisionError. vm_compute. reflexivity.
Qed.

(* ===================================================================== *)
(** ** The method on the store                                            *)
(* ===================================================================== *)

Section StoreFacts.
Context {F : Type} `{PyFloat F}.
Implicit Types (h : heap F) (l pr self results : loc) (ls : list loc).

Lemma M_bind_Returns {A B} (m : M F A) (k : A → M F B) h a h' :
  m h = Returns a h' → (m ≫= k) h = k a h'.
Proof. intros Hm. unfold mbind, M_bind. by rewrite Hm. Qed.

Lemma M_bind_Raises {A B} (m : M F A) (k : A → M F B) h e h' :
  m h = Raises e h' → (m ≫= k) h = Raises e h'.
Proof. intros Hm. unfold mbind, M_bind. by rewrite Hm. Qed.

Lemma read_list_Returns l h items :
  h !! l = Some (OList items) → read_list l h = Returns items h.
Proof. intros Hl. unfold read_list. by rewrite Hl. Qed.

Lemma read_raw_Returns l h r :
  h !! l = Some (ORaw r) → read_raw l h = Returns r h.
Proof. intros Hl. unfold read_raw. by rewrite Hl. Qed.

Lemma read_scored_Returns l h s :
  h !! l = Some (OScored s) → read_scored l h = Returns s h.
Proof. intros Hl. unfold read_scored. by rewrite Hl. Qed.

Lemma read_instance_Returns l h a :
  h !! l = Some (OInstance a) → read_instance l h = Returns a h.
Proof. intros Hl. unfold read_instance. by rewrite Hl. Qed.

Lemma fresh_lookup h : h !! fresh (dom h) = None.
Proof. apply not_elem_of_dom, is_fresh. Qed.

Lemma scored_at_weaken h h' ls ss :
  h ⊆ h' → scored_at h ls ss → scored_at h' ls ss.
Proof.
  intros Hsub Hs. eapply Forall2_impl; [exact Hs|]. intros l s Hl.
  simpl in Hl. eapply lookup_weaken; [exact Hl | exact Hsub].
Qed.

Lemma scored_at_is_Some h ls ss l :
  scored_at h ls ss → l ∈ ls → is_Some (h !! l).
Proof.
  induction 1 as [|l' s ls ss Hl' _ IH]; intros Hin.
  - by apply elem_of_nil in Hin.
  - apply elem_of_cons in Hin as [->|Hin]; [by eexists | by apply IH].
Qed.

(** Writing the list object leaves the records it refers to in place. *)
Lemma scored_at_insert_list h pr items ls ss :
  scored_at h ls ss → is_Some (h !! pr ≫= fun o => match o with OList _ => Some () | _ => None end) →
  scored_at (<[pr := OList items]> h) ls ss.
Proof.
  intros Hs Hpr. eapply Forall2_impl; [exact Hs|]. intros l s Hl. cbn beta in Hl.
  rewrite lookup_insert_ne; [done|]. intros <-. rewrite Hl in Hpr.
  by destruct Hpr.
Qed.

(** One iteration on the store does what [loop_body] does on values, and
    keeps the invariant. *)
Lemma loop_body_h_spec h0 pr h acc_ls acc self a result r :
  loop_inv h0 pr h acc_ls acc →
  h0 !! self = Some (OInstance a) →
  h0 !! result = Some (ORaw r) →
  match loop_body a acc r with
  | Ok acc' => ∃ h' acc_ls',
      loop_body_h self pr result h = Returns tt h' ∧ loop_inv h0 pr h' acc_ls' acc'
  | Raise e => loop_body_h self pr result h = Raises e h
  end.
Proof.
  intros (Hsub & Hpr0 & Hpr & Hacc & Hfresh & Hnodup) Hself Hres.
  unfold loop_body_h, loop_body.
  rewrite (M_bind_Returns _ _ h r h)
    by (apply read_raw_Returns; eapply lookup_weaken; [exact Hres | exact Hsub]).
  destruct (features r) as [[[u sem] tms]|e]; cbn [mbind result_bind]; [|done].
  unfold mbind at 1, M_bind at 1. cbn [lift].
  rewrite (M_bind_Returns _ _ h a h)
    by (apply read_instance_Returns; eapply lookup_weaken; [exact Hself | exact Hsub]).
  destruct (keep a u sem tms) as [s|].
  - set (l := fresh (dom h)). set (h1 := <[l := OScored s]> h).
    assert (Hl : h !! l = None) by apply fresh_lookup.
    assert (Hne : pr ≠ l) by (intros ->; congruence).
    assert (Hl0 : h0 !! l = None)
      by (eapply lookup_weaken_None; [exact Hl | exact Hsub]).
    exists (<[pr := OList (acc_ls ++ [l])]> h1), (acc_ls ++ [l])%list.
    split.
    + unfold mbind, M_bind, alloc, append. fold l. fold h1.
      unfold mbind, M_bind.
      rewrite (read_list_Returns pr h1 acc_ls)
        by (unfold h1; by rewrite lookup_insert_ne).
      reflexivity.
    + split; [|split; [done|split; [by rewrite lookup_insert_eq|split; [|split]]]].
      * apply insert_subseteq_r; [done|]. by apply insert_subseteq_r.
      * apply scored_at_insert_list.
        -- apply Forall2_app.
           ++ eapply scored_at_weaken; [|exact Hacc]. by apply insert_subseteq.
           ++ repeat constructor. unfold h1. by rewrite lookup_insert_eq.
        -- unfold h1. rewrite lookup_insert_ne by done. rewrite Hpr. by eexists.
      * apply Forall_app. split; [done|]. by repeat constructor.
      * apply NoDup_app. split; [done|]. split; [|apply NoDup_singleton].
        intros l' Hl' ->%list_elem_of_singleton.
        destruct (scored_at_is_Some h acc_ls acc l Hacc Hl') as [o Ho]. congruence.
  - exists h, acc_ls. split; [done|]. by repeat split.
Qed.
(** The loop on the store, started at index [i] with the steps left that
    the list has elements from [i] on, runs to completion and does what
    [loop] does on the raw results from [i] on. *)
Lemma loop_h_spec h0 pr self a results ls rs :
  h0 !! self = Some (OInstance a) →
  h0 !! results = Some (OList ls) →
  ∀ i h acc_ls acc,
    raw_at h0 (drop i ls) rs →
    loop_inv h0 pr h acc_ls acc →
    match loop a acc rs with
    | Ok out => ∃ h' out_ls,
        loop_h (length rs) self results pr i h = Returns tt h'
        ∧ loop_inv h0 pr h' out_ls out
    | Raise e => ∃ h',
        loop_h (length rs) self results pr i h = Raises e h' ∧ h0 ⊆ h'
    end.
Proof.
  intros Hself Hres. induction rs as [|r rs IH]; intros i h acc_ls acc Hraw Hinv.
  - apply Forall2_nil_inv_r in Hraw.
    assert (Hi : ls !! i = None).
    { rewrite <- (Nat.add_0_r i), <- lookup_drop, Hraw. done. }
    exists h, acc_ls. split; [|done]. cbn [loop_h length].
    destruct Hinv as (Hsub & _).
    rewrite (M_bind_Returns _ _ h ls h)
      by (apply read_list_Returns; eapply lookup_weaken; [exact Hres | exact Hsub]).
    by rewrite Hi.
  - apply Forall2_cons_inv_r in Hraw as (l & rest & Hl & Hrest & Hdrop).
    assert (Hi : ls !! i = Some l).
    { rewrite <- (Nat.add_0_r i), <- lookup_drop, Hdrop. done. }
    assert (Hdrop' : drop (S i) ls = rest).
    { rewrite (drop_S _ _ _ Hi) in Hdrop. by injection Hdrop. }
    assert (Hunfold : loop_h (length (r :: rs)) self results pr i h
                      = (loop_body_h self pr l;;
                         loop_h (length rs) self results pr (S i)) h).
    { cbn [loop_h length]. destruct Hinv as (Hsub & _).
      rewrite (M_bind_Returns _ _ h ls h)
        by (apply read_list_Returns; eapply lookup_weaken; [exact Hres | exact Hsub]).
      by rewrite Hi. }
    rewrite Hunfold. cbn [loop].
    pose proof (loop_body_h_spec h0 pr h acc_ls acc self a l r Hinv Hself Hl) as Hbody.
    destruct (loop_body a acc r) as [acc'|e]; cbn [mbind result_bind].
    + destruct Hbody as (h' & acc_ls' & Hrun & Hinv').
      rewrite (M_bind_Returns _ _ _ _ _ Hrun).
      rewrite <- Hdrop' in Hrest. apply (IH (S i) h' acc_ls' acc' Hrest Hinv').
    + exists h. split; [by apply M_bind_Raises | by destruct Hinv].
Qed.

Lemma keyed_spec h ls ss :
  scored_at h ls ss →
  ∃ ks, keyed ls h = Returns ks h
    ∧ List.map snd ks = ls
    ∧ Forall2 (fun k s => k.1 = confidence s ∧ h !! k.2 = Some (OScored s)) ks ss.
Proof.
  induction 1 as [|l s ls ss Hl _ (ks & Hks & Hsnd & Hrel)]; cbn [keyed].
  - by exists [].
  - exists ((confidence s, l) :: ks). split; [|split].
    + rewrite (M_bind_Returns _ _ _ _ _ (read_scored_Returns l h s Hl)).
      by rewrite (M_bind_Returns _ _ _ _ _ Hks).
    + cbn. by rewrite Hsnd.
    + constructor; [by split | done].
Qed.

(** Sorting two lists that agree position by position on their keys moves
    their elements alike. *)
Lemma sort_desc_Forall2 {A B} (keyA : A → F) (keyB : B → F) (R : A → B → Prop)
    (xs : list A) (ys : list B) :
  (∀ x y, R x y → keyA x = keyB y) →
  Forall2 R xs ys → Forall2 R (sort_desc keyA xs) (sort_desc keyB ys).
Proof.
  intros Hkey.
  assert (Hins : ∀ x y (xs' : list A) (ys' : list B), R x y → Forall2 R xs' ys' →
            Forall2 R (insert_desc keyA x xs') (insert_desc keyB y ys')).
  { intros x y xs' ys' Hxy Hk. induction Hk as [|x' y' xs' ys' Hxy' Hk IH];
      cbn [insert_desc].
    - by repeat constructor.
    - rewrite (Hkey x y Hxy), (Hkey x' y' Hxy').
      destruct (f_ltb (keyB y) (keyB y')); by repeat constructor. }
  induction 1 as [|x y xs' ys' Hxy Hk IH]; cbn [sort_desc foldr]; [constructor|].
  by apply Hins.
Qed.

(** [process_search_results_h] refines [process_search_results]: from a
    store in which [self] is a [SearchAction], [results] a list and its
    elements raw results, the run on the store ends as the run on the
    values does, returning a new list of new records that hold the scored
    results, or raising the same exception; nothing the store held before
    has changed. *)
Lemma process_search_results_h_refines h self a results ls rs :
  h !! self = Some (OInstance a) →
  h !! results = Some (OList ls) →
  raw_at h ls rs →
  match process_search_results a rs with
  | Ok out => ∃ pr h' out_ls,
      process_search_results_h self results h = Returns pr h'
      ∧ loop_inv h pr h' out_ls out
  | Raise e => ∃ h',
      process_search_results_h self results h = Raises e h' ∧ h ⊆ h'
  end.
Proof.
  intros Hself Hres Hraw.
  set (pr := fresh (dom h)). set (h1 := <[pr := OList []]> h).
  assert (Hpr : h !! pr = None) by apply fresh_lookup.
  assert (Hne : results ≠ pr) by (intros ->; congruence).
  assert (Hinv : loop_inv h pr h1 [] []).
  { split; [by apply insert_subseteq|]. split; [done|].
    split; [by apply lookup_insert_eq|]. repeat split; constructor. }
  assert (Hrun : process_search_results_h self results h
                 = match ls with
                   | [] => Returns pr h1
                   | _ => (loop_h (length ls) self results pr 0;;
                           sort_h pr;; mret pr) h1
                   end).
  { unfold process_search_results_h. unfold mbind at 1, M_bind at 1.
    cbn [alloc]. fold pr. fold h1.
    rewrite (M_bind_Returns _ _ h1 ls h1)
      by (apply read_list_Returns; unfold h1; by rewrite lookup_insert_ne).
    by destruct ls. }
  rewrite Hrun. clear Hrun.
  destruct Hraw as [|l r ls rs Hl Hraw].
  { exists pr, h1, []. done. }
  assert (Hraw' : raw_at h (drop 0 (l :: ls)) (r :: rs)) by (by constructor).
  pose proof (loop_h_spec h pr self a results (l :: ls) (r :: rs) Hself Hres
                0 h1 [] [] Hraw' Hinv) as Hloop.
  assert (Hlen : length (l :: ls) = length (r :: rs))
    by (exact (Forall2_length _ _ _ Hraw')).
  rewrite Hlen. unfold process_search_results.
  destruct (loop a [] (r :: rs)) as [out|e]; cbn [mbind result_bind].
  - destruct Hloop as (h2 & out_ls & Hrun & Hsub & Hpr0 & Hpr2 & Hout & Hfresh & Hnodup).
    rewrite (M_bind_Returns _ _ _ _ _ Hrun).
    destruct (keyed_spec h2 out_ls out Hout) as (ks & Hks & Hsnd & Hrel).
    set (sorted_ls := List.map snd (sort_desc fst ks)).
    exists pr, (<[pr := OList sorted_ls]> h2), sorted_ls. split.
    + unfold sort_h.
      rewrite (M_bind_Returns _ _ h2 tt (<[pr := OList sorted_ls]> h2)); [done|].
      rewrite (M_bind_Returns _ _ _ _ _ (read_list_Returns pr h2 out_ls Hpr2)).
      by rewrite (M_bind_Returns _ _ _ _ _ Hks).
    + assert (Hsorted : Forall2
                (fun k s => k.1 = confidence s ∧ h2 !! k.2 = Some (OScored s))
                (sort_desc fst ks) (sort_desc confidence out)).
      { apply sort_desc_Forall2; [|done]. by intros k s [Hk _]. }
      assert (Hperm : sorted_ls ≡ₚ out_ls).
      { unfold sorted_ls. rewrite <- Hsnd. apply Permutation_map, sort_desc_perm. }
      split; [by apply insert_subseteq_r|]. split; [done|].
      split; [by apply lookup_insert_eq|]. split; [|split].
      * apply scored_at_insert_list; [|rewrite Hpr2; by eexists].
        unfold sorted_ls, scored_at. apply Forall2_fmap_l.
        eapply Forall2_impl; [exact Hsorted|]. by intros k s [_ Hk].
      * by rewrite Hperm.
      * by rewrite Hperm.
  - destruct Hloop as (h2 & Hrun & Hsub). exists h2.
    split; [by apply M_bind_Raises | done].
Qed.
End StoreFacts.


Section Frame.
Context {F : Type} `{PyFloat F}.

Lemma raw_at_weaken (h h' : heap F) ls rs :
  h ⊆ h' → raw_at h ls rs → raw_at h' ls rs.
Proof.
  intros Hsub Hs. eapply Forall2_impl; [exact Hs|]. intros l r Hl.
  simpl in Hl. eapply lookup_weaken; [exact Hl | exact Hsub].
Qed.

Lemma output_url (a : SearchAction F) rs out s :
  process_search_results a rs = Ok out → s ∈ out →
  ∃ r, r ∈ rs ∧ url r = Some (s_url s).
Proof.
  intros Hp Hs. apply (elem_of_output _ _ _ _ Hp) in Hs as (r & Hr & Hsc).
  exists r. split; [done|].
  apply score_of_Some in Hsc as (u & sem & tms & Hf & _ & ->).
  by apply features_Ok in Hf as (d & q & _ & _ & _ & Hu & _).
Qed.

(** C10. Called on a store in which [self] is a [SearchAction] with
    attributes [a], [results] is a list of references [ls] and these lead
    to the raw results [rs], the method ends, by returning or by raising,
    in a store [h'] that still holds every object of the store before the
    call unchanged: the instance and its three attributes, the input list
    and each raw result.  When it returns, the list returned and the records
    in it are new objects, distinct from one another and absent from the
    store before the call; the url of each is the url of some input record;
    and there are no more of them than input records. *)
Theorem process_search_results_h_frame (h : heap F) (self results : loc)
    (a : SearchAction F) (ls : list loc) (rs : list (RawResult F)) :
  h !! self = Some (OInstance a) →
  h !! results = Some (OList ls) →
  raw_at h ls rs →
  ∃ h',
    h ⊆ h'
    ∧ h' !! self = Some (OInstance a)
    ∧ h' !! results = Some (OList ls)
    ∧ raw_at h' ls rs
    ∧ ((∃ e, process_search_results_h self results h = Raises e h'
             ∧ process_search_results a rs = Raise e)
       ∨ (∃ pr out_ls out,
             process_search_results_h self results h = Returns pr h'
             ∧ process_search_results a rs = Ok out
             ∧ h !! pr = None
             ∧ h' !! pr = Some (OList out_ls)
             ∧ scored_at h' out_ls out
             ∧ NoDup out_ls
             ∧ Forall (fun l => h !! l = None) out_ls
             ∧ (length out_ls ≤ length ls)%nat
             ∧ ∀ s, s ∈ out → ∃ r, r ∈ rs ∧ url r = Some (s_url s))).
Proof.
  intros Hself Hres Hraw.
  pose proof (process_search_results_h_refines h self a results ls rs
                Hself Hres Hraw) as Href.
  destruct (process_search_results a rs) as [out|e] eqn:Hpure.
  - destruct Href as (pr & h' & out_ls & Hrun & Hsub & Hpr & Hpr' & Hout & Hfresh & Hnodup).
    exists h'. split; [done|].
    split; [eapply lookup_weaken; [exact Hself | exact Hsub]|].
    split; [eapply lookup_weaken; [exact Hres | exact Hsub]|].
    split; [by eapply raw_at_weaken|].
    right. exists pr, out_ls, out. repeat (split; [done|]). split.
    + rewrite (Forall2_length _ _ _ Hout), (Forall2_length _ _ _ Hraw).
      by eapply length_output.
    + intros s Hs. by eapply output_url.
  - destruct Href as (h' & Hrun & Hsub).
    exists h'. split; [done|].
    split; [eapply lookup_weaken; [exact Hself | exact Hsub]|].
    split; [eapply lookup_weaken; [exact Hres | exact Hsub]|].
    split; [by eapply raw_at_weaken|].
    left. by exists e.
Qed.
End Frame.

(** Witness of C10 in binary64: a store with the instance at 1, the input
    list at 2 and three raw results at 3, 4 and 5. *)
Lemma process_search_results_h_frame_witness :
  let a : SearchAction float := SearchAction_init in
  let rs := [raw_result "y" 0.5%float "x"; raw_result "y" 5%float "x";
             raw_result "a" 0%float "a"] in
  let ls := [3; 4; 5]%positive in
  let h : heap float :=
    {[ 1%positive := OInstance a; 2%positive := OList ls;
       3%positive := ORaw (raw_result "y" 0.5%float "x");
       4%positive := ORaw (raw_result "y" 5%float "x");
       5%positive := ORaw (raw_result "a" 0%float "a") ]} in
  ∃ h',
    h ⊆ h'
    ∧ h' !! 1%positive = Some (OInstance a)
    ∧ h' !! 2%positive = Some (OList ls)
    ∧ raw_at h' ls rs
    ∧ ((∃ e, process_search_results_h 1%positive 2%positive h = Raises e h'
             ∧ process_search_results a rs = Raise e)
       ∨ (∃ pr out_ls out,
             process_search_results_h 1%positive 2%positive h = Returns pr h'
             ∧ process_search_results a rs = Ok out
             ∧ h !! pr = None
             ∧ h' !! pr = Some (OList out_ls)
             ∧ scored_at h' out_ls out
             ∧ NoDup out_ls
             ∧ Forall (fun l => h !! l = None) out_ls
             ∧ (length out_ls ≤ length ls)%nat
             ∧ ∀ s, s ∈ out → ∃ r, r ∈ rs ∧ url r = Some (s_url s))).
Proof.
  intros a rs ls h.
  apply (process_search_results_h_frame h 1%positive 2%positive a ls rs).
  - reflexivity.
  - reflexivity.
  - repeat constructor.
Defined.

(** The run on that store, in full: the list returned is the new object at
    6; the records at 8 (confidence 1.0) and 7 (confidence 0.467) are new
    and in descending order; the record at distance 5, whose confidence
    0.7 / 6 is below 0.4, has none; the five objects of the store before
    the call are as they were. *)
Example process_search_results_h_run :
  let h : heap float :=
    {[ 1%positive := OInstance SearchAction_init;
       2%positive := OList [3; 4; 5]%positive;
       3%positive := ORaw (raw_result "y" 0.5%float "x");
       4%positive := ORaw (raw_result "y" 5%float "x");
       5%positive := ORaw (raw_result "a" 0%float "a") ]} in
  process_search_results_h 1%positive 2%positive h
  = Returns 6%positive
      (<[6%positive := OList [8; 7]%positive]>
         (<[8%positive :=
              OScored {| s_url := "a"; confidence := 1%float;
                         semantic_score := 1%float; term_score := 1.5%float;
                         highlight_instructions :=
                           {| method := "semantic_highlight";
                              confidence_threshold := 1%float |} |}]>
            (<[7%positive :=
                 OScored {| s_url := "y"; confidence := 0.467%float;
                            semantic_score := 0.667%float; term_score := 0%float;
                            highlight_instructions :=
                              {| method := "semantic_highlight";
                                 confidence_threshold := 0.4666666666666666%float |} |}]>
               h))).
Proof. vm_compute. reflexivity. Qed.

(** The example of the spec in binary64: query ["machine learning"], url
    ["site.com/blog/machine-learning-basics"], distance 0.5. *)
Example spec_example_binary64 :
  process_search_results SearchAction_init
    [raw_result "site.com/blog/machine-learning-basics" 0.5%float "machine learning"]
  = Ok [{| s_url := "site.com/blog/machine-learning-basics";
           confidence := 0.767%float;
           semantic_score := 0.667%float;
           term_score := 1%float;
           highlight_instructions :=
             {| method := "semantic_highlight";
                confidence_threshold := 0.7666666666666666%float |} |}].
Proof. vm_compute. reflexivity. Qed.

Example lower_example : Py.lower "Site.COM/Blog_A-b" = "site.com/blog_a-b".
Proof. reflexivity. Qed.

Example split_on_example :
  Py.split_on "/" "a//b/" = ["a"; ""; "b"; ""] ∧ Py.split_on "/" "" = [""].
Proof. split; reflexivity. Qed.

Example split_example :
  Py.split " a  b " = ["a"; "b"] ∧ Py.split "" = [] ∧ Py.split "   " = [].
Proof. repeat split; reflexivity. Qed.

Example url_terms_example :
  url_terms "a/b_C-d"
  = ({["a"; "b c d"]} : gset string) ∪ {["a/b"; "c"; "d"]}.
Proof. vm_compute. reflexivity. Qed.

(* ===================================================================== *)
(** ** Binary64: order, threshold and range of the confidence             *)
(* ===================================================================== *)

(** What the method guarantees about the order and the range of the
    [confidence] it returns depends on comparisons and on [round(x, 3)]
    alone: it is read off the comparison of doubles. *)

Lemma compare_cont_Eq (m1 m2 : positive) :
  PosDef.Pos.compare_cont Eq m1 m2 = (Zpos m1 ?= Zpos m2)%Z.
Proof. reflexivity. Qed.

Lemma unit_interval_shape (x : float) :
  unit_interval x ↔ unit_shape (Prim2SF x).
Proof.
  unfold unit_interval. rewrite !leb_spec.
  change (Prim2SF 0) with (S754_zero false).
  change (Prim2SF 1) with (S754_finite false 4503599627370496 (-52)).
  destruct (Prim2SF x) as [s|s| |s m e]; unfold SFleb, SFcompare; cbn [unit_shape].
  - split; [done|]. intros _. by destruct s.
  - destruct s; split; (done || intros []; done).
  - split; (done || intros []; done).
  - destruct s; [split; (done || intros []; done)|].
    rewrite compare_cont_Eq. change (2 ^ 52)%Z with 4503599627370496%Z.
    destruct (Z.compare_spec e (-52)) as [->|Hlt|Hgt].
    + destruct (Z.compare_spec (Zpos m) 4503599627370496) as [Hm|Hm|Hm].
      * split; [intros _; right; split; [done|lia] | done].
      * split; [intros _; right; split; [done|lia] | done].
      * split; [intros [_ [=]] | intros [?|[_ ?]]; lia].
    + split; [intros _; by left | done].
    + split; [intros [_ [=]] | intros [?|[? _]]; lia].
Qed.

(** *** Mantissas of valid doubles *)

Lemma digits2_pos_bounds (m : positive) :
  (2 ^ (Zpos (digits2_pos m) - 1) <= Zpos m < 2 ^ Zpos (digits2_pos m))%Z.
Proof.
  induction m as [m IH|m IH|]; cbn [digits2_pos].
  - rewrite Pos2Z.inj_succ, Z.pow_succ_r by lia.
    replace (Z.succ (Zpos (digits2_pos m)) - 1)%Z
      with (Z.succ (Zpos (digits2_pos m) - 1)) by lia.
    rewrite Z.pow_succ_r by lia. lia.
  - rewrite Pos2Z.inj_succ, Z.pow_succ_r by lia.
    replace (Z.succ (Zpos (digits2_pos m)) - 1)%Z
      with (Z.succ (Zpos (digits2_pos m) - 1)) by lia.
    rewrite Z.pow_succ_r by lia. lia.
  - cbn. lia.
Qed.

(** A valid finite double has a mantissa below 2^53, and of exactly 53 bits
    unless its exponent is the least one. *)
Lemma valid_mantissa (s : bool) (m : positive) (e : Z) :
  valid_binary (S754_finite s m e) = true →
  (Zpos m < 2 ^ 53)%Z ∧ ((-1074 < e)%Z → (2 ^ 52 <= Zpos m)%Z).
Proof.
  cbn [SpecFloat.valid_binary]. unfold bounded, canonical_mantissa, fexp.
  intros [Hc _]%andb_prop. apply Z.eqb_eq in Hc.
  change (SpecFloat.emin prec emax) with (-1074)%Z in Hc.
  change prec with 53%Z in Hc.
  pose proof (digits2_pos_bounds m) as [Hlo Hhi].
  set (d := Zpos (digits2_pos m)) in *.
  assert (Hd : (0 < d)%Z) by (subst d; lia).
  split.
  - assert (Hd53 : (d <= 53)%Z) by lia.
    eapply Z.lt_le_trans; [exact Hhi|]. apply Z.pow_le_mono_r; lia.
  - intros He. assert (Hd53 : d = 53%Z) by lia.
    rewrite Hd53 in Hlo. exact Hlo.
Qed.

(** *** Order of the doubles between 0 and 1 *)

Lemma float_ltb_leb (x y : float) : PrimFloat.ltb x y = true → PrimFloat.leb x y = true.
Proof.
  rewrite ltb_spec, leb_spec. unfold SFltb, SFleb.
  by destruct (SFcompare (Prim2SF x) (Prim2SF y)) as [[]|].
Qed.

Ltac compare_cases :=
  repeat match goal with
         | s : bool |- _ => destruct s
         end;
  try done; intros; rewrite ?compare_cont_Eq in *;
  repeat match goal with
         | |- context [(?a ?= ?b)%Z] => destruct (Z.compare_spec a b)
         | H : context [(?a ?= ?b)%Z] |- _ => destruct (Z.compare_spec a b)
         end;
  first [done | lia].

Lemma unit_leb_total (x y : float) :
  unit_interval x → unit_interval y →
  PrimFloat.ltb x y = false → PrimFloat.leb y x = true.
Proof.
  rewrite !unit_interval_shape, ltb_spec, leb_spec. unfold SFltb, SFleb.
  destruct (Prim2SF x) as [sx|sx| |sx mx ex], (Prim2SF y) as [sy|sy| |sy my ey];
    cbn [unit_shape SFcompare]; compare_cases.
Qed.

Lemma unit_leb_trans (x y z : float) :
  unit_interval x → unit_interval y → unit_interval z →
  PrimFloat.leb x y = true → PrimFloat.leb y z = true → PrimFloat.leb x z = true.
Proof.
  rewrite !unit_interval_shape, !leb_spec. unfold SFleb.
  destruct (Prim2SF x) as [sx|sx| |sx mx ex], (Prim2SF y) as [sy|sy| |sy my ey],
    (Prim2SF z) as [sz|sz| |sz mz ez]; cbn [unit_shape SFcompare]; compare_cases.
Qed.

Lemma clamp01_unit (c : float) : unit_interval (clamp01 c).
Proof.
  unfold clamp01, py_max, py_min. cbn [f_ltb f_zero f_one float_PyFloat].
  destruct (PrimFloat.ltb c 1) eqn:H1.
  - destruct (PrimFloat.ltb 0 c) eqn:H0.
    + split; by apply float_ltb_leb.
    + split; reflexivity.
  - change (PrimFloat.ltb 0 1) with true. cbn. split; reflexivity.
Qed.

(** *** Rounding the doubles between 0 and 1 *)

Lemma millis_table :
  forallb (fun k => PrimFloat.leb 0 (millis k) && PrimFloat.leb (millis k) 1
                    && ((k <? 400)%Z || PrimFloat.leb 0.4 (millis k)))
    (seqZ 0 1001) = true.
Proof. vm_compute. reflexivity. Qed.

Lemma millis_unit (k : Z) :
  (0 <= k <= 1000)%Z →
  unit_interval (millis k)
  ∧ ((400 <= k)%Z → PrimFloat.leb 0.4 (millis k) = true).
Proof.
  intros Hk. pose proof millis_table as Ht.
  rewrite forallb_forall in Ht. specialize (Ht k).
  destruct (andb_prop _ _ (Ht ltac:(apply list_elem_of_In, elem_of_seqZ; lia)))
    as [[H0 H1]%andb_prop H4].
  split; [by split|]. intros Hk4.
  apply orb_prop in H4 as [Hlt|H4]; [|done]. apply Z.ltb_lt in Hlt. lia.
Qed.

Lemma float_round3_unit (x : float) :
  unit_interval x →
  float_round3 x = x
  ∨ ∃ k, (0 <= k <= 1000)%Z ∧ float_round3 x = millis k
         ∧ (PrimFloat.leb 0.4 x = true → (400 <= k)%Z).
Proof.
  intros Hx. pose proof (Prim2SF_valid x) as Hvalid.
  apply unit_interval_shape in Hx. unfold float_round3.
  rewrite leb_spec. change (Prim2SF 0.4) with (S754_finite false 7205759403792794 (-54)).
  destruct (Prim2SF x) as [s|s| |s m e]; cbn [unit_shape] in Hx; try done; [by left|].
  destruct s; [done|]. right.
  apply valid_mantissa in Hvalid as [Hm53 Hm52].
  assert (He : (e <= -52)%Z) by lia.
  replace (0 <=? e)%Z with false by (symmetry; apply Z.leb_gt; lia).
  set (den := Pos.pow 2 (Z.to_pos (- e))).
  assert (Hden : Zpos den = (2 ^ (- e))%Z).
  { unfold den. rewrite Pos2Z.inj_pow, Z2Pos.id by lia. done. }
  set (q := Qmake (Zpos m * 1000) den).
  assert (Hpow : (2 ^ 52 <= 2 ^ (- e))%Z) by (apply Z.pow_le_mono_r; lia).
  assert (Hmle : (Zpos m <= 2 ^ (- e))%Z).
  { destruct Hx as [Hlt|[-> Hle]]; [|exact Hle].
    assert (2 ^ 53 <= 2 ^ (- e))%Z by (apply Z.pow_le_mono_r; lia). lia. }
  assert (Hq0 : (inject_Z 0 <= q)%Q) by (unfold Qle, q; cbn; lia).
  assert (Hq1 : (q <= inject_Z 1000)%Q).
  { unfold Qle, q. cbn [Qnum Qden inject_Z]. rewrite Hden. lia. }
  apply round_half_even_mono in Hq0, Hq1.
  rewrite round_half_even_inject_Z in Hq0, Hq1.
  exists (round_half_even q). split; [lia|]. split.
  - replace (2 ^ 53 <=? round_half_even q)%Z with false; [reflexivity|].
    symmetry. apply Z.leb_gt. change (2 ^ 53)%Z with 9007199254740992%Z. lia.
  - unfold SFleb, SFcompare. rewrite compare_cont_Eq. intros Hge.
    assert (Hq4 : (inject_Z 400 <= q)%Q).
    { unfold Qle, q. cbn [Qnum Qden inject_Z]. rewrite Hden.
      destruct (Z.compare_spec (-54) e) as [<-|Hlt|Hgt].
      - change (2 ^ (- -54))%Z with 18014398509481984%Z.
        destruct (Z.compare_spec 7205759403792794 (Zpos m)); [lia | lia | done].
      - specialize (Hm52 ltac:(lia)).
        assert (2 ^ (- e) <= 2 ^ 53)%Z by (apply Z.pow_le_mono_r; lia).
        change (2 ^ 52)%Z with 4503599627370496%Z in *.
        change (2 ^ 53)%Z with 9007199254740992%Z in *. lia.
      - done. }
    apply round_half_even_mono in Hq4.
    by rewrite round_half_even_inject_Z in Hq4.
Qed.

Lemma float_round3_keeps (c : float) :
  unit_interval c → PrimFloat.leb 0.4 c = true →
  unit_interval (float_round3 c) ∧ PrimFloat.leb 0.4 (float_round3 c) = true.
Proof.
  intros Hc H4. destruct (float_round3_unit c Hc) as [->|(k & Hk & -> & Hk4)].
  - done.
  - destruct (millis_unit k Hk) as [Hu H4k]. split; [done|]. apply H4k. by apply Hk4.
Qed.

(** What [score_of] stores as [confidence] in binary64. *)
Lemma score_of_confidence_binary64 (r : RawResult float) (s : ScoredResult float) :
  score_of SearchAction_init r = Some s →
  unit_interval (confidence s) ∧ PrimFloat.leb 0.4 (confidence s) = true.
Proof.
  intros (u & sem & tms & _ & Hc & ->)%score_of_Some.
  cbn [scored confidence f_round3 float_PyFloat].
  apply float_round3_keeps; [apply clamp01_unit | exact Hc].
Qed.

(** In binary64: order and threshold of the output. *)
Lemma output_sorted_and_thresholded_binary64 (rs : list (RawResult float))
    (out : list (ScoredResult float)) :
  process_search_results SearchAction_init rs = Ok out →
  descending_by (fun x y => PrimFloat.leb x y = true) out
  ∧ (∀ s, s ∈ out →
       PrimFloat.leb 0.4 (confidence s) = true
       ∧ PrimFloat.leb (confidence s) 1 = true)
  ∧ out ≡ₚ omap (score_of SearchAction_init) rs.
Proof.
  intros Hp. split; [|split].
  - apply process_search_results_Ok in Hp as [_ ->].
    intros i j a b Hij Ha Hb.
    apply (sort_desc_lookup confidence unit_interval)
      with (5 := Hij) (6 := Ha) (7 := Hb).
    + apply float_ltb_leb.
    + apply unit_leb_total.
    + apply unit_leb_trans.
    + apply Forall_forall. intros s (r & _ & Hs)%list_elem_of_omap.
      by apply score_of_confidence_binary64 in Hs as [Hu _].
  - intros s Hs. apply (elem_of_output _ _ _ _ Hp) in Hs as (r & _ & Hr).
    apply score_of_confidence_binary64 in Hr as [[_ H1] H4]. done.
  - by apply process_search_results_perm.
Qed.

(* ===================================================================== *)
(** ** Binary64: the arithmetic of lines 17-35                            *)
(* ===================================================================== *)

(** The sums, products and quotients of the scorer are those of binary64.
    [SpecFloat] defines them on mantissas and exponents; the lemmas below
    show that, on doubles that are finite and not negative, each of them is
    the exact result rounded to the nearest double, ties to even, and that
    this rounding is monotone and leaves a double unchanged.  The bounds
    and the monotonicity of the scores follow from that. *)

Section Pow2.
#[local] Open Scope Q_scope.

Lemma pow2_pos e : 0 < pow2 e.
Proof. apply Qpower_0_lt. reflexivity. Qed.

Lemma pow2_add a b : pow2 (a + b) == pow2 a * pow2 b.
Proof. apply Qpower_plus. discriminate. Qed.

Lemma pow2_0 : pow2 0 == 1.
Proof. reflexivity. Qed.

Lemma pow2_1 : pow2 1 == 2.
Proof. reflexivity. Qed.

Lemma pow2_succ e : pow2 (e + 1) == 2 * pow2 e.
Proof. rewrite pow2_add, pow2_1. ring. Qed.

Lemma pow2_le a b : (a <= b)%Z → pow2 a <= pow2 b.
Proof. intros Hab. apply Qpower_le_compat_l; [exact Hab | discriminate]. Qed.

Lemma pow2_lt a b : (a < b)%Z → pow2 a < pow2 b.
Proof. intros Hab. apply Qpower_lt_compat_l; [exact Hab | reflexivity]. Qed.

Lemma pow2_lt_inv a b : pow2 a < pow2 b → (a < b)%Z.
Proof.
  intros H. destruct (Z_lt_le_dec a b) as [|Hle]; [done|].
  apply pow2_le in Hle. lra.
Qed.

Lemma pow2_Z e : (0 <= e)%Z → pow2 e == inject_Z (2 ^ e).
Proof. intros He. unfold pow2. by rewrite Zpower_Qpower. Qed.

Lemma pow2_sub a b : pow2 (a - b) == pow2 a / pow2 b.
Proof.
  assert (H : pow2 a == pow2 (a - b) * pow2 b).
  { rewrite <- pow2_add. by replace (a - b + b)%Z with a by lia. }
  pose proof (pow2_pos b). rewrite H. field. lra.
Qed.

Lemma div_pow2_add v a b : v / pow2 (a + b) == v / pow2 a / pow2 b.
Proof.
  pose proof (pow2_pos a). pose proof (pow2_pos b).
  rewrite pow2_add. field. lra.
Qed.

Lemma F2Q_div m e : F2Q m e / pow2 e == inject_Z m.
Proof. unfold F2Q. pose proof (pow2_pos e). field. lra. Qed.

Lemma F2Q_shift m e n : (0 <= n)%Z → F2Q (m * 2 ^ n) (e - n) == F2Q m e.
Proof.
  intros Hn. unfold F2Q. rewrite inject_Z_mult, <- pow2_Z by done.
  rewrite <- Qmult_assoc, <- pow2_add. by replace (n + (e - n))%Z with e by lia.
Qed.

Lemma F2Q_le m1 m2 e : (m1 <= m2)%Z → F2Q m1 e <= F2Q m2 e.
Proof.
  intros H. unfold F2Q. apply Qmult_le_compat_r.
  - by rewrite <- Zle_Qle.
  - pose proof (pow2_pos e). lra.
Qed.

Lemma F2Q_lt m1 m2 e : (m1 < m2)%Z → F2Q m1 e < F2Q m2 e.
Proof.
  intros H. unfold F2Q. apply Qmult_lt_compat_r.
  - apply pow2_pos.
  - by rewrite <- Zlt_Qlt.
Qed.

Lemma F2Q_pow2 n e : (0 <= n)%Z → F2Q (2 ^ n) e == pow2 (n + e).
Proof. intros Hn. unfold F2Q. by rewrite <- pow2_Z, pow2_add. Qed.

End Pow2.

(** *** Where a value lies between two mantissas *)

Section Locations.
#[local] Open Scope Q_scope.

Lemma inbetween_proper m l x y : x == y → inbetween m l x → inbetween m l y.
Proof. intros Hxy. destruct l as [|[]]; cbn [inbetween]; intros H; lra. Qed.

Lemma inject_Z_xO p : inject_Z (Zpos p~0) == 2 * inject_Z (Zpos p).
Proof. rewrite (Pos2Z.inj_xO p), inject_Z_mult. reflexivity. Qed.

Lemma inject_Z_xI p : inject_Z (Zpos p~1) == 2 * inject_Z (Zpos p) + 1.
Proof. rewrite (Pos2Z.inj_xI p), inject_Z_plus, inject_Z_mult. reflexivity. Qed.

Lemma shr_1_inbetween mrs x :
  (0 <= shr_m mrs)%Z →
  inbetween (shr_m mrs) (loc_of_shr_record mrs) x →
  (0 <= shr_m (shr_1 mrs))%Z
  ∧ inbetween (shr_m (shr_1 mrs)) (loc_of_shr_record (shr_1 mrs)) (x / 2).
Proof.
  destruct mrs as [m r s]. cbn [shr_m]. intros Hm.
  destruct m as [|[p|p|]|p]; [| | | |lia];
    destruct r, s; cbn [shr_1 shr_m loc_of_shr_record orb inbetween];
    try pose proof (inject_Z_xO p) as Hp0; try pose proof (inject_Z_xI p) as Hp1;
    change (inject_Z 0) with 0; change (inject_Z 1) with 1;
    unfold Qdiv; change (/ 2) with (1 # 2);
    intros Hx; (split; [lia|]);
    [> (repeat match goal with H : _ ∧ _ |- _ => destruct H end;
        first [lra | split; lra]) ..].
Qed.

Lemma iter_pos_shr_1 (p : positive) : ∀ mrs x,
  (0 <= shr_m mrs)%Z →
  inbetween (shr_m mrs) (loc_of_shr_record mrs) x →
  (0 <= shr_m (SpecFloat.iter_pos shr_1 p mrs))%Z
  ∧ inbetween (shr_m (SpecFloat.iter_pos shr_1 p mrs))
      (loc_of_shr_record (SpecFloat.iter_pos shr_1 p mrs)) (x / pow2 (Zpos p)).
Proof.
  induction p as [p IH|p IH|]; intros mrs x Hm Hx; cbn [SpecFloat.iter_pos].
  - destruct (shr_1_inbetween mrs x Hm Hx) as [Hm1 Hx1].
    destruct (IH _ _ Hm1 Hx1) as [Hm2 Hx2].
    destruct (IH _ _ Hm2 Hx2) as [Hm3 Hx3]. split; [done|].
    eapply inbetween_proper; [|exact Hx3].
    rewrite (Pos2Z.inj_xI p).
    replace (2 * Zpos p + 1)%Z with (1 + Zpos p + Zpos p)%Z by lia.
    rewrite !div_pow2_add, pow2_1. reflexivity.
  - destruct (IH _ _ Hm Hx) as [Hm2 Hx2].
    destruct (IH _ _ Hm2 Hx2) as [Hm3 Hx3]. split; [done|].
    eapply inbetween_proper; [|exact Hx3].
    rewrite (Pos2Z.inj_xO p).
    replace (2 * Zpos p)%Z with (Zpos p + Zpos p)%Z by lia.
    rewrite !div_pow2_add. reflexivity.
  - destruct (shr_1_inbetween mrs x Hm Hx) as [Hm1 Hx1]. split; [done|].
    eapply inbetween_proper; [|exact Hx1]. rewrite pow2_1. reflexivity.
Qed.

Lemma loc_of_shr_record_of_loc m l :
  loc_of_shr_record (shr_record_of_loc m l) = l
  ∧ shr_m (shr_record_of_loc m l) = m.
Proof. by destruct l as [|[]]. Qed.

(** [shr] keeps the value located, at the exponent it returns. *)
Lemma shr_inbetween mrs e n v :
  (0 <= shr_m mrs)%Z →
  inbetween (shr_m mrs) (loc_of_shr_record mrs) (v / pow2 e) →
  (0 <= shr_m (fst (shr mrs e n)))%Z
  ∧ snd (shr mrs e n) = (e + Z.max n 0)%Z
  ∧ inbetween (shr_m (fst (shr mrs e n)))
      (loc_of_shr_record (fst (shr mrs e n))) (v / pow2 (e + Z.max n 0)).
Proof.
  intros Hm Hv. destruct n as [|p|p]; cbn [shr fst snd].
  - rewrite Z.add_0_r. done.
  - destruct (iter_pos_shr_1 p mrs _ Hm Hv) as [Hm' Hv'].
    split; [done|]. split; [f_equal; lia|].
    eapply inbetween_proper; [|exact Hv'].
    replace (Z.max (Zpos p) 0) with (Zpos p) by lia.
    by rewrite div_pow2_add.
  - replace (Z.max (Zneg p) 0) with 0%Z by lia. rewrite Z.add_0_r. done.
Qed.

Lemma nearest_even_unique n d k1 k2 :
  (0 < d)%Z → nearest_even n d k1 → nearest_even n d k2 → k1 = k2.
Proof.
  intros Hd H1 H2.
  pose proof (nearest_even_mono n d k1 n d k2 Hd Hd ltac:(lia) H1 H2).
  pose proof (nearest_even_mono n d k2 n d k1 Hd Hd ltac:(lia) H2 H1).
  lia.
Qed.

Lemma round_nearest_even_correct m l x :
  inbetween m l x → round_nearest_even m l = round_half_even x.
Proof.
  intros Hx.
  apply (nearest_even_unique (Qnum x) (Zpos (Qden x))); [lia| |apply round_half_even_nearest].
  destruct x as [n d]. unfold nearest_even. cbn [Qnum Qden].
  destruct l as [|[]]; cbn [inbetween round_nearest_even] in *;
    unfold Qeq, Qlt, Qplus, inject_Z in Hx; cbn [Qnum Qden] in Hx.
  - left. nia.
  - right. destruct (Z.even m) eqn:Hev.
    + split; [left; nia | done].
    + split; [right; nia|]. rewrite Z.even_add, Hev. reflexivity.
  - left. nia.
  - left. nia.
Qed.

End Locations.

(** *** [binary_round_aux] rounds to nearest, ties to even *)

Section RoundAux.
#[local] Open Scope Q_scope.

Lemma fexp_spec k : fexp prec emax k = Z.max (k - 53) (-1074).
Proof. reflexivity. Qed.

Lemma Zdigits2_bounds (m : Z) :
  (0 < m)%Z → (2 ^ (Zdigits2 m - 1) <= m < 2 ^ Zdigits2 m)%Z.
Proof.
  destruct m as [|p|p]; [lia| |lia]. intros _. apply digits2_pos_bounds.
Qed.

Lemma Zdigits2_pos (m : Z) : (0 < m)%Z → (0 < Zdigits2 m)%Z.
Proof. destruct m as [|p|p]; cbn; lia. Qed.

Lemma Zdigits2_le (m : Z) (n : Z) :
  (0 < m)%Z → (0 <= n)%Z → (m < 2 ^ n)%Z → (Zdigits2 m <= n)%Z.
Proof.
  intros Hm Hn Hlt. pose proof (Zdigits2_bounds m Hm) as [Hlo _].
  pose proof (Zdigits2_pos m Hm).
  destruct (Z_le_gt_dec (Zdigits2 m) n) as [|Hgt]; [done|exfalso].
  assert (2 ^ n <= 2 ^ (Zdigits2 m - 1))%Z by (apply Z.pow_le_mono_r; lia).
  lia.
Qed.

Lemma Zdigits2_ge (m : Z) (n : Z) :
  (0 <= n)%Z → (2 ^ n <= m)%Z → (n + 1 <= Zdigits2 m)%Z.
Proof.
  intros Hn Hle. assert (Hm : (0 < m)%Z).
  { assert (0 < 2 ^ n)%Z by (apply Z.pow_pos_nonneg; lia). lia. }
  pose proof (Zdigits2_bounds m Hm) as [_ Hhi].
  pose proof (Zdigits2_pos m Hm).
  destruct (Z_le_gt_dec (n + 1) (Zdigits2 m)) as [|Hgt]; [done|exfalso].
  assert (2 ^ Zdigits2 m <= 2 ^ n)%Z by (apply Z.pow_le_mono_r; lia).
  lia.
Qed.

Lemma shr_nonpos mrs e n : (n <= 0)%Z → shr mrs e n = (mrs, e).
Proof. destruct n; [done | lia | done]. Qed.

Lemma inbetween_lower m l x : inbetween m l x → inject_Z m <= x.
Proof. destruct l as [|[]]; cbn [inbetween]; intros H; lra. Qed.

Lemma inbetween_upper m l x : inbetween m l x → x < inject_Z m + 1.
Proof. destruct l as [|[]]; cbn [inbetween]; intros H; lra. Qed.

Lemma Qdiv_pow2_le v w e : v <= w → v / pow2 e <= w / pow2 e.
Proof.
  intros H. pose proof (pow2_pos e) as Hp. unfold Qdiv.
  apply Qmult_le_compat_r; [done|]. apply Qlt_le_weak, Qinv_lt_0_compat, Hp.
Qed.

Lemma Qdiv_pow2_lt v w e : v < w → v / pow2 e < w / pow2 e.
Proof.
  intros H. pose proof (pow2_pos e) as Hp. unfold Qdiv.
  apply Qmult_lt_compat_r; [|done]. apply Qinv_lt_0_compat, Hp.
Qed.

Lemma Qmult_pow2_div v e : v / pow2 e * pow2 e == v.
Proof. pose proof (pow2_pos e). field. lra. Qed.

(** The mantissa that rounding at exponent [c] gives to a value below
    [2^(c + 53)] has at most 53 bits, or is [2^53]. *)
Lemma round_half_even_bounds v c k :
  0 <= v → v < pow2 k → (k <= c + 53)%Z →
  (0 <= round_half_even (v / pow2 c) <= 2 ^ 53)%Z.
Proof.
  intros H0 Hk Hc. split.
  - rewrite <- (round_half_even_inject_Z 0). apply round_half_even_mono.
    apply Qle_shift_div_l; [apply pow2_pos|]. change (inject_Z 0) with 0. lra.
  - rewrite <- (round_half_even_inject_Z (2 ^ 53)). apply round_half_even_mono.
    rewrite <- pow2_Z by lia.
    assert (Hle : pow2 k <= pow2 (53 + c)) by (apply pow2_le; lia).
    rewrite pow2_add in Hle.
    apply Qle_shift_div_r; [apply pow2_pos|]. lra.
Qed.

Lemma binary_round_aux_correct (mx ex : Z) (lx : location) (v : Q) :
  (0 <= mx)%Z →
  inbetween mx lx (v / pow2 ex) →
  (ex <= fexp prec emax (Zdigits2 mx + ex))%Z →
  v < pow2 (Zdigits2 mx + ex) →
  binary_round_aux prec emax false mx ex lx
  = pack (round_half_even (v / pow2 (fexp prec emax (Zdigits2 mx + ex))))
         (fexp prec emax (Zdigits2 mx + ex)).
Proof.
  intros Hmx Hv Hex Hk. unfold binary_round_aux, shr_fexp.
  set (k := (Zdigits2 mx + ex)%Z) in *. set (c := fexp prec emax k) in *.
  assert (Hc : (-1074 <= c ∧ k - 53 <= c)%Z) by (unfold c; rewrite fexp_spec; lia).
  destruct (loc_of_shr_record_of_loc mx lx) as [Hl Hm].
  destruct (shr_inbetween (shr_record_of_loc mx lx) ex (c - ex) v) as (Hm1 & He1 & Hv1).
  { by rewrite Hm. }
  { by rewrite Hm, Hl. }
  destruct (shr (shr_record_of_loc mx lx) ex (c - ex)) as [mrs1 e1].
  cbn [fst snd] in Hm1, He1, Hv1.
  replace (ex + Z.max (c - ex) 0)%Z with c in He1, Hv1 by lia. subst e1.
  rewrite (round_nearest_even_correct _ _ _ Hv1).
  assert (Hv0 : 0 <= v).
  { apply inbetween_lower in Hv1.
    assert (0 <= v / pow2 c).
    { eapply Qle_trans; [|exact Hv1]. by rewrite <- (Zle_Qle 0). }
    rewrite <- (Qmult_pow2_div v c). apply Qmult_le_0_compat; [done|].
    apply Qlt_le_weak, pow2_pos. }
  pose proof (round_half_even_bounds v c k Hv0 Hk ltac:(lia)) as HR.
  set (R := round_half_even (v / pow2 c)) in *.
  destruct (Z.eq_dec R (2 ^ 53)%Z) as [HR53|HR53].
  - rewrite HR53.
    change (Zdigits2 (2 ^ 53)%Z) with 54%Z.
    replace (fexp prec emax (54 + c) - c)%Z with 1%Z by (rewrite fexp_spec; lia).
    cbn [shr shr_record_of_loc SpecFloat.iter_pos]. unfold pack.
    change (2 ^ 53)%Z with 9007199254740992%Z. cbn [shr_1 shr_m orb Z.eqb Pos.eqb].
    reflexivity.
  - destruct R as [|p|p] eqn:HRp; [| |lia].
    + change (Zdigits2 0) with 0%Z.
      rewrite shr_nonpos by (rewrite fexp_spec; lia). reflexivity.
    + assert (Hd : (Zdigits2 (Zpos p) <= 53)%Z) by (apply Zdigits2_le; lia).
      rewrite shr_nonpos by (rewrite fexp_spec; lia).
      cbn [shr_record_of_loc shr_m]. unfold pack.
      replace (Z.pos p =? 2 ^ 53)%Z with false by (symmetry; by apply Z.eqb_neq).
      reflexivity.
Qed.

End RoundAux.

(** *** The nearest double: monotone, exact on doubles *)

Section Nearest.
#[local] Open Scope Q_scope.

Lemma round_half_even_proper x y : x == y → round_half_even x = round_half_even y.
Proof.
  intros Hxy.
  assert (H1 : x <= y) by lra. assert (H2 : y <= x) by lra.
  apply round_half_even_mono in H1, H2. lia.
Qed.

Lemma SFleb_abs0 x y : SFleb x y = SFleb (abs0 x) (abs0 y).
Proof. by destruct x, y. Qed.

Lemma SFcompare_abs0 x y : SFcompare x y = SFcompare (abs0 x) (abs0 y).
Proof. by destruct x, y. Qed.

(** The canonical exponent and the mantissa of the two roundings of
    [v <= v']. *)
Lemma binade_mantissa k v :
  0 <= v → binade k v →
  let c := fexp prec emax k in
  let m := round_half_even (v / pow2 c) in
  (0 <= m <= 2 ^ 53)%Z ∧ ((-1074 < c)%Z → (2 ^ 52 <= m)%Z) ∧ (-1074 <= c)%Z.
Proof.
  intros H0 [Hhi Hlo] c m.
  assert (Hc : (-1074 <= c ∧ k - 53 <= c)%Z) by (unfold c; rewrite fexp_spec; lia).
  split; [apply (round_half_even_bounds v c k); [done | done | lia]|].
  split; [|lia]. intros Hn.
  assert (Hck : c = (k - 53)%Z) by (unfold c in *; rewrite fexp_spec in *; lia).
  destruct Hlo as [Hlo|Hlo]; [|lia].
  rewrite <- (round_half_even_inject_Z (2 ^ 52)). apply round_half_even_mono.
  rewrite <- pow2_Z by lia. apply Qle_shift_div_l; [apply pow2_pos|].
  rewrite <- pow2_add. by replace (52 + c)%Z with (k - 1)%Z by lia.
Qed.

Lemma binade_order k k' v v' :
  v <= v' → binade k v → binade k' v' →
  let c := fexp prec emax k in
  let c' := fexp prec emax k' in
  (c = c' ∨ (c < c')%Z).
Proof.
  intros Hvv [Hhi Hlo] [Hhi' Hlo'] c c'.
  unfold c, c'. rewrite !fexp_spec.
  destruct (Z_le_gt_dec k k') as [|Hgt]; [lia|].
  destruct Hlo as [Hlo|Hlo]; [|lia].
  assert (pow2 k' <= pow2 (k - 1)) by (apply pow2_le; lia). lra.
Qed.

Lemma pack_leb m c m' c' :
  (0 <= m <= 2 ^ 53)%Z → (0 <= m' <= 2 ^ 53)%Z →
  (c = c' ∧ (m <= m')%Z) ∨ ((c < c')%Z ∧ (2 ^ 52 <= m')%Z) →
  SFleb (pack m c) (pack m' c') = true.
Proof.
  unfold pack.
  change (2 ^ 53)%Z with 9007199254740992%Z.
  change (2 ^ 52)%Z with 4503599627370496%Z.
  intros Hm Hm' Hcase.
  destruct m as [|p|p], m' as [|p'|p']; try lia; try done.
  - destruct (Z.eqb_spec (Zpos p') 9007199254740992);
      repeat match goal with
             | |- context [(?a <=? ?b)%Z] => destruct (Z.leb_spec a b)
             end; done.
  - destruct (Z.eqb_spec (Zpos p) 9007199254740992),
             (Z.eqb_spec (Zpos p') 9007199254740992);
      repeat match goal with
             | |- context [(?a <=? ?b)%Z] => destruct (Z.leb_spec a b)
             end; unfold SFleb, SFcompare; rewrite ?compare_cont_Eq;
      repeat match goal with
             | |- context [(?a ?= ?b)%Z] => destruct (Z.compare_spec a b)
             end; first [done | lia].
Qed.

(** Rounding to the nearest double is monotone. *)
Lemma nearest_double_leb v v' x x' :
  0 <= v → v <= v' → nearest_double v x → nearest_double v' x' →
  SFleb x x' = true.
Proof.
  intros H0 Hvv (k & Hk & Hx) (k' & Hk' & Hx').
  rewrite SFleb_abs0, Hx, Hx'.
  destruct (binade_mantissa k v H0 Hk) as (Hm & _ & _).
  destruct (binade_mantissa k' v' ltac:(lra) Hk') as (Hm' & Hn' & _).
  apply pack_leb; [done | done |].
  destruct (binade_order k k' v v' Hvv Hk Hk') as [Hc|Hc].
  - left. split; [done|]. rewrite Hc. apply round_half_even_mono.
    by apply Qdiv_pow2_le.
  - right. split; [done|]. apply Hn'.
    pose proof (fexp_spec k). lia.
Qed.

Lemma nearest_double_zero s : nearest_double 0 (S754_zero s).
Proof.
  exists (-1074)%Z. split.
  - split; [apply pow2_pos | right; lia].
  - reflexivity.
Qed.

Lemma valid_finite (s : bool) (m : positive) (e : Z) :
  valid_binary (S754_finite s m e) = true →
  fexp prec emax (Zpos (digits2_pos m) + e) = e ∧ (e <= 971)%Z.
Proof.
  cbn [SpecFloat.valid_binary]. unfold bounded, canonical_mantissa.
  intros [Hc He]%andb_prop. apply Z.eqb_eq in Hc. apply Z.leb_le in He.
  split; [done|]. exact He.
Qed.

Lemma F2Q_binade (m : positive) (e : Z) :
  binade (Zpos (digits2_pos m) + e) (F2Q (Zpos m) e).
Proof.
  pose proof (digits2_pos_bounds m) as [Hlo Hhi].
  split.
  - rewrite <- F2Q_pow2 by lia. by apply F2Q_lt.
  - left. replace (Zpos (digits2_pos m) + e - 1)%Z
      with ((Zpos (digits2_pos m) - 1) + e)%Z by lia.
    rewrite <- F2Q_pow2 by lia. by apply F2Q_le.
Qed.

(** A double is the nearest double of its own value. *)
Lemma nearest_double_self (m : positive) (e : Z) :
  valid_binary (S754_finite false m e) = true →
  nearest_double (F2Q (Zpos m) e) (S754_finite false m e).
Proof.
  intros Hvalid. pose proof (valid_mantissa _ _ _ Hvalid) as [Hm _].
  apply valid_finite in Hvalid as [Hc He].
  exists (Zpos (digits2_pos m) + e)%Z. split; [apply F2Q_binade|].
  rewrite Hc, (round_half_even_proper _ (inject_Z (Zpos m))) by apply F2Q_div.
  rewrite round_half_even_inject_Z. unfold pack.
  replace (Z.pos m =? 2 ^ 53)%Z with false by (symmetry; apply Z.eqb_neq; lia).
  replace (e <=? 971)%Z with true by (symmetry; by apply Z.leb_le).
  reflexivity.
Qed.

Lemma SF2Q_abs0 x : SF2Q (abs0 x) = SF2Q x.
Proof. by destruct x. Qed.

Lemma pack_value m c :
  (0 <= m <= 2 ^ 53)%Z → (c = (-1074)%Z ∨ (2 ^ 52 <= m)%Z) →
  F2Q m c < pow2 1024 →
  SF2Q (pack m c) == F2Q m c ∧ pack m c ≠ S754_infinity false.
Proof.
  intros Hm Hcan Hlt. unfold pack. destruct m as [|p|p]; [| |lia].
  - split; [|done]. unfold F2Q. cbn [SF2Q]. change (inject_Z 0) with 0. ring.
  - assert (Hc : (c <= 971)%Z).
    { destruct Hcan as [->|Hcan]; [lia|].
      assert (pow2 (52 + c) < pow2 1024).
      { eapply Qle_lt_trans; [|exact Hlt]. rewrite <- F2Q_pow2 by lia.
        by apply F2Q_le. }
      apply pow2_lt_inv in H. lia. }
    destruct (Z.eqb_spec (Zpos p) (2 ^ 53)) as [Heq|Hne].
    + assert (Hc1 : (c + 1 <= 971)%Z).
      { rewrite Heq, F2Q_pow2 in Hlt by lia. apply pow2_lt_inv in Hlt. lia. }
      replace (c + 1 <=? 971)%Z with true by (symmetry; by apply Z.leb_le).
      split; [|done]. cbn [SF2Q cond_Zopp]. rewrite Heq.
      change 4503599627370496%Z with (2 ^ 52)%Z.
      rewrite !F2Q_pow2 by lia. by replace (52 + (c + 1))%Z with (53 + c)%Z by lia.
    + replace (c <=? 971)%Z with true by (symmetry; by apply Z.leb_le).
      split; [reflexivity | done].
Qed.

(** The nearest double of a value that fits in 53 bits is that value. *)
Lemma nearest_double_exact v x (j e0 : Z) :
  nearest_double v x → v == F2Q j e0 →
  (0 <= j < 2 ^ 53)%Z → (-1074 <= e0)%Z → v < pow2 1024 →
  SF2Q x == v ∧ x ≠ S754_infinity false.
Proof.
  intros (k & Hk & Hx) Hv Hj He0 Hmax.
  assert (H0 : 0 <= v).
  { rewrite Hv. unfold F2Q. apply Qmult_le_0_compat.
    - rewrite <- (Zle_Qle 0). lia.
    - apply Qlt_le_weak, pow2_pos. }
  destruct (binade_mantissa k v H0 Hk) as (Hm & Hn & Hc).
  set (c := fexp prec emax k) in *.
  assert (Hce : (c <= e0)%Z).
  { destruct (Z.eq_dec c (-1074)%Z) as [Heq|Hne]; [lia|].
    assert (Hck : c = (k - 53)%Z) by (unfold c in *; rewrite fexp_spec in *; lia).
    destruct Hk as [_ [Hlo|Hlo]]; [|lia].
    assert (Hlt : pow2 (k - 1) < pow2 (53 + e0)).
    { eapply Qle_lt_trans; [exact Hlo|]. rewrite Hv, <- F2Q_pow2 by lia.
      apply F2Q_lt. lia. }
    apply pow2_lt_inv in Hlt. lia. }
  assert (HR : round_half_even (v / pow2 c) = (j * 2 ^ (e0 - c))%Z).
  { rewrite <- (round_half_even_inject_Z (j * 2 ^ (e0 - c))).
    apply round_half_even_proper.
    rewrite Hv, <- (F2Q_shift j e0 (e0 - c)) by lia.
    replace (e0 - (e0 - c))%Z with c by lia. apply F2Q_div. }
  rewrite HR in *.
  assert (Hval : F2Q (j * 2 ^ (e0 - c)) c == v).
  { rewrite Hv, <- (F2Q_shift j e0 (e0 - c)) by lia.
    by replace (e0 - (e0 - c))%Z with c by lia. }
  destruct (pack_value (j * 2 ^ (e0 - c)) c) as [Hp Hfin]; [done | | lra |].
  { destruct (Z.eq_dec c (-1074)%Z); [by left | right; apply Hn; lia]. }
  rewrite <- Hx in Hp, Hfin. rewrite SF2Q_abs0 in Hp. split; [lra|].
  intros ->. by apply Hfin.
Qed.

End Nearest.

(** *** Sum, product, quotient and conversion round the exact result *)

Section Operations.
#[local] Open Scope Q_scope.

Lemma abs0_pack m c : abs0 (pack m c) = pack m c.
Proof.
  unfold pack. destruct m as [|p|p]; [done| |done].
  destruct (Z.pos p =? 2 ^ 53)%Z, (c + 1 <=? 971)%Z, (c <=? 971)%Z; done.
Qed.

Lemma binade_proper k v w : v == w → binade k v → binade k w.
Proof. intros Hvw [Hhi [Hlo|Hlo]]; (split; [lra|]); [left; lra | by right]. Qed.

Lemma nearest_double_proper v w x : v == w → nearest_double v x → nearest_double w x.
Proof.
  intros Hvw (k & Hk & Hx). exists k. split; [by apply (binade_proper k v)|].
  rewrite Hx. f_equal. apply round_half_even_proper. by rewrite Hvw.
Qed.

Lemma iter_xO (m d : positive) :
  Zpos (Pos.iter xO m d) = (Zpos m * 2 ^ Zpos d)%Z
  ∧ Zpos (digits2_pos (Pos.iter xO m d)) = (Zpos (digits2_pos m) + Zpos d)%Z.
Proof.
  induction d as [|d IH] using Pos.peano_ind.
  - cbn [Pos.iter digits2_pos]. split; lia.
  - rewrite Pos.iter_succ. cbn [digits2_pos]. destruct IH as [IH1 IH2].
    rewrite Pos2Z.inj_xO, IH1, !Pos2Z.inj_succ, IH2, Z.pow_succ_r by lia.
    split; lia.
Qed.

Lemma shl_align_spec (m : positive) (e t : Z) :
  F2Q (Zpos (fst (shl_align m e t))) (snd (shl_align m e t)) == F2Q (Zpos m) e
  ∧ snd (shl_align m e t) = Z.min e t
  ∧ (Zpos (digits2_pos (fst (shl_align m e t))) + snd (shl_align m e t)
     = Zpos (digits2_pos m) + e)%Z.
Proof.
  unfold shl_align. destruct (t - e)%Z as [|d|d] eqn:Hd; cbn [fst snd].
  - split; [reflexivity|]. split; lia.
  - split; [reflexivity|]. split; lia.
  - destruct (iter_xO m d) as [H1 H2]. rewrite H1, H2.
    split; [|split; lia].
    replace t with (e - Zpos d)%Z by lia. apply F2Q_shift. lia.
Qed.

Lemma binary_round_nearest (m : positive) (e : Z) :
  nearest_double (F2Q (Zpos m) e) (binary_round prec emax false m e).
Proof.
  unfold binary_round.
  destruct (shl_align_spec m e (fexp prec emax (Zpos (digits2_pos m) + e)))
    as (Hval & He & Hd).
  destruct (shl_align m e (fexp prec emax (Zpos (digits2_pos m) + e))) as [mz ez].
  cbn [fst snd] in Hval, He, Hd.
  pose proof (F2Q_binade mz ez) as Hb.
  apply (nearest_double_proper (F2Q (Zpos mz) ez)); [done|].
  exists (Zpos (digits2_pos mz) + ez)%Z. split; [done|].
  rewrite (binary_round_aux_correct (Zpos mz) ez loc_Exact (F2Q (Zpos mz) ez)).
  - apply abs0_pack.
  - lia.
  - cbn [inbetween]. apply F2Q_div.
  - cbn [Zdigits2]. rewrite Hd. lia.
  - apply Hb.
Qed.

Lemma binary_normalize_nearest (n : Z) :
  (0 <= n)%Z → nearest_double (inject_Z n) (binary_normalize prec emax n 0 false).
Proof.
  intros Hn. destruct n as [|p|p]; [| |lia]; cbn [binary_normalize].
  - apply (nearest_double_zero false).
  - apply (nearest_double_proper (F2Q (Zpos p) 0)); [|apply binary_round_nearest].
    unfold F2Q. rewrite pow2_0. ring.
Qed.

Lemma nearest_double_id x :
  valid_binary x = true → finite_nonneg x → nearest_double (SF2Q x) x.
Proof.
  destruct x as [s|s| |[] m e]; cbn [finite_nonneg]; try done; intros Hv _.
  - apply nearest_double_zero.
  - by apply nearest_double_self.
Qed.

Lemma SFadd_nearest x y :
  valid_binary x = true → valid_binary y = true →
  finite_nonneg x → finite_nonneg y →
  nearest_double (SF2Q x + SF2Q y) (SFadd prec emax x y).
Proof.
  intros Hvx Hvy Hx Hy.
  destruct x as [sx|sx| |[] mx ex]; try done;
    destruct y as [sy|sy| |[] my ey]; try done.
  - apply (nearest_double_proper 0); [reflexivity|].
    cbn [SFadd]. destruct sx, sy; apply nearest_double_zero.
  - apply (nearest_double_proper (SF2Q (S754_finite false my ey))).
    + cbn [SF2Q]. ring.
    + destruct sx; by apply nearest_double_self.
  - apply (nearest_double_proper (SF2Q (S754_finite false mx ex))).
    + cbn [SF2Q]. ring.
    + destruct sy; by apply nearest_double_self.
  - cbn [SFadd SF2Q cond_Zopp].
    destruct (shl_align_spec mx ex (Z.min ex ey)) as (Hx1 & Hx2 & _).
    destruct (shl_align_spec my ey (Z.min ex ey)) as (Hy1 & Hy2 & _).
    rewrite Hx2 in Hx1. rewrite Hy2 in Hy1.
    replace (Z.min ex (Z.min ex ey)) with (Z.min ex ey) in Hx1 by lia.
    replace (Z.min ey (Z.min ex ey)) with (Z.min ex ey) in Hy1 by lia.
    set (mx' := fst (shl_align mx ex (Z.min ex ey))) in *.
    set (my' := fst (shl_align my ey (Z.min ex ey))) in *.
    change (Z.pos mx' + Z.pos my')%Z with (Zpos (mx' + my')).
    cbn [binary_normalize].
    apply (nearest_double_proper (F2Q (Zpos (mx' + my')) (Z.min ex ey)));
      [|apply binary_round_nearest].
    rewrite <- Hx1, <- Hy1. unfold F2Q.
    rewrite Pos2Z.inj_add, inject_Z_plus. ring.
Qed.

Lemma valid_digits (s : bool) (m : positive) (e : Z) :
  valid_binary (S754_finite s m e) = true →
  (-1074 <= e)%Z ∧ (Zpos (digits2_pos m) <= 53)%Z
  ∧ (Zpos (digits2_pos m) = 53%Z ∨ e = (-1074)%Z).
Proof.
  intros [Hc _]%valid_finite. rewrite fexp_spec in Hc. lia.
Qed.

Lemma digits2_pos_mul (mx my : positive) :
  (Zpos (digits2_pos mx) + Zpos (digits2_pos my) - 1
   <= Zpos (digits2_pos (mx * my)))%Z.
Proof.
  pose proof (digits2_pos_bounds mx) as [Hx _].
  pose proof (digits2_pos_bounds my) as [Hy _].
  change (Zpos (digits2_pos (mx * my))) with (Zdigits2 (Zpos (mx * my))).
  set (dx := Zpos (digits2_pos mx)) in *. set (dy := Zpos (digits2_pos my)) in *.
  assert (0 < dx ∧ 0 < dy)%Z as [Hdx Hdy] by (subst dx dy; lia).
  replace (dx + dy - 1)%Z with ((dx - 1 + (dy - 1)) + 1)%Z by lia.
  apply Zdigits2_ge; [lia|].
  rewrite Z.pow_add_r, Pos2Z.inj_mul by lia.
  apply Z.mul_le_mono_nonneg; [apply Z.pow_nonneg; lia | done
                              | apply Z.pow_nonneg; lia | done].
Qed.

Lemma SFmul_nearest x y :
  valid_binary x = true → valid_binary y = true →
  finite_nonneg x → finite_nonneg y →
  nearest_double (SF2Q x * SF2Q y) (SFmul prec emax x y).
Proof.
  intros Hvx Hvy Hx Hy.
  destruct x as [sx|sx| |[] mx ex]; try done;
    destruct y as [sy|sy| |[] my ey]; try done;
    try (apply (nearest_double_proper 0);
         [cbn [SF2Q]; ring | cbn [SFmul]; apply nearest_double_zero]).
  cbn [SFmul SF2Q cond_Zopp xorb].
  apply valid_digits in Hvx as (Hex & Hdx & Hnx), Hvy as (Hey & Hdy & Hny).
  pose proof (digits2_pos_mul mx my) as Hd.
  pose proof (F2Q_binade (mx * my) (ex + ey)) as Hb.
  assert (Hval : F2Q (Zpos (mx * my)) (ex + ey) == F2Q (Zpos mx) ex * F2Q (Zpos my) ey).
  { unfold F2Q. rewrite Pos2Z.inj_mul, inject_Z_mult, pow2_add. ring. }
  apply (nearest_double_proper (F2Q (Zpos (mx * my)) (ex + ey))); [done|].
  exists (Zpos (digits2_pos (mx * my)) + (ex + ey))%Z. split; [done|].
  rewrite (binary_round_aux_correct (Zpos (mx * my)) (ex + ey) loc_Exact
             (F2Q (Zpos (mx * my)) (ex + ey))).
  - apply abs0_pack.
  - lia.
  - cbn [inbetween]. apply F2Q_div.
  - cbn [Zdigits2]. rewrite fexp_spec.
    assert (0 < Zpos (digits2_pos mx) ∧ 0 < Zpos (digits2_pos my))%Z by lia. lia.
  - apply Hb.
Qed.

Lemma new_location_inbetween (d r q : Z) :
  (0 < d)%Z → (0 <= r < d)%Z →
  inbetween q (new_location d r) (inject_Z (q * d + r) / inject_Z d).
Proof.
  intros Hd Hr. destruct d as [|p|p]; [lia| |lia].
  assert (Hx : ∀ a b : Z,
    (inject_Z (q * Zpos p + r) / inject_Z (Zpos p)
     == inject_Z q + (r # p))).
  { intros _ _. unfold Qeq, Qdiv, Qmult, Qinv, Qplus, inject_Z. cbn [Qnum Qden]. nia. }
  specialize (Hx 0 0)%Z.
  apply (inbetween_proper _ _ (inject_Z q + (r # p))); [by rewrite Hx|].
  unfold new_location, new_location_even, new_location_odd.
  destruct (Z.even (Zpos p)) eqn:Hev.
  - destruct (Z.eqb_spec r 0) as [->|Hr0].
    + cbn [inbetween]. unfold Qeq, Qplus, inject_Z. cbn [Qnum Qden]. lia.
    + destruct (Z.compare_spec (2 * r) (Zpos p)); cbn [inbetween];
        unfold Qeq, Qlt, Qplus, inject_Z; cbn [Qnum Qden]; nia.
  - assert (Hodd : ∃ h, Zpos p = (2 * h + 1)%Z).
    { apply Z.odd_spec. by rewrite <- Z.negb_even, Hev. }
    destruct Hodd as [h Hh].
    destruct (Z.eqb_spec r 0) as [->|Hr0].
    + cbn [inbetween]. unfold Qeq, Qplus, inject_Z. cbn [Qnum Qden]. lia.
    + destruct (Z.compare_spec (2 * r + 1) (Zpos p)); cbn [inbetween];
        unfold Qeq, Qlt, Qplus, inject_Z; cbn [Qnum Qden]; nia.
Qed.

End Operations.

Section Division.
#[local] Open Scope Q_scope.

Lemma Qdiv_lt_lower a b A B :
  0 < A → A <= a → 0 < b → b < B → A / B < a / b.
Proof.
  intros HA Ha Hb HB.
  apply Qlt_shift_div_l; [lra|].
  assert (H1 : A / B * b < A / B * B).
  { apply Qmult_lt_l; [|done]. apply Qlt_shift_div_l; lra. }
  assert (H2 : A / B * B == A) by (field; lra).
  lra.
Qed.

Lemma Zdigits2_nonneg m : (0 <= Zdigits2 m)%Z.
Proof. destruct m; cbn; lia. Qed.

Lemma Zdigits2_succ_le q : (0 <= q)%Z → (q + 1 <= 2 ^ Zdigits2 q)%Z.
Proof.
  intros Hq. destruct (Z.eq_dec q 0%Z) as [->|Hne]; [cbn; lia|].
  pose proof (Zdigits2_bounds q ltac:(lia)). lia.
Qed.

Lemma SFdiv_nearest x (my : positive) (ey : Z) :
  finite_nonneg x →
  nearest_double (SF2Q x / F2Q (Zpos my) ey)
    (SFdiv prec emax x (S754_finite false my ey)).
Proof.
  intros Hx. destruct x as [sx|sx| |[] mx ex]; try done.
  { apply (nearest_double_proper 0); [cbn [SF2Q]; unfold Qdiv; ring|].
    cbn [SFdiv]. apply nearest_double_zero. }
  cbn [SFdiv SF2Q cond_Zopp xorb]. unfold SFdiv_core_binary.
  cbn [Zdigits2].
  set (d1 := Zpos (digits2_pos mx)). set (d2 := Zpos (digits2_pos my)).
  set (K := (d1 + ex - (d2 + ey))%Z).
  set (e' := Z.min (fexp prec emax K) (ex - ey)).
  set (s := (ex - ey - e')%Z).
  assert (Hs : (0 <= s)%Z) by (unfold s, e'; lia).
  replace (match s with
           | 0%Z => Zpos mx
           | Zpos _ => Z.shiftl (Zpos mx) s
           | Zneg _ => 0%Z
           end) with (Zpos mx * 2 ^ s)%Z.
  2:{ destruct s as [|p|p] eqn:Hsp; [lia| |lia]. by rewrite Z.shiftl_mul_pow2. }
  pose proof (Z_div_mod (Zpos mx * 2 ^ s) (Zpos my) ltac:(lia)) as Hdm.
  destruct (Z.div_eucl (Zpos mx * 2 ^ s) (Zpos my)) as [q r].
  destruct Hdm as [Hdm Hr].
  set (v := F2Q (Zpos mx) ex / F2Q (Zpos my) ey).
  pose proof (pow2_pos ey) as Hpy. pose proof (pow2_pos e') as Hpe.
  assert (Hmy : 0 < inject_Z (Zpos my)) by (rewrite <- (Zlt_Qlt 0); lia).
  assert (Hv : v / pow2 e' == inject_Z (q * Zpos my + r) / inject_Z (Zpos my)).
  { replace (q * Zpos my + r)%Z with (Zpos mx * 2 ^ s)%Z by lia.
    unfold v. rewrite <- (F2Q_shift (Zpos mx) ex s Hs).
    replace (ex - s)%Z with (ey + e')%Z by (unfold s; lia).
    unfold F2Q. rewrite pow2_add. field. lra. }
  assert (Hpow : (0 < 2 ^ s)%Z) by (apply Z.pow_pos_nonneg; lia).
  assert (Hq : (0 <= q)%Z) by nia.
  assert (Hin : inbetween q (new_location (Zpos my) r) (v / pow2 e')).
  { apply (inbetween_proper _ _ _ _ (Qeq_sym _ _ Hv)).
    apply new_location_inbetween; lia. }
  set (dq := Zdigits2 q).
  assert (Hdq : (0 <= dq)%Z) by apply Zdigits2_nonneg.
  assert (Hup : v < pow2 (dq + e')).
  { pose proof (inbetween_upper _ _ _ Hin) as Hu.
    pose proof (Zdigits2_succ_le q Hq) as Hq1. fold dq in Hq1.
    rewrite <- F2Q_pow2 by done.
    apply (Qlt_le_trans _ (F2Q (q + 1) e')); [|by apply F2Q_le].
    unfold F2Q. rewrite inject_Z_plus. change (inject_Z 1) with 1.
    rewrite <- (Qmult_pow2_div v e'). by apply Qmult_lt_compat_r. }
  assert (Hlow : pow2 (K - 1) < v).
  { pose proof (digits2_pos_bounds mx) as [Hmx _].
    pose proof (digits2_pos_bounds my) as [_ Hmy'].
    fold d1 in Hmx. fold d2 in Hmy'.
    replace (K - 1)%Z with ((d1 - 1 + ex) - (d2 + ey))%Z by (unfold K; lia).
    rewrite pow2_sub. unfold v. apply Qdiv_lt_lower.
    - apply pow2_pos.
    - rewrite <- F2Q_pow2 by (unfold d1; lia). by apply F2Q_le.
    - unfold F2Q. apply Qmult_lt_0_compat; done.
    - rewrite <- F2Q_pow2 by (unfold d2; lia). by apply F2Q_lt. }
  assert (HK : (K <= dq + e')%Z).
  { assert (Hlt : pow2 (K - 1) < pow2 (dq + e')) by lra.
    apply pow2_lt_inv in Hlt. lia. }
  assert (He' : (e' <= fexp prec emax (dq + e'))%Z).
  { assert (He1 : (e' <= fexp prec emax K)%Z) by (unfold e'; lia).
    rewrite fexp_spec in He1 |- *. lia. }
  exists (dq + e')%Z. split.
  - split; [done|].
    destruct (Z.eq_dec q 0%Z) as [Hq0|Hq0].
    + right. assert (Hd0 : dq = 0%Z) by (unfold dq; by rewrite Hq0).
      assert (He1 : (e' <= fexp prec emax K)%Z) by (unfold e'; lia).
      rewrite fexp_spec in He1. lia.
    + left. pose proof (Zdigits2_bounds q ltac:(lia)) as [Hlo _]. fold dq in Hlo.
      assert (0 < dq)%Z by (apply Zdigits2_pos; lia).
      replace (dq + e' - 1)%Z with ((dq - 1) + e')%Z by lia.
      rewrite <- F2Q_pow2 by lia.
      apply (Qle_trans _ (F2Q q e')); [by apply F2Q_le|].
      pose proof (inbetween_lower _ _ _ Hin) as Hl.
      unfold F2Q. rewrite <- (Qmult_pow2_div v e').
      apply Qmult_le_compat_r; [done | lra].
  - rewrite (binary_round_aux_correct q e' (new_location (Zpos my) r) v);
      [apply abs0_pack | done | done | done | done].
Qed.

End Division.

(** *** Order and validity of what rounding returns *)

Section Order.
#[local] Open Scope Q_scope.

Lemma pack_shape m c : (0 <= m)%Z → nonneg_shape (pack m c).
Proof.
  intros Hm. unfold pack. destruct m as [|p|p]; [done| |lia].
  destruct (Z.pos p =? 2 ^ 53)%Z, (c + 1 <=? 971)%Z, (c <=? 971)%Z; done.
Qed.

Lemma nonneg_shape_abs0 x : nonneg_shape (abs0 x) ↔ nonneg_shape x.
Proof. by destruct x. Qed.

Lemma valid_abs0 x : valid_binary (abs0 x) = valid_binary x.
Proof. by destruct x. Qed.

Lemma pack_valid m c :
  (0 <= m <= 2 ^ 53)%Z → (-1074 <= c)%Z → ((-1074 < c)%Z → (2 ^ 52 <= m)%Z) →
  valid_binary (pack m c) = true.
Proof.
  intros Hm Hc Hn. unfold pack. destruct m as [|p|p]; [done| |lia].
  destruct (Z.eqb_spec (Zpos p) (2 ^ 53)) as [Heq|Hne].
  - destruct (Z.leb_spec (c + 1) 971) as [Hle|Hgt]; [|done].
    cbn [SpecFloat.valid_binary]. unfold bounded, canonical_mantissa.
    change (Zpos (digits2_pos 4503599627370496)) with 53%Z.
    rewrite fexp_spec. apply andb_true_intro. split.
    + apply Z.eqb_eq. lia.
    + apply Z.leb_le. exact Hle.
  - destruct (Z.leb_spec c 971) as [Hle|Hgt]; [|done].
    cbn [SpecFloat.valid_binary]. unfold bounded, canonical_mantissa.
    rewrite fexp_spec. apply andb_true_intro. split; [|by apply Z.leb_le].
    apply Z.eqb_eq.
    assert (Hd : (Zdigits2 (Zpos p) <= 53)%Z) by (apply Zdigits2_le; lia).
    cbn [Zdigits2] in Hd.
    destruct (Z.eq_dec c (-1074)%Z) as [->|Hc']; [lia|].
    assert (Hd' : (52 + 1 <= Zdigits2 (Zpos p))%Z) by (apply Zdigits2_ge; [lia|apply Hn; lia]).
    cbn [Zdigits2] in Hd'. lia.
Qed.

Lemma nearest_double_nonneg v x :
  0 <= v → nearest_double v x →
  nonneg_shape x ∧ valid_binary x = true.
Proof.
  intros H0 (k & Hk & Hx).
  destruct (binade_mantissa k v H0 Hk) as (Hm & Hn & Hc).
  split.
  - apply nonneg_shape_abs0. rewrite Hx. apply pack_shape. lia.
  - rewrite <- valid_abs0, Hx. by apply pack_valid.
Qed.

(** The nearest double of a value is unique, up to the sign of zero. *)
Lemma nearest_double_unique v x y :
  nearest_double v x → nearest_double v y → abs0 x = abs0 y.
Proof.
  intros (k & Hk & Hx) (k' & Hk' & Hy). rewrite Hx, Hy.
  assert (Hc : fexp prec emax k = fexp prec emax k').
  { destruct (binade_order k k' v v ltac:(lra) Hk Hk'),
             (binade_order k' k v v ltac:(lra) Hk' Hk); lia. }
  by rewrite Hc.
Qed.

Lemma SF2Q_nonneg x : nonneg_shape x → 0 <= SF2Q x.
Proof.
  destruct x as [s|s| |[] m e]; cbn [nonneg_shape SF2Q cond_Zopp]; try done; try lra.
  intros _. unfold F2Q. apply Qmult_le_0_compat.
  - by rewrite <- (Zle_Qle 0).
  - apply Qlt_le_weak, pow2_pos.
Qed.

Lemma finite_nonneg_shape x : finite_nonneg x → nonneg_shape x.
Proof. by destruct x as [s|s| |[] m e]. Qed.

Lemma SFleb_antisym x y :
  finite_nonneg x → finite_nonneg y →
  SFleb x y = true → SFleb y x = true → SF2Q x = SF2Q y.
Proof.
  destruct x as [sx|sx| |[] mx ex]; try done;
    destruct y as [sy|sy| |[] my ey]; try done.
  intros _ _. unfold SFleb, SFcompare. rewrite !compare_cont_Eq.
  destruct (Z.compare_spec ex ey) as [He|?|?], (Z.compare_spec ey ex) as [?|?|?];
    try lia; try done.
  destruct (Z.compare_spec (Zpos mx) (Zpos my)) as [Hm|?|?],
           (Z.compare_spec (Zpos my) (Zpos mx)) as [?|?|?]; try lia; try done.
  injection Hm as ->. by rewrite He.
Qed.

(** On finite doubles that are not negative, [<=] is the order of the
    values. *)
Lemma SFleb_value x y :
  valid_binary x = true → valid_binary y = true →
  finite_nonneg x → finite_nonneg y →
  SFleb x y = true ↔ SF2Q x <= SF2Q y.
Proof.
  intros Hvx Hvy Hx Hy.
  pose proof (nearest_double_id x Hvx Hx) as Hnx.
  pose proof (nearest_double_id y Hvy Hy) as Hny.
  pose proof (SF2Q_nonneg x (finite_nonneg_shape x Hx)) as H0x.
  pose proof (SF2Q_nonneg y (finite_nonneg_shape y Hy)) as H0y.
  split.
  - intros Hle. destruct (Qlt_le_dec (SF2Q y) (SF2Q x)) as [Hlt|]; [|done].
    assert (Hyx : SFleb y x = true).
    { apply (nearest_double_leb (SF2Q y) (SF2Q x)); [done | lra | done | done]. }
    rewrite (SFleb_antisym x y Hx Hy Hle Hyx). lra.
  - intros Hle. by apply (nearest_double_leb (SF2Q x) (SF2Q y)).
Qed.

End Order.

(** [nearest_double] on four values: 2/3 and 1/10, which are not doubles;
    [2^53 + 1], half way between two doubles, which goes to the even
    mantissa below; [2^53 + 3], half way again, which goes to the even
    mantissa above; and [2^1024], beyond the largest double. *)
Example nearest_double_values :
  nearest_double (2 # 3) (Prim2SF 0.6666666666666666)
  ∧ nearest_double (1 # 10) (Prim2SF 0.1)
  ∧ nearest_double (inject_Z (2 ^ 53 + 1)) (Prim2SF 9007199254740992)
  ∧ nearest_double (inject_Z (2 ^ 53 + 3)) (Prim2SF 9007199254740996)
  ∧ nearest_double (inject_Z (2 ^ 1024)) (Prim2SF infinity).
Proof.
  split; [|split; [|split; [|split]]].
  - exists 0%Z. split; [split; [done | by left] | by vm_compute].
  - exists (-3)%Z. split; [split; [done | by left] | by vm_compute].
  - exists 54%Z. split; [split; [done | by left] | by vm_compute].
  - exists 54%Z. split; [split; [done | by left] | by vm_compute].
  - exists 1025%Z. split; [split; [done | by left] | by vm_compute].
Qed.

(** *** The operations of primitive floats *)

Section Binary64Arith.
#[local] Open Scope Q_scope.
Implicit Types x y z : float.

Lemma nonneg_shape_iff x : PrimFloat.leb 0 x = true ↔ nonneg_shape (Prim2SF x).
Proof.
  rewrite leb_spec. change (Prim2SF 0) with (S754_zero false).
  destruct (Prim2SF x) as [s|[]| |[] m e]; cbn; split; done.
Qed.

Lemma finite_nonneg_iff x :
  PrimFloat.leb 0 x = true ∧ PrimFloat.ltb x infinity = true
  ↔ finite_nonneg (Prim2SF x).
Proof.
  rewrite leb_spec, ltb_spec. change (Prim2SF 0) with (S754_zero false).
  change (Prim2SF infinity) with (S754_infinity false).
  destruct (Prim2SF x) as [s|[]| |[] m e]; cbn; split; (done || intros []; done).
Qed.

Lemma B2Q_nonneg x : nonneg_shape (Prim2SF x) → 0 <= B2Q x.
Proof. apply SF2Q_nonneg. Qed.

Lemma nearest_id x : finite_nonneg (Prim2SF x) → nearest_double (B2Q x) (Prim2SF x).
Proof. apply nearest_double_id, Prim2SF_valid. Qed.

Lemma nearest_leb v w x y :
  0 <= v → v <= w →
  nearest_double v (Prim2SF x) → nearest_double w (Prim2SF y) →
  PrimFloat.leb x y = true.
Proof. rewrite leb_spec. apply nearest_double_leb. Qed.

Lemma leb_B2Q x y :
  finite_nonneg (Prim2SF x) → finite_nonneg (Prim2SF y) →
  PrimFloat.leb x y = true ↔ B2Q x <= B2Q y.
Proof. rewrite leb_spec. apply SFleb_value; apply Prim2SF_valid. Qed.

Lemma leb_finite x y :
  nonneg_shape (Prim2SF x) → finite_nonneg (Prim2SF y) →
  PrimFloat.leb x y = true → finite_nonneg (Prim2SF x).
Proof.
  rewrite leb_spec.
  destruct (Prim2SF x) as [s|[]| |[] m e], (Prim2SF y) as [s'|[]| |[] m' e']; done.
Qed.

Lemma add_nearest x y :
  finite_nonneg (Prim2SF x) → finite_nonneg (Prim2SF y) →
  nearest_double (B2Q x + B2Q y) (Prim2SF (x + y)).
Proof. rewrite add_spec. apply SFadd_nearest; apply Prim2SF_valid. Qed.

Lemma mul_nearest x y :
  finite_nonneg (Prim2SF x) → finite_nonneg (Prim2SF y) →
  nearest_double (B2Q x * B2Q y) (Prim2SF (x * y)).
Proof. rewrite mul_spec. apply SFmul_nearest; apply Prim2SF_valid. Qed.

Lemma div_nearest x y :
  finite_nonneg (Prim2SF x) → finite_nonneg (Prim2SF y) →
  PrimFloat.ltb 0 y = true →
  nearest_double (B2Q x / B2Q y) (Prim2SF (x / y)).
Proof.
  rewrite div_spec, ltb_spec. unfold B2Q. change (Prim2SF 0) with (S754_zero false).
  intros Hx Hy Hpos.
  destruct (Prim2SF y) as [s|[]| |[] m e]; try done.
  by apply SFdiv_nearest.
Qed.

Lemma Prim2SF_float_of_nat (n : nat) :
  Prim2SF (float_of_nat n) = binary_normalize prec emax (Z.of_nat n) 0 false.
Proof.
  unfold float_of_nat. apply Prim2SF_SF2Prim.
  apply (nearest_double_nonneg (inject_Z (Z.of_nat n))).
  - rewrite <- (Zle_Qle 0). lia.
  - apply binary_normalize_nearest. lia.
Qed.

Lemma float_of_nat_nearest (n : nat) :
  nearest_double (inject_Z (Z.of_nat n)) (Prim2SF (float_of_nat n)).
Proof. rewrite Prim2SF_float_of_nat. apply binary_normalize_nearest. lia. Qed.

(** What is known of a double computed as the nearest double of [v], when
    [v] lies between the values of two finite doubles. *)
Lemma nearest_between v lo hi x :
  finite_nonneg (Prim2SF lo) → finite_nonneg (Prim2SF hi) →
  B2Q lo <= v → v <= B2Q hi →
  nearest_double v (Prim2SF x) →
  PrimFloat.leb lo x = true ∧ PrimFloat.leb x hi = true
  ∧ finite_nonneg (Prim2SF x).
Proof.
  intros Hlo Hhi Hl Hh Hx.
  pose proof (B2Q_nonneg lo (finite_nonneg_shape _ Hlo)) as H0.
  assert (Hle : PrimFloat.leb x hi = true).
  { apply (nearest_leb v (B2Q hi)); [lra | done | done | by apply nearest_id]. }
  split; [|split; [done|]].
  - apply (nearest_leb (B2Q lo) v); [done | done | by apply nearest_id | done].
  - apply (leb_finite x hi); [|done|done].
    apply (nearest_double_nonneg v); [lra | done].
Qed.

End Binary64Arith.

(** *** Order of the doubles that are not negative *)

Section Binary64Order.
Implicit Types x y z : float.

Lemma leb_trans x y z :
  PrimFloat.leb 0 x = true → PrimFloat.leb x y = true → PrimFloat.leb y z = true →
  PrimFloat.leb x z = true.
Proof.
  rewrite !leb_spec. change (Prim2SF 0) with (S754_zero false). unfold SFleb.
  destruct (Prim2SF x) as [sx|sx| |sx mx ex], (Prim2SF y) as [sy|sy| |sy my ey],
    (Prim2SF z) as [sz|sz| |sz mz ez]; cbn [SFcompare]; compare_cases.
Qed.

Lemma leb_total x y :
  PrimFloat.leb 0 x = true → PrimFloat.leb 0 y = true →
  PrimFloat.ltb x y = false → PrimFloat.leb y x = true.
Proof.
  rewrite !leb_spec, ltb_spec. change (Prim2SF 0) with (S754_zero false).
  unfold SFleb, SFltb.
  destruct (Prim2SF x) as [sx|sx| |sx mx ex], (Prim2SF y) as [sy|sy| |sy my ey];
    cbn [SFcompare]; compare_cases.
Qed.

Lemma ltb_not_leb x y : PrimFloat.ltb x y = true → PrimFloat.leb y x = false.
Proof.
  rewrite leb_spec, ltb_spec. unfold SFleb, SFltb.
  destruct (Prim2SF x) as [sx|sx| |sx mx ex], (Prim2SF y) as [sy|sy| |sy my ey];
    cbn [SFcompare]; compare_cases.
Qed.

Lemma leb_infinity x : PrimFloat.leb 0 x = true → PrimFloat.leb x infinity = true.
Proof.
  rewrite !leb_spec. change (Prim2SF 0) with (S754_zero false).
  change (Prim2SF infinity) with (S754_infinity false).
  by destruct (Prim2SF x) as [s|[]| |[] m e].
Qed.

Lemma leb_nonneg x y :
  PrimFloat.leb 0 x = true → PrimFloat.leb x y = true → PrimFloat.leb 0 y = true.
Proof. intros H0 Hxy. by apply (leb_trans 0 x y). Qed.

Lemma leb_refl x : PrimFloat.leb 0 x = true → PrimFloat.leb x x = true.
Proof.
  rewrite !leb_spec. change (Prim2SF 0) with (S754_zero false). unfold SFleb.
  destruct (Prim2SF x) as [sx|sx| |sx mx ex]; cbn [SFcompare]; compare_cases.
Qed.

End Binary64Order.

(** *** Line 17: [1.0 / (1.0 + d)] *)

Section Similarity64.
#[local] Open Scope Q_scope.
Implicit Types d y : float.

Lemma Qinv_le_1 (v : Q) : 1 <= v → 0 < 1 / v ∧ 1 / v <= 1.
Proof.
  intros Hv. split.
  - apply Qlt_shift_div_l; lra.
  - apply Qle_shift_div_r; lra.
Qed.

Lemma Qinv_anti (v w : Q) : 0 < v → v <= w → 1 / w <= 1 / v.
Proof.
  intros Hv Hvw. apply Qle_shift_div_l; [lra|].
  assert (H : 1 / w * v == v / w) by (field; lra).
  rewrite H. apply Qle_shift_div_r; lra.
Qed.

Lemma B2Q_lt_max x : finite_nonneg (Prim2SF x) → B2Q x < pow2 1024.
Proof.
  intros Hx. pose proof (Prim2SF_valid x) as Hv. unfold B2Q.
  destruct (Prim2SF x) as [s|s| |[] m e]; try done; cbn [SF2Q cond_Zopp].
  pose proof (valid_mantissa _ _ _ Hv) as [Hm _].
  apply valid_finite in Hv as [_ He].
  apply (Qlt_le_trans _ (F2Q (2 ^ 53) e)); [by apply F2Q_lt|].
  rewrite F2Q_pow2 by lia. apply pow2_le. lia.
Qed.

Lemma not_finite_infinity y :
  PrimFloat.leb 0 y = true → PrimFloat.ltb y infinity = false →
  Prim2SF y = S754_infinity false.
Proof.
  rewrite leb_spec, ltb_spec. change (Prim2SF infinity) with (S754_infinity false).
  change (Prim2SF 0) with (S754_zero false).
  destruct (Prim2SF y) as [s|[]| |[] m e]; done.
Qed.

(** [1.0 + d] for a distance that is not negative. *)
Lemma succ_ge_one d :
  PrimFloat.leb 0 d = true → PrimFloat.leb 1 (1 + d) = true.
Proof.
  intros Hd. destruct (PrimFloat.ltb d infinity) eqn:Hfin.
  - assert (Hf : finite_nonneg (Prim2SF d)) by (by apply finite_nonneg_iff).
    pose proof (B2Q_nonneg d (finite_nonneg_shape _ Hf)) as H0.
    assert (H01 : B2Q 1 == 1) by reflexivity.
    apply (nearest_leb (B2Q 1) (B2Q 1 + B2Q d)).
    + lra.
    + lra.
    + apply (nearest_id 1). by vm_compute.
    + apply add_nearest; [by vm_compute | done].
  - pose proof (not_finite_infinity d Hd Hfin) as Hinf.
    rewrite leb_spec, add_spec, Hinf. reflexivity.
Qed.

Lemma succ_mono d1 d2 :
  PrimFloat.leb 0 d1 = true → PrimFloat.leb d1 d2 = true →
  PrimFloat.leb (1 + d1) (1 + d2) = true.
Proof.
  intros H1 H12. pose proof (leb_nonneg d1 d2 H1 H12) as H2.
  pose proof (proj1 (nonneg_shape_iff d2) H2) as Hs2.
  destruct (PrimFloat.ltb d2 infinity) eqn:Hfin.
  - assert (Hf2 : finite_nonneg (Prim2SF d2)) by (by apply finite_nonneg_iff).
    assert (Hf1 : finite_nonneg (Prim2SF d1)).
    { apply (leb_finite d1 d2); [by apply nonneg_shape_iff | done | done]. }
    apply (nearest_leb (B2Q 1 + B2Q d1) (B2Q 1 + B2Q d2)).
    + pose proof (B2Q_nonneg d1 (finite_nonneg_shape _ Hf1)).
      assert (H01 : B2Q 1 == 1) by reflexivity. lra.
    + apply (leb_B2Q d1 d2 Hf1 Hf2) in H12. lra.
    + apply add_nearest; [by vm_compute | done].
    + apply add_nearest; [by vm_compute | done].
  - assert (Hinf : Prim2SF d2 = S754_infinity false).
    { rewrite ltb_spec in Hfin. change (Prim2SF infinity) with (S754_infinity false) in Hfin.
      destruct (Prim2SF d2) as [s|[]| |[] m e]; done. }
    assert (Hy : Prim2SF (1 + d2) = S754_infinity false).
    { rewrite add_spec, Hinf. reflexivity. }
    pose proof (succ_ge_one d1 H1) as Hy1.
    pose proof (leb_infinity (1 + d1) (leb_nonneg 1 _ eq_refl Hy1)) as Hle.
    rewrite leb_spec in Hle |- *. by rewrite Hy.
Qed.

Lemma ge_one_finite y :
  PrimFloat.leb 1 y = true → PrimFloat.ltb y infinity = true →
  finite_nonneg (Prim2SF y) ∧ PrimFloat.ltb 0 y = true ∧ 1 <= B2Q y.
Proof.
  intros H1 Hfin.
  assert (Hf : finite_nonneg (Prim2SF y)).
  { apply finite_nonneg_iff. split; [|done]. by apply (leb_nonneg 1 y). }
  split; [done|]. split.
  - rewrite leb_spec in H1. rewrite ltb_spec.
    change (Prim2SF 1) with (S754_finite false 4503599627370496 (-52)) in H1.
    change (Prim2SF 0) with (S754_zero false).
    destruct (Prim2SF y) as [s|[]| |[] m e]; done.
  - apply (leb_B2Q 1 y) in H1; [|by vm_compute|done].
    assert (H01 : B2Q 1 == 1) by reflexivity. lra.
Qed.

(** [1.0 / y] for a divisor that is at least 1. *)
Lemma inv_unit y :
  PrimFloat.leb 1 y = true →
  PrimFloat.leb 0 (1 / y) = true ∧ PrimFloat.leb (1 / y) 1 = true.
Proof.
  intros H1. destruct (PrimFloat.ltb y infinity) eqn:Hfin.
  - destruct (ge_one_finite y H1 Hfin) as (Hf & Hpos & Hv).
    destruct (Qinv_le_1 _ Hv) as [Hlo Hhi].
    destruct (nearest_between (B2Q 1 / B2Q y) 0 1 (1 / y)) as (H0 & Hle & _).
    + by vm_compute.
    + by vm_compute.
    + assert (H01 : B2Q 1 == 1) by reflexivity.
      assert (H00 : B2Q 0 == 0) by reflexivity. rewrite H01, H00. lra.
    + assert (H01 : B2Q 1 == 1) by reflexivity. rewrite H01. lra.
    + apply div_nearest; [by vm_compute | done | done].
    + done.
  - pose proof (not_finite_infinity y (leb_nonneg 1 y eq_refl H1) Hfin) as Hinf.
    rewrite !leb_spec, div_spec, Hinf. split; reflexivity.
Qed.

Lemma inv_positive y :
  PrimFloat.leb 1 y = true → PrimFloat.ltb y infinity = true →
  PrimFloat.ltb 0 (1 / y) = true.
Proof.
  intros H1 Hfin. destruct (ge_one_finite y H1 Hfin) as (Hf & Hpos & Hv).
  pose proof (B2Q_lt_max y Hf) as Hmax.
  assert (Hc : PrimFloat.leb 0x1p-1024 (1 / y) = true).
  { apply (nearest_leb (pow2 (-1024)) (B2Q 1 / B2Q y)).
    - apply Qlt_le_weak, pow2_pos.
    - assert (H01 : B2Q 1 == 1) by reflexivity. rewrite H01.
      assert (Hp : pow2 (-1024) == 1 / pow2 1024) by reflexivity.
      rewrite Hp. apply Qinv_anti; lra.
    - apply (nearest_double_proper (B2Q 0x1p-1024)); [reflexivity|].
      apply nearest_id. by vm_compute.
    - apply div_nearest; [by vm_compute | done | done]. }
  rewrite leb_spec in Hc. rewrite ltb_spec.
  change (Prim2SF 0x1p-1024) with (S754_finite false 1125899906842624 (-1074)) in Hc.
  change (Prim2SF 0) with (S754_zero false).
  destruct (Prim2SF (1 / y)) as [s|[]| |[] m e]; done.
Qed.

Lemma inv_anti y1 y2 :
  PrimFloat.leb 1 y1 = true → PrimFloat.leb y1 y2 = true →
  PrimFloat.leb (1 / y2) (1 / y1) = true.
Proof.
  intros H1 H12.
  assert (H2 : PrimFloat.leb 1 y2 = true) by (by apply (leb_trans 1 y1 y2)).
  destruct (PrimFloat.ltb y2 infinity) eqn:Hfin2.
  - destruct (ge_one_finite y2 H2 Hfin2) as (Hf2 & Hpos2 & Hv2).
    assert (Hfin1 : PrimFloat.ltb y1 infinity = true).
    { apply finite_nonneg_iff. apply (leb_finite y1 y2); [|done|done].
      apply nonneg_shape_iff. by apply (leb_nonneg 1 y1). }
    destruct (ge_one_finite y1 H1 Hfin1) as (Hf1 & Hpos1 & Hv1).
    apply (leb_B2Q y1 y2 Hf1 Hf2) in H12.
    assert (H01 : B2Q 1 == 1) by reflexivity.
    apply (nearest_leb (B2Q 1 / B2Q y2) (B2Q 1 / B2Q y1)).
    + rewrite H01. destruct (Qinv_le_1 _ Hv2). lra.
    + rewrite H01. apply Qinv_anti; lra.
    + apply div_nearest; [by vm_compute | done | done].
    + apply div_nearest; [by vm_compute | done | done].
  - pose proof (not_finite_infinity y2 (leb_nonneg 1 y2 eq_refl H2) Hfin2) as Hinf.
    destruct (inv_unit y1 H1) as [H0 _].
    rewrite leb_spec in H0 |- *. rewrite (div_spec 1 y2), Hinf.
    exact H0.
Qed.

End Similarity64.

(** *** Lines 32-35: the blend and its clamp *)

Section Confidence64.
#[local] Open Scope Q_scope.
Implicit Types x y z c : float.

Lemma finite_nonneg_leb x : finite_nonneg (Prim2SF x) → PrimFloat.leb 0 x = true.
Proof. intros Hx. by apply finite_nonneg_iff. Qed.

Lemma mul_mono x x' y :
  finite_nonneg (Prim2SF x') → finite_nonneg (Prim2SF y) →
  PrimFloat.leb 0 x = true → PrimFloat.leb x x' = true →
  PrimFloat.leb (x * y) (x' * y) = true.
Proof.
  intros Hx' Hy H0 Hle.
  assert (Hx : finite_nonneg (Prim2SF x)).
  { apply (leb_finite x x'); [by apply nonneg_shape_iff | done | done]. }
  apply (leb_B2Q x x' Hx Hx') in Hle.
  pose proof (B2Q_nonneg x (finite_nonneg_shape _ Hx)).
  pose proof (B2Q_nonneg y (finite_nonneg_shape _ Hy)).
  apply (nearest_leb (B2Q x * B2Q y) (B2Q x' * B2Q y)).
  - by apply Qmult_le_0_compat.
  - by apply Qmult_le_compat_r.
  - by apply mul_nearest.
  - by apply mul_nearest.
Qed.

Lemma add_mono_l x x' y :
  finite_nonneg (Prim2SF x') → finite_nonneg (Prim2SF y) →
  PrimFloat.leb 0 x = true → PrimFloat.leb x x' = true →
  PrimFloat.leb (x + y) (x' + y) = true.
Proof.
  intros Hx' Hy H0 Hle.
  assert (Hx : finite_nonneg (Prim2SF x)).
  { apply (leb_finite x x'); [by apply nonneg_shape_iff | done | done]. }
  apply (leb_B2Q x x' Hx Hx') in Hle.
  pose proof (B2Q_nonneg x (finite_nonneg_shape _ Hx)).
  pose proof (B2Q_nonneg y (finite_nonneg_shape _ Hy)).
  apply (nearest_leb (B2Q x + B2Q y) (B2Q x' + B2Q y)).
  - lra.
  - lra.
  - by apply add_nearest.
  - by apply add_nearest.
Qed.

(** A product of two doubles between 0 and 2 is finite. *)
Lemma mul_small x y :
  PrimFloat.leb 0 x = true → PrimFloat.leb x 2 = true →
  PrimFloat.leb 0 y = true → PrimFloat.leb y 2 = true →
  finite_nonneg (Prim2SF (x * y)) ∧ PrimFloat.leb (x * y) 4 = true.
Proof.
  intros Hx0 Hx2 Hy0 Hy2.
  assert (H2 : finite_nonneg (Prim2SF 2)) by (by vm_compute).
  assert (Hx : finite_nonneg (Prim2SF x)).
  { apply (leb_finite x 2); [by apply nonneg_shape_iff | done | done]. }
  assert (Hy : finite_nonneg (Prim2SF y)).
  { apply (leb_finite y 2); [by apply nonneg_shape_iff | done | done]. }
  apply (leb_B2Q x 2 Hx H2) in Hx2. apply (leb_B2Q y 2 Hy H2) in Hy2.
  pose proof (B2Q_nonneg x (finite_nonneg_shape _ Hx)).
  pose proof (B2Q_nonneg y (finite_nonneg_shape _ Hy)).
  assert (H22 : B2Q 2 == 2) by reflexivity.
  assert (H44 : B2Q 4 == 4) by reflexivity.
  destruct (nearest_between (B2Q x * B2Q y) 0 4 (x * y)) as (_ & Hle & Hfin).
  - by vm_compute.
  - by vm_compute.
  - assert (H00 : B2Q 0 == 0) by reflexivity. rewrite H00.
    by apply Qmult_le_0_compat.
  - rewrite H44. apply (Qle_trans _ (2 * B2Q y)).
    + apply Qmult_le_compat_r; lra.
    + lra.
  - by apply mul_nearest.
  - done.
Qed.

Lemma blend_mono (sem sem' tms : float) :
  PrimFloat.leb 0 sem = true → PrimFloat.leb sem sem' = true →
  PrimFloat.leb sem' 1 = true →
  PrimFloat.leb 0 tms = true → PrimFloat.leb tms 2 = true →
  PrimFloat.leb (blend SearchAction_init sem tms)
                (blend SearchAction_init sem' tms) = true
  ∧ PrimFloat.leb 0 (blend SearchAction_init sem tms) = true.
Proof.
  intros H0 Hle H1 Ht0 Ht2. unfold blend.
  cbn [semantic_weight term_weight SearchAction_init f_add f_mul f_lit_0_7
       f_lit_0_3 float_PyFloat].
  assert (Hs'2 : PrimFloat.leb sem' 2 = true) by (by apply (leb_trans sem' 1 2); [apply (leb_nonneg sem sem')|..]).
  assert (Hs'0 : PrimFloat.leb 0 sem' = true) by (by apply (leb_nonneg sem sem')).
  destruct (mul_small sem' 0.7 Hs'0 Hs'2 eq_refl eq_refl) as [Hp' _].
  destruct (mul_small tms 0.3 Ht0 Ht2 eq_refl eq_refl) as [Hq _].
  assert (Hp : PrimFloat.leb (sem * 0.7) (sem' * 0.7) = true).
  { apply mul_mono; [|by vm_compute|done|done].
    apply (leb_finite sem' 2); [by apply nonneg_shape_iff | by vm_compute | done]. }
  assert (Hs2 : PrimFloat.leb sem 2 = true) by (by apply (leb_trans sem sem' 2)).
  destruct (mul_small sem 0.7 H0 Hs2 eq_refl eq_refl) as [Hp0 _].
  split.
  - apply add_mono_l; [done | done | by apply finite_nonneg_leb | done].
  - apply nonneg_shape_iff.
    apply (nearest_double_nonneg (B2Q (sem * 0.7) + B2Q (tms * 0.3))).
    + pose proof (B2Q_nonneg _ (finite_nonneg_shape _ Hp0)).
      pose proof (B2Q_nonneg _ (finite_nonneg_shape _ Hq)). lra.
    + by apply add_nearest.
Qed.

Lemma clamp01_mono64 c c' :
  PrimFloat.leb 0 c = true → PrimFloat.leb c c' = true →
  PrimFloat.leb (clamp01 c) (clamp01 c') = true.
Proof.
  intros H0 Hle. pose proof (leb_nonneg c c' H0 Hle) as H0'.
  unfold clamp01, py_max, py_min. cbn [f_ltb f_zero f_one float_PyFloat].
  destruct (PrimFloat.ltb c 1) eqn:Hc1, (PrimFloat.ltb c' 1) eqn:Hc'1.
  - destruct (PrimFloat.ltb 0 c) eqn:Hc0, (PrimFloat.ltb 0 c') eqn:Hc'0; try done.
    apply (leb_total 0 c' eq_refl H0') in Hc'0.
    apply ltb_not_leb in Hc0.
    by rewrite (leb_trans c c' 0 H0 Hle Hc'0) in Hc0.
  - change (PrimFloat.ltb 0 1) with true. cbn match.
    destruct (PrimFloat.ltb 0 c) eqn:Hc0; [by apply float_ltb_leb | done].
  - change (PrimFloat.ltb 0 1) with true. cbn match.
    apply (leb_total c 1 H0 eq_refl) in Hc1. apply ltb_not_leb in Hc'1.
    by rewrite (leb_trans 1 c c' eq_refl Hc1 Hle) in Hc'1.
  - done.
Qed.

Lemma confidence_of_mono64 (sem sem' tms : float) :
  PrimFloat.leb 0 sem = true → PrimFloat.leb sem sem' = true →
  PrimFloat.leb sem' 1 = true →
  PrimFloat.leb 0 tms = true → PrimFloat.leb tms 2 = true →
  PrimFloat.leb (confidence_of SearchAction_init sem tms)
                (confidence_of SearchAction_init sem' tms) = true.
Proof.
  intros H0 Hle H1 Ht0 Ht2. unfold confidence_of.
  destruct (blend_mono sem sem' tms H0 Hle H1 Ht0 Ht2) as [Hb Hb0].
  by apply clamp01_mono64.
Qed.

End Confidence64.

(** *** [round(x, 3)] on the doubles from 0 to 2 *)

Section Round64.
#[local] Open Scope Q_scope.
Implicit Types x y : float.

Lemma nearest_exact v x (j e0 : Z) :
  nearest_double v (Prim2SF x) → v == F2Q j e0 →
  (0 <= j < 2 ^ 53)%Z → (-1074 <= e0 <= 0)%Z →
  B2Q x == v ∧ finite_nonneg (Prim2SF x).
Proof.
  intros Hn Hv Hj He0.
  assert (H0 : 0 <= v).
  { rewrite Hv. unfold F2Q. apply Qmult_le_0_compat.
    - rewrite <- (Zle_Qle 0). lia.
    - apply Qlt_le_weak, pow2_pos. }
  assert (Hmax : v < pow2 1024).
  { rewrite Hv. apply (Qlt_le_trans _ (F2Q (2 ^ 53) e0)); [apply F2Q_lt; lia|].
    rewrite F2Q_pow2 by lia. apply pow2_le. lia. }
  destruct (nearest_double_exact v _ j e0 Hn Hv Hj ltac:(lia) Hmax) as [Hval Hfin].
  split; [done|].
  destruct (nearest_double_nonneg v _ H0 Hn) as [Hs _].
  destruct (Prim2SF x) as [s|[]| |[] m e]; done.
Qed.

Lemma Prim2SF_of_Z (k : Z) :
  (0 <= k < 2 ^ 63)%Z →
  Prim2SF (PrimFloat.of_uint63 (Uint63.of_Z k)) = binary_normalize prec emax k 0 false.
Proof.
  intros Hk. rewrite of_uint63_spec, Uint63.of_Z_spec.
  rewrite Z.mod_small; [done|]. exact Hk.
Qed.

Lemma millis_nearest (k : Z) :
  (0 <= k < 2 ^ 53)%Z → nearest_double (inject_Z k / 1000) (Prim2SF (millis k)).
Proof.
  intros Hk. unfold millis.
  assert (Hn : nearest_double (inject_Z k)
                 (Prim2SF (PrimFloat.of_uint63 (Uint63.of_Z k)))).
  { rewrite Prim2SF_of_Z by lia. apply binary_normalize_nearest. lia. }
  destruct (nearest_exact _ _ k 0 Hn) as [Hval Hfin]; [|lia|lia|].
  { unfold F2Q. rewrite pow2_0. ring. }
  assert (H1000 : B2Q 1000 == 1000) by reflexivity.
  apply (nearest_double_proper
           (B2Q (PrimFloat.of_uint63 (Uint63.of_Z k)) / B2Q 1000)).
  - by rewrite Hval, H1000.
  - apply div_nearest; [done | by vm_compute | reflexivity].
Qed.

Lemma small_finite x :
  PrimFloat.leb 0 x = true → PrimFloat.leb x 2 = true →
  finite_nonneg (Prim2SF x) ∧ 0 <= B2Q x ∧ B2Q x <= 2.
Proof.
  intros H0 H2.
  assert (Hf : finite_nonneg (Prim2SF x)).
  { apply (leb_finite x 2); [by apply nonneg_shape_iff | by vm_compute | done]. }
  split; [done|]. split; [apply B2Q_nonneg, finite_nonneg_shape, Hf|].
  apply (leb_B2Q x 2) in H2; [|done|by vm_compute].
  assert (H22 : B2Q 2 == 2) by reflexivity. lra.
Qed.

(** [round(x, 3)] of a double between 0 and 2: the double nearest to
    [k / 1000], where [k] is the integer nearest to [1000 x]. *)
Lemma float_round3_nearest x :
  PrimFloat.leb 0 x = true → PrimFloat.leb x 2 = true →
  (0 <= round_half_even (1000 * B2Q x) <= 2000)%Z
  ∧ nearest_double (inject_Z (round_half_even (1000 * B2Q x)) / 1000)
      (Prim2SF (float_round3 x)).
Proof.
  intros H0 H2. destruct (small_finite x H0 H2) as (Hf & Hv0 & Hv2).
  set (k := round_half_even (1000 * B2Q x)).
  assert (Hk : (0 <= k <= 2000)%Z).
  { unfold k. split.
    - rewrite <- (round_half_even_inject_Z 0). apply round_half_even_mono.
      change (inject_Z 0) with 0. lra.
    - rewrite <- (round_half_even_inject_Z 2000). apply round_half_even_mono.
      change (inject_Z 2000) with 2000. lra. }
  split; [done|].
  pose proof (Prim2SF_valid x) as Hvalid.
  unfold float_round3. unfold B2Q in k, Hv2.
  destruct (Prim2SF x) as [s|s| |[] m e] eqn:Hp; try done.
  - rewrite Hp. apply (nearest_double_proper 0); [|apply nearest_double_zero].
    unfold k. cbn [SF2Q].
    rewrite (round_half_even_proper _ (inject_Z 0)) by (change (inject_Z 0) with 0; ring).
    rewrite round_half_even_inject_Z. reflexivity.
  - cbn [SF2Q cond_Zopp] in k, Hv2.
    pose proof (valid_mantissa _ _ _ Hvalid) as [Hm53 Hm52].
    apply valid_finite in Hvalid as [Hc He971].
    assert (He : (e < 0)%Z).
    { destruct (Z_lt_le_dec e 0) as [|Hge]; [done|exfalso].
      specialize (Hm52 ltac:(lia)).
      assert (Hle : F2Q (2 ^ 52) 0 <= F2Q (Zpos m) e).
      { apply (Qle_trans _ (F2Q (Zpos m) 0)); [by apply F2Q_le|].
        unfold F2Q. apply Qmult_le_l; [by rewrite <- (Zlt_Qlt 0)|].
        by apply pow2_le. }
      assert (H52 : F2Q (2 ^ 52) 0 == 4503599627370496) by reflexivity.
      lra. }
    replace (0 <=? e)%Z with false by (symmetry; apply Z.leb_gt; lia).
    set (den := Pos.pow 2 (Z.to_pos (- e))).
    assert (Hden : Zpos den = (2 ^ (- e))%Z).
    { unfold den. rewrite Pos2Z.inj_pow, Z2Pos.id by lia. done. }
    assert (Hq : Qmake (Zpos m * 1000) den == 1000 * F2Q (Zpos m) e).
    { assert (Hpe : pow2 e * inject_Z (Zpos den) == 1).
      { rewrite Hden, <- pow2_Z, <- pow2_add by lia.
        by replace (e + - e)%Z with 0%Z by lia. }
      assert (Hmk : Qmake (Zpos m * 1000) den * inject_Z (Zpos den)
                    == inject_Z (Zpos m) * 1000).
      { unfold Qeq, Qmult, inject_Z. cbn [Qnum Qden]. lia. }
      assert (Hdpos : 0 < inject_Z (Zpos den)) by (by rewrite <- (Zlt_Qlt 0)).
      unfold F2Q.
      apply (Qmult_inj_r _ _ (inject_Z (Zpos den))); [lra|].
      rewrite Hmk.
      transitivity (1000 * inject_Z (Zpos m) * (pow2 e * inject_Z (Zpos den))); [|ring].
      rewrite Hpe. ring. }
    cbv zeta. rewrite (round_half_even_proper _ _ Hq). fold k.
    replace (2 ^ 53 <=? k)%Z with false by (symmetry; apply Z.leb_gt; lia).
    apply millis_nearest. lia.
Qed.

Lemma float_round3_mono x y :
  PrimFloat.leb 0 x = true → PrimFloat.leb x y = true → PrimFloat.leb y 2 = true →
  PrimFloat.leb (float_round3 x) (float_round3 y) = true.
Proof.
  intros H0 Hxy H2.
  assert (Hx2 : PrimFloat.leb x 2 = true) by (by apply (leb_trans x y 2)).
  assert (Hy0 : PrimFloat.leb 0 y = true) by (by apply (leb_nonneg x y)).
  destruct (float_round3_nearest x H0 Hx2) as [Hkx Hnx].
  destruct (float_round3_nearest y Hy0 H2) as [Hky Hny].
  destruct (small_finite x H0 Hx2) as (Hfx & Hx0 & _).
  destruct (small_finite y Hy0 H2) as (Hfy & _ & _).
  apply (leb_B2Q x y Hfx Hfy) in Hxy.
  assert (Hk : (round_half_even (1000 * B2Q x) <= round_half_even (1000 * B2Q y))%Z).
  { apply round_half_even_mono. lra. }
  eapply nearest_leb; [| |exact Hnx|exact Hny].
  - apply Qle_shift_div_l; [reflexivity|]. rewrite Qmult_0_l.
    rewrite <- (Zle_Qle 0). lia.
  - unfold Qdiv. apply Qmult_le_compat_r; [by rewrite <- Zle_Qle | discriminate].
Qed.

End Round64.

(** *** Lines 25-29: the term match score *)

Section TermScore64.
#[local] Open Scope Q_scope.

Lemma ge_one_nonzero (x : float) :
  PrimFloat.leb 1 x = true →
  PrimFloat.eqb x 0 = false ∧ PrimFloat.ltb 0 x = true.
Proof.
  rewrite leb_spec, FloatAxioms.eqb_spec, ltb_spec.
  change (Prim2SF 1) with (S754_finite false 4503599627370496 (-52)).
  change (Prim2SF 0) with (S754_zero false).
  destruct (Prim2SF x) as [s|[]| |[] m e]; done.
Qed.

Lemma float_of_nat_ge_one (n : nat) : PrimFloat.leb 1 (float_of_nat (S n)) = true.
Proof.
  apply (nearest_leb (B2Q 1) (inject_Z (Z.of_nat (S n)))).
  - vm_compute. discriminate.
  - assert (H01 : B2Q 1 == inject_Z 1) by reflexivity.
    rewrite H01, <- Zle_Qle. lia.
  - apply nearest_id. by vm_compute.
  - apply float_of_nat_nearest.
Qed.

(** A positive length, converted to a double, is not zero. *)
Lemma float_of_nat_S_nonzero (n : nat) :
  f_eqb (f_of_nat (S n)) (f_zero : float) = false.
Proof. apply ge_one_nonzero, float_of_nat_ge_one. Qed.

Lemma float_of_nat_exact (n : nat) :
  (Z.of_nat n < 2 ^ 53)%Z →
  B2Q (float_of_nat n) == inject_Z (Z.of_nat n)
  ∧ finite_nonneg (Prim2SF (float_of_nat n)).
Proof.
  intros Hn. apply (nearest_exact _ _ (Z.of_nat n) 0).
  - apply float_of_nat_nearest.
  - unfold F2Q. rewrite pow2_0. ring.
  - lia.
  - lia.
Qed.

(** The quotient of line 29 for counts [e <= p <= n] with [0 < n <= 2^51]:
    the sum is exact and the result is the double nearest to
    [(e + p/2) / n]. *)
Lemma term_quotient_nearest (e p n : nat) :
  (e ≤ p)%nat → (p ≤ n)%nat → (0 < n)%nat → (Z.of_nat n <= 2 ^ 51)%Z →
  nearest_double
    ((inject_Z (Z.of_nat e) + (1 # 2) * inject_Z (Z.of_nat p)) / inject_Z (Z.of_nat n))
    (Prim2SF ((float_of_nat e + 0.5 * float_of_nat p) / float_of_nat n)).
Proof.
  intros Hep Hpn Hn Hmax.
  change (2 ^ 51)%Z with 2251799813685248%Z in Hmax.
  destruct (float_of_nat_exact e) as [Hve Hfe]; [lia|].
  destruct (float_of_nat_exact p) as [Hvp Hfp]; [lia|].
  destruct (float_of_nat_exact n) as [Hvn Hfn]; [lia|].
  assert (Hpos : PrimFloat.ltb 0 (float_of_nat n) = true).
  { destruct n as [|n]; [lia|]. apply ge_one_nonzero, float_of_nat_ge_one. }
  assert (Hhalf : B2Q 0.5 == 1 # 2) by reflexivity.
  destruct (nearest_exact (B2Q 0.5 * B2Q (float_of_nat p))
              (0.5 * float_of_nat p) (Z.of_nat p) (-1)) as [Hvh Hfh].
  { apply mul_nearest; [by vm_compute | done]. }
  { rewrite Hhalf, Hvp. unfold F2Q.
    assert (Hp1 : pow2 (-1) == 1 # 2) by reflexivity. rewrite Hp1. ring. }
  { lia. }
  { lia. }
  destruct (nearest_exact (B2Q (float_of_nat e) + B2Q (0.5 * float_of_nat p))
              (float_of_nat e + 0.5 * float_of_nat p)
              (2 * Z.of_nat e + Z.of_nat p) (-1)) as [Hva Hfa].
  { by apply add_nearest. }
  { rewrite Hvh, Hhalf, Hve, Hvp. unfold F2Q.
    assert (Hp1 : pow2 (-1) == 1 # 2) by reflexivity. rewrite Hp1.
    rewrite inject_Z_plus, inject_Z_mult. change (inject_Z 2) with 2. ring. }
  { lia. }
  { lia. }
  apply (nearest_double_proper
           (B2Q (float_of_nat e + 0.5 * float_of_nat p) / B2Q (float_of_nat n))).
  - by rewrite Hva, Hvh, Hhalf, Hve, Hvp, Hvn.
  - by apply div_nearest.
Qed.

Lemma term_quotient_range (e p n : nat) :
  (e ≤ p)%nat → (p ≤ n)%nat → (0 < n)%nat →
  0 <= (inject_Z (Z.of_nat e) + (1 # 2) * inject_Z (Z.of_nat p)) / inject_Z (Z.of_nat n)
  ∧ (inject_Z (Z.of_nat e) + (1 # 2) * inject_Z (Z.of_nat p)) / inject_Z (Z.of_nat n)
    <= 3 # 2.
Proof.
  intros Hep Hpn Hn.
  set (qe := inject_Z (Z.of_nat e)). set (qp := inject_Z (Z.of_nat p)).
  set (qn := inject_Z (Z.of_nat n)).
  assert (He : 0 <= qe) by (unfold qe; rewrite <- (Zle_Qle 0); lia).
  assert (Hp : 0 <= qp) by (unfold qp; rewrite <- (Zle_Qle 0); lia).
  assert (Hepq : qe <= qp) by (unfold qe, qp; rewrite <- Zle_Qle; lia).
  assert (Hpm : qp <= qn) by (unfold qp, qn; rewrite <- Zle_Qle; lia).
  assert (Hm : 0 < qn) by (unfold qn; rewrite <- (Zlt_Qlt 0); lia).
  split.
  - apply Qle_shift_div_l; [done|]. lra.
  - apply Qle_shift_div_r; [done|]. lra.
Qed.

(** The term match score in binary64, for a query of at most 2^51 terms:
    it never raises and lies between 0 and 1.5. *)
Lemma term_match_score_binary64 (qts uts : gset string) :
  (Z.of_nat (size qts) <= 2 ^ 51)%Z →
  ∃ t : float, term_match_score qts uts = Ok t
    ∧ PrimFloat.leb 0 t = true ∧ PrimFloat.leb t 1.5 = true.
Proof.
  intros Hmax. unfold term_match_score. case_bool_decide as Hn.
  2:{ exists 0%float. done. }
  unfold truediv. cbn [f_eqb f_of_nat f_zero f_add f_mul f_div f_half float_PyFloat].
  pose proof (exact_le_partial qts uts) as Hep.
  pose proof (partial_le_size qts uts) as Hps.
  destruct (size qts) as [|n] eqn:Hsz; [done|].
  destruct (ge_one_nonzero _ (float_of_nat_ge_one n)) as [-> _].
  eexists. split; [reflexivity|].
  pose proof (term_quotient_nearest _ _ (S n) Hep Hps ltac:(lia) Hmax) as Hnear.
  destruct (term_quotient_range _ _ (S n) Hep Hps ltac:(lia)) as [Hlo Hhi].
  assert (H00 : B2Q 0 == 0) by reflexivity.
  assert (H15 : B2Q 1.5 == 3 # 2) by reflexivity.
  rewrite <- H00 in Hlo. rewrite <- H15 in Hhi.
  destruct (nearest_between _ 0 1.5 _ ltac:(by vm_compute) ltac:(by vm_compute)
              Hlo Hhi Hnear) as (Hge & Hle & _).
  done.
Qed.

Lemma abs0_finite x m e : abs0 x = S754_finite false m e → x = S754_finite false m e.
Proof. by destruct x. Qed.

(** When every query term is a url term the score is exactly 1.5. *)
Lemma term_match_score_all_exact (qts uts : gset string) :
  size qts ≠ 0%nat → (Z.of_nat (size qts) <= 2 ^ 51)%Z →
  exact_matches qts uts = size qts →
  term_match_score qts uts = Ok 1.5%float.
Proof.
  intros Hn Hmax He. unfold term_match_score. rewrite bool_decide_true by done.
  unfold truediv. cbn [f_eqb f_of_nat f_zero f_add f_mul f_div f_half float_PyFloat].
  pose proof (exact_le_partial qts uts) as Hep.
  pose proof (partial_le_size qts uts) as Hps.
  assert (Hp : partial_matches qts uts = size qts) by lia.
  pose proof (term_quotient_nearest _ _ (size qts) Hep Hps ltac:(lia) Hmax) as Hnear.
  rewrite He, Hp in *.
  destruct (size qts) as [|n] eqn:Hsz; [done|].
  destruct (ge_one_nonzero _ (float_of_nat_ge_one n)) as [-> _].
  f_equal. apply Prim2SF_inj.
  change (Prim2SF 1.5) with (S754_finite false 6755399441055744 (-52)).
  apply abs0_finite.
  change (S754_finite false 6755399441055744 (-52)) with (abs0 (Prim2SF 1.5)).
  eapply nearest_double_unique; [exact Hnear|].
  apply (nearest_double_proper (B2Q 1.5)); [|apply nearest_id; by vm_compute].
  assert (H15 : B2Q 1.5 == 3 # 2) by reflexivity. rewrite H15.
  set (qn := inject_Z (Z.of_nat (S n))).
  assert (Hm : 0 < qn) by (unfold qn; rewrite <- (Zlt_Qlt 0); lia).
  field. lra.
Qed.

End TermScore64.

(** *** The scorer on doubles *)

Section Similarity64b.
#[local] Open Scope Q_scope.

Lemma leb_max_float (x : float) :
  finite_nonneg (Prim2SF x) → PrimFloat.leb x 0x1.fffffffffffffp+1023 = true.
Proof.
  intros Hf. pose proof (Prim2SF_valid x) as Hv. rewrite leb_spec.
  change (Prim2SF 0x1.fffffffffffffp+1023)
    with (S754_finite false 9007199254740991 971).
  destruct (Prim2SF x) as [s|s| |[] m e]; try done.
  pose proof (valid_mantissa _ _ _ Hv) as [Hm _].
  apply valid_finite in Hv as [_ He].
  change (2 ^ 53)%Z with 9007199254740992%Z in Hm.
  unfold SFleb, SFcompare. rewrite compare_cont_Eq.
  destruct (Z.compare_spec e 971); [|done|lia].
  destruct (Z.compare_spec (Zpos m) 9007199254740991); [done|done|lia].
Qed.

Lemma nearest_above_max :
  nearest_double (B2Q 1 + B2Q 0x1.fffffffffffffp+1023)
    (Prim2SF 0x1.fffffffffffffp+1023).
Proof.
  exists 1024%Z. split.
  - split; [|left]; vm_compute; [reflexivity | discriminate].
  - vm_compute. reflexivity.
Qed.

(** [1.0 + d] does not overflow. *)
Lemma succ_finite (d : float) :
  PrimFloat.leb 0 d = true → PrimFloat.ltb d infinity = true →
  PrimFloat.ltb (1 + d) infinity = true
  ∧ nearest_double (1 + B2Q d) (Prim2SF (1 + d)).
Proof.
  intros H0 Hfin.
  assert (Hf : finite_nonneg (Prim2SF d)) by (by apply finite_nonneg_iff).
  pose proof (add_nearest 1 d ltac:(by vm_compute) Hf) as Hn.
  assert (H01 : B2Q 1 == 1) by reflexivity.
  split.
  - apply finite_nonneg_iff.
    apply (leb_finite _ 0x1.fffffffffffffp+1023).
    + apply nonneg_shape_iff. apply (leb_nonneg 1); [done|]. by apply succ_ge_one.
    + by vm_compute.
    + apply (nearest_leb (B2Q 1 + B2Q d) (B2Q 1 + B2Q 0x1.fffffffffffffp+1023)).
      * pose proof (B2Q_nonneg d (finite_nonneg_shape _ Hf)). lra.
      * pose proof (leb_max_float d Hf) as Hle.
        apply (leb_B2Q d 0x1.fffffffffffffp+1023 Hf) in Hle; [lra | by vm_compute].
      * done.
      * apply nearest_above_max.
  - apply (nearest_double_proper (B2Q 1 + B2Q d)); [by rewrite H01 | done].
Qed.

End Similarity64b.

Section Claims64.
#[local] Open Scope Q_scope.

Lemma semantic_similarity_float (d : float) :
  PrimFloat.leb 0 d = true → semantic_similarity d = Ok (1 / (1 + d))%float.
Proof.
  intros Hd. unfold semantic_similarity, truediv.
  cbn [f_eqb f_add f_one f_zero f_div float_PyFloat].
  by destruct (ge_one_nonzero _ (succ_ge_one d Hd)) as [-> _].
Qed.

Lemma infinity_unique (d : float) :
  PrimFloat.leb 0 d = true → PrimFloat.ltb d infinity = false → d = infinity.
Proof.
  intros H0 Hinf. apply Prim2SF_inj.
  by rewrite (not_finite_infinity d H0 Hinf).
Qed.

(** The similarity never exceeds the quotient [1.0 / d]. *)
Lemma semantic_similarity_decay (d : float) :
  PrimFloat.ltb 0 d = true →
  PrimFloat.leb (1 / (1 + d)) (1 / d) = true.
Proof.
  intros Hpos. pose proof (float_ltb_leb _ _ Hpos) as Hd.
  destruct (PrimFloat.ltb d infinity) eqn:Hfin.
  2:{ pose proof (infinity_unique d Hd Hfin) as ->. reflexivity. }
  assert (Hf : finite_nonneg (Prim2SF d)) by (by apply finite_nonneg_iff).
  destruct (succ_finite d Hd Hfin) as [Hyfin Hyn].
  pose proof (succ_ge_one d Hd) as Hy.
  destruct (ge_one_finite _ Hy Hyfin) as (Hfy & Hypos & Hy1).
  assert (H01 : B2Q 1 == 1) by reflexivity.
  assert (Hvd : 0 < B2Q d).
  { rewrite ltb_spec in Hpos. change (Prim2SF 0) with (S754_zero false) in Hpos.
    unfold B2Q. destruct (Prim2SF d) as [s|[]| |[] m e]; try done.
    cbn [SF2Q cond_Zopp]. unfold F2Q. apply Qmult_lt_0_compat.
    - by rewrite <- (Zlt_Qlt 0).
    - apply pow2_pos. }
  assert (Hle : B2Q d <= B2Q (1 + d)).
  { apply (leb_B2Q d (1 + d) Hf Hfy).
    apply (nearest_leb (B2Q d) (1 + B2Q d)); [lra | lra | by apply nearest_id | done]. }
  apply (nearest_leb (B2Q 1 / B2Q (1 + d)) (B2Q 1 / B2Q d)).
  - rewrite H01. destruct (Qinv_le_1 _ Hy1). lra.
  - rewrite H01. by apply Qinv_anti.
  - apply div_nearest; [by vm_compute | done | done].
  - apply div_nearest; [by vm_compute | done | done].
Qed.

Lemma features_raw_result_float (u q : string) (d : float) :
  few_terms q → PrimFloat.leb 0 d = true →
  ∃ tms, term_match_score (query_terms q) (url_terms u) = Ok tms
    ∧ PrimFloat.leb 0 tms = true ∧ PrimFloat.leb tms 1.5 = true
    ∧ features (raw_result u d q) = Ok (u, (1 / (1 + d))%float, tms).
Proof.
  intros Hq Hd.
  destruct (term_match_score_binary64 (query_terms q) (url_terms u) Hq)
    as (tms & Ht & H0 & H15).
  exists tms. split; [done|]. split; [done|]. split; [done|].
  apply features_Ok. exists d, q.
  repeat split; [by apply semantic_similarity_float | done].
Qed.

Lemma leb_1_5_2 (t : float) :
  PrimFloat.leb 0 t = true → PrimFloat.leb t 1.5 = true → PrimFloat.leb t 2 = true.
Proof. intros H0 H15. by apply (leb_trans t 1.5 2). Qed.

Lemma unit_leb_2 (c : float) : unit_interval c → PrimFloat.leb c 2 = true.
Proof. intros [H0 H1]. by apply (leb_trans c 1 2). Qed.

End Claims64.

Section Claims64b.
#[local] Open Scope Q_scope.

Lemma nonneg_distance_no_zero_divisor_float (r : RawResult float) :
  (∀ d, distance r = Some d → PrimFloat.leb 0 d = true) → ¬ zero_divisor r.
Proof.
  intros Hd (d & Hr & Heq). specialize (Hd d Hr).
  cbn [f_eqb f_add f_one f_zero float_PyFloat] in Heq.
  destruct (ge_one_nonzero _ (succ_ge_one d Hd)) as [Hne _]. congruence.
Qed.

End Claims64b.

(* ===================================================================== *)
(** ** Order, threshold and confidence: the two arithmetics together      *)
(* ===================================================================== *)

(** C2. Whatever list of raw results is passed, the list returned is in
    descending order of [confidence], and every element has
    [confidence >= 0.4]: it holds, up to order, exactly one scored result
    for each input whose computed confidence is at least 0.4, so an input
    whose computed confidence is below 0.4 contributes nothing.  This holds
    in exact arithmetic and, with the comparisons of doubles, in
    binary64. *)
Theorem output_sorted_and_thresholded :
  (∀ (rs : list (RawResult Q)) (out : list (ScoredResult Q)),
      process_search_results SearchAction_init rs = Ok out →
      descending out
      ∧ (∀ s, s ∈ out → (2 # 5 <= confidence s)%Q)
      ∧ out ≡ₚ omap (score_of SearchAction_init) rs
      ∧ (∀ r u sem tms, r ∈ rs → features r = Ok (u, sem, tms) →
           ((confidence_of SearchAction_init sem tms < 2 # 5)%Q →
              score_of SearchAction_init r = None)
           ∧ ((2 # 5 <= confidence_of SearchAction_init sem tms)%Q →
              score_of SearchAction_init r
              = Some (scored u (confidence_of SearchAction_init sem tms) sem tms))))
  ∧ (∀ (rs : list (RawResult float)) (out : list (ScoredResult float)),
      process_search_results SearchAction_init rs = Ok out →
      descending_by (fun x y => PrimFloat.leb x y = true) out
      ∧ (∀ s, s ∈ out →
           PrimFloat.leb 0.4 (confidence s) = true
           ∧ PrimFloat.leb (confidence s) 1 = true)
      ∧ out ≡ₚ omap (score_of SearchAction_init) rs
      ∧ (∀ r u sem tms, r ∈ rs → features r = Ok (u, sem, tms) →
           (PrimFloat.leb 0.4 (confidence_of SearchAction_init sem tms) = false →
              score_of SearchAction_init r = None)
           ∧ (PrimFloat.leb 0.4 (confidence_of SearchAction_init sem tms) = true →
              score_of SearchAction_init r
              = Some (scored u (confidence_of SearchAction_init sem tms) sem tms)))).
Proof.
  split.
  - apply output_sorted_and_thresholded_exact.
  - intros rs out Hp.
    destruct (output_sorted_and_thresholded_binary64 rs out Hp) as (Hd & Ht & Hperm).
    split; [done|]. split; [done|]. split; [done|].
    intros r u sem tms _ Hf. unfold score_of, keep. rewrite Hf.
    cbn [f_geb f_leb float_PyFloat min_confidence_threshold SearchAction_init f_lit_0_4].
    split; intros ->; done.
Qed.

(** Witness of C2 on four records, in both arithmetics: two are kept, in
    the order 1.0, 0.467. *)
Lemma output_sorted_and_thresholded_witness :
  (∃ out : list (ScoredResult Q),
      process_search_results SearchAction_init
        [raw_result "y" 5%Q "x"; raw_result "y" (1 # 2)%Q "x";
         raw_result "a" 0%Q "a"; raw_result "z" 3%Q ""] = Ok out
      ∧ descending out
      ∧ (∀ s, s ∈ out → (2 # 5 <= confidence s)%Q))
  ∧ (∃ out : list (ScoredResult float),
      process_search_results SearchAction_init
        [raw_result "y" 5%float "x"; raw_result "y" 0.5%float "x";
         raw_result "a" 0%float "a"; raw_result "z" 3%float ""] = Ok out
      ∧ descending_by (fun x y => PrimFloat.leb x y = true) out
      ∧ (∀ s, s ∈ out →
           PrimFloat.leb 0.4 (confidence s) = true
           ∧ PrimFloat.leb (confidence s) 1 = true)).
Proof.
  destruct output_sorted_and_thresholded as [HQ Hfloat]. split.
  - eexists. split; [vm_compute; reflexivity|].
    match goal with
    | |- descending ?out ∧ _ =>
        destruct (HQ [raw_result "y" 5%Q "x"; raw_result "y" (1 # 2)%Q "x";
                      raw_result "a" 0%Q "a"; raw_result "z" 3%Q ""] out)
          as (Hd & Ht & _)
    end; [vm_compute; reflexivity|]. by split.
  - eexists. split; [vm_compute; reflexivity|].
    match goal with
    | |- descending_by _ ?out ∧ _ =>
        destruct (Hfloat [raw_result "y" 5%float "x"; raw_result "y" 0.5%float "x";
                          raw_result "a" 0%float "a"; raw_result "z" 3%float ""] out)
          as (Hd & Ht & _)
    end; [vm_compute; reflexivity|]. by split.
Defined.

(** C3, as the code has it: for a raw result that can be scored, the
    confidence computed on lines 32-35 equals
    [clamp(0.7 * semantic_similarity + 0.3 * term_match_score, 0, 1)] and
    lies in [0, 1]; the scored result carries that value under
    [highlight_instructions.confidence_threshold] and carries it rounded
    to three decimals under [confidence], which lies in [0, 1] too.  The
    formula is stated in exact arithmetic; that the stored confidence is
    the rounded one and that both values lie in [0, 1] holds in binary64 as
    well. *)
Theorem confidence_formula :
  (∀ (r : RawResult Q) (u : string) (sem tms : Q),
      features r = Ok (u, sem, tms) →
      let c := clamp ((7 # 10) * sem + (3 # 10) * tms)%Q 0 1 in
      (confidence_of SearchAction_init sem tms == c)%Q
      ∧ (0 <= c)%Q ∧ (c <= 1)%Q
      ∧ ∀ s, score_of SearchAction_init r = Some s →
          (confidence_threshold (highlight_instructions s) == c)%Q
          ∧ (confidence s == Qround3 c)%Q
          ∧ (0 <= confidence s)%Q ∧ (confidence s <= 1)%Q)
  ∧ (∀ (r : RawResult float) (u : string) (sem tms : float),
      features r = Ok (u, sem, tms) →
      let c := confidence_of SearchAction_init sem tms in
      unit_interval c
      ∧ ∀ s, score_of SearchAction_init r = Some s →
          confidence_threshold (highlight_instructions s) = c
          ∧ confidence s = float_round3 c
          ∧ unit_interval (confidence s)).
Proof.
  split.
  - apply confidence_formula_exact.
  - intros r u sem tms Hf c. split; [apply clamp01_unit|].
    intros s Hs. pose proof (score_of_confidence_binary64 r s Hs) as [Hu _].
    apply score_of_Some in Hs as (u' & sem' & tms' & Hf' & _ & ->).
    rewrite Hf in Hf'. injection Hf' as <- <- <-. done.
Qed.

(** Witness of the amended C3: the record at distance 1/2 without any
    matching term, in both arithmetics. *)
Lemma confidence_formula_witness :
  (let c := clamp ((7 # 10) * (1 / (1 + (1 # 2))) + (3 # 10) * (0 # 2))%Q 0 1 in
   (confidence_of SearchAction_init (1 / (1 + (1 # 2)))%Q (0 # 2)%Q == c)%Q
   ∧ (0 <= c)%Q ∧ (c <= 1)%Q
   ∧ ∀ s, score_of SearchAction_init (raw_result "y" (1 # 2)%Q "x") = Some s →
       (confidence_threshold (highlight_instructions s) == c)%Q
       ∧ (confidence s == Qround3 c)%Q
       ∧ (0 <= confidence s)%Q ∧ (confidence s <= 1)%Q)
  ∧ (let c := confidence_of SearchAction_init (1 / (1 + 0.5))%float 0%float in
     unit_interval c
     ∧ ∀ s, score_of SearchAction_init (raw_result "y" 0.5%float "x") = Some s →
         confidence_threshold (highlight_instructions s) = c
         ∧ confidence s = float_round3 c
         ∧ unit_interval (confidence s)).
Proof.
  destruct confidence_formula as [HQ Hfloat]. split.
  - apply (HQ (raw_result "y" (1 # 2)%Q "x") "y"). vm_compute. reflexivity.
  - apply (Hfloat (raw_result "y" 0.5%float "x") "y"). vm_compute. reflexivity.
Defined.

(* ===================================================================== *)
(** ** Similarity, term score and errors: the two arithmetics together    *)
(* ===================================================================== *)

(** C4, as the code has it.  For a raw result with distance [d >= 0],
    line 17 does not raise and computes [1.0 / (1.0 + d)].  In exact
    arithmetic that is [1 / (1 + d)], in (0, 1].  In binary64 it lies in
    [0, 1]; for a finite [d] it is positive, and it is the double nearest
    to [1 / y], where [y] is the double nearest to [1 + d]; for the
    distance [+inf] it is [0.0]. *)
Theorem semantic_similarity_range :
  (∀ (r : RawResult Q) (d : Q),
      distance r = Some d → (0 <= d)%Q →
      semantic_similarity d = Ok (1 / (1 + d))%Q
      ∧ (∀ u sem tms, features r = Ok (u, sem, tms) → sem = (1 / (1 + d))%Q)
      ∧ (0 < 1 / (1 + d))%Q ∧ (1 / (1 + d) <= 1)%Q)
  ∧ (∀ (r : RawResult float) (d : float),
      distance r = Some d → PrimFloat.leb 0 d = true →
      let sem := (1 / (1 + d))%float in
      semantic_similarity d = Ok sem
      ∧ (∀ u s tms, features r = Ok (u, s, tms) → s = sem)
      ∧ PrimFloat.leb 0 sem = true ∧ PrimFloat.leb sem 1 = true
      ∧ (PrimFloat.ltb d infinity = true →
           PrimFloat.ltb 0 sem = true
           ∧ nearest_double (1 + B2Q d) (Prim2SF (1 + d))
           ∧ nearest_double (1 / B2Q (1 + d)) (Prim2SF sem))
      ∧ (PrimFloat.ltb d infinity = false → d = infinity ∧ sem = 0%float)).
Proof.
  split; [apply semantic_similarity_range_exact|].
  intros r d Hr Hd sem. pose proof (semantic_similarity_float d Hd) as Hsem.
  pose proof (succ_ge_one d Hd) as Hy.
  destruct (inv_unit _ Hy) as [H0 H1].
  split; [done|]. split; [|split; [done|split; [done|split]]].
  - intros u s tms (d' & q & Hd' & Hs & _)%features_Ok.
    rewrite Hr in Hd'. injection Hd' as <-. rewrite Hsem in Hs. by injection Hs.
  - intros Hfin. destruct (succ_finite d Hd Hfin) as [Hyfin Hyn].
    split; [by apply inv_positive|]. split; [done|].
    destruct (ge_one_finite _ Hy Hyfin) as (Hf & Hpos & _).
    assert (H01 : (B2Q 1 == 1)%Q) by reflexivity.
    apply (nearest_double_proper (B2Q 1 / B2Q (1 + d))); [by rewrite H01|].
    apply div_nearest; [by vm_compute | done | done].
  - intros Hinf. pose proof (infinity_unique d Hd Hinf) as ->. done.
Qed.

(** Witness of the amended C4: distance 1/2 gives similarity 2/3 in exact
    arithmetic and 0.6666666666666666 in binary64. *)
Lemma semantic_similarity_range_witness :
  (semantic_similarity (1 # 2)%Q = Ok (1 / (1 + (1 # 2)))%Q
   ∧ (∀ u sem tms, features (raw_result "y" (1 # 2)%Q "x") = Ok (u, sem, tms) →
        sem = (1 / (1 + (1 # 2)))%Q)
   ∧ (0 < 1 / (1 + (1 # 2)))%Q ∧ (1 / (1 + (1 # 2)) <= 1)%Q)
  ∧ (let sem := 0.6666666666666666%float in
     semantic_similarity 0.5%float = Ok sem
     ∧ (∀ u s tms, features (raw_result "y" 0.5%float "x") = Ok (u, s, tms) → s = sem)
     ∧ PrimFloat.leb 0 sem = true ∧ PrimFloat.leb sem 1 = true
     ∧ (PrimFloat.ltb 0.5 infinity = true →
          PrimFloat.ltb 0 sem = true
          ∧ nearest_double (1 + B2Q 0.5) (Prim2SF (1 + 0.5))
          ∧ nearest_double (1 / B2Q (1 + 0.5)) (Prim2SF sem))
     ∧ (PrimFloat.ltb 0.5 infinity = false → 0.5%float = infinity ∧ sem = 0%float)).
Proof.
  destruct semantic_similarity_range as [HQ Hfloat]. split.
  - apply (HQ (raw_result "y" (1 # 2)%Q "x") (1 # 2)%Q).
    + reflexivity.
    + vm_compute. discriminate.
  - apply (Hfloat (raw_result "y" 0.5%float "x") 0.5%float); reflexivity.
Defined.

(** C4 as stated fails in binary64: [+inf] is a distance [>= 0]; line 17
    gives it the similarity [1.0 / inf = 0.0], which is not in (0, 1], and
    the record is scored with [semantic_score] 0.0. *)
Lemma semantic_similarity_at_infinity :
  PrimFloat.leb 0 infinity = true
  ∧ semantic_similarity infinity = Ok 0%float
  ∧ PrimFloat.ltb 0 0 = false
  ∧ ∃ s : ScoredResult float,
      process_search_results SearchAction_init [raw_result "a" infinity "a"] = Ok [s]
      ∧ semantic_score s = 0%float.
Proof.
  split; [reflexivity|]. split; [reflexivity|]. split; [reflexivity|].
  eexists. split; [vm_compute; reflexivity | reflexivity].
Qed.

(** C6, as the code has it.  Two raw results with the same url and query
    and distances [0 <= d1 <= d2] are both scored, with the same term match
    score, and the one at [d1] gets a semantic similarity and a confidence
    that are greater or equal, before and after rounding, so it is returned
    whenever the one at [d2] is.  In exact arithmetic the similarity is
    strictly greater when [d1 < d2], and falls below any positive bound.  In
    binary64 (for a query of at most 2^51 terms) it need not be strictly
    greater; it is [1.0] at distance 0, at most [1.0 / d] at any distance
    [d > 0], and [0.0] at [+inf]. *)
Theorem semantic_similarity_decreasing :
  (∀ (u q : string) (d1 d2 : Q),
      (0 <= d1)%Q → (d1 < d2)%Q →
      (∃ tms,
          features (raw_result u d1 q) = Ok (u, (1 / (1 + d1))%Q, tms)
          ∧ features (raw_result u d2 q) = Ok (u, (1 / (1 + d2))%Q, tms)
          ∧ (1 / (1 + d2) < 1 / (1 + d1))%Q
          ∧ (Qround3 (1 / (1 + d2)) <= Qround3 (1 / (1 + d1)))%Q
          ∧ (confidence_of SearchAction_init (1 / (1 + d2)) tms
             <= confidence_of SearchAction_init (1 / (1 + d1)) tms)%Q
          ∧ (∀ s2, score_of SearchAction_init (raw_result u d2 q) = Some s2 →
               ∃ s1, score_of SearchAction_init (raw_result u d1 q) = Some s1
                 ∧ (semantic_score s2 <= semantic_score s1)%Q
                 ∧ (confidence s2 <= confidence s1)%Q))
      ∧ semantic_similarity (0 : Q) = Ok 1%Q
      ∧ (∀ eps, (0 < eps)%Q → ∃ D, ∀ d, (D <= d)%Q →
           ∃ sem, semantic_similarity d = Ok sem ∧ (0 < sem)%Q ∧ (sem < eps)%Q))
  ∧ (∀ (u q : string) (d1 d2 : float),
      few_terms q → PrimFloat.leb 0 d1 = true → PrimFloat.leb d1 d2 = true →
      ∃ tms,
        features (raw_result u d1 q) = Ok (u, (1 / (1 + d1))%float, tms)
        ∧ features (raw_result u d2 q) = Ok (u, (1 / (1 + d2))%float, tms)
        ∧ PrimFloat.leb (1 / (1 + d2)) (1 / (1 + d1)) = true
        ∧ PrimFloat.leb (float_round3 (1 / (1 + d2)))
                        (float_round3 (1 / (1 + d1))) = true
        ∧ PrimFloat.leb (confidence_of SearchAction_init (1 / (1 + d2))%float tms)
                        (confidence_of SearchAction_init (1 / (1 + d1))%float tms)
          = true
        ∧ (∀ s2, score_of SearchAction_init (raw_result u d2 q) = Some s2 →
             ∃ s1, score_of SearchAction_init (raw_result u d1 q) = Some s1
               ∧ PrimFloat.leb (semantic_score s2) (semantic_score s1) = true
               ∧ PrimFloat.leb (confidence s2) (confidence s1) = true))
  ∧ semantic_similarity 0%float = Ok 1%float
  ∧ semantic_similarity infinity = Ok 0%float
  ∧ (∀ d : float, PrimFloat.ltb 0 d = true →
       semantic_similarity d = Ok (1 / (1 + d))%float
       ∧ PrimFloat.leb (1 / (1 + d)) (1 / d) = true).
Proof.
  split; [apply semantic_similarity_decreasing_exact|].
  split; [|split; [reflexivity|split; [reflexivity|]]].
  2:{ intros d Hpos. split; [|by apply semantic_similarity_decay].
      apply semantic_similarity_float. by apply float_ltb_leb. }
  intros u q d1 d2 Hq H1 H12. pose proof (leb_nonneg d1 d2 H1 H12) as H2.
  destruct (features_raw_result_float u q d1 Hq H1) as (tms & Ht & Ht0 & Ht15 & Hf1).
  destruct (features_raw_result_float u q d2 Hq H2) as (tms' & Ht' & _ & _ & Hf2).
  rewrite Ht in Ht'. injection Ht' as <-.
  pose proof (succ_ge_one d1 H1) as Hy1. pose proof (succ_ge_one d2 H2) as Hy2.
  pose proof (succ_mono d1 d2 H1 H12) as Hy12.
  pose proof (inv_anti _ _ Hy1 Hy12) as Hsem.
  destruct (inv_unit _ Hy1) as [Hs10 Hs11]. destruct (inv_unit _ Hy2) as [Hs20 Hs21].
  set (sem1 := (1 / (1 + d1))%float) in *. set (sem2 := (1 / (1 + d2))%float) in *.
  assert (Hr : PrimFloat.leb (float_round3 sem2) (float_round3 sem1) = true).
  { apply float_round3_mono; [done | done | by apply (leb_trans sem1 1 2)]. }
  pose proof (confidence_of_mono64 sem2 sem1 tms Hs20 Hsem Hs11 Ht0
                (leb_1_5_2 tms Ht0 Ht15)) as Hconf.
  exists tms. split; [done|]. split; [done|]. split; [done|]. split; [done|].
  split; [done|].
  intros s2 (u' & sem' & tms' & Hf & Hc & ->)%score_of_Some.
  rewrite Hf2 in Hf. injection Hf as <- <- <-.
  exists (scored u (confidence_of SearchAction_init sem1 tms) sem1 tms).
  pose proof (clamp01_unit (blend SearchAction_init sem2 tms)) as Hu2.
  pose proof (clamp01_unit (blend SearchAction_init sem1 tms)) as Hu1.
  fold (confidence_of SearchAction_init sem2 tms) in Hu2.
  fold (confidence_of SearchAction_init sem1 tms) in Hu1.
  split; [|split].
  - apply score_of_Some. exists u, sem1, tms. split; [done|]. split; [|done].
    unfold f_geb in *.
    cbn [f_leb float_PyFloat min_confidence_threshold SearchAction_init f_lit_0_4] in *.
    by apply (leb_trans 0.4 _ _ eq_refl Hc).
  - done.
  - cbn [scored confidence f_round3 float_PyFloat].
    apply float_round3_mono; [apply Hu2 | done | by apply unit_leb_2].
Qed.

(** Witness of the amended C6: the same url and query at distances 1/2
    and 3, in both arithmetics. *)
Lemma semantic_similarity_decreasing_witness :
  (∃ tms,
      features (raw_result "a" (1 # 2)%Q "a") = Ok ("a", (1 / (1 + (1 # 2)))%Q, tms)
      ∧ features (raw_result "a" 3%Q "a") = Ok ("a", (1 / (1 + 3))%Q, tms)
      ∧ (1 / (1 + 3) < 1 / (1 + (1 # 2)))%Q
      ∧ (∀ s2, score_of SearchAction_init (raw_result "a" 3%Q "a") = Some s2 →
           ∃ s1, score_of SearchAction_init (raw_result "a" (1 # 2)%Q "a") = Some s1
             ∧ (semantic_score s2 <= semantic_score s1)%Q
             ∧ (confidence s2 <= confidence s1)%Q))
  ∧ (∃ tms,
      features (raw_result "a" 0.5%float "a") = Ok ("a", (1 / (1 + 0.5))%float, tms)
      ∧ features (raw_result "a" 3%float "a") = Ok ("a", (1 / (1 + 3))%float, tms)
      ∧ PrimFloat.leb (1 / (1 + 3)) (1 / (1 + 0.5)) = true
      ∧ (∀ s2, score_of SearchAction_init (raw_result "a" 3%float "a") = Some s2 →
           ∃ s1, score_of SearchAction_init (raw_result "a" 0.5%float "a") = Some s1
             ∧ PrimFloat.leb (semantic_score s2) (semantic_score s1) = true
             ∧ PrimFloat.leb (confidence s2) (confidence s1) = true)).
Proof.
  destruct semantic_similarity_decreasing as (HQ & Hfloat & _). split.
  - destruct (HQ "a" "a" (1 # 2)%Q 3%Q) as [(tms & Hf1 & Hf2 & Hlt & _ & _ & Hs) _].
    + vm_compute. discriminate.
    + reflexivity.
    + by exists tms.
  - destruct (Hfloat "a" "a" 0.5%float 3%float) as (tms & Hf1 & Hf2 & Hle & _ & _ & Hs).
    + vm_compute. discriminate.
    + reflexivity.
    + reflexivity.
    + by exists tms.
Defined.

(** C6 as stated fails in binary64: the similarity is not strictly
    decreasing.  The doubles 0.75 and 0.7500000000000001 are different
    distances with the same similarity, 0.5714285714285714. *)
Lemma semantic_similarity_not_strict :
  PrimFloat.ltb 0.75 0.7500000000000001 = true
  ∧ semantic_similarity 0.75%float = Ok 0.5714285714285714%float
  ∧ semantic_similarity 0.7500000000000001%float = Ok 0.5714285714285714%float
  ∧ PrimFloat.ltb (1 / (1 + 0.7500000000000001)) (1 / (1 + 0.75)) = false.
Proof. repeat split; reflexivity. Qed.

(** C1, as the code has it.  The three counts of line 29 satisfy
    [exact_matches <= partial_matches <= |query_terms|], because every
    exact match is counted again as a partial match; so the term match
    score [(exact_matches + 0.5 * partial_matches) / |query_terms|] lies in
    [0, 1.5], and so does the [term_score] of every scored result
    returned: in exact arithmetic, and in binary64 for queries of at most
    2^51 terms, where the score is the double nearest to that quotient. *)
Theorem term_score_range :
  (∀ q u, (exact_matches (query_terms q) (url_terms u)
            ≤ partial_matches (query_terms q) (url_terms u)
            ≤ size (query_terms q))%nat)
  ∧ (∀ (rs : list (RawResult Q)) (out : list (ScoredResult Q)),
      process_search_results SearchAction_init rs = Ok out →
      (∀ q u, ∃ t : Q, term_match_score (query_terms q) (url_terms u) = Ok t
                       ∧ (0 <= t)%Q ∧ (t <= 3 # 2)%Q)
      ∧ (∀ s, s ∈ out → (0 <= term_score s)%Q ∧ (term_score s <= 3 # 2)%Q))
  ∧ (∀ (rs : list (RawResult float)) (out : list (ScoredResult float)),
      (∀ r q, r ∈ rs → query r = Some q → few_terms q) →
      process_search_results SearchAction_init rs = Ok out →
      (∀ q u, few_terms q →
         ∃ t : float, term_match_score (query_terms q) (url_terms u) = Ok t
           ∧ PrimFloat.leb 0 t = true ∧ PrimFloat.leb t 1.5 = true
           ∧ (size (query_terms q) ≠ 0%nat →
              nearest_double
                ((inject_Z (Z.of_nat (exact_matches (query_terms q) (url_terms u)))
                  + (1 # 2)
                    * inject_Z (Z.of_nat (partial_matches (query_terms q) (url_terms u))))
                 / inject_Z (Z.of_nat (size (query_terms q))))%Q
                (Prim2SF t)))
      ∧ (∀ s, s ∈ out →
           PrimFloat.leb 0 (term_score s) = true
           ∧ PrimFloat.leb (term_score s) 1.5 = true)).
Proof.
  split; [|split].
  - intros q u. split; [apply exact_le_partial | apply partial_le_size].
  - intros rs out Hp. destruct (term_score_range_exact rs out Hp) as [Ht Hs].
    split; [|done]. intros q u. by destruct (Ht q u) as [_ ?].
  - intros rs out Hq Hp. split.
    + intros q u Hfew.
      destruct (term_match_score_binary64 (query_terms q) (url_terms u) Hfew)
        as (t & Ht & H0 & H15).
      exists t. split; [done|]. split; [done|]. split; [done|].
      intros Hn. unfold term_match_score, truediv in Ht.
      rewrite bool_decide_eq_true_2 in Ht by done.
      cbn [f_eqb f_of_nat f_zero f_add f_mul f_div f_half float_PyFloat] in Ht.
      destruct (PrimFloat.eqb _ 0); [done|]. injection Ht as <-.
      apply term_quotient_nearest;
        [apply exact_le_partial | apply partial_le_size | lia | exact Hfew].
    + intros s Hs. apply (elem_of_output _ _ _ _ Hp) in Hs as (r & Hr & Hsc).
      apply score_of_Some in Hsc as (u & sem & tms & Hf & _ & ->).
      apply features_Ok in Hf as (d & q & _ & _ & Hqr & _ & Ht).
      destruct (term_match_score_binary64 (query_terms q) (url_terms u)
                  (Hq r q Hr Hqr)) as (t & Ht' & H0 & H15).
      rewrite Ht in Ht'. injection Ht' as ->.
      cbn [scored term_score f_round3 float_PyFloat]. split.
      * change 0%float with (float_round3 0) at 1.
        apply float_round3_mono; [done | done | by apply leb_1_5_2].
      * change 1.5%float with (float_round3 1.5) at 1.
        apply float_round3_mono; [done | done | done].
Qed.

(** Witness of the amended C1 on two records, in both arithmetics. *)
Lemma term_score_range_witness :
  (∃ out : list (ScoredResult Q),
      process_search_results SearchAction_init
        [raw_result "a" 0%Q "a"; raw_result "y" (1 # 2)%Q "x"] = Ok out
      ∧ (∀ s, s ∈ out → (0 <= term_score s)%Q ∧ (term_score s <= 3 # 2)%Q))
  ∧ (∃ out : list (ScoredResult float),
      process_search_results SearchAction_init
        [raw_result "a" 0%float "a"; raw_result "y" 0.5%float "x"] = Ok out
      ∧ (∀ s, s ∈ out →
           PrimFloat.leb 0 (term_score s) = true
           ∧ PrimFloat.leb (term_score s) 1.5 = true)).
Proof.
  destruct term_score_range as (_ & HQ & Hfloat). split.
  - eexists. split; [vm_compute; reflexivity|].
    apply (HQ [raw_result "a" 0%Q "a"; raw_result "y" (1 # 2)%Q "x"]).
    vm_compute. reflexivity.
  - eexists. split; [vm_compute; reflexivity|].
    apply (Hfloat [raw_result "a" 0%float "a"; raw_result "y" 0.5%float "x"]).
    + intros r q [->|[->|[]%elem_of_nil]%elem_of_cons]%elem_of_cons [= <-];
        vm_compute; discriminate.
    + vm_compute. reflexivity.
Defined.

(** C9.  When every distance that is present is [>= 0], as the data model
    has it, [process_search_results] raises if and only if some input
    record lacks one of the keys ['distance'], ['query'], ['url'], and the
    exception is the [KeyError] of one of these keys: in binary64, where
    [1.0 + d >= 1.0] for every such [d], [+inf] included, and in exact
    arithmetic.  Without the condition on the distances, the call raises if
    and only if a record lacks a key or has a distance [d] with
    [1.0 + d == 0.0]. *)
Theorem process_search_results_raises :
  (∀ (self : SearchAction float) (rs : list (RawResult float)),
      (∀ r d, r ∈ rs → distance r = Some d → PrimFloat.leb 0 d = true) →
      (raises (process_search_results self rs) ↔ ∃ r, r ∈ rs ∧ lacks_key r)
      ∧ ∀ e, process_search_results self rs = Raise e →
          e = KeyError "distance" ∨ e = KeyError "query" ∨ e = KeyError "url")
  ∧ (∀ (self : SearchAction Q) (rs : list (RawResult Q)),
      (∀ r d, r ∈ rs → distance r = Some d → (0 <= d)%Q) →
      (raises (process_search_results self rs) ↔ ∃ r, r ∈ rs ∧ lacks_key r)
      ∧ ∀ e, process_search_results self rs = Raise e →
          e = KeyError "distance" ∨ e = KeyError "query" ∨ e = KeyError "url")
  ∧ (∀ (self : SearchAction float) (rs : list (RawResult float)),
      raises (process_search_results self rs) ↔
      ∃ r, r ∈ rs ∧ (lacks_key r ∨ zero_divisor r)).
Proof.
  split; [|split].
  - intros self rs Hd.
    destruct (process_search_results_raises_generic float_of_nat_S_nonzero self rs)
      as [_ Himp].
    apply Himp. intros r Hr (d & Hdr & Heq).
    specialize (Hd r d Hr Hdr).
    cbn [f_eqb f_add f_one f_zero float_PyFloat] in Heq.
    destruct (ge_one_nonzero _ (succ_ge_one d Hd)) as [Hne _]. congruence.
  - intros self rs Hd.
    destruct (process_search_results_raises_generic Q_of_nat_S_nonzero self rs)
      as [_ Himp].
    apply Himp. intros r Hr. apply nonneg_distance_no_zero_divisor.
    intros d Hdr. by apply (Hd r).
  - intros self rs.
    apply (process_search_results_raises_iff float_of_nat_S_nonzero).
Qed.

(** Witness of C9 in binary64: the second record has no ['url'], every
    distance is [>= 0], and the call raises [KeyError('url')]. *)
Lemma process_search_results_raises_witness :
  let rs : list (RawResult float) :=
    [raw_result "a" 0%float "a";
     {| url := None; distance := Some 1%float; query := Some "b" |}] in
  process_search_results SearchAction_init rs = Raise (KeyError "url")
  ∧ (raises (process_search_results SearchAction_init rs) ↔
       ∃ r, r ∈ rs ∧ lacks_key r)
  ∧ ∀ e, process_search_results SearchAction_init rs = Raise e →
      e = KeyError "distance" ∨ e = KeyError "query" ∨ e = KeyError "url".
Proof.
  intros rs. destruct process_search_results_raises as (Hfloat & _ & _).
  split; [vm_compute; reflexivity|].
  apply (Hfloat SearchAction_init rs).
  intros r d [->|[->|[]%elem_of_nil]%elem_of_cons]%elem_of_cons [= <-]; reflexivity.
Defined.

(* ===================================================================== *)
(** ** Further properties                                                 *)
(* ===================================================================== *)

(** X1. The method on the store refines the function on values: from a
    store in which [self] is a [SearchAction] with attributes [a] and
    [results] a list of references to the raw results [rs], the run raises
    exactly when [process_search_results a rs] raises, with the same
    exception, and otherwise returns a reference to a list whose elements
    lead, in order, to the scored results that [process_search_results a rs]
    returns.  In particular the loop never needs more steps than the list
    has elements. *)
Theorem store_run_refines_values {F : Type} `{PyFloat F} (h : heap F)
    (self results : loc) (a : SearchAction F) (ls : list loc)
    (rs : list (RawResult F)) :
  h !! self = Some (OInstance a) →
  h !! results = Some (OList ls) →
  raw_at h ls rs →
  process_search_results_h self results h ≠ OutOfFuel
  ∧ (∀ e, process_search_results a rs = Raise e ↔
          ∃ h', process_search_results_h self results h = Raises e h')
  ∧ (∀ out, process_search_results a rs = Ok out ↔
          ∃ pr h' out_ls,
            process_search_results_h self results h = Returns pr h'
            ∧ h' !! pr = Some (OList out_ls)
            ∧ scored_at h' out_ls out).
Proof.
  intros Hself Hres Hraw.
  pose proof (process_search_results_h_refines h self a results ls rs
                Hself Hres Hraw) as Href.
  destruct (process_search_results a rs) as [out|e].
  - destruct Href as (pr & h' & out_ls & Hrun & _ & _ & Hpr & Hout & _).
    rewrite Hrun. split; [done|]. split.
    + intros e. split; [done | intros (h'' & [=])].
    + intros out'. split.
      * intros [= <-]. by exists pr, h', out_ls.
      * intros (pr' & h'' & out_ls' & [= <- <-] & Hpr' & Hout').
        rewrite Hpr in Hpr'. injection Hpr' as <-. f_equal.
        clear -Hout Hout'. revert out' Hout'.
        induction Hout as [|l s out_ls out Hl _ IH]; intros out' Hout'.
        -- by apply Forall2_nil_inv_l in Hout'.
        -- apply Forall2_cons_inv_l in Hout' as (s' & out'' & Hl' & Hrest & ->).
           rewrite Hl in Hl'. injection Hl' as <-. f_equal. by apply IH.
  - destruct Href as (h' & Hrun & _). rewrite Hrun. split; [done|]. split.
    + intros e'. split; [intros [= <-]; by exists h' | by intros (h'' & [= <- _])].
    + intros out. split; [done | intros (pr & h'' & out_ls & [=] & _)].
Qed.

(** Witness of X1 in binary64: the store of the witness of C10. *)
Lemma store_run_refines_values_witness :
  let a : SearchAction float := SearchAction_init in
  let rs := [raw_result "y" 0.5%float "x"; raw_result "y" 5%float "x";
             raw_result "a" 0%float "a"] in
  let h : heap float :=
    {[ 1%positive := OInstance a; 2%positive := OList [3; 4; 5]%positive;
       3%positive := ORaw (raw_result "y" 0.5%float "x");
       4%positive := ORaw (raw_result "y" 5%float "x");
       5%positive := ORaw (raw_result "a" 0%float "a") ]} in
  process_search_results_h 1%positive 2%positive h ≠ OutOfFuel
  ∧ (∀ e, process_search_results a rs = Raise e ↔
          ∃ h', process_search_results_h 1%positive 2%positive h = Raises e h')
  ∧ (∀ out, process_search_results a rs = Ok out ↔
          ∃ pr h' out_ls,
            process_search_results_h 1%positive 2%positive h = Returns pr h'
            ∧ h' !! pr = Some (OList out_ls)
            ∧ scored_at h' out_ls out).
Proof.
  intros a rs h.
  apply (store_run_refines_values h 1%positive 2%positive a [3; 4; 5]%positive rs).
  - reflexivity.
  - reflexivity.
  - repeat constructor.
Defined.

(** In exact arithmetic, when every input has a distance [d >= 0], the
    [semantic_score] of every scored result returned lies in [0, 1]: it is
    [1 / (1 + d)] rounded to three decimals. *)
Lemma semantic_score_range_exact (rs : list (RawResult Q)) (out : list (ScoredResult Q)) :
  (∀ r d, r ∈ rs → distance r = Some d → (0 <= d)%Q) →
  process_search_results SearchAction_init rs = Ok out →
  ∀ s, s ∈ out →
    (0 <= semantic_score s)%Q ∧ (semantic_score s <= 1)%Q
    ∧ ∃ r d, r ∈ rs ∧ distance r = Some d
        ∧ semantic_score s = Qround3 (1 / (1 + d)).
Proof.
  intros Hd Hp s Hs. apply (elem_of_output _ _ _ _ Hp) in Hs as (r & Hr & Hsc).
  apply score_of_Some in Hsc as (u & sem & tms & Hf & _ & ->).
  apply features_Ok in Hf as (d & q & Hdr & Hsem & _).
  specialize (Hd r d Hr Hdr).
  rewrite semantic_similarity_Q in Hsem by done. injection Hsem as <-.
  cbn [scored semantic_score f_round3 Q_PyFloat].
  destruct (inv_succ_range d Hd) as [H0 H1].
  destruct (Qround3_range 0 1000 (1 / (1 + d))%Q) as [Hlo Hhi]; [lra | lra |].
  split; [lra|]. split; [lra|]. by exists r, d.
Qed.

(** X2. When every input has a distance [d >= 0], the [semantic_score] of
    every scored result returned lies in [0, 1]: it is [1.0 / (1.0 + d)]
    rounded to three decimals, for the [d] of an input; in binary64 and in
    exact arithmetic. *)
Theorem semantic_score_range :
  (∀ (rs : list (RawResult float)) (out : list (ScoredResult float)),
      (∀ r d, r ∈ rs → distance r = Some d → PrimFloat.leb 0 d = true) →
      process_search_results SearchAction_init rs = Ok out →
      ∀ s, s ∈ out →
        PrimFloat.leb 0 (semantic_score s) = true
        ∧ PrimFloat.leb (semantic_score s) 1 = true
        ∧ ∃ r d, r ∈ rs ∧ distance r = Some d
            ∧ semantic_score s = float_round3 (1 / (1 + d)))
  ∧ (∀ (rs : list (RawResult Q)) (out : list (ScoredResult Q)),
      (∀ r d, r ∈ rs → distance r = Some d → (0 <= d)%Q) →
      process_search_results SearchAction_init rs = Ok out →
      ∀ s, s ∈ out →
        (0 <= semantic_score s)%Q ∧ (semantic_score s <= 1)%Q
        ∧ ∃ r d, r ∈ rs ∧ distance r = Some d
            ∧ semantic_score s = Qround3 (1 / (1 + d))).
Proof.
  split; [|apply semantic_score_range_exact].
  intros rs out Hd Hp s Hs.
  apply (elem_of_output _ _ _ _ Hp) in Hs as (r & Hr & Hsc).
  apply score_of_Some in Hsc as (u & sem & tms & Hf & _ & ->).
  apply features_Ok in Hf as (d & q & Hdr & Hsem & _).
  specialize (Hd r d Hr Hdr).
  rewrite semantic_similarity_float in Hsem by done. injection Hsem as <-.
  cbn [scored semantic_score f_round3 float_PyFloat].
  destruct (inv_unit _ (succ_ge_one d Hd)) as [H0 H1].
  split; [|split].
  - change 0%float with (float_round3 0) at 1.
    apply float_round3_mono; [done | done | by apply (leb_trans _ 1 2)].
  - change 1%float with (float_round3 1) at 3.
    apply float_round3_mono; [done | done | done].
  - by exists r, d.
Qed.

(** Witness of X2 on two records in binary64. *)
Lemma semantic_score_range_witness :
  ∃ out,
    process_search_results SearchAction_init
      [raw_result "a" 0%float "a"; raw_result "y" 0.5%float "x"] = Ok out
    ∧ ∀ s, s ∈ out →
        PrimFloat.leb 0 (semantic_score s) = true
        ∧ PrimFloat.leb (semantic_score s) 1 = true
        ∧ ∃ r d, r ∈ [raw_result "a" 0%float "a"; raw_result "y" 0.5%float "x"]
            ∧ distance r = Some d
            ∧ semantic_score s = float_round3 (1 / (1 + d)).
Proof.
  destruct semantic_score_range as [Hfloat _].
  eexists. split; [vm_compute; reflexivity|].
  apply (Hfloat [raw_result "a" 0%float "a"; raw_result "y" 0.5%float "x"]).
  - intros r d [->|[->|[]%elem_of_nil]%elem_of_cons]%elem_of_cons [= <-];
      reflexivity.
  - vm_compute. reflexivity.
Defined.

(** The url terms are the union of two splits, not one split on both
    separators: in ["a/b c"] the query term ["b"] is inside the field
    ["b c"] and inside the word ["a/b"], so it is a partial match only. *)
Example exact_match_needs_whole_term :
  exact_matches (query_terms "b") (url_terms "a/b c") = 0%nat
  ∧ partial_matches (query_terms "b") (url_terms "a/b c") = 1%nat.
Proof. split; vm_compute; reflexivity. Qed.

(** The empty list on the store: the object at 3 is the new, empty list. *)
Example process_search_results_h_empty_run :
  let h : heap float :=
    {[ 1%positive := OInstance SearchAction_init; 2%positive := OList [] ]} in
  process_search_results_h 1%positive 2%positive h
  = Returns 3%positive (<[3%positive := OList []]> h).
Proof. vm_compute. reflexivity. Qed.

(* ===================================================================== *)
(** ** The relevance filter                                               *)
(* ===================================================================== *)

Lemma filter_filter_same {A} (p : A → bool) (l : list A) :
  List.filter p (List.filter p l) = List.filter p l.
Proof.
  induction l as [|a l IH]; cbn [List.filter]; [done|].
  destruct (p a) eqn:Hp; [|done]. cbn [List.filter]. by rewrite Hp, IH.
Qed.

Lemma elem_of_filter_bool {A} (p : A → bool) (l : list A) (x : A) :
  x ∈ List.filter p l ↔ x ∈ l ∧ p x = true.
Proof. rewrite !list_elem_of_In. apply filter_In. Qed.

Section DecisionFacts.
Context {F R : Type} `{PyFloat F} `{DecisionLiterals F} `{ResultDict F R}.
Implicit Types (q : string) (r : R) (rs acc out : list R).

Lemma evaluate_loop_cons q acc r rest :
  evaluate_loop q acc (r :: rest)
  = (b ← verdict q r;
     evaluate_loop q (if (b : bool) then (acc ++ [r])%list else acc) rest).
Proof.
  cbn [evaluate_loop]. unfold verdict.
  destruct (confidence_item r) as [c|e]; cbn [mbind result_bind]; [|done].
  destruct (f_ltb c f_lit_0_4); [done|].
  by destruct (_is_semantically_relevant q r) as [[]|e].
Qed.

Lemma evaluate_loop_total q rs : ∀ acc,
  Forall (fun r => ∃ b, verdict q r = Ok b) rs →
  evaluate_loop q acc rs = Ok (acc ++ List.filter (kept q) rs)%list.
Proof.
  induction rs as [|r rs IH]; intros acc Hall.
  - cbn. by rewrite app_nil_r.
  - apply Forall_cons in Hall as [[b Hb] Hall].
    rewrite evaluate_loop_cons, Hb. cbn [mbind result_bind List.filter].
    unfold kept at 1. rewrite Hb. rewrite (IH _ Hall).
    destruct b; [by rewrite <- app_assoc | done].
Qed.

Lemma evaluate_loop_Ok q rs : ∀ acc out,
  evaluate_loop q acc rs = Ok out →
  Forall (fun r => ∃ b, verdict q r = Ok b) rs.
Proof.
  induction rs as [|r rs IH]; intros acc out Hrun; [constructor|].
  rewrite evaluate_loop_cons in Hrun.
  destruct (verdict q r) as [b|e] eqn:Hb; [|discriminate Hrun].
  constructor; [by exists b | by eapply IH].
Qed.

Lemma evaluate_loop_Raise q rs : ∀ acc e,
  evaluate_loop q acc rs = Raise e ↔
  ∃ pre r post, rs = (pre ++ r :: post)%list
    ∧ Forall (fun r => ∃ b, verdict q r = Ok b) pre
    ∧ verdict q r = Raise e.
Proof.
  induction rs as [|r rs IH]; intros acc e.
  - split; [discriminate|]. intros (pre & r & post & Heq & _).
    by destruct pre.
  - rewrite evaluate_loop_cons. split.
    + destruct (verdict q r) as [b|e'] eqn:Hb; cbn [mbind result_bind].
      * intros (pre & r' & post & -> & Hpre & Hr')%IH.
        exists (r :: pre), r', post. split; [done|]. split; [|done].
        constructor; [by exists b | done].
      * intros [= ->]. exists [], r, rs. by repeat split.
    + intros (pre & r' & post & Heq & Hpre & Hr').
      destruct pre as [|r0 pre]; cbn in Heq; injection Heq as -> ->.
      * by rewrite Hr'.
      * apply Forall_cons in Hpre as [[b Hb] Hpre]. rewrite Hb.
        cbn [mbind result_bind]. apply IH. by exists pre, r', post.
Qed.

Lemma kept_verdict q r : kept q r = true ↔ verdict q r = Ok true.
Proof.
  unfold kept. destruct (verdict q r) as [[]|e]; split; (done || discriminate).
Qed.

(** X5. [evaluate_search_relevance] is idempotent: filtering what it
    returned once more, with the same query, returns the same list. *)
Theorem evaluate_search_relevance_idempotent q rs :
  evaluate_search_relevance q rs ≫= evaluate_search_relevance q
  = evaluate_search_relevance q rs.
Proof.
  unfold evaluate_search_relevance.
  destruct (evaluate_loop q [] rs) as [out|e] eqn:Hrun; [|done].
  cbn [mbind result_bind].
  pose proof (evaluate_loop_Ok _ _ _ _ Hrun) as Hall.
  rewrite (evaluate_loop_total _ _ _ Hall) in Hrun. injection Hrun as <-.
  cbn [app]. rewrite evaluate_loop_total.
  - cbn [app]. f_equal. apply filter_filter_same.
  - apply Forall_forall. intros r [_ Hr%kept_verdict]%elem_of_filter_bool.
    by exists true.
Qed.
End DecisionFacts.

Lemma filter_sublist {A} (p : A → bool) (l : list A) : sublist (List.filter p l) l.
Proof.
  induction l as [|a l IH]; cbn [List.filter]; [constructor|].
  destruct (p a); by constructor.
Qed.

Lemma descending_by_cons {F} (le : F → F → Prop) (x : ScoredResult F) l :
  descending_by le (x :: l) ↔
  Forall (fun y => le (confidence y) (confidence x)) l ∧ descending_by le l.
Proof.
  split.
  - intros Hd. split.
    + apply Forall_lookup. intros j y Hy. apply (Hd 0%nat (S j) x y); [lia|done|done].
    + intros i j a b Hij Ha Hb. apply (Hd (S i) (S j) a b); [lia|done|done].
  - intros [Hall Hd] i j a b Hij Ha Hb. destruct j as [|j]; [lia|].
    cbn in Hb. destruct i as [|i].
    + injection Ha as <-. rewrite Forall_lookup in Hall. by eapply Hall.
    + cbn in Ha. apply (Hd i j a b); [lia|done|done].
Qed.

Lemma descending_by_sublist {F} (le : F → F → Prop) (k l : list (ScoredResult F)) :
  sublist k l → descending_by le l → descending_by le k.
Proof.
  induction 1 as [|x k l Hkl IH|x k l Hkl IH]; intros Hd; [done| |].
  - apply descending_by_cons in Hd as [Hall Hd]. apply descending_by_cons.
    split; [|by apply IH]. rewrite Forall_forall in Hall |- *.
    intros y Hy. apply Hall. by apply (sublist_subseteq _ _ Hkl).
  - apply descending_by_cons in Hd as [_ Hd]. by apply IH.
Qed.

Section ScoredRelevance.
Context {F : Type} `{PyFloat F} `{DecisionLiterals F}.
Implicit Types (q : string) (s : ScoredResult F) (rs : list (ScoredResult F)).

Lemma term_overlap_spec q (u : string) :
  query_terms q ∩ url_path_terms u ≠ ∅ ↔
  ∃ t, is_query_term q t ∧ t ∈ Py.split_on "/" (Py.lower u).
Proof.
  split.
  - intros Hne. apply set_choose_L in Hne as [t Ht].
    apply elem_of_intersection in Ht as [Hq Hu]. exists t.
    split; [by apply elem_of_query_terms | by apply elem_of_list_to_set in Hu].
  - intros (t & Hq & Hu) Hempty.
    assert (Ht : t ∈ query_terms q ∩ url_path_terms u).
    { apply elem_of_intersection.
      split; [by apply elem_of_query_terms | by apply elem_of_list_to_set]. }
    rewrite Hempty in Ht. by apply elem_of_empty in Ht.
Qed.

Lemma verdict_scored q s : verdict q s = Ok (relevant q s).
Proof.
  unfold verdict, relevant, _is_semantically_relevant.
  cbn [confidence_item url_item ScoredResult_dict mbind result_bind].
  destruct (f_ltb (confidence s) f_lit_0_4); [done|].
  destruct (f_ltb f_lit_0_8 (confidence s)); [done|]. cbn [negb andb orb].
  destruct (decide (query_terms q ∩ url_path_terms (s_url s) = ∅)) as [Hempty|Hne].
  - rewrite Hempty, size_empty.
    rewrite (bool_decide_eq_false_2 (0 < 0)%nat) by lia.
    by rewrite bool_decide_eq_false_2 by (by intros []).
  - rewrite (bool_decide_eq_true_2 (_ ≠ ∅)) by done.
    rewrite bool_decide_eq_true_2; [done|].
    assert (size (query_terms q ∩ url_path_terms (s_url s)) ≠ 0)%nat; [|lia].
    apply size_non_empty_iff. by intros ?%leibniz_equiv.
Qed.

Lemma kept_scored q s : kept q s = relevant q s.
Proof. unfold kept. rewrite verdict_scored. by destruct (relevant q s). Qed.

Lemma evaluate_scored q rs :
  evaluate_search_relevance q rs = Ok (List.filter (relevant q) rs).
Proof.
  unfold evaluate_search_relevance. rewrite evaluate_loop_total.
  - cbn [app]. f_equal. apply filter_ext. intros s. apply kept_scored.
  - apply Forall_forall. intros s _. exists (relevant q s). apply verdict_scored.
Qed.

(** X3. On results that have both keys, [evaluate_search_relevance] never
    raises and returns, in the order of the input, exactly the results
    whose confidence is not below 0.4 and that either have a confidence
    above 0.8 or a url of which, once lowercased and cut at ['/'], one
    field is a term of the query. *)
Theorem evaluate_search_relevance_keeps q rs :
  ∃ out, evaluate_search_relevance q rs = Ok out
    ∧ out = List.filter (relevant q) rs
    ∧ sublist out rs
    ∧ ∀ s, s ∈ out ↔
        s ∈ rs
        ∧ f_ltb (confidence s) f_lit_0_4 = false
        ∧ (f_ltb f_lit_0_8 (confidence s) = true
           ∨ ∃ t, is_query_term q t ∧ t ∈ Py.split_on "/" (Py.lower (s_url s))).
Proof.
  exists (List.filter (relevant q) rs). split; [apply evaluate_scored|].
  split; [done|]. split; [apply filter_sublist|].
  intros s. rewrite elem_of_filter_bool. unfold relevant.
  rewrite andb_true_iff, orb_true_iff, negb_true_iff, bool_decide_eq_true.
  by rewrite term_overlap_spec.
Qed.

(** X7. For a query that is empty or made of whitespace only, the
    confidence alone decides: [evaluate_search_relevance] returns the
    results whose confidence is above 0.8, whatever their urls. *)
Theorem evaluate_search_relevance_no_terms q rs :
  all_space q = true →
  evaluate_search_relevance q rs
  = Ok (List.filter
          (fun s => negb (f_ltb (confidence s) f_lit_0_4)
                    && f_ltb f_lit_0_8 (confidence s)) rs).
Proof.
  intros Hq. rewrite evaluate_scored. f_equal. apply filter_ext. intros s.
  unfold relevant. rewrite (query_terms_all_space q Hq).
  rewrite (bool_decide_eq_false_2 (∅ ∩ _ ≠ ∅)); [by rewrite orb_false_r|].
  intros Hne. apply Hne. apply intersection_empty_l_L.
Qed.
End ScoredRelevance.

Section DecisionErrors.
Context {F : Type} `{PyFloat F} `{DecisionLiterals F}.
Implicit Types (q : string) (r : PartialResult F) (rs : list (PartialResult F)).

Lemma verdict_partial_Raise q r e :
  verdict q r = Raise e ↔
  (p_confidence r = None ∧ e = KeyError "confidence")
  ∨ (∃ c, p_confidence r = Some c
       ∧ f_ltb c f_lit_0_4 = false ∧ f_ltb f_lit_0_8 c = false
       ∧ p_url r = None ∧ e = KeyError "url").
Proof.
  unfold verdict, _is_semantically_relevant.
  cbn [confidence_item url_item PartialResult_dict].
  destruct (p_confidence r) as [c|]; cbn [getitem mbind result_bind].
  - destruct (f_ltb c f_lit_0_4) eqn:H4.
    { split; [discriminate|]. intros [[[=] _]|(c' & [= <-] & Hc & _)]. congruence. }
    destruct (f_ltb f_lit_0_8 c) eqn:H8.
    { split; [discriminate|]. intros [[[=] _]|(c' & [= <-] & _ & Hc & _)]. congruence. }
    destruct (p_url r) as [u|]; cbn [getitem mbind result_bind].
    + split.
      * by destruct (bool_decide _).
      * intros [[[=] _]|(c' & _ & _ & _ & [=] & _)].
    + split.
      * intros [= <-]. right. by exists c.
      * intros [[[=] _]|(c' & _ & _ & _ & _ & ->)]. done.
  - split.
    + intros [= <-]. by left.
    + intros [[_ ->]|(c & [=] & _)]. done.
Qed.

Lemma verdict_raises_iff q r : raises (verdict q r) ↔ unreadable r.
Proof.
  unfold raises, unreadable. split.
  - intros (e & [[Hc _]|(c & Hc & H4 & H8 & Hu & _)]%verdict_partial_Raise).
    + by left.
    + right. by exists c.
  - intros [Hc|(c & Hc & H4 & H8 & Hu)].
    + exists (KeyError "confidence"). apply verdict_partial_Raise. by left.
    + exists (KeyError "url"). apply verdict_partial_Raise. right. by exists c.
Qed.

Lemma first_unreadable q rs :
  Forall (fun r => ∃ b, verdict q r = Ok b) rs
  ∨ ∃ pre r post e, rs = (pre ++ r :: post)%list
      ∧ Forall (fun r => ∃ b, verdict q r = Ok b) pre
      ∧ verdict q r = Raise e.
Proof.
  induction rs as [|r rs [IH|(pre & r' & post & e & -> & Hpre & Hr')]].
  - left. constructor.
  - destruct (verdict q r) as [b|e] eqn:Hb.
    + left. constructor; [by exists b | done].
    + right. exists [], r, rs, e. by repeat split.
  - destruct (verdict q r) as [b|e'] eqn:Hb.
    + right. exists (r :: pre), r', post, e. split; [done|]. split; [|done].
      constructor; [by exists b | done].
    + right. exists [], r, (pre ++ r' :: post)%list, e'. by repeat split.
Qed.

(** X4. On dicts from which a key may be missing,
    [evaluate_search_relevance] raises exactly when some dict has no
    ['confidence'], or has no ['url'] while its confidence is neither below
    0.4 nor above 0.8; what it raises is the [KeyError] of one of the two
    keys.  A dict without ['url'] whose confidence is below 0.4 or above
    0.8 goes unnoticed: when no dict is unreadable in the sense above, the
    call returns a sublist of its input. *)
Theorem evaluate_search_relevance_raises q rs :
  (raises (evaluate_search_relevance q rs) ↔ ∃ r, r ∈ rs ∧ unreadable r)
  ∧ (∀ e, evaluate_search_relevance q rs = Raise e →
       e = KeyError "confidence" ∨ e = KeyError "url")
  ∧ ((∀ r, r ∈ rs → ¬ unreadable r) →
     ∃ out, evaluate_search_relevance q rs = Ok out ∧ sublist out rs).
Proof.
  unfold evaluate_search_relevance. split; [|split].
  - split.
    + intros (e & (pre & r & post & -> & _ & Hr)%evaluate_loop_Raise).
      exists r. split; [apply elem_of_app; right; by left|].
      apply (proj1 (verdict_raises_iff q r)). by exists e.
    + intros (r & Hin & Hbad).
      destruct (first_unreadable q rs) as [Hall|(pre & r' & post & e & Heq & Hpre & Hr')].
      * rewrite Forall_forall in Hall. destruct (Hall r Hin) as [b Hb].
        destruct (proj2 (verdict_raises_iff q r) Hbad) as [e He]. congruence.
      * exists e. apply evaluate_loop_Raise. by exists pre, r', post.
  - intros e (pre & r & post & _ & _ & Hr)%evaluate_loop_Raise.
    apply verdict_partial_Raise in Hr as [[_ ->]|(c & _ & _ & _ & _ & ->)];
      [by left | by right].
  - intros Hok.
    destruct (first_unreadable q rs) as [Hall|(pre & r' & post & e & -> & Hpre & Hr')].
    + rewrite (evaluate_loop_total _ _ _ Hall). eexists. split; [done|].
      cbn [app]. apply filter_sublist.
    + exfalso. apply (Hok r'); [apply elem_of_app; right; by left|].
      apply (proj1 (verdict_raises_iff q r')). by exists e.
Qed.
End DecisionErrors.

(** *** After the scorer *)

Lemma float_leb_not_ltb (x y : float) :
  PrimFloat.leb x y = true → PrimFloat.ltb y x = false.
Proof.
  rewrite leb_spec, ltb_spec. unfold SFleb, SFltb.
  destruct (Prim2SF x) as [sx|sx| |sx mx ex], (Prim2SF y) as [sy|sy| |sy my ey];
    cbn [SFcompare]; try (by repeat match goal with s : bool |- _ => destruct s end).
  destruct sx, sy; try done; rewrite !compare_cont_Eq;
    repeat match goal with
           | |- context [(?a ?= ?b)%Z] => destruct (Z.compare_spec a b)
           end; cbn; try done; try lia.
Qed.

Lemma float_above_0_8 (c : float) :
  PrimFloat.ltb 0.8 c = true → PrimFloat.ltb c 0.4 = false.
Proof.
  rewrite !ltb_spec. unfold SFltb.
  change (Prim2SF 0.8) with (S754_finite false 7205759403792794 (-53)).
  change (Prim2SF 0.4) with (S754_finite false 7205759403792794 (-54)).
  destruct (Prim2SF c) as [s|s| |s m e]; cbn [SFcompare]; try done; try (by destruct s).
  destruct s; [done|]. rewrite !compare_cont_Eq.
  repeat match goal with
         | |- context [(?a ?= ?b)%Z] => destruct (Z.compare_spec a b)
         end; try done; try lia.
Qed.

Lemma Q_above_0_8 (c : Q) :
  f_ltb f_lit_0_8 c = true → f_ltb c f_lit_0_4 = false.
Proof.
  rewrite Q_ltb_iff. intros Hc. apply not_true_iff_false. rewrite Q_ltb_iff.
  cbn in *. lra.
Qed.

Lemma filter_relevant_passed {F} `{PyFloat F} `{DecisionLiterals F}
    (q : string) (out : list (ScoredResult F)) :
  (∀ s, s ∈ out → f_ltb (confidence s) f_lit_0_4 = false) →
  List.filter (relevant q) out
  = List.filter (fun s => f_ltb f_lit_0_8 (confidence s)
                          || bool_decide (query_terms q ∩ url_path_terms (s_url s) ≠ ∅))
      out.
Proof.
  intros H4. induction out as [|s out IH]; [done|]. cbn [List.filter].
  rewrite IH by (intros s' Hs'; apply H4; by right).
  unfold relevant at 1. rewrite (H4 s) by (by left). done.
Qed.

(** X6. After the scorer: on the list that [process_search_results]
    returns, the test [result['confidence'] < 0.4] of
    [evaluate_search_relevance] drops nothing, because the rounded
    confidence of a scored result is still at least 0.4; the call returns
    the results that are above 0.8 or share a term with the query, still in
    descending order of confidence.  In exact arithmetic and in
    binary64. *)
Theorem relevance_after_scoring :
  (∀ (q : string) (rs : list (RawResult Q)) (out : list (ScoredResult Q)),
      process_search_results SearchAction_init rs = Ok out →
      ∃ out',
        evaluate_search_relevance q out = Ok out'
        ∧ out' = List.filter
                   (fun s => f_ltb f_lit_0_8 (confidence s)
                             || bool_decide (query_terms q ∩ url_path_terms (s_url s) ≠ ∅))
                   out
        ∧ descending out')
  ∧ (∀ (q : string) (rs : list (RawResult float)) (out : list (ScoredResult float)),
      process_search_results SearchAction_init rs = Ok out →
      ∃ out',
        evaluate_search_relevance q out = Ok out'
        ∧ out' = List.filter
                   (fun s => f_ltb f_lit_0_8 (confidence s)
                             || bool_decide (query_terms q ∩ url_path_terms (s_url s) ≠ ∅))
                   out
        ∧ descending_by (fun x y => PrimFloat.leb x y = true) out').
Proof.
  split.
  - intros q rs out Hp.
    destruct (output_sorted_and_thresholded_exact rs out Hp) as (Hd & Ht & _).
    eexists. split; [apply evaluate_scored|]. split.
    + apply filter_relevant_passed. intros s Hs. apply not_true_iff_false.
      rewrite Q_ltb_iff. specialize (Ht s Hs). cbn. lra.
    + eapply descending_by_sublist; [apply filter_sublist | exact Hd].
  - intros q rs out Hp.
    destruct (output_sorted_and_thresholded_binary64 rs out Hp) as (Hd & Ht & _).
    eexists. split; [apply evaluate_scored|]. split.
    + apply filter_relevant_passed. intros s Hs.
      apply float_leb_not_ltb. by destruct (Ht s Hs).
    + eapply descending_by_sublist; [apply filter_sublist | exact Hd].
Qed.

(** X8. A result whose confidence is above 0.8 is always kept, whatever
    the query and whatever its url: above 0.8 implies not below 0.4, in
    exact arithmetic and for the doubles of binary64. *)
Theorem high_confidence_is_relevant :
  (∀ (q : string) (rs : list (ScoredResult Q)) (s : ScoredResult Q),
      s ∈ rs → (4 # 5 < confidence s)%Q →
      ∃ out, evaluate_search_relevance q rs = Ok out ∧ s ∈ out)
  ∧ (∀ (q : string) (rs : list (ScoredResult float)) (s : ScoredResult float),
      s ∈ rs → PrimFloat.ltb 0.8 (confidence s) = true →
      ∃ out, evaluate_search_relevance q rs = Ok out ∧ s ∈ out).
Proof.
  split.
  - intros q rs s Hs Hc. eexists. split; [apply evaluate_scored|].
    apply elem_of_filter_bool. split; [done|]. unfold relevant.
    apply Q_ltb_iff in Hc. change (4 # 5)%Q with (f_lit_0_8 : Q) in Hc.
    by rewrite (Q_above_0_8 _ Hc), Hc.
  - intros q rs s Hs Hc. eexists. split; [apply evaluate_scored|].
    apply elem_of_filter_bool. split; [done|]. unfold relevant.
    cbn [f_ltb float_PyFloat f_lit_0_8 float_DecisionLiterals f_lit_0_4].
    by rewrite (float_above_0_8 _ Hc), Hc.
Qed.

(* ===================================================================== *)
(** ** The vector memory                                                  *)
(* ===================================================================== *)

Section MemoryFacts.
Context {E F : Type} (e_zero : E) (astype_float32 : E → E)
  (index_search : list (list E) → list E → nat → list (F * Z)).
Implicit Types (self : FaissMemory E) (embedding : list E).

Lemma length_fit_dimension dim embedding :
  length (fit_dimension e_zero dim embedding) = dim.
Proof.
  unfold fit_dimension. repeat case_bool_decide.
  - rewrite length_take. lia.
  - rewrite length_app, length_replicate. lia.
  - lia.
Qed.

(** X9. The embedding that [add_to_index] and [search] hand to the index
    has exactly [dim] entries: the first entries of the one given, as many
    as fit, followed by zeros where the one given is shorter; fitting it a
    second time changes nothing. *)
Theorem fit_dimension_spec dim embedding :
  length (fit_dimension e_zero dim embedding) = dim
  ∧ (∀ i, (i < dim)%nat → (i < length embedding)%nat →
       fit_dimension e_zero dim embedding !! i = embedding !! i)
  ∧ (∀ i, (i < dim)%nat → (length embedding ≤ i)%nat →
       fit_dimension e_zero dim embedding !! i = Some e_zero)
  ∧ fit_dimension e_zero dim (fit_dimension e_zero dim embedding)
    = fit_dimension e_zero dim embedding.
Proof.
  split; [apply length_fit_dimension|]. split; [|split].
  - intros i Hi Hlen. unfold fit_dimension. repeat case_bool_decide.
    + by rewrite lookup_take_lt.
    + by rewrite lookup_app_l.
    + done.
  - intros i Hi Hlen. unfold fit_dimension. repeat case_bool_decide.
    + lia.
    + rewrite lookup_app_r by done. apply lookup_replicate_2. lia.
    + lia.
  - unfold fit_dimension at 1.
    rewrite bool_decide_eq_false_2; [done|].
    rewrite length_fit_dimension. by intros [].
Qed.

Lemma aligned_init : aligned (FaissMemory_init (E:=E)).
Proof. split; [done | constructor]. Qed.

Lemma add_to_index_keeps_aligned self (url : string) embedding :
  aligned self → aligned (add_to_index e_zero astype_float32 self url embedding).
Proof.
  intros [Hlen Hrows]. unfold add_to_index, aligned. cbn [index urls dimension].
  split.
  - rewrite !length_app. cbn. lia.
  - apply Forall_app. split; [done|]. constructor; [|constructor].
    unfold as_row. rewrite length_map. apply length_fit_dimension.
Qed.

(** X10. [add_to_index] keeps labels and urls aligned: from a memory with
    as many rows as urls, all of the dimension of the index, the call leads
    to such a memory again, with one row more; the label of the new row,
    which is the number of rows before the call, leads to the url just
    added, and the older rows and urls stay where they were. *)
Theorem add_to_index_aligned self (url : string) embedding :
  aligned self →
  let self' := add_to_index e_zero astype_float32 self url embedding in
  aligned self'
  ∧ length (index self') = S (length (index self))
  ∧ list_getitem (urls self') (Z.of_nat (length (index self))) = Some url
  ∧ (∀ i u, urls self !! i = Some u → urls self' !! i = Some u)
  ∧ (∀ i row, index self !! i = Some row → index self' !! i = Some row).
Proof.
  intros Hal self'. split; [by apply add_to_index_keeps_aligned|].
  destruct Hal as [Hlen Hrows]. unfold self', add_to_index.
  cbn [index urls dimension].
  split; [|split; [|split]].
  - rewrite length_app. cbn. lia.
  - unfold list_getitem. rewrite (proj2 (Z.leb_le _ _)) by lia.
    rewrite Nat2Z.id, Hlen. apply list_lookup_middle. done.
  - intros i u Hi. by apply lookup_app_l_Some.
  - intros i row Hi. by apply lookup_app_l_Some.
Qed.

(** *** What a search returns *)

Lemma list_getitem_url_at (l : list string) (i : Z) :
  (- Z.of_nat (length l) <= i < Z.of_nat (length l))%Z →
  list_getitem l i = url_at l i.
Proof.
  intros Hi. unfold list_getitem, url_at.
  destruct (0 <=? i)%Z eqn:H0; [done|]. apply Z.leb_gt in H0.
  rewrite (proj2 (Z.leb_le _ _)) by lia.
  rewrite reverse_lookup by lia. f_equal. lia.
Qed.

Lemma list_getitem_None {A} (l : list A) (i : Z) :
  (i < Z.of_nat (length l))%Z →
  list_getitem l i = None ↔ (i < - Z.of_nat (length l))%Z.
Proof.
  intros Hi. unfold list_getitem.
  destruct (0 <=? i)%Z eqn:H0.
  - apply Z.leb_le in H0. rewrite lookup_ge_None. lia.
  - apply Z.leb_gt in H0.
    destruct (- Z.of_nat (length l) <=? i)%Z eqn:Hl.
    + apply Z.leb_le in Hl. rewrite lookup_ge_None. lia.
    + apply Z.leb_gt in Hl. done.
Qed.

Lemma format_hits_Some self (q : string) (hits : list (F * Z)) :
  Forall (fun hit => (- Z.of_nat (length (urls self)) <= hit.2)%Z) hits →
  ∀ acc, format_hits self q hits acc = Some (acc ++ omap (hit_record self q) hits)%list.
Proof.
  induction 1 as [|[d label] hits Hlab Hall IH]; intros acc.
  - cbn. by rewrite app_nil_r.
  - cbn [format_hits omap list_omap]. unfold hit_record at 1. cbn [fst snd] in *.
    destruct (label <? Z.of_nat (length (urls self)))%Z eqn:Hlt.
    + apply Z.ltb_lt in Hlt. rewrite list_getitem_url_at by lia.
      destruct (url_at (urls self) label) as [u|] eqn:Hu.
      * cbn [mbind option_bind]. rewrite IH.
        change (list_omap _ _ (hit_record self q) hits)
          with (omap (hit_record self q) hits).
        by rewrite <- app_assoc.
      * exfalso. rewrite <- list_getitem_url_at in Hu by lia.
        apply list_getitem_None in Hu; lia.
    + apply IH.
Qed.

Lemma format_hits_None self (q : string) (hits : list (F * Z)) :
  ∀ acc, format_hits self q hits acc = None ↔
         ∃ hit, hit ∈ hits ∧ (hit.2 < - Z.of_nat (length (urls self)))%Z.
Proof.
  induction hits as [|[d label] hits IH]; intros acc.
  - split; [discriminate|]. by intros (hit & []%elem_of_nil & _).
  - cbn [format_hits].
    destruct (label <? Z.of_nat (length (urls self)))%Z eqn:Hlt.
    + apply Z.ltb_lt in Hlt.
      destruct (list_getitem (urls self) label) as [u|] eqn:Hu; cbn [mbind option_bind].
      * rewrite IH. split.
        -- intros (hit & Hin & Hbad). exists hit. split; [by right | done].
        -- intros (hit & [->|Hin]%elem_of_cons & Hbad).
           ++ cbn in Hbad. assert (list_getitem (urls self) label = None)
                by (apply list_getitem_None; lia). congruence.
           ++ by exists hit.
      * split; [|done]. intros _. exists (d, label). split; [by left|].
        cbn. by apply list_getitem_None in Hu.
    + apply Z.ltb_ge in Hlt. rewrite IH. split.
      * intros (hit & Hin & Hbad). exists hit. split; [by right | done].
      * intros (hit & [->|Hin]%elem_of_cons & Hbad); [cbn in Hbad; lia|].
        by exists hit.
Qed.

Lemma search_records self (query_embedding : list E) (query_text : string)
    (k : nat) rs r :
  search e_zero astype_float32 index_search self query_embedding query_text k
  = Some rs →
  r ∈ rs → ∃ u d, r = raw_result u d query_text ∧ u ∈ urls self.
Proof.
  unfold search. intros Hrun Hr. case_bool_decide as Hempty.
  { injection Hrun as <-. by apply elem_of_nil in Hr. }
  cbn zeta in Hrun. case_bool_decide as Hk; [done|].
  set (hits := index_search _ _ _) in Hrun.
  assert (Hall : Forall (fun hit => (- Z.of_nat (length (urls self)) <= hit.2)%Z) hits).
  { apply Forall_forall. intros hit Hin.
    destruct (Z_lt_le_dec hit.2 (- Z.of_nat (length (urls self)))) as [Hbad|]; [|done].
    assert (format_hits self query_text hits [] = None)
      by (apply format_hits_None; by exists hit).
    congruence. }
  rewrite (format_hits_Some _ _ _ Hall) in Hrun. injection Hrun as <-.
  cbn [app] in Hr. apply list_elem_of_omap in Hr as ([d label] & _ & Hrec).
  unfold hit_record in Hrec. cbn [fst snd] in Hrec.
  destruct (label <? _)%Z; [|discriminate].
  destruct (url_at (urls self) label) as [u|] eqn:Hu; [|discriminate].
  injection Hrec as <-. exists u, d. split; [done|].
  unfold url_at in Hu. destruct (0 <=? label)%Z.
  - by eapply list_elem_of_lookup_2.
  - apply list_elem_of_lookup_2 in Hu. by rewrite elem_of_reverse in Hu.
Qed.

(** X11. What [FaissMemory.search] does with the labels that the index
    returns.  On an empty index it returns [[]].  On an index that is not
    empty, a call for [k = 0] neighbours raises (faiss asserts [k > 0]); a
    call for [k > 0] raises [IndexError] exactly when some label is below
    [-len(self.urls)]; when none is, each hit with a label below
    [len(self.urls)] contributes one record, in the order of the hits, and
    a negative label is not caught by the check [idx < len(self.urls)]: it
    leads to the url counted from the end.  Every record returned has the
    three keys, with the query text passed in and a url of the memory. *)
Theorem search_spec self (query_embedding : list E) (query_text : string) (k : nat) :
  let hits := index_search (index self)
                (as_row e_zero astype_float32 (dimension self) query_embedding)
                (Nat.min k (length (index self))) in
  let run := search e_zero astype_float32 index_search self query_embedding
               query_text k in
  (index self = [] → run = Some [])
  ∧ (index self ≠ [] → k = 0%nat → run = None)
  ∧ (index self ≠ [] → (0 < k)%nat →
     (run = None ↔
        ∃ hit, hit ∈ hits ∧ (hit.2 < - Z.of_nat (length (urls self)))%Z)
     ∧ ((∀ hit, hit ∈ hits → (- Z.of_nat (length (urls self)) <= hit.2)%Z) →
        run = Some (omap (hit_record self query_text) hits)))
  ∧ (∀ rs r, run = Some rs → r ∈ rs →
       ∃ u d, r = raw_result u d query_text ∧ u ∈ urls self).
Proof.
  intros hits run. unfold run, search. split; [|split; [|split]].
  - intros ->. done.
  - intros Hne ->. rewrite bool_decide_eq_false_2 by (by destruct (index self)).
    cbn zeta. by rewrite bool_decide_eq_true_2 by done.
  - intros Hne Hk. rewrite bool_decide_eq_false_2 by (by destruct (index self)).
    cbn zeta. rewrite bool_decide_eq_false_2 by (destruct (index self); [done|cbn; lia]).
    fold hits. split; [apply format_hits_None|].
    intros Hall. rewrite format_hits_Some; [done|]. by apply Forall_forall.
  - apply search_records.
Qed.

Lemma hit_records_in_range self (query_text : string) (hits : list (F * Z)) :
  (∀ hit, hit ∈ hits → (0 <= hit.2 < Z.of_nat (length (urls self)))%Z) →
  Forall2 (fun r hit =>
             ∃ u, urls self !! Z.to_nat hit.2 = Some u
                  ∧ r = raw_result u hit.1 query_text)
    (omap (hit_record self query_text) hits) hits.
Proof.
  induction hits as [|[d label] hits IH]; intros Hlab; [constructor|].
  assert (H0 : (0 <= label < Z.of_nat (length (urls self)))%Z)
    by (apply (Hlab (d, label)); by left).
  cbn [omap list_omap]. unfold hit_record at 1. cbn [fst snd].
  rewrite (proj2 (Z.ltb_lt _ _)) by lia. unfold url_at.
  rewrite (proj2 (Z.leb_le _ _)) by lia.
  destruct (lookup_lt_is_Some_2 (urls self) (Z.to_nat label)) as [u Hu]; [lia|].
  rewrite Hu. cbn [mbind option_bind]. constructor.
  - by exists u.
  - apply IH. intros hit Hin. apply Hlab. by right.
Qed.

(** The hits of a flat index on an aligned memory: as many as asked for,
    each labelled with a position of [urls]. *)
Lemma flat_index_hits self (x : list E) (k : nat) :
  aligned self → flat_index index_search →
  (0 < Nat.min k (length (index self)))%nat →
  let hits := index_search (index self) x (Nat.min k (length (index self))) in
  length hits = Nat.min k (length (urls self))
  ∧ ∀ hit, hit ∈ hits → (0 <= hit.2 < Z.of_nat (length (urls self)))%Z.
Proof.
  intros [Hlen _] Hflat Hpos hits.
  destruct (Hflat (index self) x (Nat.min k (length (index self)))) as [Hn Hlab];
    [lia|].
  fold hits in Hn, Hlab. rewrite <- Hlen. by split.
Qed.

(** X12. On an aligned memory whose index answers a search for [n > 0]
    neighbours with [n] labels of rows, [search] for [k > 0] neighbours
    does not raise and returns [min(k, len(self.urls))] records; when the
    index is not empty, so that it is searched, the record of each hit
    carries the url at the label of the hit, its distance and the query
    text. *)
Theorem search_in_range self (query_embedding : list E) (query_text : string)
    (k : nat) :
  aligned self → flat_index index_search → (0 < k)%nat →
  let hits := index_search (index self)
                (as_row e_zero astype_float32 (dimension self) query_embedding)
                (Nat.min k (length (index self))) in
  ∃ rs,
    search e_zero astype_float32 index_search self query_embedding query_text k
    = Some rs
    ∧ length rs = Nat.min k (length (urls self))
    ∧ (index self ≠ [] →
       Forall2 (fun r hit =>
                  ∃ u, urls self !! Z.to_nat hit.2 = Some u
                       ∧ r = raw_result u hit.1 query_text) rs hits).
Proof.
  intros Hal Hflat Hk hits.
  unfold search. case_bool_decide as Hempty.
  - destruct Hal as [Hlen _]. exists [].
    split; [done|]. rewrite <- Hlen, Hempty, Nat.min_0_r.
    split; [done|]. intros Hne. by destruct (index self).
  - cbn zeta. rewrite bool_decide_eq_false_2 by lia.
    destruct (flat_index_hits self
                (as_row e_zero astype_float32 (dimension self) query_embedding) k
                Hal Hflat ltac:(lia)) as [Hn Hlab].
    fold hits in Hn, Hlab.
    pose proof (hit_records_in_range self query_text hits Hlab) as Hrec.
    fold hits.
    rewrite format_hits_Some
      by (apply Forall_forall; intros hit Hin; specialize (Hlab hit Hin); lia).
    eexists. split; [done|]. cbn [app]. split; [|by intros _].
    by rewrite (Forall2_length _ _ _ Hrec).
Qed.

(** The records of a search on an aligned memory, as the agent needs
    them. *)
Lemma search_aligned self (query_embedding : list E) (query_text : string)
    (k : nat) :
  aligned self → flat_index index_search → (0 < k)%nat →
  ∃ rs,
    search e_zero astype_float32 index_search self query_embedding query_text k
    = Some rs
    ∧ (length rs ≤ Nat.min k (length (urls self)))%nat
    ∧ ∀ r, r ∈ rs →
        ∃ u hit, u ∈ urls self
          ∧ hit ∈ index_search (index self)
                    (as_row e_zero astype_float32 (dimension self) query_embedding)
                    (Nat.min k (length (index self)))
          ∧ r = raw_result u hit.1 query_text.
Proof.
  intros Hal Hflat Hk.
  unfold search. case_bool_decide as Hempty.
  - exists []. split; [done|]. split; [cbn; lia|].
    intros r Hr. by apply elem_of_nil in Hr.
  - cbn zeta. rewrite bool_decide_eq_false_2 by lia.
    destruct (flat_index_hits self
                (as_row e_zero astype_float32 (dimension self) query_embedding) k
                Hal Hflat ltac:(lia)) as [Hn Hlab].
    set (hits := index_search _ _ _) in *.
    rewrite format_hits_Some
      by (apply Forall_forall; intros hit Hin; specialize (Hlab hit Hin); lia).
    eexists. split; [done|]. cbn [app]. split.
    + rewrite <- Hn. apply length_omap_le.
    + intros r ([d label] & Hin & Hrec)%list_elem_of_omap.
      specialize (Hlab _ Hin). unfold hit_record in Hrec. cbn [fst snd] in *.
      rewrite (proj2 (Z.ltb_lt _ _)) in Hrec by lia. unfold url_at in Hrec.
      rewrite (proj2 (Z.leb_le _ _)) in Hrec by lia.
      destruct (urls self !! Z.to_nat label) as [u|] eqn:Hu; [|discriminate].
      injection Hrec as <-. exists u, (d, label).
      split; [by eapply list_elem_of_lookup_2 | by split].
Qed.

Lemma length_search self (query_embedding : list E) (query_text : string)
    (k : nat) rs :
  flat_index index_search →
  search e_zero astype_float32 index_search self query_embedding query_text k
  = Some rs →
  (length rs ≤ k)%nat.
Proof.
  intros Hflat. unfold search. case_bool_decide as Hempty.
  { intros [= <-]. cbn. lia. }
  cbn zeta. case_bool_decide as Hk; [done|].
  set (hits := index_search _ _ _).
  destruct (Hflat (index self) (as_row e_zero astype_float32 (dimension self)
                                  query_embedding) (Nat.min k (length (index self))))
    as [Hn _]; [lia|].
  fold hits in Hn. intros Hrun.
  assert (Hall : Forall (fun hit => (- Z.of_nat (length (urls self)) <= hit.2)%Z) hits).
  { apply Forall_forall. intros hit Hin.
    destruct (Z_lt_le_dec hit.2 (- Z.of_nat (length (urls self)))) as [Hbad|]; [|done].
    assert (format_hits self query_text hits [] = None)
      by (apply format_hits_None; by exists hit).
    congruence. }
  rewrite (format_hits_Some _ _ _ Hall) in Hrun. injection Hrun as <-.
  cbn [app]. pose proof (length_omap_le (hit_record self query_text) hits). lia.
Qed.
End MemoryFacts.

(* ===================================================================== *)
(** ** Sensitive urls                                                     *)
(* ===================================================================== *)

Lemma lower_char_idem (c : ascii) : Py.lower_char (Py.lower_char c) = Py.lower_char c.
Proof. destruct c as [[] [] [] [] [] [] [] []]; reflexivity. Qed.

Lemma lower_idem (s : string) : Py.lower (Py.lower s) = Py.lower s.
Proof.
  induction s as [|c s IH]; cbn [Py.lower]; [done|].
  by rewrite lower_char_idem, IH.
Qed.

Lemma any_spec {A} (p : A → bool) (l : list A) :
  Py.any p l = true ↔ ∃ x, x ∈ l ∧ p x = true.
Proof.
  unfold Py.any. rewrite existsb_exists.
  split; intros (x & Hx & Hp); exists x; (split; [|done]); by apply list_elem_of_In.
Qed.

Lemma string_app_assoc (a b c : string) : (a ++ b) ++ c = a ++ (b ++ c).
Proof.
  induction a as [|x a IH]; [by rewrite !append_nil|].
  by rewrite !append_cons, IH.
Qed.

Lemma is_substring_trans (a b c : string) :
  is_substring a b → is_substring b c → is_substring a c.
Proof.
  intros (p1 & s1 & ->) (p2 & s2 & ->). exists (p2 ++ p1), (s1 ++ s2).
  by rewrite !string_app_assoc.
Qed.

Section SensitiveFacts.
Variable validators_url : string → bool.
Variable urlparse_netloc : string → option string.

Lemma domain_is_sensitive (netloc : string) :
  let domain := Py.lower netloc in
  Py.any (fun sensitive => Py.contains sensitive domain) sensitive_domains = true
  ∨ Py.any (fun pattern => re_search_ignorecase pattern domain)
      sensitive_patterns = true
  ↔ ∃ t, t ∈ sensitive_texts ∧ is_substring t domain.
Proof.
  intros domain. rewrite !any_spec. split.
  - assert (Hd : ∀ d, d ∈ sensitive_domains →
                   ∃ t, t ∈ sensitive_texts ∧ is_substring t d).
    { assert (Hall : Forall (fun d => Py.any (fun t => Py.contains t d)
                                         sensitive_texts = true) sensitive_domains)
        by (repeat (constructor; [vm_compute; reflexivity|]); constructor).
      rewrite Forall_forall in Hall. intros d Hd.
      destruct (proj1 (any_spec _ _) (Hall d Hd)) as (t & Ht & Hc).
      exists t. split; [done | by apply contains_spec]. }
    assert (Hp : ∀ p, p ∈ sensitive_patterns →
                   ∃ t, t ∈ sensitive_texts ∧ is_substring t (Py.lower p)).
    { assert (Hall : Forall (fun p => Py.any (fun t => Py.contains t (Py.lower p))
                                         sensitive_texts = true) sensitive_patterns)
        by (repeat (constructor; [vm_compute; reflexivity|]); constructor).
      rewrite Forall_forall in Hall. intros p Hp.
      destruct (proj1 (any_spec _ _) (Hall p Hp)) as (t & Ht & Hc).
      exists t. split; [done | by apply contains_spec]. }
    intros [(d & Hin & Hc)|(p & Hin & Hc)].
    + destruct (Hd d Hin) as (t & Ht & Hsub). exists t. split; [done|].
      eapply is_substring_trans; [exact Hsub | by apply contains_spec].
    + destruct (Hp p Hin) as (t & Ht & Hsub). exists t. split; [done|].
      eapply is_substring_trans; [exact Hsub|].
      unfold re_search_ignorecase, domain in Hc. rewrite lower_idem in Hc.
      by apply contains_spec.
  - intros (t & Ht & Hsub).
    assert (Hcase : t ∈ sensitive_domains
                    ∨ ∃ p, p ∈ sensitive_patterns ∧ Py.lower p = t).
    { assert (Hall : Forall (fun t =>
                  existsb (String.eqb t) sensitive_domains
                  || existsb (fun p => String.eqb (Py.lower p) t) sensitive_patterns
                  = true) sensitive_texts)
        by (repeat (constructor; [vm_compute; reflexivity|]); constructor).
      rewrite Forall_forall in Hall.
      destruct (orb_prop _ _ (Hall t Ht)) as [Hc|Hc]; apply existsb_exists in Hc.
      - destruct Hc as (d & Hin%list_elem_of_In & ->%String.eqb_eq). by left.
      - destruct Hc as (p & Hin%list_elem_of_In & Heq%String.eqb_eq).
        right. by exists p. }
    destruct Hcase as [Hin|(p & Hin & <-)].
    + left. exists t. split; [done | by apply contains_spec].
    + right. exists p. split; [done|].
      unfold re_search_ignorecase, domain. rewrite lower_idem.
      by apply contains_spec.
Qed.

(** X13. [is_sensitive_url] answers [True] whenever the url is not valid,
    or [urlparse] raises, or the lowercased host contains one of sixteen
    texts: of the thirteen domains and eight patterns, ['gmail.com'],
    ['mail.google.com'], ['yahoo.mail.com'] and [email\.] are covered by
    [mail\.], and [banking\.] by ['banking'].  For a host of characters
    below U+0100, the strings of this development, nothing else makes a url
    sensitive.  (Beyond U+0100 [re.IGNORECASE] also lets U+017F stand for
    [s], U+212A for [k] and U+0131 for [i], so that more hosts match.)
    [should_process_page] answers [True] exactly for a url that is not
    sensitive with a content length from 100 to 1000000. *)
Theorem is_sensitive_url_texts (url : string) :
  (validators_url url = false
   ∨ urlparse_netloc url = None
   ∨ (∃ netloc t, urlparse_netloc url = Some netloc
        ∧ t ∈ sensitive_texts ∧ is_substring t (Py.lower netloc)) →
   is_sensitive_url validators_url urlparse_netloc url = true)
  ∧ (is_sensitive_url validators_url urlparse_netloc url = true →
     validators_url url = false
     ∨ urlparse_netloc url = None
     ∨ ∃ netloc t, urlparse_netloc url = Some netloc
         ∧ t ∈ sensitive_texts ∧ is_substring t (Py.lower netloc))
  ∧ (∀ content_length : Z,
       should_process_page validators_url urlparse_netloc url content_length = true ↔
       is_sensitive_url validators_url urlparse_netloc url = false
       ∧ (100 <= content_length <= 1000000)%Z).
Proof.
  assert (Hiff : is_sensitive_url validators_url urlparse_netloc url = true ↔
     validators_url url = false
     ∨ urlparse_netloc url = None
     ∨ ∃ netloc t, urlparse_netloc url = Some netloc
         ∧ t ∈ sensitive_texts ∧ is_substring t (Py.lower netloc)).
  { unfold is_sensitive_url. destruct (validators_url url); cbn [negb].
    2: { split; [by left | done]. }
    destruct (urlparse_netloc url) as [netloc|].
    2: { split; [right; by left | done]. }
    pose proof (domain_is_sensitive netloc) as Hdom. cbn zeta in Hdom.
    split.
    + intros Hs. right. right.
      assert (Hany : Py.any (fun sensitive => Py.contains sensitive (Py.lower netloc))
                       sensitive_domains = true
                     ∨ Py.any (fun pattern => re_search_ignorecase pattern (Py.lower netloc))
                         sensitive_patterns = true).
      { destruct (Py.any _ sensitive_domains); [by left|].
        destruct (Py.any _ sensitive_patterns); [by right | done]. }
      apply Hdom in Hany as (t & Ht & Hsub). by exists netloc, t.
    + intros [[=]|[[=]|(netloc' & t & [= <-] & Ht & Hsub)]].
      destruct (proj2 Hdom (ex_intro _ t (conj Ht Hsub))) as [-> | Hp]; [done|].
      rewrite Hp. by destruct (Py.any _ sensitive_domains). }
  split; [apply Hiff|]. split; [apply Hiff|].
  intros n. unfold should_process_page.
  destruct (is_sensitive_url validators_url urlparse_netloc url).
  { split; [done | by intros [[=] _]]. }
  destruct (n <? 100)%Z eqn:Hlo; cbn [orb].
  { apply Z.ltb_lt in Hlo. split; [done | lia]. }
  destruct (1000000 <? n)%Z eqn:Hhi.
  { apply Z.ltb_lt in Hhi. split; [done | lia]. }
  apply Z.ltb_ge in Hlo, Hhi. split; [split; [done | lia] | done].
Qed.
End SensitiveFacts.

(* ===================================================================== *)
(** ** The agent                                                          *)
(* ===================================================================== *)

Section AgentFacts.
Context {E F : Type} `{PyFloat F} (e_zero : E) (astype_float32 : E → E)
  (validators_url : string → bool) (urlparse_netloc : string → option string).

Abbreviation sensitive := (is_sensitive_url validators_url urlparse_netloc).
Abbreviation process_pages :=
  (Agent_process_pages e_zero astype_float32 validators_url urlparse_netloc).

Lemma process_pages_cons (self : Agent E F) (page : string * list E) pages :
  process_pages self (page :: pages)
  = process_pages
      (Agent_process_page e_zero astype_float32 validators_url urlparse_netloc
         self page.1 page.2).2 pages.
Proof. reflexivity. Qed.

(** X14. A run of [process_page] calls adds to the memory the urls that
    are not sensitive, in the order of the calls, and nothing else.  It
    leaves [action] as it was and an aligned memory aligned; and if no url
    of the memory was sensitive before the run, none is after it. *)
Theorem process_pages_never_stores_sensitive (self : Agent E F)
    (pages : list (string * list E)) :
  let self' := process_pages self pages in
  urls (memory self')
  = (urls (memory self)
     ++ List.filter (fun u => negb (sensitive u)) (List.map fst pages))%list
  ∧ action self' = action self
  ∧ (aligned (memory self) → aligned (memory self'))
  ∧ ((∀ u, u ∈ urls (memory self) → sensitive u = false) →
     ∀ u, u ∈ urls (memory self') → sensitive u = false).
Proof.
  cbn zeta.
  assert (Hurls : ∀ pages (self : Agent E F),
    urls (memory (process_pages self pages))
    = (urls (memory self)
       ++ List.filter (fun u => negb (sensitive u)) (List.map fst pages))%list).
  { clear. intros pages. induction pages as [|[u e] pages IH]; intros self.
    - cbn. by rewrite app_nil_r.
    - rewrite process_pages_cons, IH. unfold Agent_process_page. cbn [fst snd].
      cbn [List.map List.filter fst].
      destruct (sensitive u); cbn [negb snd memory]; [done|].
      unfold add_to_index. cbn [urls]. by rewrite <- app_assoc. }
  split; [apply Hurls|]. split; [|split].
  - revert self. induction pages as [|[u e] pages IH]; intros self; [done|].
    rewrite process_pages_cons, IH. unfold Agent_process_page. cbn [fst snd].
    by destruct (sensitive u).
  - revert self. induction pages as [|[u e] pages IH]; intros self Hal; [done|].
    rewrite process_pages_cons. apply IH. unfold Agent_process_page. cbn [fst snd].
    destruct (sensitive u); cbn [snd memory]; [done|].
    by apply add_to_index_keeps_aligned.
  - intros Hold u. rewrite Hurls, elem_of_app, elem_of_filter_bool.
    intros [Hu|[_ Hu]]; [by apply Hold | by apply negb_true_iff].
Qed.
End AgentFacts.

Section AgentSearch.
Context {E : Type} (e_zero : E) (astype_float32 : E → E).

Lemma Agent_search_Results {F} `{PyFloat F}
    (index_search : list (list E) → list E → nat → list (F * Z))
    (self : Agent E F) (query : string) (query_embedding : list E) out :
  Agent_search e_zero astype_float32 index_search self query query_embedding
  = Results out ↔
  ∃ rs, search e_zero astype_float32 index_search (memory self) query_embedding
          query 5 = Some rs
        ∧ process_search_results (action self) rs = Ok out.
Proof.
  unfold Agent_search.
  destruct (search _ _ _ _ _ _ _) as [rs|]; [|split; [done | by intros (? & [=] & _)]].
  destruct (process_search_results (action self) rs) as [out'|e] eqn:Hp.
  - split; [intros [= <-]; by exists rs | intros (rs' & [= <-] & Hp')]. congruence.
  - split; [done | intros (rs' & [= <-] & Hp')]. congruence.
Qed.

(** X15. [Agent.search] from end to end.  In exact arithmetic, on an
    aligned memory with a flat index whose distances are not negative, the
    call does not raise: it returns at most 5 results, and no more than the
    memory has urls, in descending order of confidence, each with a
    confidence of at least 0.4 and a url of the memory.  In binary64,
    whenever the call returns, it returns at most 5 results in descending
    order, each with a confidence between 0.4 and 1 and a url of the
    memory. *)
Theorem Agent_search_ok :
  (∀ (index_search : list (list E) → list E → nat → list (Q * Z))
     (self : Agent E Q) (query : string) (query_embedding : list E),
      action self = SearchAction_init →
      aligned (memory self) →
      flat_index index_search →
      (∀ rows x n hit, hit ∈ index_search rows x n → (0 <= hit.1)%Q) →
      ∃ out,
        Agent_search e_zero astype_float32 index_search self query query_embedding
        = Results out
        ∧ (length out ≤ 5)%nat
        ∧ (length out ≤ length (urls (memory self)))%nat
        ∧ descending out
        ∧ ∀ s, s ∈ out →
            (2 # 5 <= confidence s)%Q ∧ s_url s ∈ urls (memory self))
  ∧ (∀ (index_search : list (list E) → list E → nat → list (float * Z))
       (self : Agent E float) (query : string) (query_embedding : list E) out,
      action self = SearchAction_init →
      flat_index index_search →
      Agent_search e_zero astype_float32 index_search self query query_embedding
      = Results out →
      (length out ≤ 5)%nat
      ∧ descending_by (fun x y => PrimFloat.leb x y = true) out
      ∧ ∀ s, s ∈ out →
          PrimFloat.leb 0.4 (confidence s) = true
          ∧ PrimFloat.leb (confidence s) 1 = true
          ∧ s_url s ∈ urls (memory self)).
Proof.
  split.
  - intros index_search self query qe Hact Hal Hflat Hdist.
    destruct (search_aligned e_zero astype_float32 index_search (memory self) qe
                query 5 Hal Hflat ltac:(lia)) as (rs & Hrun & Hlen & Hrec).
    assert (Hrs : ∀ r, r ∈ rs →
              ∃ u d, r = raw_result u d query ∧ u ∈ urls (memory self) ∧ (0 <= d)%Q).
    { intros r Hr. destruct (Hrec r Hr) as (u & hit & Hu & Hhit & ->).
      exists u, hit.1. split; [done|]. split; [done|]. by eapply Hdist. }
    destruct (process_search_results SearchAction_init rs) as [out|e] eqn:Hp.
    2: { exfalso.
         assert (Hraise : raises (process_search_results SearchAction_init rs))
           by (by exists e).
         apply (process_search_results_raises_iff Q_of_nat_S_nonzero) in Hraise
           as (r & Hr & Hbad).
         destruct (Hrs r Hr) as (u & d & -> & _ & Hd).
         destruct Hbad as [Hk|Hz]; [by apply raw_result_has_keys in Hk|].
         apply nonneg_distance_no_zero_divisor in Hz; [done|].
         by intros d' [= <-]. }
    exists out. split; [apply Agent_search_Results; exists rs; by rewrite Hact|].
    pose proof (length_output _ _ _ Hp) as Hout.
    destruct (output_sorted_and_thresholded_exact rs out Hp) as (Hd & Ht & _).
    split; [lia|]. split; [lia|]. split; [done|].
    intros s Hs. split; [by apply Ht|].
    destruct (output_url _ _ _ _ Hp Hs) as (r & Hr & Hu).
    destruct (Hrs r Hr) as (u & d & -> & Hin & _). by injection Hu as <-.
  - intros index_search self query qe out Hact Hflat
      (rs & Hrun & Hp)%Agent_search_Results.
    rewrite Hact in Hp.
    pose proof (length_search _ _ _ _ _ _ _ _ Hflat Hrun) as Hlen.
    pose proof (length_output _ _ _ Hp) as Hout.
    destruct (output_sorted_and_thresholded_binary64 rs out Hp) as (Hd & Ht & _).
    split; [lia|]. split; [done|].
    intros s Hs. destruct (Ht s Hs) as [H4 H1]. split; [done|]. split; [done|].
    destruct (output_url _ _ _ _ Hp Hs) as (r & Hr & Hu).
    destruct (search_records _ _ _ _ _ _ _ _ _ Hrun Hr) as (u & d & -> & Hin).
    by injection Hu as <-.
Qed.
End AgentSearch.

(* ===================================================================== *)
(** ** The two tokenizations of a url                                     *)
(* ===================================================================== *)

Lemma fields_replace (sep : ascii → bool) (old new : ascii) (s : string) :
  sep old = false → sep new = false →
  Py.fields sep (Py.replace old new s)
  = List.map (Py.replace old new) (Py.fields sep s).
Proof.
  intros Hold Hnew. induction s as [|c s IH]; [done|].
  cbn [Py.replace Py.fields]. rewrite IH.
  destruct (Ascii.eqb_spec c old) as [->|Hne].
  - rewrite Hold, Hnew.
    destruct (Py.fields sep s) as [|w ws] eqn:Hf; [by apply fields_not_nil in Hf|].
    cbn [List.map Py.replace]. by rewrite Ascii.eqb_refl.
  - destruct (sep c); [done|].
    destruct (Py.fields sep s) as [|w ws] eqn:Hf; [by apply fields_not_nil in Hf|].
    cbn [List.map Py.replace]. by rewrite (proj2 (Ascii.eqb_neq _ _) Hne).
Qed.

Lemma replace_absent (old new : ascii) (t : string) :
  (∀ c, c ∈ list_ascii_of_string t → c ≠ old) → Py.replace old new t = t.
Proof.
  induction t as [|c t IH]; intros Habs; [done|]. cbn [Py.replace].
  rewrite IH by (intros c' Hc'; apply Habs; cbn; by right).
  rewrite (proj2 (Ascii.eqb_neq c old)); [done|]. apply Habs. cbn. by left.
Qed.

Lemma plain_url_term (u t : string) :
  t ∈ Py.split_on "/" (Py.lower u) → plain t → t ∈ url_terms u.
Proof.
  intros Ht Hplain. unfold url_terms. apply elem_of_union. left.
  apply elem_of_list_to_set. unfold url_spaced, Py.split_on.
  rewrite !fields_replace by reflexivity.
  assert (Hdash : Py.replace "-" " " t = t)
    by (apply replace_absent; intros c Hc; by apply Hplain).
  assert (Hunder : Py.replace "_" " " t = t)
    by (apply replace_absent; intros c Hc; by apply Hplain).
  apply list_elem_of_fmap. exists t. split; [done|].
  apply list_elem_of_fmap. by exists t.
Qed.

Lemma exact_matches_size (qts uts : gset string) :
  exact_matches qts uts = size (qts ∩ uts).
Proof.
  unfold exact_matches. apply sum_ones_if_size. intros t.
  by rewrite elem_of_intersection, any_eqb_elem_of.
Qed.

(** X16. Where the two tokenizations of a url agree: a term of the query
    that the relevance filter finds among the ['/']-fields of the
    lowercased url, and in which neither ['-'] nor ['_'] occurs, is a url
    term for the scorer as well, so that the scorer counts at least one
    exact and one partial match. *)
Theorem term_overlap_is_exact_match (q u t : string) :
  t ∈ query_terms q ∩ url_path_terms u → plain t →
  t ∈ query_terms q ∩ url_terms u
  ∧ (1 ≤ exact_matches (query_terms q) (url_terms u))%nat
  ∧ (1 ≤ partial_matches (query_terms q) (url_terms u))%nat.
Proof.
  intros [Hq Hu]%elem_of_intersection Hplain.
  apply elem_of_list_to_set in Hu.
  assert (Hin : t ∈ query_terms q ∩ url_terms u).
  { apply elem_of_intersection. split; [done | by apply plain_url_term]. }
  split; [done|].
  assert (He : (1 ≤ exact_matches (query_terms q) (url_terms u))%nat).
  { rewrite exact_matches_size.
    destruct (size (query_terms q ∩ url_terms u)) eqn:Hsize; [|lia].
    apply size_empty_inv in Hsize. apply Hsize in Hin. by apply elem_of_empty in Hin. }
  split; [done|].
  pose proof (exact_le_partial (query_terms q) (url_terms u)). lia.
Qed.

(* ===================================================================== *)
(** ** Ties in the order of the output                                    *)
(* ===================================================================== *)

Section Stable.
Context {F : Type} `{PyFloat F} {A : Type} (key : A → F).

(** What stability rests on: a key that is smaller than another one is
    not equal to what the other one is equal to. *)
Hypothesis ltb_eqb : ∀ x y c, f_ltb x y = true → f_eqb x c = true → f_eqb y c = false.

Lemma insert_desc_filter (c : F) (x : A) (l : list A) :
  List.filter (fun a => f_eqb (key a) c) (insert_desc key x l)
  = List.filter (fun a => f_eqb (key a) c) (x :: l).
Proof.
  induction l as [|y l IH]; [done|]. cbn [insert_desc].
  destruct (f_ltb (key x) (key y)) eqn:Hlt; [|done].
  cbn [List.filter] in *. rewrite IH.
  destruct (f_eqb (key x) c) eqn:Hx; [|done].
  by rewrite (ltb_eqb _ _ _ Hlt Hx).
Qed.

Lemma sort_desc_stable (c : F) (l : list A) :
  List.filter (fun a => f_eqb (key a) c) (sort_desc key l)
  = List.filter (fun a => f_eqb (key a) c) l.
Proof.
  induction l as [|x l IH]; [done|].
  change (sort_desc key (x :: l)) with (insert_desc key x (sort_desc key l)).
  rewrite insert_desc_filter. cbn [List.filter]. by rewrite IH.
Qed.
End Stable.

Lemma float_ltb_eqb (x y c : float) :
  PrimFloat.ltb x y = true → PrimFloat.eqb x c = true → PrimFloat.eqb y c = false.
Proof.
  rewrite FloatAxioms.ltb_spec, !FloatAxioms.eqb_spec. unfold SFltb, SFeqb.
  destruct (Prim2SF x) as [sx|sx| |sx mx ex], (Prim2SF y) as [sy|sy| |sy my ey],
    (Prim2SF c) as [sc|sc| |sc mc ec]; cbn [SFcompare];
    try (by repeat match goal with s : bool |- _ => destruct s end).
  all: destruct sx, sy, sc; try done; rewrite ?compare_cont_Eq;
    repeat match goal with
           | |- context [(?a ?= ?b)%Z] => destruct (Z.compare_spec a b)
           end; cbn; try done; try lia.
Qed.

Lemma Q_ltb_eqb (x y c : Q) :
  f_ltb x y = true → f_eqb x c = true → f_eqb y c = false.
Proof.
  rewrite Q_ltb_iff, Q_eqb_iff, Q_eqb_false. intros Hlt Hx Hy. lra.
Qed.

(** X17. The sort of [process_search_results] is stable: the results
    whose confidence is equal to a given value come out in the order in
    which their inputs went in.  In exact arithmetic and in binary64. *)
Theorem process_search_results_stable :
  (∀ (self : SearchAction Q) (rs : list (RawResult Q)) (out : list (ScoredResult Q))
     (c : Q),
      process_search_results self rs = Ok out →
      List.filter (fun s => Qeq_bool (confidence s) c) out
      = List.filter (fun s => Qeq_bool (confidence s) c) (omap (score_of self) rs))
  ∧ (∀ (self : SearchAction float) (rs : list (RawResult float))
       (out : list (ScoredResult float)) (c : float),
      process_search_results self rs = Ok out →
      List.filter (fun s => PrimFloat.eqb (confidence s) c) out
      = List.filter (fun s => PrimFloat.eqb (confidence s) c)
          (omap (score_of self) rs)).
Proof.
  split.
  - intros self rs out c [_ ->]%process_search_results_Ok.
    apply (sort_desc_stable confidence Q_ltb_eqb).
  - intros self rs out c [_ ->]%process_search_results_Ok.
    apply (sort_desc_stable (H:=float_PyFloat) confidence float_ltb_eqb).
Qed.

(* ===================================================================== *)
(** ** What a search can return                                           *)
(* ===================================================================== *)

Section Privacy.
Context {E F : Type} `{PyFloat F} (e_zero : E) (astype_float32 : E → E)
  (index_search : list (list E) → list E → nat → list (F * Z))
  (validators_url : string → bool) (urlparse_netloc : string → option string).

(** X18. A search never returns a sensitive url: after any run of
    [process_page] calls on an agent whose memory holds no sensitive url,
    every result of [Agent.search] has a url that is not sensitive, and
    that was in the memory before the run or was passed to one of the
    calls.  This holds for every arithmetic and whatever the index
    answers. *)
Theorem search_never_returns_sensitive (self : Agent E F)
    (pages : list (string * list E)) (query : string) (query_embedding : list E)
    (out : list (ScoredResult F)) :
  (∀ u, u ∈ urls (memory self) →
     is_sensitive_url validators_url urlparse_netloc u = false) →
  Agent_search e_zero astype_float32 index_search
    (Agent_process_pages e_zero astype_float32 validators_url urlparse_netloc
       self pages)
    query query_embedding
  = Results out →
  ∀ s, s ∈ out →
    is_sensitive_url validators_url urlparse_netloc (s_url s) = false
    ∧ (s_url s ∈ urls (memory self) ∨ s_url s ∈ List.map fst pages).
Proof.
  intros Hold (rs & Hrun & Hp)%Agent_search_Results s Hs.
  destruct (output_url _ _ _ _ Hp Hs) as (r & Hr & Hu).
  destruct (search_records _ _ _ _ _ _ _ _ _ Hrun Hr) as (u & d & -> & Hin).
  injection Hu as <-.
  assert (Hurls : ∀ pages (a : Agent E F),
    urls (memory (Agent_process_pages e_zero astype_float32 validators_url
                    urlparse_netloc a pages))
    = (urls (memory a)
       ++ List.filter
            (fun u => negb (is_sensitive_url validators_url urlparse_netloc u))
            (List.map fst pages))%list).
  { clear. intros pages. induction pages as [|[u e] pages IH]; intros a.
    - cbn. by rewrite app_nil_r.
    - rewrite process_pages_cons, IH. unfold Agent_process_page. cbn [fst snd].
      cbn [List.map List.filter fst].
      destruct (is_sensitive_url _ _ u); cbn [negb snd memory]; [done|].
      unfold add_to_index. cbn [urls]. by rewrite <- app_assoc. }
  rewrite Hurls, elem_of_app, elem_of_filter_bool in Hin.
  destruct Hin as [Hin|[Hin Hsens]].
  - split; [by apply Hold | by left].
  - split; [by apply negb_true_iff | by right].
Qed.
End Privacy.

(* ===================================================================== *)
(** ** Instances on concrete inputs                                       *)
(* ===================================================================== *)


Lemma first_rows_flat_index {E} : flat_index (first_rows (E:=E)).
Proof.
  intros rows x n Hn. unfold first_rows. split.
  - by rewrite length_map, length_seq.
  - intros hit (i & -> & Hi%elem_of_seq)%list_elem_of_fmap. cbn. lia.
Qed.

Lemma first_rows_distance {E} (rows : list (list E)) x n hit :
  hit ∈ first_rows rows x n → (0 <= hit.1)%Q.
Proof.
  intros (i & -> & _)%list_elem_of_fmap. cbn [fst].
  apply Qle_shift_div_l; [reflexivity|]. rewrite Qmult_0_l.
  change 0%Q with (inject_Z 0). rewrite <- Zle_Qle. lia.
Qed.

(** Witness of X7: a query of blanks keeps the result above 0.8 only. *)
Lemma evaluate_search_relevance_no_terms_witness :
  let rs : list (ScoredResult Q) :=
    [scored "a" (9 # 10)%Q 1%Q 0%Q; scored "b" (1 # 2)%Q (1 # 2)%Q 0%Q] in
  evaluate_search_relevance "  " rs
  = Ok (List.filter
          (fun s => negb (f_ltb (confidence s) f_lit_0_4)
                    && f_ltb f_lit_0_8 (confidence s)) rs).
Proof.
  intros rs. apply (evaluate_search_relevance_no_terms "  " rs). reflexivity.
Defined.

(** Witness of X10: a second page added to a memory of one. *)
Lemma add_to_index_aligned_witness :
  let self : FaissMemory Q :=
    {| dimension := 2; index := [[1; 0]%Q]; urls := ["a.org"] |} in
  let self' := add_to_index 0%Q (fun x => x) self "b.org" [1; 2; 3]%Q in
  aligned self'
  ∧ length (index self') = S (length (index self))
  ∧ list_getitem (urls self') (Z.of_nat (length (index self))) = Some "b.org"
  ∧ (∀ i u, urls self !! i = Some u → urls self' !! i = Some u)
  ∧ (∀ i row, index self !! i = Some row → index self' !! i = Some row).
Proof.
  intros self.
  apply (add_to_index_aligned 0%Q (fun x => x) self "b.org" [1; 2; 3]%Q).
  split; [reflexivity | repeat constructor].
Defined.

(** Witness of X12: two rows, three neighbours asked for. *)
Lemma search_in_range_witness :
  let self : FaissMemory Q :=
    {| dimension := 2; index := [[1; 0]; [0; 1]]%Q; urls := ["a.org"; "b.org"] |} in
  let hits := first_rows (index self) (as_row 0%Q (fun x => x) 2 [1]%Q)
                (Nat.min 3 (length (index self))) in
  ∃ rs,
    search 0%Q (fun x => x) first_rows self [1]%Q "q" 3 = Some rs
    ∧ length rs = Nat.min 3 (length (urls self))
    ∧ (index self ≠ [] →
       Forall2 (fun r hit =>
                  ∃ u, urls self !! Z.to_nat hit.2 = Some u
                       ∧ r = raw_result u hit.1 "q") rs hits).
Proof.
  intros self.
  apply (search_in_range 0%Q (fun x => x) first_rows self [1]%Q "q" 3).
  - split; [reflexivity | repeat constructor].
  - apply first_rows_flat_index.
  - lia.
Defined.

(** Witness of X16: ["blog"] is a field of the url and a term of the
    query. *)
Lemma term_overlap_is_exact_match_witness :
  "blog" ∈ query_terms "my blog" ∩ url_terms "site.com/blog"
  ∧ (1 ≤ exact_matches (query_terms "my blog") (url_terms "site.com/blog"))%nat
  ∧ (1 ≤ partial_matches (query_terms "my blog") (url_terms "site.com/blog"))%nat.
Proof.
  apply (term_overlap_is_exact_match "my blog" "site.com/blog" "blog").
  - apply elem_of_intersection. split; apply elem_of_list_to_set; vm_compute.
    + right. left.
    + right. left.
  - intros c Hc. vm_compute in Hc.
    repeat (apply elem_of_cons in Hc as [->|Hc]; [split; discriminate|]).
    by apply elem_of_nil in Hc.
Defined.

(** Witness of X15 in exact arithmetic: a memory of two pages. *)
Lemma Agent_search_ok_witness :
  let self : Agent Q Q :=
    {| memory := {| dimension := 2; index := [[1; 0]; [0; 1]]%Q;
                    urls := ["site.com/blog"; "b.org"] |};
       action := SearchAction_init |} in
  ∃ out,
    Agent_search 0%Q (fun x => x) first_rows self "blog" [1; 0]%Q = Results out
    ∧ (length out ≤ 5)%nat
    ∧ (length out ≤ length (urls (memory self)))%nat
    ∧ descending out
    ∧ ∀ s, s ∈ out →
        (2 # 5 <= confidence s)%Q ∧ s_url s ∈ urls (memory self).
Proof.
  intros self.
  destruct (Agent_search_ok (E:=Q) 0%Q (fun x => x)) as [HQ _].
  apply (HQ first_rows self "blog" [1; 0]%Q).
  - reflexivity.
  - split; [reflexivity | repeat constructor].
  - apply first_rows_flat_index.
  - intros rows x n hit. apply first_rows_distance.
Defined.

(** Witness of X18: of two pages the sensitive one is not stored, and the
    search returns the other. *)
Lemma search_never_returns_sensitive_witness :
  let self : Agent Q Q :=
    {| memory := FaissMemory_init; action := SearchAction_init |} in
  let pages := [("mail.google.com/inbox", [1]%Q); ("site.com/blog", [0; 1]%Q)] in
  let sensitive := is_sensitive_url (fun _ => true) (fun u => Some u) in
  ∃ out,
    Agent_search 0%Q (fun x => x) first_rows
      (Agent_process_pages 0%Q (fun x => x) (fun _ => true) (fun u => Some u)
         self pages)
      "blog" [1]%Q
    = Results out
    ∧ out ≠ []
    ∧ ∀ s, s ∈ out →
        sensitive (s_url s) = false
        ∧ (s_url s ∈ urls (memory self) ∨ s_url s ∈ List.map fst pages).
Proof.
  intros self pages sensitive. eexists. split; [vm_compute; reflexivity|].
  split; [discriminate|].
  apply (search_never_returns_sensitive 0%Q (fun x => x) first_rows
           (fun _ => true) (fun u => Some u) self pages "blog" [1]%Q).
  - intros u Hu. by apply elem_of_nil in Hu.
  - vm_compute. reflexivity.
Defined.

(** Witness of X6 in both arithmetics: of the two results the scorer
    returns, the filter keeps the one above 0.8. *)
Lemma relevance_after_scoring_witness :
  (∃ out out' : list (ScoredResult Q),
      process_search_results SearchAction_init
        [raw_result "y" (1 # 2)%Q "x"; raw_result "a" 0%Q "a"] = Ok out
      ∧ evaluate_search_relevance "x" out = Ok out'
      ∧ length out = 2%nat ∧ length out' = 1%nat
      ∧ descending out')
  ∧ (∃ out out' : list (ScoredResult float),
      process_search_results SearchAction_init
        [raw_result "y" 0.5%float "x"; raw_result "a" 0%float "a"] = Ok out
      ∧ evaluate_search_relevance "x" out = Ok out'
      ∧ length out = 2%nat ∧ length out' = 1%nat
      ∧ descending_by (fun x y => PrimFloat.leb x y = true) out').
Proof.
  destruct relevance_after_scoring as [HQ Hfloat]. split.
  - eexists. eexists. split; [vm_compute; reflexivity|].
    match goal with
    | |- evaluate_search_relevance _ ?out = _ ∧ _ =>
        destruct (HQ "x" [raw_result "y" (1 # 2)%Q "x"; raw_result "a" 0%Q "a"] out)
          as (out' & Hrun & -> & Hd)
    end; [vm_compute; reflexivity|].
    split; [exact Hrun|]. split; [reflexivity|]. split; [reflexivity | exact Hd].
  - eexists. eexists. split; [vm_compute; reflexivity|].
    match goal with
    | |- evaluate_search_relevance _ ?out = _ ∧ _ =>
        destruct (Hfloat "x" [raw_result "y" 0.5%float "x"; raw_result "a" 0%float "a"]
                    out) as (out' & Hrun & -> & Hd)
    end; [vm_compute; reflexivity|].
    split; [exact Hrun|]. split; [reflexivity|]. split; [reflexivity | exact Hd].
Defined.

(** Witness of X8 in both arithmetics: a result at 0.9 whose url shares
    nothing with the query. *)
Lemma high_confidence_is_relevant_witness :
  (∃ out, evaluate_search_relevance "x"
            [scored "a" (1 # 2)%Q 1%Q 0%Q; scored "b" (9 # 10)%Q 1%Q 0%Q] = Ok out
          ∧ scored "b" (9 # 10)%Q 1%Q 0%Q ∈ out)
  ∧ (∃ out, evaluate_search_relevance "x"
              [scored "a" 0.5%float 1%float 0%float;
               scored "b" 0.9%float 1%float 0%float] = Ok out
            ∧ scored "b" 0.9%float 1%float 0%float ∈ out).
Proof.
  destruct high_confidence_is_relevant as [HQ Hfloat]. split.
  - apply HQ; [right; left | vm_compute; reflexivity].
  - apply Hfloat; [right; left | vm_compute; reflexivity].
Defined.

(** Witness of X17 in both arithmetics: two inputs of confidence 1.0 stay
    in the order in which they came, ["a"] before ["b"]. *)
Lemma process_search_results_stable_witness :
  (∃ out,
      process_search_results SearchAction_init
        [raw_result "a" 0%Q "a"; raw_result "y" (1 # 2)%Q "x"; raw_result "b" 0%Q "b"]
      = Ok out
      ∧ List.map s_url (List.filter (fun s => Qeq_bool (confidence s) 1) out)
        = ["a"; "b"])
  ∧ (∃ out,
      process_search_results SearchAction_init
        [raw_result "a" 0%float "a"; raw_result "y" 0.5%float "x";
         raw_result "b" 0%float "b"]
      = Ok out
      ∧ List.map s_url (List.filter (fun s => PrimFloat.eqb (confidence s) 1) out)
        = ["a"; "b"]).
Proof.
  destruct process_search_results_stable as [HQ Hfloat]. split.
  - eexists. split; [vm_compute; reflexivity|].
    match goal with
    | |- List.map _ (List.filter _ ?out) = _ =>
        rewrite (HQ SearchAction_init
                   [raw_result "a" 0%Q "a"; raw_result "y" (1 # 2)%Q "x";
                    raw_result "b" 0%Q "b"] out 1%Q)
    end; vm_compute; reflexivity.
  - eexists. split; [vm_compute; reflexivity|].
    match goal with
    | |- List.map _ (List.filter _ ?out) = _ =>
        rewrite (Hfloat SearchAction_init
                   [raw_result "a" 0%float "a"; raw_result "y" 0.5%float "x";
                    raw_result "b" 0%float "b"] out 1%float)
    end; vm_compute; reflexivity.
Defined.

(** Witness of X4: neither dict is unreadable, although the first has no
    ['url'], and the call returns. *)
Lemma evaluate_search_relevance_raises_witness :
  let rs : list (PartialResult Q) :=
    [{| p_url := None; p_confidence := Some (9 # 10)%Q |};
     {| p_url := Some "a/b"; p_confidence := Some (1 # 2)%Q |}] in
  ∃ out, evaluate_search_relevance "b" rs = Ok out ∧ sublist out rs.
Proof.
  intros rs.
  destruct (evaluate_search_relevance_raises "b" rs) as (_ & _ & Hok).
  apply Hok. intros r Hr [Hc|(c & Hc & H4 & H8 & Hu)].
  - apply elem_of_cons in Hr as [->|Hr]; [discriminate Hc|].
    apply list_elem_of_singleton in Hr as ->. discriminate Hc.
  - apply elem_of_cons in Hr as [->|Hr].
    + injection Hc as <-. discriminate H8.
    + apply list_elem_of_singleton in Hr as ->. discriminate Hu.
Defined.

(** Witness of X14: from the empty memory, of three pages the two that are
    not sensitive are stored, in the order of the calls. *)
Lemma process_pages_never_stores_sensitive_witness :
  let self : Agent Q Q :=
    {| memory := FaissMemory_init; action := SearchAction_init |} in
  let self' :=
    Agent_process_pages 0%Q (fun x => x) (fun _ => true) (fun u => Some u) self
      [("site.com/blog", [1]%Q); ("login.bank.com", [2]%Q); ("b.org", [3]%Q)] in
  urls (memory self') = ["site.com/blog"; "b.org"]
  ∧ aligned (memory self')
  ∧ ∀ u, u ∈ urls (memory self') →
      is_sensitive_url (fun _ => true) (fun u => Some u) u = false.
Proof.
  intros self self'.
  destruct (process_pages_never_stores_sensitive 0%Q (fun x => x) (fun _ => true)
              (fun u => Some u) self
              [("site.com/blog", [1]%Q); ("login.bank.com", [2]%Q); ("b.org", [3]%Q)])
    as (Hurls & _ & Hal & Hsens).
  split; [exact Hurls|]. split; [apply Hal, aligned_init|].
  apply Hsens. intros u Hu. by apply elem_of_nil in Hu.
Defined.

(* ===================================================================== *)
(** ** The relevance filter on the store                                  *)
(* ===================================================================== *)

Section DecisionStoreFacts.
Context {F : Type} `{PyFloat F} `{DecisionLiterals F}.
Implicit Types (h : heap F) (ls : list loc) (ss : list (ScoredResult F)).

Lemma relevance_body_h_scored (q : string) (pr l : loc) (s : ScoredResult F)
    h acc :
  h !! l = Some (OScored s) → h !! pr = Some (OList acc) →
  relevance_body_h q pr l h
  = Returns tt (if relevant q s then <[pr := OList (acc ++ [l])]> h else h).
Proof.
  intros Hl Hpr. unfold relevance_body_h.
  rewrite (M_bind_Returns _ _ _ _ _ (read_scored_Returns l h s Hl)).
  pose proof (verdict_scored q s) as Hv. unfold verdict in Hv.
  cbn [confidence_item ScoredResult_dict mbind result_bind] in Hv.
  cbn [confidence_item ScoredResult_dict]. unfold mbind at 1, M_bind at 1.
  cbn [lift].
  destruct (f_ltb (confidence s) f_lit_0_4).
  - injection Hv as <-. done.
  - rewrite Hv. unfold mbind at 1, M_bind at 1. cbn [lift].
    destruct (relevant q s); [|done].
    unfold append. by rewrite (M_bind_Returns _ _ _ _ _ (read_list_Returns pr h acc Hpr)).
Qed.

Lemma relevance_loop_h_spec (q : string) (results pr : loc) h ls :
  h !! results = Some (OList ls) → h !! pr = None →
  ∀ rest ss i acc,
    drop i ls = rest → scored_at h rest ss →
    ∃ kept_ls,
      relevance_loop_h (length rest) q results pr i (<[pr := OList acc]> h)
      = Returns tt (<[pr := OList (acc ++ kept_ls)]> h)
      ∧ sublist kept_ls rest
      ∧ scored_at h kept_ls (List.filter (relevant q) ss).
Proof.
  intros Hres Hpr.
  assert (Hne : pr ≠ results) by (intros ->; congruence).
  intros rest ss i acc Hdrop Hs. revert i acc Hdrop.
  induction Hs as [|l s rest ss Hl Hs IH]; intros i acc Hdrop.
  - exists []. rewrite app_nil_r. split; [|split; [done | constructor]].
    cbn [relevance_loop_h length].
    rewrite (M_bind_Returns _ _ _ ls (<[pr := OList acc]> h))
      by (apply read_list_Returns; by rewrite lookup_insert_ne).
    assert (Hi : ls !! i = None).
    { rewrite <- (Nat.add_0_r i), <- lookup_drop, Hdrop. done. }
    by rewrite Hi.
  - assert (Hi : ls !! i = Some l).
    { rewrite <- (Nat.add_0_r i), <- lookup_drop, Hdrop. done. }
    assert (Hdrop' : drop (S i) ls = rest).
    { rewrite (drop_S _ _ _ Hi) in Hdrop. by injection Hdrop. }
    assert (Hlpr : l ≠ pr) by (intros ->; congruence).
    cbn [relevance_loop_h length].
    rewrite (M_bind_Returns _ _ _ ls (<[pr := OList acc]> h))
      by (apply read_list_Returns; by rewrite lookup_insert_ne).
    rewrite Hi.
    rewrite (M_bind_Returns _ _ _ tt
               (if relevant q s then <[pr := OList (acc ++ [l])]> h
                else <[pr := OList acc]> h)).
    2: { rewrite (relevance_body_h_scored q pr l s _ acc).
         - destruct (relevant q s); [by rewrite insert_insert_eq | done].
         - by rewrite lookup_insert_ne.
         - by rewrite lookup_insert_eq. }
    cbn [List.filter]. destruct (relevant q s).
    + destruct (IH (S i) (acc ++ [l])%list Hdrop') as (kept & Hrun & Hsub & Hkept).
      exists (l :: kept). rewrite Hrun. rewrite <- app_assoc.
      split; [done|]. split; [by constructor | by constructor].
    + destruct (IH (S i) acc Hdrop') as (kept & Hrun & Hsub & Hkept).
      exists kept. split; [done|]. split; [by constructor | done].
Qed.

(** X19. On the store, [evaluate_search_relevance] changes nothing but
    for one new object, the list it returns; the elements of that list are
    references taken from the input list, in its order: the dicts kept are
    the very dicts passed in, not copies.  They lead to the results that
    the filter on values returns. *)
Theorem evaluate_search_relevance_h_aliases (q : string) (results : loc) h ls ss :
  h !! results = Some (OList ls) → scored_at h ls ss →
  ∃ pr out_ls,
    evaluate_search_relevance_h q results h
    = Returns pr (<[pr := OList out_ls]> h)
    ∧ h !! pr = None
    ∧ sublist out_ls ls
    ∧ scored_at h out_ls (List.filter (relevant q) ss)
    ∧ evaluate_search_relevance q ss = Ok (List.filter (relevant q) ss).
Proof.
  intros Hres Hs. set (pr := fresh (dom h)).
  assert (Hpr : h !! pr = None) by apply fresh_lookup.
  assert (Hne : pr ≠ results) by (intros Heq; rewrite Heq in Hpr; congruence).
  destruct (relevance_loop_h_spec q results pr h ls Hres Hpr ls ss 0 [] eq_refl Hs)
    as (kept & Hrun & Hsub & Hkept).
  exists pr, kept. split; [|split; [done|split; [done|split; [done|]]]].
  - unfold evaluate_search_relevance_h. unfold mbind at 1, M_bind at 1.
    cbn [alloc]. fold pr.
    rewrite (M_bind_Returns _ _ _ ls (<[pr := OList []]> h))
      by (apply read_list_Returns; by rewrite lookup_insert_ne).
    by rewrite (M_bind_Returns _ _ _ _ _ Hrun).
  - apply evaluate_scored.
Qed.
End DecisionStoreFacts.

(** Witness of X19 in binary64: of the two dicts at 2 and 3 the filter
    keeps the second; the list returned, at 4, refers to the dict at 3
    itself. *)
Lemma evaluate_search_relevance_h_aliases_witness :
  let ss := [scored "a" 0.5%float 1%float 0%float;
             scored "b" 0.9%float 1%float 0%float] in
  let h : heap float :=
    {[ 1%positive := OList [2; 3]%positive;
       2%positive := OScored (scored "a" 0.5%float 1%float 0%float);
       3%positive := OScored (scored "b" 0.9%float 1%float 0%float) ]} in
  evaluate_search_relevance_h "x" 1%positive h
  = Returns 4%positive (<[4%positive := OList [3%positive]]> h)
  ∧ ∃ pr out_ls,
      evaluate_search_relevance_h "x" 1%positive h
      = Returns pr (<[pr := OList out_ls]> h)
      ∧ h !! pr = None
      ∧ sublist out_ls [2; 3]%positive
      ∧ scored_at h out_ls (List.filter (relevant "x") ss)
      ∧ evaluate_search_relevance "x" ss = Ok (List.filter (relevant "x") ss).
Proof.
  intros ss h. split; [vm_compute; reflexivity|].
  apply (evaluate_search_relevance_h_aliases "x" 1%positive h [2; 3]%positive ss).
  - reflexivity.
  - repeat constructor.
Defined.

(** A label of -1 passes the check [idx < len(self.urls)] and leads to the
    last url; a label at or beyond the number of urls is skipped; a label
    below [-len(self.urls)] raises. *)
Example search_negative_label :
  let self : FaissMemory Q :=
    {| dimension := 2; index := [[1; 0]; [0; 1]]%Q; urls := ["a.org"; "b.org"] |} in
  search 0%Q (fun x => x)
    (fun _ _ _ => [((1 # 2)%Q, (-1)%Z); (1%Q, 5%Z); (2%Q, 0%Z)]) self [1]%Q "q" 5
  = Some [raw_result "b.org" (1 # 2)%Q "q"; raw_result "a.org" 2%Q "q"]
  ∧ search 0%Q (fun x => x) (fun _ _ _ => [(1%Q, (-3)%Z)]) self [1]%Q "q" 5 = None.
Proof. split; reflexivity. Qed.

(** With a ['-'] in the term the two tokenizations part: the filter finds
    ["a-b"] among the fields of ["x/a-b"], the scorer, which reads the url
    as ["x/a b"], finds no match at all. *)
Example tokenizations_differ :
  query_terms "a-b" ∩ url_path_terms "x/a-b" = {["a-b"]}
  ∧ exact_matches (query_terms "a-b") (url_terms "x/a-b") = 0%nat
  ∧ partial_matches (query_terms "a-b") (url_terms "x/a-b") = 0%nat.
Proof. repeat split; vm_compute; reflexivity. Qed.

(** A dict without ['url'] is passed through at confidence 0.9 and makes
    the call raise at confidence 0.5. *)
Example missing_url :
  evaluate_search_relevance "q"
    [{| p_url := None; p_confidence := Some (9 # 10)%Q |}]
  = Ok [{| p_url := None; p_confidence := Some (9 # 10)%Q |}]
  ∧ evaluate_search_relevance "q"
      [{| p_url := None; p_confidence := Some (1 # 2)%Q |}]
    = Raise (KeyError "url").
Proof. split; reflexivity. Qed.

(* ===================================================================== *)
(** ** The text of a page                                                 *)
(* ===================================================================== *)

Lemma length_slice_to (n : nat) (s : string) : (String.length (slice_to n s) ≤ n)%nat.
Proof.
  revert s. induction n as [|n IH]; intros [|c s]; cbn; try lia.
  specialize (IH s). lia.
Qed.

Lemma slice_to_all (n : nat) (s : string) :
  (String.length s ≤ n)%nat → slice_to n s = s.
Proof.
  revert s. induction n as [|n IH]; intros [|c s]; cbn; try done; try lia.
  intros Hlen. rewrite IH; [done | lia].
Qed.

Lemma isspace_blank : Py.isspace " " = true.
Proof. reflexivity. Qed.

(** *** Whitespace *)

Lemma tidy_sub_spaces (b : bool) (s : string) : tidy b (sub_spaces b s) = true.
Proof.
  revert b. induction s as [|c s IH]; intros b; [done|]. cbn [sub_spaces].
  destruct (Py.isspace c) eqn:Hc.
  - destruct b; [apply IH|]. cbn [tidy]. rewrite Ascii.eqb_refl. cbn. apply IH.
  - cbn [tidy]. destruct (Ascii.eqb_spec c " ") as [->|_]; [discriminate Hc|].
    rewrite Hc. cbn. apply IH.
Qed.

Lemma tidy_lstrip (b : bool) (s : string) :
  tidy b s = true → tidy true (lstrip s) = true.
Proof.
  revert b. induction s as [|c s IH]; intros b; [done|]. cbn [tidy lstrip].
  destruct (Ascii.eqb_spec c " ") as [->|Hne].
  - rewrite isspace_blank. intros [_ Ht]%andb_prop. by eapply IH.
  - intros [Hc Ht]%andb_prop. apply negb_true_iff in Hc. rewrite Hc.
    cbn [tidy]. rewrite (proj2 (Ascii.eqb_neq _ _) Hne), Hc. done.
Qed.

Lemma tidy_rstrip (b : bool) (s : string) :
  tidy b s = true → tidy b (rstrip s) = true.
Proof.
  revert b. induction s as [|c s IH]; intros b; [done|]. cbn [tidy rstrip].
  destruct (Ascii.eqb_spec c " ") as [->|Hne].
  - intros [Hb Ht]%andb_prop. specialize (IH true Ht).
    destruct (rstrip s) as [|c' r]; [by rewrite isspace_blank|].
    cbn [tidy] in *. rewrite Ascii.eqb_refl, Hb. done.
  - intros [Hc Ht]%andb_prop. specialize (IH false Ht).
    apply negb_true_iff in Hc.
    destruct (rstrip s) as [|c' r].
    + rewrite Hc. cbn [tidy]. by rewrite (proj2 (Ascii.eqb_neq _ _) Hne), Hc.
    + cbn [tidy] in *. rewrite (proj2 (Ascii.eqb_neq _ _) Hne), Hc. done.
Qed.

Lemma tidy_slice_to (b : bool) (n : nat) (s : string) :
  tidy b s = true → tidy b (slice_to n s) = true.
Proof.
  revert b s. induction n as [|n IH]; intros b [|c s]; try done.
  cbn [tidy slice_to]. destruct (Ascii.eqb c " ").
  - intros [Hb Ht]%andb_prop. rewrite Hb. by apply IH.
  - intros [Hc Ht]%andb_prop. rewrite Hc. by apply IH.
Qed.

Lemma rstrip_last (s pre : string) (c : ascii) :
  rstrip s = pre ++ String c EmptyString → Py.isspace c = false.
Proof.
  revert pre. induction s as [|a s IH]; intros pre; cbn [rstrip].
  - by destruct pre.
  - destruct (rstrip s) as [|a' r] eqn:Hr.
    + destruct (Py.isspace a) eqn:Ha; [by destruct pre|].
      destruct pre as [|x pre]; [by intros [= <-]|].
      rewrite append_cons. intros [= _ Hnil]. by destruct pre.
    + destruct pre as [|x pre].
      * rewrite append_nil. discriminate.
      * rewrite append_cons. intros [= _ Heq]. by apply (IH pre).
Qed.

Lemma tidy_blank_only (b : bool) (s : string) (c : ascii) :
  tidy b s = true → c ∈ list_ascii_of_string s → Py.isspace c = true → c = " "%char.
Proof.
  revert b. induction s as [|a s IH]; intros b Ht Hin Hc; cbn in Hin.
  - by apply elem_of_nil in Hin.
  - cbn [tidy] in Ht. apply elem_of_cons in Hin as [->|Hin].
    + destruct (Ascii.eqb_spec a " ") as [->|_]; [done|].
      apply andb_prop in Ht as [Ha _]. apply negb_true_iff in Ha. congruence.
    + destruct (Ascii.eqb a " "); apply andb_prop in Ht as [_ Ht]; by eapply IH.
Qed.

Lemma tidy_no_double_blank (b : bool) (s : string) : tidy b s = true → ¬ is_substring "  " s.
Proof.
  intros Ht (pre & post & ->). revert b Ht.
  induction pre as [|a pre IH]; intros b Ht.
  - rewrite append_nil in Ht. cbn in Ht.
    apply andb_prop in Ht as [_ Ht]. discriminate Ht.
  - rewrite append_cons in Ht. cbn [tidy] in Ht.
    destruct (Ascii.eqb a " "); apply andb_prop in Ht as [_ Ht]; by eapply IH.
Qed.

Lemma tidy_no_leading_blank (s : string) (c : ascii) (s' : string) :
  tidy true s = true → s = String c s' → Py.isspace c = false.
Proof.
  intros Ht ->. cbn [tidy] in Ht.
  destruct (Ascii.eqb c " "); [discriminate Ht|].
  apply andb_prop in Ht as [Hc _]. by apply negb_true_iff.
Qed.

(** *** Urls *)

Lemma strip_prefix_app (p s r x : string) :
  strip_prefix p s = Some r → strip_prefix p (s ++ x) = Some (r ++ x).
Proof.
  revert s. induction p as [|a p IH]; intros s; cbn [strip_prefix].
  - by intros [= ->].
  - destruct s as [|b s]; [done|]. rewrite append_cons.
    destruct (Ascii.eqb a b); [apply IH | done].
Qed.

Lemma after_scheme_app (s x : string) :
  after_scheme s = true → after_scheme (s ++ x) = true.
Proof.
  unfold after_scheme. destruct (strip_prefix "://" s) as [[|c r]|] eqn:Hs; try done.
  by rewrite (strip_prefix_app _ _ _ x Hs), append_cons.
Qed.

Lemma url_starts_app (s x : string) :
  url_starts s = true → url_starts (s ++ x) = true.
Proof.
  unfold url_starts. destruct (strip_prefix "http" s) as [rest|] eqn:Hs; [|done].
  rewrite (strip_prefix_app _ _ _ x Hs).
  destruct (strip_prefix "s" rest) as [rest'|] eqn:Hr.
  - rewrite (strip_prefix_app _ _ _ x Hr).
    intros [H1|H2]%orb_prop; apply orb_true_iff;
      [left | right]; by apply after_scheme_app.
  - intros Ha%(after_scheme_app _ x).
    destruct (strip_prefix "s" (rest ++ x)); [|done].
    apply orb_true_iff. by right.
Qed.

Lemma url_starts_space (c : ascii) (s : string) :
  Py.isspace c = true → url_starts (String c s) = false.
Proof.
  intros Hc. unfold url_starts. cbn [strip_prefix].
  destruct (Ascii.eqb_spec "h" c) as [<-|_]; [discriminate Hc | done].
Qed.

Lemma no_url_app (p x : string) : no_url (p ++ x) = true → no_url p = true.
Proof.
  induction p as [|a p IH].
  - intros _. reflexivity.
  - rewrite append_cons. cbn [no_url]. intros [Hu Hn]%andb_prop.
    apply andb_true_iff. split; [|by apply IH].
    apply negb_true_iff. apply negb_true_iff in Hu.
    destruct (url_starts (String a p)) eqn:Hs; [|done].
    apply (url_starts_app _ x) in Hs. rewrite append_cons in Hs. congruence.
Qed.

Lemma no_url_suffix (pre post : string) :
  no_url (pre ++ post) = true → url_starts post = false.
Proof.
  induction pre as [|a pre IH].
  - rewrite append_nil. destruct post; cbn [no_url];
      intros [Hu _]%andb_prop; by apply negb_true_iff.
  - rewrite append_cons. cbn [no_url]. intros [_ Hn]%andb_prop. by apply IH.
Qed.

Section KeepsHeads.
(** A rewriting of texts that leaves a character that is not whitespace at
    the head of its result only when it stood at the head of its
    argument. *)
Variable f : string → string.
Hypothesis head : ∀ s d r, f s = String d r → Py.isspace d = false →
  ∃ s', s = String d s' ∧ r = f s'.

Lemma strip_prefix_keeps (p s r : string) :
  Forall (fun c => Py.isspace c = false) (list_ascii_of_string p) →
  strip_prefix p (f s) = Some r →
  ∃ s', strip_prefix p s = Some s' ∧ r = f s'.
Proof.
  revert s. induction p as [|a p IH]; intros s Hp; cbn [strip_prefix].
  - intros [= <-]. by exists s.
  - cbn in Hp. apply Forall_cons in Hp as [Ha Hp].
    destruct (f s) as [|d r'] eqn:Hf; [done|].
    destruct (Ascii.eqb_spec a d) as [<-|_]; [|done]. intros Hr.
    destruct (head s a r' Hf Ha) as (s' & -> & ->).
    cbn [strip_prefix]. rewrite Ascii.eqb_refl. by apply IH.
Qed.

Lemma after_scheme_keeps (s : string) : after_scheme (f s) = true → after_scheme s = true.
Proof.
  unfold after_scheme.
  destruct (strip_prefix "://" (f s)) as [[|c r]|] eqn:Hs; try done.
  intros Hc%negb_true_iff.
  apply strip_prefix_keeps in Hs as (s' & Hs' & Hr);
    [|repeat constructor].
  symmetry in Hr. destruct (head s' c r Hr Hc) as (s'' & -> & _).
  rewrite Hs'. by apply negb_true_iff.
Qed.

Lemma url_starts_keeps (s : string) : url_starts (f s) = true → url_starts s = true.
Proof.
  unfold url_starts.
  destruct (strip_prefix "http" (f s)) as [rest|] eqn:Hs; [|done].
  apply strip_prefix_keeps in Hs as (s1 & Hs1 & ->); [|repeat constructor].
  rewrite Hs1.
  destruct (strip_prefix "s" (f s1)) as [rest'|] eqn:Hr.
  - apply strip_prefix_keeps in Hr as (s2 & Hs2 & ->); [|repeat constructor].
    rewrite Hs2. intros [H1|H2]%orb_prop; apply orb_true_iff;
      [left | right]; by apply after_scheme_keeps.
  - intros Ha%after_scheme_keeps.
    destruct (strip_prefix "s" s1); [|done]. apply orb_true_iff. by right.
Qed.
End KeepsHeads.

Lemma sub_urls_inside_head (s : string) (d : ascii) (r : string) :
  sub_urls true s = String d r → Py.isspace d = true.
Proof.
  induction s as [|c s IH]; [done|]. cbn [sub_urls].
  destruct (Py.isspace c) eqn:Hc; [by intros [= <- _] | done].
Qed.

Lemma sub_urls_head (s : string) (d : ascii) (r : string) :
  sub_urls false s = String d r → Py.isspace d = false →
  ∃ s', s = String d s' ∧ r = sub_urls false s'.
Proof.
  destruct s as [|c s]; [done|]. cbn [sub_urls].
  destruct (Py.isspace c) eqn:Hc.
  - intros [= <- _] Hd. congruence.
  - destruct (url_starts (String c s)).
    + intros Hin%sub_urls_inside_head Hd. congruence.
    + intros [= <- <-] _. by exists s.
Qed.

Lemma no_url_sub_urls (b : bool) (s : string) : no_url (sub_urls b s) = true.
Proof.
  revert b. induction s as [|c s IH]; intros b; [done|]. cbn [sub_urls].
  destruct (Py.isspace c) eqn:Hc.
  - cbn [no_url]. by rewrite (url_starts_space c _ Hc), IH.
  - destruct b; [apply IH|].
    destruct (url_starts (String c s)) eqn:Hu; [apply IH|].
    cbn [no_url]. rewrite IH, andb_true_r. apply negb_true_iff.
    destruct (url_starts (String c (sub_urls false s))) eqn:Hout; [|done].
    assert (Heq : String c (sub_urls false s) = sub_urls false (String c s))
      by (cbn [sub_urls]; by rewrite Hc, Hu).
    rewrite Heq in Hout. apply (url_starts_keeps _ sub_urls_head) in Hout.
    congruence.
Qed.

Lemma sub_spaces_head (s : string) (d : ascii) (r : string) :
  sub_spaces false s = String d r → Py.isspace d = false →
  ∃ s', s = String d s' ∧ r = sub_spaces false s'.
Proof.
  destruct s as [|c s]; [done|]. cbn [sub_spaces].
  destruct (Py.isspace c) eqn:Hc.
  - intros [= <- _] Hd. by rewrite isspace_blank in Hd.
  - intros [= <- <-] _. by exists s.
Qed.

Lemma no_url_sub_spaces (b : bool) (s : string) :
  no_url s = true → no_url (sub_spaces b s) = true.
Proof.
  revert b. induction s as [|c s IH]; intros b; [done|].
  cbn [no_url sub_spaces]. intros [Hu Hn]%andb_prop.
  destruct (Py.isspace c) eqn:Hc.
  - destruct b; [by apply IH|]. cbn [no_url].
    rewrite (url_starts_space " " _ isspace_blank). by apply IH.
  - cbn [no_url]. rewrite (IH false Hn), andb_true_r. apply negb_true_iff.
    destruct (url_starts (String c (sub_spaces false s))) eqn:Hout; [|done].
    assert (Heq : String c (sub_spaces false s) = sub_spaces false (String c s))
      by (cbn [sub_spaces]; by rewrite Hc).
    rewrite Heq in Hout. apply (url_starts_keeps _ sub_spaces_head) in Hout.
    apply negb_true_iff in Hu. congruence.
Qed.

Lemma no_url_lstrip (s : string) : no_url s = true → no_url (lstrip s) = true.
Proof.
  induction s as [|c s IH]; [done|]. cbn [lstrip].
  destruct (Py.isspace c); [|done].
  cbn [no_url]. intros [_ Hn]%andb_prop. by apply IH.
Qed.

Lemma rstrip_prefix (s : string) : ∃ x, s = rstrip s ++ x.
Proof.
  induction s as [|c s [x IH]]; [by exists EmptyString|]. cbn [rstrip].
  destruct (rstrip s) as [|c' r] eqn:Hr.
  - destruct (Py.isspace c).
    + exists (String c s). by rewrite append_nil.
    + exists x. rewrite append_cons. by rewrite IH at 1.
  - exists x. rewrite append_cons. by rewrite IH at 1.
Qed.

Lemma slice_to_prefix (n : nat) (s : string) : ∃ x, s = slice_to n s ++ x.
Proof.
  revert s. induction n as [|n IH]; intros s.
  - exists s. by destruct s.
  - destruct s as [|c s]; [by exists EmptyString|].
    destruct (IH s) as [x Hx]. exists x. cbn [slice_to].
    rewrite append_cons. by rewrite Hx at 1.
Qed.

Lemma no_url_rstrip (s : string) : no_url s = true → no_url (rstrip s) = true.
Proof.
  destruct (rstrip_prefix s) as [x Hx]. rewrite Hx at 1. apply no_url_app.
Qed.

Lemma no_url_slice_to (n : nat) (s : string) :
  no_url s = true → no_url (slice_to n s) = true.
Proof.
  destruct (slice_to_prefix n s) as [x Hx]. rewrite Hx at 1. apply no_url_app.
Qed.

Section PerceptionFacts.
Variable get_text : string → string.

Lemma process_content_tidy_no_url (html_content : string) :
  ∃ text,
    process_content get_text html_content = slice_to 2000 (strip text)
    ∧ tidy false text = true ∧ no_url text = true.
Proof.
  unfold process_content. eexists. split; [reflexivity|].
  split; [apply tidy_sub_spaces | apply no_url_sub_spaces, no_url_sub_urls].
Qed.

(** X20. The text that [process_content] returns has at most 2000
    characters, and its only whitespace is single blanks: no other
    whitespace character occurs in it, no two blanks stand in a row, none
    stands at the start, and none at the end unless the text was cut at
    2000 characters. *)
Theorem process_content_tidy (html_content : string) :
  let text := process_content get_text html_content in
  (String.length text ≤ 2000)%nat
  ∧ (∀ c, c ∈ list_ascii_of_string text → Py.isspace c = true → c = " "%char)
  ∧ ¬ is_substring "  " text
  ∧ (∀ c rest, text = String c rest → Py.isspace c = false)
  ∧ ((String.length text < 2000)%nat →
     ∀ pre c, text = pre ++ String c EmptyString → Py.isspace c = false).
Proof.
  destruct (process_content_tidy_no_url html_content) as (t & -> & Ht & _).
  assert (Htidy : tidy true (slice_to 2000 (strip t)) = true).
  { apply tidy_slice_to. unfold strip. apply tidy_rstrip. by eapply tidy_lstrip. }
  cbn zeta. split; [apply length_slice_to|]. split; [|split; [|split]].
  - intros c. by apply tidy_blank_only with (b := true).
  - by apply tidy_no_double_blank with (b := true).
  - intros c rest Heq. by apply (tidy_no_leading_blank _ c rest Htidy).
  - intros Hlen pre c Heq.
    destruct (le_lt_dec (String.length (strip t)) 2000) as [Hle|Hgt].
    + rewrite (slice_to_all _ _ Hle) in Heq. by apply (rstrip_last _ _ _ Heq).
    + exfalso. clear -Hlen Hgt. revert Hlen Hgt. generalize (strip t) 2000%nat.
      intros s n. revert s. induction n as [|n IH]; intros [|c s]; cbn; try lia.
      intros H1 H2. apply (IH s); lia.
Qed.

(** X21. No url is left in the text that [process_content] returns:
    nowhere in it does ["http://"] or ["https://"] stand before a
    character that is not whitespace. *)
Theorem process_content_no_urls (html_content : string) (pre post : string)
    (c : ascii) :
  Py.isspace c = false →
  process_content get_text html_content ≠ pre ++ "http://" ++ String c post
  ∧ process_content get_text html_content ≠ pre ++ "https://" ++ String c post.
Proof.
  intros Hc.
  destruct (process_content_tidy_no_url html_content) as (t & -> & _ & Hn).
  assert (Hno : no_url (slice_to 2000 (strip t)) = true).
  { apply no_url_slice_to. unfold strip. by apply no_url_rstrip, no_url_lstrip. }
  split; intros Heq; rewrite Heq in Hno; apply no_url_suffix in Hno;
    rewrite !append_cons, append_nil in Hno; cbn in Hno; rewrite Hc in Hno;
    discriminate Hno.
Qed.
End PerceptionFacts.

Example splitlines_examples :
  splitlines (String "a" (String "013" (String "010" (String "b" (String "010" EmptyString)))))
  = ["a"; "b"]
  ∧ splitlines (String "010" (String "010" EmptyString)) = [""; ""]
  ∧ splitlines "" = [].
Proof. repeat split; reflexivity. Qed.

(** A page text in full: the lines are stripped and joined, the url goes,
    runs of whitespace become one blank. *)
Example process_content_example :
  process_content (fun s => s)
    (String "009" "Hello   world" ++ String "010" " see https://x.org/a?b=1 now "
     ++ String "013" (String "010" "xhttp://y  end "))
  = "Hello world see now x end".
Proof. vm_compute. reflexivity. Qed.

(** Witness of X21: the url of a line is gone. *)
Lemma process_content_no_urls_witness :
  process_content (fun s => s) "see http://x.org now"
  ≠ "see " ++ "http://" ++ String "x" ".org now"
  ∧ process_content (fun s => s) "see http://x.org now"
    ≠ "see " ++ "https://" ++ String "x" ".org now".
Proof.
  apply (process_content_no_urls (fun s => s) "see http://x.org now"
           "see " ".org now" "x").
  reflexivity.
Defined.

(* ===================================================================== *)
(** ** The order and the batches of the input                             *)
(* ===================================================================== *)

Section InputOrder.
Context {F : Type} `{PyFloat F}.
Implicit Types (self : SearchAction F) (rs : list (RawResult F)).

(** X22. The results do not depend on the order of the input, nor on how
    it is cut into calls.  For two inputs that are permutations of one
    another, one call raises exactly when the other does, and what the two
    return are permutations of one another; and when the calls on two lists
    return, the call on the two lists joined returns a permutation of the
    two results put together.  For every arithmetic. *)
Theorem process_search_results_input_order self rs1 rs2 :
  (rs1 ≡ₚ rs2 →
     (raises (process_search_results self rs1)
      ↔ raises (process_search_results self rs2))
     ∧ ∀ out1 out2,
         process_search_results self rs1 = Ok out1 →
         process_search_results self rs2 = Ok out2 →
         out1 ≡ₚ out2)
  ∧ (∀ out1 out2,
       process_search_results self rs1 = Ok out1 →
       process_search_results self rs2 = Ok out2 →
       ∃ out, process_search_results self (rs1 ++ rs2)%list = Ok out
              ∧ out ≡ₚ (out1 ++ out2)%list).
Proof.
  assert (Hraise : ∀ rs, raises (process_search_results self rs)
                         ↔ ¬ Forall (fun r => ∃ x, features r = Ok x) rs).
  { intros rs. split.
    - intros [e He] Hall.
      assert (Hok : process_search_results self rs
                    = Ok (sort_desc confidence (omap (score_of self) rs)))
        by (by apply process_search_results_Ok).
      congruence.
    - intros Hnot. destruct (process_search_results self rs) as [out|e] eqn:Hp.
      + by apply process_search_results_Ok in Hp as [Hall _].
      + by exists e. }
  split.
  - intros Hperm. split.
    + rewrite !Hraise. by rewrite Hperm.
    + intros out1 out2 Hp1%process_search_results_perm Hp2%process_search_results_perm.
      by rewrite Hp1, Hp2, Hperm.
  - intros out1 out2 Hp1 Hp2.
    pose proof (process_search_results_perm _ _ _ Hp1) as Hperm1.
    pose proof (process_search_results_perm _ _ _ Hp2) as Hperm2.
    apply process_search_results_Ok in Hp1 as [Hall1 _].
    apply process_search_results_Ok in Hp2 as [Hall2 _].
    exists (sort_desc confidence (omap (score_of self) (rs1 ++ rs2)%list)). split.
    + apply process_search_results_Ok. split; [by apply Forall_app | done].
    + by rewrite sort_desc_perm, omap_app, Hperm1, Hperm2.
Qed.
End InputOrder.

(** Witness of X22 in binary64: two records in either order. *)
Lemma process_search_results_input_order_witness :
  ∃ out1 out2 : list (ScoredResult float),
    process_search_results SearchAction_init
      [raw_result "y" 0.5%float "x"; raw_result "a" 0%float "a"] = Ok out1
    ∧ process_search_results SearchAction_init
        [raw_result "a" 0%float "a"; raw_result "y" 0.5%float "x"] = Ok out2
    ∧ out1 ≡ₚ out2.
Proof.
  eexists. eexists. split; [vm_compute; reflexivity|].
  split; [vm_compute; reflexivity|].
  destruct (process_search_results_input_order (F:=float) SearchAction_init
              [raw_result "y" 0.5%float "x"; raw_result "a" 0%float "a"]
              [raw_result "a" 0%float "a"; raw_result "y" 0.5%float "x"])
    as [Hperm _].
  destruct Hperm as [_ Hout]; [apply Permutation_swap|].
  apply Hout; vm_compute; reflexivity.
Defined.

(* ===================================================================== *)
(** ** Results returned for their terms alone                             *)
(* ===================================================================== *)

Section TermsAlone.
#[local] Open Scope Q_scope.

(** In exact arithmetic, a record at any distance [d >= 0] whose query has
    terms, all of which are url terms, passes the threshold: its term score
    is 1.5 and its confidence at least 0.45, so every call whose input
    holds the record and that returns, returns it. *)
Lemma all_terms_in_url_is_returned_exact (u q : string) (d : Q) :
  0 <= d → query_terms q ≠ ∅ → query_terms q ⊆ url_terms u →
  ∃ s, score_of SearchAction_init (raw_result u d q) = Some s
    ∧ s_url s = u
    ∧ term_score s == 3 # 2
    ∧ 9 # 20 <= confidence s
    ∧ ∀ rs out,
        raw_result u d q ∈ rs →
        process_search_results SearchAction_init rs = Ok out → s ∈ out.
Proof.
  intros Hd Hne Hsub.
  destruct (exact_matches_subseteq _ _ Hsub) as [He Hp].
  assert (Hn : (0 < size (query_terms q))%nat).
  { destruct (size (query_terms q)) eqn:Hsize; [|lia].
    apply size_empty_inv in Hsize. by apply leibniz_equiv in Hsize. }
  set (n := inject_Z (Z.of_nat (size (query_terms q)))).
  assert (Hn0 : 0 < n).
  { unfold n. change 0 with (inject_Z 0). rewrite <- Zlt_Qlt. lia. }
  set (tms := (n + (1 # 2) * n) / n).
  assert (Htms : term_match_score (query_terms q) (url_terms u) = Ok tms).
  { unfold term_match_score. rewrite bool_decide_eq_true_2 by lia.
    rewrite He, Hp. unfold truediv.
    replace (f_eqb (f_of_nat (size (query_terms q))) f_zero) with false; [done|].
    symmetry. apply Q_eqb_false. cbn. fold n. lra. }
  assert (Htms32 : tms == 3 # 2) by (unfold tms; field; lra).
  assert (Hf : features (raw_result u d q) = Ok (u, 1 / (1 + d), tms)).
  { unfold features. cbn [distance query url raw_result getitem mbind result_bind].
    rewrite semantic_similarity_Q by done. cbn [mbind result_bind].
    by rewrite Htms. }
  destruct (inv_succ_range d Hd) as [Hsem0 Hsem1].
  set (c := confidence_of SearchAction_init (1 / (1 + d)) tms).
  assert (Hc : 9 # 20 <= c).
  { unfold c. rewrite confidence_of_init.
    unfold clamp. repeat destruct (Qlt_le_dec _ _); lra. }
  assert (Hkeep : score_of SearchAction_init (raw_result u d q)
                  = Some (scored u c (1 / (1 + d)) tms)).
  { apply score_of_Some. exists u, (1 / (1 + d)), tms.
    split; [done|]. split; [|done]. apply geb_init_iff. fold c. lra. }
  exists (scored u c (1 / (1 + d)) tms). split; [done|]. split; [done|].
  split; [|split].
  - cbn [scored term_score f_round3 Q_PyFloat].
    rewrite (Qround3_proper tms (1500 # 1000)) by (rewrite Htms32; reflexivity).
    rewrite (Qround3_millis 1500). reflexivity.
  - cbn [scored confidence f_round3 Q_PyFloat].
    destruct (Qround3_range 450 1000 c) as [Hlo _]; [lra| |lra].
    unfold c. rewrite confidence_of_init. pose proof (clamp_range
      ((7 # 10) * (1 / (1 + d)) + (3 # 10) * tms)) as [_ H1]. lra.
  - intros rs out Hin Hrun. apply (elem_of_output _ _ _ _ Hrun).
    by exists (raw_result u d q).
Qed.
End TermsAlone.

(** X23. Terms alone can carry a result.  A record at any distance
    [d >= 0], [+inf] included, whose query has terms (at most 2^51 of them),
    all of which are url terms, passes the threshold: in binary64 its
    [term_score] is 1.5 and its [confidence] at least 0.45, so every call
    whose input holds the record and that returns, returns it; and so it is
    in exact arithmetic. *)
Theorem all_terms_in_url_is_returned :
  (∀ (u q : string) (d : float),
      PrimFloat.leb 0 d = true → few_terms q →
      query_terms q ≠ ∅ → query_terms q ⊆ url_terms u →
      ∃ s, score_of SearchAction_init (raw_result u d q) = Some s
        ∧ s_url s = u
        ∧ term_score s = 1.5%float
        ∧ PrimFloat.leb 0.45 (confidence s) = true
        ∧ ∀ rs out,
            raw_result u d q ∈ rs →
            process_search_results SearchAction_init rs = Ok out → s ∈ out)
  ∧ (∀ (u q : string) (d : Q),
      (0 <= d)%Q → query_terms q ≠ ∅ → query_terms q ⊆ url_terms u →
      ∃ s, score_of SearchAction_init (raw_result u d q) = Some s
        ∧ s_url s = u
        ∧ (term_score s == 3 # 2)%Q
        ∧ (9 # 20 <= confidence s)%Q
        ∧ ∀ rs out,
            raw_result u d q ∈ rs →
            process_search_results SearchAction_init rs = Ok out → s ∈ out).
Proof.
  split; [|apply all_terms_in_url_is_returned_exact].
  intros u q d Hd Hq Hne Hsub.
  destruct (exact_matches_subseteq _ _ Hsub) as [He _].
  assert (Hn : size (query_terms q) ≠ 0%nat).
  { intros Hsize. apply size_empty_inv in Hsize. by apply leibniz_equiv in Hsize. }
  pose proof (term_match_score_all_exact _ _ Hn Hq He) as Ht.
  pose proof (succ_ge_one d Hd) as Hy. destruct (inv_unit _ Hy) as [Hs0 Hs1].
  set (sem := (1 / (1 + d))%float) in *.
  assert (Hf : features (raw_result u d q) = Ok (u, sem, 1.5%float)).
  { apply features_Ok. exists d, q.
    repeat split; [by apply semantic_similarity_float | done]. }
  set (c := confidence_of SearchAction_init sem 1.5%float).
  assert (Hc : PrimFloat.leb (confidence_of SearchAction_init 0%float 1.5%float) c = true).
  { by apply confidence_of_mono64. }
  pose proof (clamp01_unit (blend SearchAction_init sem 1.5%float)) as Hu.
  fold (confidence_of SearchAction_init sem 1.5%float) in Hu. fold c in Hu.
  assert (Hkeep : score_of SearchAction_init (raw_result u d q)
                  = Some (scored u c sem 1.5%float)).
  { apply score_of_Some. exists u, sem, 1.5%float. split; [done|]. split; [|done].
    unfold f_geb.
    cbn [f_leb float_PyFloat min_confidence_threshold SearchAction_init f_lit_0_4].
    fold c.
    apply (leb_trans 0.4 (confidence_of SearchAction_init 0%float 1.5%float) c);
      [reflexivity | reflexivity | exact Hc]. }
  exists (scored u c sem 1.5%float). split; [done|]. split; [done|].
  split; [reflexivity|]. split.
  - cbn [scored confidence f_round3 float_PyFloat].
    change 0.45%float
      with (float_round3 (confidence_of SearchAction_init 0%float 1.5%float)).
    apply float_round3_mono; [done | done | by apply unit_leb_2].
  - intros rs out Hin Hrun. apply (elem_of_output _ _ _ _ Hrun).
    by exists (raw_result u d q).
Qed.

(** Witness of X23 in binary64: at distance 100 the page whose url holds
    the query is still returned. *)
Lemma all_terms_in_url_is_returned_witness :
  ∃ s, score_of SearchAction_init (raw_result "site.com/blog" 100%float "blog") = Some s
    ∧ s_url s = "site.com/blog"
    ∧ term_score s = 1.5%float
    ∧ PrimFloat.leb 0.45 (confidence s) = true
    ∧ ∀ rs out,
        raw_result "site.com/blog" 100%float "blog" ∈ rs →
        process_search_results SearchAction_init rs = Ok out → s ∈ out.
Proof.
  destruct all_terms_in_url_is_returned as [Hfloat _].
  apply (Hfloat "site.com/blog" "blog" 100%float).
  - reflexivity.
  - vm_compute. discriminate.
  - vm_compute. discriminate.
  - apply elem_of_subseteq. intros t Ht.
    apply elem_of_query_terms in Ht. apply elem_of_url_terms.
    vm_compute in Ht. apply list_elem_of_singleton in Ht as ->.
    left. vm_compute. right. left.
Defined.

(** The same page in binary64: confidence 0.457 at distance 100. *)
Example all_terms_in_url_binary64 :
  process_search_results SearchAction_init
    [raw_result "site.com/blog" 100%float "blog"]
  = Ok [{| s_url := "site.com/blog"; confidence := 0.457%float;
           semantic_score := 0.01%float; term_score := 1.5%float;
           highlight_instructions :=
             {| method := "semantic_highlight";
                confidence_threshold := 0.4569306930693069%float |} |}].
Proof. vm_compute. reflexivity. Qed.
